(** * VSTFS: the TF.exe command executor and its output parsers

    A shallow embedding of [src/src/tfvc.ts]: the regular expressions the
    parsers are written with, the four parsers ([parsePending],
    [parsePendingDetailed], [parseHistory], [parseBranches]), the path
    normalizer ([toLocalPath]), the command executor with its single
    authentication retry ([execWithAuthRetry], [run]) and the
    operations built on it ([pendingChanges], [changeset], [history],
    [checkIn], [undo], [merge], [getFileAtChangeset],
    [getPreviousChangesetIdForFile] and the others); and of
    [escapeHtml] of [src/src/ui/changesetPanel.ts].

    Strings are lists of code units.  The model keeps the code units
    0..255 (Latin-1), on which [\s], [trim], [toLowerCase] and the
    case-insensitive flag are written out in full.  Of what the source
    writes to its log and console the model keeps the one line of
    [parsePending]; the log lines of the executor change no result and
    are left out. *)

From Stdlib Require Import List Ascii Bool Arith Lia NArith.
From Stdlib Require String.
Import String.StringSyntax.
Import ListNotations.
Local Open Scope char_scope.
Local Open Scope list_scope.

(** ** Text *)

Definition text := list ascii.

(** A string literal as a [text]. *)
Definition T (s : String.string) : text := String.list_ascii_of_string s.
Arguments T s%_string_scope.

Definition code (a : ascii) : nat := nat_of_ascii a.

Definition between (lo hi : nat) (a : ascii) : bool :=
  Nat.leb lo (code a) && Nat.leb (code a) hi.

Definition is_char (c a : ascii) : bool := Ascii.eqb c a.

Definition is_upper (a : ascii) : bool := between 65 90 a.
Definition is_lower (a : ascii) : bool := between 97 122 a.
Definition is_alpha (a : ascii) : bool := is_upper a || is_lower a.
Definition is_digit (a : ascii) : bool := between 48 57 a.

(** [\w]: the word characters that [\b] looks at. *)
Definition is_word (a : ascii) : bool :=
  is_alpha a || is_digit a || is_char "_" a.

(** LineTerminator: LF and CR (U+2028 and U+2029 lie outside Latin-1). *)
Definition is_newline (a : ascii) : bool :=
  Nat.eqb (code a) 10 || Nat.eqb (code a) 13.

(** [\s], and what [trim] removes: TAB, LF, VT, FF, CR, SP, NBSP. *)
Definition is_space (a : ascii) : bool :=
  between 9 13 a || Nat.eqb (code a) 32 || Nat.eqb (code a) 160.

(** [.] without the [s] flag. *)
Definition is_dot (a : ascii) : bool := negb (is_newline a).

Definition any_char (a : ascii) : bool := true.

(** [String.prototype.toLowerCase] on Latin-1: A-Z, and U+00C0..U+00DE
    except the multiplication sign U+00D7. *)
Definition lower_char (a : ascii) : ascii :=
  if is_upper a then ascii_of_nat (code a + 32)
  else if between 192 222 a && negb (Nat.eqb (code a) 215) then ascii_of_nat (code a + 32)
  else a.

Definition toLowerCase (s : text) : text := map lower_char s.

(** A pattern character under the [i] flag.  Canonicalize maps a code
    unit of 128 or more to itself whenever its upper case would be
    ASCII, so an ASCII pattern letter matches its two cases only. *)
Definition is_char_ci (c a : ascii) : bool :=
  if is_alpha c then
    is_alpha a && Ascii.eqb (lower_char c) (lower_char a)
  else Ascii.eqb c a.

(* The character tests are unfolded on request only. *)
Arguments is_char c a : simpl never.
Arguments is_char_ci c a : simpl never.
Arguments is_alpha a : simpl never.
Arguments is_digit a : simpl never.
Arguments is_word a : simpl never.
Arguments is_space a : simpl never.
Arguments is_newline a : simpl never.
Arguments is_dot a : simpl never.

Fixpoint text_eqb (s t : text) : bool :=
  match s, t with
  | [], [] => true
  | a :: s', b :: t' => Ascii.eqb a b && text_eqb s' t'
  | _, _ => false
  end.

Fixpoint startsWith (s p : text) : bool :=
  match p, s with
  | [], _ => true
  | c :: p', a :: s' => Ascii.eqb c a && startsWith s' p'
  | _ :: _, [] => false
  end.

Fixpoint includes (s p : text) : bool :=
  startsWith s p ||
  match s with
  | [] => false
  | _ :: s' => includes s' p
  end.

Fixpoint drop_spaces (s : text) : text :=
  match s with
  | a :: s' => if is_space a then drop_spaces s' else s
  | [] => []
  end.

Definition trim (s : text) : text :=
  rev (drop_spaces (rev (drop_spaces s))).

(** ** Numbers

    A changeset id of the source is a [number], a double, that was
    read off a run of decimal digits: a whole number that a double
    holds exactly, or [Infinity].  [Num n] is the double of value [n]. *)
Inductive number : Type :=
| Num (n : N)
| Infinity.

(** [x === y], [x < y] and [x <= y] on these numbers. *)
Definition number_eqb (x y : number) : bool :=
  match x, y with
  | Num a, Num b => N.eqb a b
  | Infinity, Infinity => true
  | _, _ => false
  end.

Definition number_ltb (x y : number) : bool :=
  match x, y with
  | Num a, Num b => N.ltb a b
  | Num _, Infinity => true
  | Infinity, _ => false
  end.

Definition number_leb (x y : number) : bool :=
  match x, y with
  | Num a, Num b => N.leb a b
  | _, Infinity => true
  | Infinity, Num _ => false
  end.

(** The mathematical value of a run of decimal digits. *)
Definition digit_val (a : ascii) : N := N.of_nat (code a - 48).

Definition MV (d : text) : N :=
  fold_left (fun acc a => (10 * acc + digit_val a)%N) d 0%N.

(** The Number value for a whole number [n]: [n] rounded to the 53
    bits of a double's significand, a tie going to the even
    significand, and [Infinity] from 2^1024 on.  [ulp] is the distance
    of the doubles around [n]. *)
Definition Number_value (n : N) : number :=
  let ulp := (2 ^ (N.size n - 53))%N in
  let q := (n / ulp)%N in
  let r := (n mod ulp)%N in
  let q' :=
    if N.ltb ulp (2 * r) || (N.eqb ulp (2 * r) && N.odd q) then (q + 1)%N else q in
  if N.leb (2 ^ 1024) (q' * ulp) then Infinity else Num (q' * ulp).

(** [Number(d)] for a run of decimal digits [d], rounded correctly, as
    the engine of the editor does (past 20 significant digits the
    language allows either neighbour). *)
Definition Number_of_digits (d : text) : number := Number_value (MV d).

(** ** Regular expressions

    The fragment of ECMAScript patterns that the source uses.  Every
    quantifier of the source stands on a single-character atom, so
    [Rep] repeats a character set; the [i] flag is resolved where a
    pattern character is translated ([is_char_ci]), the [m] flag in
    [Bol] and [Eol]. *)

Inductive regex : Type :=
| Eps
| Chr (c : ascii -> bool)
| Seq (r1 r2 : regex)
| Alt (r1 r2 : regex)
| Rep (greedy : bool) (lo : nat) (c : ascii -> bool)
| Grp (i : nat) (r : regex)
| Bol (multiline : bool)
| Eol (multiline : bool)
| Wb.

(** The matcher's state: the code units already passed (nearest
    first), those still ahead, and the captures. *)
Record mstate : Type := MState {
  seen : text;
  rest : text;
  caps : list (nat * text)
}.

Definition span (st st' : mstate) : text :=
  rev (firstn (length (seen st') - length (seen st)) (seen st')).

Definition set_cap (i : nat) (v : text) (st : mstate) : mstate :=
  MState (seen st) (rest st) ((i, v) :: caps st).

Fixpoint lookup_cap (i : nat) (cs : list (nat * text)) : option text :=
  match cs with
  | [] => None
  | (j, v) :: cs' => if Nat.eqb i j then Some v else lookup_cap i cs'
  end.

Definition at_bol (multiline : bool) (st : mstate) : bool :=
  match seen st with
  | [] => true
  | a :: _ => multiline && is_newline a
  end.

Definition at_eol (multiline : bool) (st : mstate) : bool :=
  match rest st with
  | [] => true
  | a :: _ => multiline && is_newline a
  end.

Definition word_before (st : mstate) : bool :=
  match seen st with [] => false | a :: _ => is_word a end.

Definition word_after (st : mstate) : bool :=
  match rest st with [] => false | a :: _ => is_word a end.

Definition or_else {A} (x : option A) (y : option A) : option A :=
  match x with Some _ => x | None => y end.

(** [c{lo,}] (greedy) and [c{lo,}?] (lazy) in backtracking order. *)
Fixpoint rep (greedy : bool) (c : ascii -> bool) (lo : nat)
    (k : mstate -> option mstate) (sn rs : text) (cs : list (nat * text))
    {struct rs} : option mstate :=
  match lo with
  | S lo' =>
      match rs with
      | a :: rs' => if c a then rep greedy c lo' k (a :: sn) rs' cs else None
      | [] => None
      end
  | 0 =>
      match rs with
      | a :: rs' =>
          if c a then
            if greedy
            then or_else (rep greedy c 0 k (a :: sn) rs' cs) (k (MState sn rs cs))
            else or_else (k (MState sn rs cs)) (rep greedy c 0 k (a :: sn) rs' cs)
          else k (MState sn rs cs)
      | [] => k (MState sn rs cs)
      end
  end.

(** The backtracking matcher, in continuation-passing style as in the
    language standard: [matcher r k st] matches [r] at [st] and hands every
    state it can end in to [k], in priority order, until [k] accepts. *)
Fixpoint matcher (r : regex) (k : mstate -> option mstate) (st : mstate)
    : option mstate :=
  match r with
  | Eps => k st
  | Chr c =>
      match rest st with
      | a :: rs => if c a then k (MState (a :: seen st) rs (caps st)) else None
      | [] => None
      end
  | Seq r1 r2 => matcher r1 (matcher r2 k) st
  | Alt r1 r2 => or_else (matcher r1 k st) (matcher r2 k st)
  | Rep g lo c => rep g c lo k (seen st) (rest st) (caps st)
  | Grp i r1 => matcher r1 (fun st' => k (set_cap i (span st st') st')) st
  | Bol m => if at_bol m st then k st else None
  | Eol m => if at_eol m st then k st else None
  | Wb => if xorb (word_before st) (word_after st) then k st else None
  end.

(** A match at the current position. *)
Definition match_here (r : regex) (sn rs : text) : option mstate :=
  matcher r Some (MState sn rs []).

(** What [RegExp.prototype.exec] finds: the text before the match, the
    matched text, the text after it, and the captures. *)
Record found : Type := Found {
  before : text;
  hit : text;
  after : text;
  groups : list (nat * text)
}.

Definition found_of (sn : text) (st : mstate) : found :=
  Found (rev sn) (span (MState sn [] []) st) (rest st) (caps st).

(** The leftmost match at or after the current position. *)
Fixpoint search (r : regex) (sn rs : text) : option found :=
  match match_here r sn rs with
  | Some st => Some (found_of sn st)
  | None =>
      match rs with
      | [] => None
      | a :: rs' => search r (a :: sn) rs'
      end
  end.

Definition exec (r : regex) (s : text) : option found := search r [] s.

(** [r.test(s)] *)
Definition test (r : regex) (s : text) : bool :=
  match exec r s with Some _ => true | None => false end.

(** [m[i]] of a match result [m]; a group that took no part is
    [undefined], which every use in the source guards or trims. *)
Definition group (i : nat) (f : found) : text :=
  match lookup_cap i (groups f) with Some v => v | None => [] end.

(** [s.replace(r, by)] for [r] without the [g] flag. *)
Definition replace (r : regex) (by_ : text) (s : text) : text :=
  match exec r s with
  | Some f => before f ++ by_ ++ after f
  | None => s
  end.

(** [s.replace(r, by)] for [r] with the [g] flag: every match from left
    to right; after an empty match the scan moves on by one code unit.
    [skip] counts the code units the last match has already taken. *)
Fixpoint replace_scan (r : regex) (by_ : text) (skip : nat) (sn rs : text)
    {struct rs} : text :=
  match rs with
  | [] =>
      match match_here r sn [] with
      | Some _ => by_
      | None => []
      end
  | a :: rs' =>
      match skip with
      | S n => replace_scan r by_ n (a :: sn) rs'
      | 0 =>
          match match_here r sn rs with
          | None => a :: replace_scan r by_ 0 (a :: sn) rs'
          | Some st =>
              match length (seen st) - length sn with
              | 0 => by_ ++ a :: replace_scan r by_ 0 (a :: sn) rs'
              | S n => by_ ++ replace_scan r by_ n (a :: sn) rs'
              end
          end
      end
  end.

Definition replace_all (r : regex) (by_ : text) (s : text) : text :=
  replace_scan r by_ 0 [] s.

(** [s.replace(r, f)] for [r] with the [g] flag and a function [f],
    which is given the matched text. *)
Fixpoint replace_scan_with (r : regex) (f : text -> text) (skip : nat)
    (sn rs : text) {struct rs} : text :=
  match rs with
  | [] =>
      match match_here r sn [] with
      | Some st => f (hit (found_of sn st))
      | None => []
      end
  | a :: rs' =>
      match skip with
      | S n => replace_scan_with r f n (a :: sn) rs'
      | 0 =>
          match match_here r sn rs with
          | None => a :: replace_scan_with r f 0 (a :: sn) rs'
          | Some st =>
              let by_ := f (hit (found_of sn st)) in
              match length (seen st) - length sn with
              | 0 => by_ ++ a :: replace_scan_with r f 0 (a :: sn) rs'
              | S n => by_ ++ replace_scan_with r f n (a :: sn) rs'
              end
          end
      end
  end.

Definition replace_all_with (r : regex) (f : text -> text) (s : text) : text :=
  replace_scan_with r f 0 [] s.

(** [s.split(r)] for a pattern without groups: a separator is looked
    for at every position [q] of the current piece, and a match that
    is empty at the start of the piece is passed over. *)
Fixpoint split_scan (r : regex) (skip : nat) (piece sn rs : text)
    {struct rs} : list text :=
  match rs with
  | [] => [rev piece]
  | a :: rs' =>
      match skip with
      | S n => split_scan r n piece (a :: sn) rs'
      | 0 =>
          match match_here r sn rs with
          | None => split_scan r 0 (a :: piece) (a :: sn) rs'
          | Some st =>
              match length (seen st) - length sn, piece with
              | 0, [] => split_scan r 0 [a] (a :: sn) rs'
              | 0, _ :: _ => rev piece :: split_scan r 0 [a] (a :: sn) rs'
              | S n, _ => rev piece :: split_scan r n [] (a :: sn) rs'
              end
          end
      end
  end.

Definition split (r : regex) (s : text) : list text :=
  match s with
  | [] => match match_here r [] [] with Some _ => [] | None => [[]] end
  | _ :: _ => split_scan r 0 [] [] s
  end.

(** *** Building patterns *)

Definition seq (rs : list regex) : regex := fold_right Seq Eps rs.

Definition lit (s : text) : regex := seq (map (fun c => Chr (is_char c)) s).

(** A literal under the [i] flag. *)
Definition lit_ci (s : text) : regex := seq (map (fun c => Chr (is_char_ci c)) s).

Definition Fail : regex := Chr (fun _ => false).

(** [(w1|w2|...)] under the [i] flag. *)
Fixpoint words_ci (ws : list text) : regex :=
  match ws with
  | [] => Fail
  | [w] => lit_ci w
  | w :: ws' => Alt (lit_ci w) (words_ci ws')
  end.

Definition star (c : ascii -> bool) : regex := Rep true 0 c.
Definition plus (c : ascii -> bool) : regex := Rep true 1 c.
Definition lazy_star (c : ascii -> bool) : regex := Rep false 0 c.
Definition lazy_plus (c : ascii -> bool) : regex := Rep false 1 c.
Definition opt (c : ascii -> bool) : regex := Alt (Chr c) Eps.

Definition LF : ascii := "010".
Definition CR : ascii := "013".
Definition NUL : ascii := "000".

(** [/\r?\n/] *)
Definition re_newline : regex := seq [opt (is_char CR); Chr (is_char LF)].

(** ** Records *)

Record TFPendingItem : Type := PendingItem {
  file : text;
  action : text
}.

(** [date] keeps the text handed to [new Date(...)]: what the host
    makes of a locale-formatted date is not part of the model. *)
Record TFFile : Type := FileChange {
  path : text;
  change : text
}.

Record TFHistoryItem : Type := HistoryItem {
  changesetId : number;
  author : text;
  date : text;
  comment : text;
  files : list TFFile
}.

Record VstfsConfig : Type := Config {
  serverUrl : text;
  project : text;
  workspace : text;
  tfPath : text;
  root : text;
  serverPath : text
}.

(** A string in a condition: the empty string is falsy. *)
Definition truthy (s : text) : bool :=
  match s with [] => false | _ :: _ => true end.

(** [x || y] on strings. *)
Definition or_text (x y : text) : text := if truthy x then x else y.

(** [config?.field], [undefined] read as the empty string, which the
    source only ever tests for truth or replaces by a default. *)
Definition cfg (f : VstfsConfig -> text) (config : option VstfsConfig) : text :=
  match config with Some c => f c | None => [] end.

(** ** The patterns of the source *)

Definition ACTIONS : list text :=
  [T "add"; T "edit"; T "delete"; T "rename"; T "merge"; T "branch"].

(** [(add|edit|delete|rename|merge|branch)] under [i], as group [i]. *)
Definition action_group (i : nat) : regex := Grp i (words_ci ACTIONS).

(** [/;C\d+$/i] *)
Definition re_changeset_suffix : regex :=
  seq [lit_ci (T ";C"); plus is_digit; Eol false].

(** [/^[A-Za-z]:\\/] *)
Definition re_drive : regex :=
  seq [Bol false; Chr is_alpha; lit (T ":\")].

(** [/^\/?/] *)
Definition re_leading_slash : regex := seq [Bol false; opt (is_char "/")].

(** [/\\/g] and [/\//g] *)
Definition re_backslash : regex := Chr (is_char "\").
Definition re_slash : regex := Chr (is_char "/").

(** [/^\$\//] *)
Definition re_server_root : regex := seq [Bol false; lit (T "$/")].

(** [[A-Za-z, ]] *)
Definition is_change_char (a : ascii) : bool :=
  is_alpha a || is_char "," a || is_char " " a.

(** [/^(.+?)\s{2,}([A-Za-z, ]+?)\s{2,}(.+)$/] *)
Definition re_row_wide : regex :=
  seq [Bol false; Grp 1 (lazy_plus is_dot); Rep true 2 is_space;
       Grp 2 (lazy_plus is_change_char); Rep true 2 is_space;
       Grp 3 (plus is_dot); Eol false].

(** [/^(.+?)\s{1,}([A-Za-z, ]+?)\s{2,}(.+)$/] *)
Definition re_row_narrow : regex :=
  seq [Bol false; Grp 1 (lazy_plus is_dot); Rep true 1 is_space;
       Grp 2 (lazy_plus is_change_char); Rep true 2 is_space;
       Grp 3 (plus is_dot); Eol false].

(** [/\b(add|edit|delete|rename|merge|branch)\b/i] *)
Definition re_action_word : regex := seq [Wb; action_group 1; Wb].

(** [/^(add|edit|delete|rename|merge|branch)\s+(.+)$/i] *)
Definition re_action_first : regex :=
  seq [Bol false; action_group 1; plus is_space; Grp 2 (plus is_dot); Eol false].

(** [/^(\$\/.*?);\s*(add|edit|delete|rename|merge|branch)\s*$/i] *)
Definition re_server_item : regex :=
  seq [Bol false; Grp 1 (seq [lit (T "$/"); lazy_star is_dot]);
       Chr (is_char ";"); star is_space; action_group 2; star is_space;
       Eol false].

(** [[^-]] *)
Definition not_dash (a : ascii) : bool := negb (is_char "-" a).

(** [/^(.:\\[^-]+?)\s*-\s+(add|edit|delete|rename|merge|branch)\s*$/i] *)
Definition re_local_item : regex :=
  seq [Bol false; Grp 1 (seq [Chr is_dot; lit (T ":\"); lazy_plus not_dash]);
       star is_space; Chr (is_char "-"); plus is_space; action_group 2;
       star is_space; Eol false].

(** [/^-{3,}/] *)
Definition re_dashes3 : regex := seq [Bol false; Rep true 3 (is_char "-")].

(** [/^File\s+name\s+Change\s+Local\s+path/i] *)
Definition re_table_header : regex :=
  seq [Bol false; lit_ci (T "File"); plus is_space; lit_ci (T "name");
       plus is_space; lit_ci (T "Change"); plus is_space; lit_ci (T "Local");
       plus is_space; lit_ci (T "path")].

(** [/^There are no pending changes\.?$/i] *)
Definition re_no_pending : regex :=
  seq [Bol false; lit_ci (T "There are no pending changes");
       opt (is_char "."); Eol false].

(** [/^(Collection|Workspace|User):/i] *)
Definition re_banner : regex :=
  seq [Bol false;
       Grp 1 (words_ci [T "Collection"; T "Workspace"; T "User"]);
       Chr (is_char ":")].

(** [/\s{2,}/] *)
Definition re_gap : regex := Rep true 2 is_space.

(** [/\.(cs|asset|mat|png|jpg|prefab|meta)$/i] *)
Definition re_asset_ext : regex :=
  seq [Chr (is_char ".");
       Grp 1 (words_ci [T "cs"; T "asset"; T "mat"; T "png"; T "jpg";
                        T "prefab"; T "meta"]);
       Eol false].

(** [/\.\.\.$/] *)
Definition re_ellipsis_end : regex := seq [lit (T "..."); Eol false].

(** [/\b(add|edit|delete|rename|merge|branch)\b\s+([A-Za-z]:\\.+)$/i] *)
Definition re_action_then_local : regex :=
  seq [Wb; action_group 1; Wb; plus is_space;
       Grp 2 (seq [Chr is_alpha; lit (T ":\"); plus is_dot]); Eol false].

(** [/\u0000/g] and [/\s+$/g] *)
Definition re_nul : regex := Chr (is_char NUL).
Definition re_trailing_space : regex := seq [plus is_space; Eol false].

(** [/^(\$\/|[A-Za-z]:\\)/] *)
Definition re_path_line : regex :=
  seq [Bol false;
       Grp 1 (Alt (lit (T "$/")) (seq [Chr is_alpha; lit (T ":\")]))].

(** [/^change:\s*(add|edit|delete|rename|merge|branch)\b/i] *)
Definition re_change_line : regex :=
  seq [Bol false; lit_ci (T "change:"); star is_space; action_group 1; Wb].

(** [/^-{5,}\s*$/m] *)
Definition re_rule : regex :=
  seq [Bol true; Rep true 5 (is_char "-"); star is_space; Eol true].

(** [/^\s*Changeset:\s*(\d+)/mi] *)
Definition re_changeset : regex :=
  seq [Bol true; star is_space; lit_ci (T "Changeset:"); star is_space;
       Grp 1 (plus is_digit)].

(** [/^\s*User:\s*(.+)$/mi] *)
Definition re_user : regex :=
  seq [Bol true; star is_space; lit_ci (T "User:"); star is_space;
       Grp 1 (plus is_dot); Eol true].

(** [/^\s*Date:\s*(.+)$/mi] *)
Definition re_date : regex :=
  seq [Bol true; star is_space; lit_ci (T "Date:"); star is_space;
       Grp 1 (plus is_dot); Eol true].

(** [/^\s*Comment:\s*([\s\S]*?)^\s*Items:/mi] *)
Definition re_comment : regex :=
  seq [Bol true; star is_space; lit_ci (T "Comment:"); star is_space;
       Grp 1 (lazy_star any_char); Bol true; star is_space;
       lit_ci (T "Items:")].

(** [/^\s*Items:\s*$/mi] *)
Definition re_items : regex :=
  seq [Bol true; star is_space; lit_ci (T "Items:"); star is_space; Eol true].

(** [/^\s*(edit|add|delete|rename|merge)\s+(.* )$/i], the blank before
    the closing parenthesis of group 2 not being part of the pattern. *)
Definition re_item_line : regex :=
  seq [Bol false; star is_space;
       Grp 1 (words_ci [T "edit"; T "add"; T "delete"; T "rename"; T "merge"]);
       plus is_space; Grp 2 (star is_dot); Eol false].

(** [/^Branches:$/i] *)
Definition re_branches_title : regex :=
  seq [Bol false; lit_ci (T "Branches:"); Eol false].

(** The double quote. *)
Definition DQUOTE : ascii := "034".

(** The character set of the pattern that [getFileAtChangeset] cleans
    a file name with: backslash, slash, colon, asterisk, question
    mark, double quote, angle brackets, bar. *)
Definition is_reserved (a : ascii) : bool :=
  existsb (fun c => is_char c a) ["\"; "/"; ":"; "*"; "?"; DQUOTE; "<"; ">"; "|"].

Definition re_reserved : regex := Chr is_reserved.

(** The character set of the pattern of [escapeHtml]: ampersand, angle
    brackets, double quote, apostrophe. *)
Definition is_html_special (a : ascii) : bool :=
  existsb (fun c => is_char c a) ["&"; "<"; ">"; DQUOTE; "'"].

Definition re_html_special : regex := Chr is_html_special.

(** ** The parsers *)

Definition lines_of (stdout : text) : list text := split re_newline stdout.

Definition nonblank (l : text) : bool := truthy (trim l).

(** *** [parsePendingDetailed] *)

Record dstate : Type := DState {
  d_items : list TFPendingItem;
  currentPath : option text
}.

Definition detailed_step (st : dstate) (raw : text) : dstate :=
  let line := trim raw in
  if negb (truthy line) then st
  else if test re_path_line line then DState (d_items st) (Some line)
  else
    match exec re_change_line line, currentPath st with
    | Some m, Some p =>
        if truthy p
        then DState (d_items st ++ [PendingItem p (toLowerCase (group 1 m))]) None
        else if test re_dashes3 line then DState (d_items st) None else st
    | _, _ =>
        if test re_dashes3 line then DState (d_items st) None else st
    end.

Definition parsePendingDetailed (stdout : text) : list TFPendingItem :=
  d_items (fold_left detailed_step (lines_of stdout) (DState [] None)).

(** *** [parsePending] *)

(** The locals of [parsePending], and the console it writes to. *)
Record pstate : Type := PState {
  items : list TFPendingItem;
  currentServerFolder : option text;
  buffer : text;
  pendingNameFragment : option text;
  console : list text
}.

Definition tryParseRow (currentServerFolder : option text) (row : text)
    : option TFPendingItem :=
  let trimmed := trim row in
  match or_else (exec re_row_wide trimmed) (exec re_row_narrow trimmed) with
  | Some table =>
      let nameCol := trim (group 1 table) in
      let changeCol := trim (group 2 table) in
      let localCol := trim (group 3 table) in
      let action :=
        toLowerCase
          match exec re_action_word changeCol with
          | Some actionMatch => group 1 actionMatch
          | None => T "edit"
          end in
      let file :=
        if test re_drive localCol then localCol
        else
          match currentServerFolder with
          | Some folder =>
              if truthy folder
              then replace_all re_backslash (T "/") folder ++ T "/" ++ nameCol
              else nameCol
          | None => nameCol
          end in
      Some (PendingItem file action)
  | None =>
      match exec re_action_first trimmed with
      | Some m => Some (PendingItem (trim (group 2 m)) (toLowerCase (group 1 m)))
      | None =>
          match exec re_server_item trimmed with
          | Some m => Some (PendingItem (trim (group 1 m)) (toLowerCase (group 2 m)))
          | None =>
              match exec re_local_item trimmed with
              | Some m =>
                  Some (PendingItem (trim (group 1 m)) (toLowerCase (group 2 m)))
              | None => None
              end
          end
      end
  end.

Definition is_header (line : text) : bool :=
  test re_dashes3 line || test re_table_header line ||
  test re_no_pending line || test re_banner line.

Definition is_folder_header (line : text) : bool :=
  test re_server_root line && negb (test re_gap line).

Definition is_name_fragment (line : text) : bool :=
  negb (test re_gap line) &&
  test re_asset_ext (replace re_ellipsis_end [] line).

(** The pairing of a held name fragment with an [ACTION C:\path] line. *)
Definition pair_fragment (fragment : option text) (line : text)
    : option TFPendingItem :=
  match fragment with
  | Some f =>
      if truthy f then
        match exec re_action_then_local line with
        | Some m => Some (PendingItem (trim (group 2 m)) (toLowerCase (group 1 m)))
        | None => None
        end
      else None
  | None => None
  end.

Definition push (it : TFPendingItem) (st : pstate) : pstate :=
  PState (items st ++ [it]) (currentServerFolder st) [] None (console st).

Definition drop_message (buffer : text) : text :=
  T "VSTFS: Dropping oversized pending row buffer: " ++ firstn 120 buffer ++ T "...".

(** [buffer ? `${buffer} ${line}` : line] *)
Definition joined (buffer line : text) : text :=
  if truthy buffer then buffer ++ T " " ++ line else line.

(** One turn of the loop over the lines. *)
Definition pending_step (st : pstate) (raw : text) : pstate :=
  let line := trim raw in
  if is_header line then st
  else if is_folder_header line then
    PState (items st) (Some line) [] None (console st)
  else if is_name_fragment line then
    PState (items st) (currentServerFolder st) (buffer st) (Some line) (console st)
  else
    match pair_fragment (pendingNameFragment st) line with
    | Some it =>
        PState (items st ++ [it]) (currentServerFolder st) (buffer st) None
               (console st)
    | None =>
        match tryParseRow (currentServerFolder st) line with
        | Some parsed => push parsed st
        | None =>
            let buffer' := joined (buffer st) line in
            match tryParseRow (currentServerFolder st) buffer' with
            | Some parsed => push parsed st
            | None =>
                if Nat.ltb 500 (length buffer') then
                  PState (items st) (currentServerFolder st) [] None
                         (console st ++ [drop_message buffer'])
                else
                  PState (items st) (currentServerFolder st) buffer'
                         (pendingNameFragment st) (console st)
            end
        end
    end.

Definition clean_line (l : text) : text :=
  replace_all re_trailing_space [] (replace_all re_nul [] l).

Definition pending_lines (stdout : text) : list text :=
  filter nonblank (map clean_line (lines_of stdout)).

Definition pending_init (out : list text) : pstate := PState [] None [] None out.

(** [parsePending], run with the console in state [out]. *)
Definition parsePending_run (stdout : text) (out : list text) : pstate :=
  fold_left pending_step (pending_lines stdout) (pending_init out).

Definition parsePending (stdout : text) : list TFPendingItem :=
  items (parsePending_run stdout []).

(** *** [parseHistory] *)

Definition history_blocks (stdout : text) : list text :=
  filter truthy (map trim (split re_rule stdout)).

(** [m?.[1] || ""] *)
Definition group1_or_empty (m : option found) : text :=
  match m with Some f => group 1 f | None => [] end.

Definition item_of_line (line : text) : option TFFile :=
  match exec re_item_line line with
  | Some fm => Some (FileChange (trim (group 2 fm)) (group 1 fm))
  | None => None
  end.

Fixpoint collect {A B} (f : A -> option B) (l : list A) : list B :=
  match l with
  | [] => []
  | x :: l' =>
      match f x with
      | Some y => y :: collect f l'
      | None => collect f l'
      end
  end.

Definition files_of_block (b : text) : list TFFile :=
  let filesPart := nth 1 (split re_items b) [] in
  collect item_of_line (lines_of filesPart).

(** The body of the loop over the blocks: the entry a block gives, if
    it gives one. *)
Definition history_item (b : text) : option TFHistoryItem :=
  let idMatch := exec re_changeset b in
  let userMatch := exec re_user b in
  let dateMatch := exec re_date b in
  let commMatch := exec re_comment b in
  let files := files_of_block b in
  match idMatch with
  | Some m =>
      Some (HistoryItem (Number_of_digits (group 1 m))
                        (trim (group1_or_empty userMatch))
                        (trim (group1_or_empty dateMatch))
                        (trim (group1_or_empty commMatch))
                        files)
  | None => None
  end.

Definition parseHistory (stdout : text) : list TFHistoryItem :=
  collect history_item (history_blocks stdout).

(** Lines joined by LF. *)
Definition unlines (ls : list text) : text :=
  match ls with
  | [] => []
  | l :: ls' => l ++ flat_map (fun x => LF :: x) ls'
  end.

(** *** [parseBranches] *)

Definition parseBranches (stdout : text) : list text :=
  filter (fun l => negb (test re_branches_title l))
    (filter (fun l => truthy l &&
                      negb (includes (toLowerCase l) (T "no items found")))
       (map trim (split re_newline stdout))).

(** *** Sorting history entries *)

(** [items.sort((a, b) => b.changesetId - a.changesetId)]: the sort of
    the language is stable, and with this comparison it puts the
    entries in descending order of their numbers.  The difference of
    two infinite ids is [NaN], which the sort takes for 0: the entries
    count as equal, as [number_leb] has them. *)
Fixpoint insert_desc (h : TFHistoryItem) (l : list TFHistoryItem)
    : list TFHistoryItem :=
  match l with
  | [] => [h]
  | x :: l' =>
      if number_leb (changesetId x) (changesetId h) then h :: l
      else x :: insert_desc h l'
  end.

Definition sort_desc (l : list TFHistoryItem) : list TFHistoryItem :=
  fold_right insert_desc [] l.

(** ** The command executor *)

(** One start of TF.exe: with the window hidden ([execOnce]) or
    visible ([execVisibleOnce]), and its argument vector. *)
Inductive window : Type := Hidden | Visible.

Record invocation : Type := Invoke {
  win : window;
  argv : list text
}.

(** What [execFile] hands to its callback: [err] holds [String(err)]
    when the process failed. *)
Record proc_result : Type := Proc {
  err : option text;
  stdout : text;
  stderr : text
}.

Record output : Type := Output {
  out_stdout : text;
  out_stderr : text
}.

(** Every value the source throws is an [Error]; [Throw] carries its message. *)
Inductive result (A : Type) : Type :=
| Ok (a : A)
| Throw (message : text).
Arguments Ok {A} a.
Arguments Throw {A} message.

(** A computation that starts processes: it reads and extends the list
    of invocations made so far (oldest first). *)
Definition M (A : Type) : Type := list invocation -> result A * list invocation.

Definition ret {A} (a : A) : M A := fun tr => (Ok a, tr).
Definition throw {A} (message : text) : M A := fun tr => (Throw message, tr).

Definition bind {A B} (m : M A) (k : A -> M B) : M B :=
  fun tr =>
    match m tr with
    | (Ok a, tr') => k a tr'
    | (Throw e, tr') => (Throw e, tr')
    end.

Definition try_catch {A} (m : M A) (handler : text -> M A) : M A :=
  fun tr =>
    match m tr with
    | (Ok a, tr') => (Ok a, tr')
    | (Throw e, tr') => handler e tr'
    end.

Notation "x <- m ;; k" := (bind m (fun x => k))
  (at level 61, m at next level, right associativity).
Notation "m ;;; k" := (bind m (fun _ => k))
  (at level 61, right associativity).

(** [String(e)] for an [Error] [e]. *)
Definition string_of_error (message : text) : text :=
  match message with
  | [] => T "Error"
  | _ :: _ => T "Error: " ++ message
  end.

(** [String(e?.message || e)] *)
Definition error_text (message : text) : text :=
  if truthy message then message else string_of_error message.

(** The parts of a parsed URL that [getCollectionUrl] reads. *)
Record URL : Type := Url {
  protocol : text;
  host : text;
  hostname : text;
  pathname : text
}.

Definition endsWith (s p : text) : bool := startsWith (rev s) (rev p).

(** [/\/$/] *)
Definition re_trailing_slash : regex := seq [Chr (is_char "/"); Eol false].

Section TFVC.

(** The platform: TF.exe with its server (the outcome of an invocation
    may depend on those before it), [path.join], and the constructor
    [URL], which throws on what it cannot parse. *)
Variable tf : list invocation -> invocation -> proc_result.
Variable path_join : text -> text -> text.
Variable new_URL : text -> option URL.

(** The fields of the object. *)
Variable cwd : text.
Variable config : option VstfsConfig.

Definition getCollectionUrl : text :=
  let raw := or_text (trim (cfg serverUrl config)) [] in
  match new_URL raw with
  | Some u =>
      let host_ := protocol u ++ T "//" ++ host u in
      let hostname_ := toLowerCase (hostname u) in
      if text_eqb hostname_ (T "dev.azure.com") then
        let segs := filter truthy (split (lit (T "/")) (pathname u)) in
        let org := or_text (nth 0 segs []) [] in
        if truthy org then host_ ++ T "/" ++ org else host_
      else if endsWith hostname_ (T ".visualstudio.com") then host_
      else host_ ++ (if text_eqb (pathname u) (T "/") then [] else pathname u)
  | None => replace re_trailing_slash [] raw
  end.

Definition isAuthError (message : text) : bool :=
  let m := toLowerCase (or_text message []) in
  includes m (T "tf30063") ||
  includes m (T "not authorized") ||
  includes m (T "unauthorized") ||
  includes m (T "401").

Definition spawn (w : window) (args : list text) : M output :=
  fun tr =>
    let i := Invoke w args in
    let p := tf tr i in
    match err p with
    | Some e => (Throw (or_text (stderr p) (or_text (stdout p) e)), tr ++ [i])
    | None => (Ok (Output (stdout p) (stderr p)), tr ++ [i])
    end.

Definition execOnce (args : list text) : M output := spawn Hidden args.

Definition execVisibleOnce (args : list text) : M output := spawn Visible args.

Definition signIn : M unit :=
  if negb (truthy (cfg serverUrl config)) then
    throw (T "VSTFS: serverUrl is not configured. Set 'vstfs.serverUrl' in settings.")
  else
    let collection := getCollectionUrl in
    try_catch
      (execVisibleOnce [T "workspaces"; T "/collection:" ++ collection] ;;; ret tt)
      (fun _ => ret tt).

Definition execWithAuthRetry (args : list text) : M output :=
  try_catch (execOnce args)
    (fun e =>
       let msg := error_text e in
       if isAuthError msg && truthy (cfg serverUrl config) then
         signIn ;;; execOnce args
       else throw e).

Definition runBasic (args : list text) : M output := execWithAuthRetry args.

Definition default_serverPath : text := T "$/Era/Prototypes/Overpowered".

Definition map_workfolder : M output :=
  let serverPath_ := or_text (cfg serverPath config) default_serverPath in
  runBasic [T "workfold"; T "/map"; serverPath_; cwd;
            T "/workspace:" ++ cfg workspace config;
            T "/collection:" ++ getCollectionUrl].

Definition ensureWorkspaceConfigured : M unit :=
  if negb (truthy (cfg serverUrl config)) || negb (truthy (cfg workspace config))
  then ret tt
  else
    try_catch
      (o <- runBasic [T "workfold"] ;;
       if includes (out_stdout o) cwd || includes (out_stdout o) (cfg workspace config)
       then ret tt
       else map_workfolder ;;; ret tt)
      (fun _ =>
         try_catch
           (runBasic [T "workspace"; T "/new"; cfg workspace config;
                      T "/collection:" ++ getCollectionUrl; T "/location:server"] ;;;
            map_workfolder ;;; ret tt)
           (fun createError =>
              throw (T "Cannot configure TFVC workspace: "
                       ++ string_of_error createError))).

Definition collectionCommands : list text :=
  [T "workspaces"; T "workspace"; T "configure"; T "login"; T "logout";
   T "permission"; T "status"; T "history"; T "changeset"].

Definition shouldAddCollection (command : text) : bool :=
  existsb (text_eqb command) collectionCommands.

(** [args[0]] is a command name at every call of [run]. *)
Definition run (args : list text) : M output :=
  ensureWorkspaceConfigured ;;;
  let fullArgs :=
    if truthy (cfg serverUrl config) && shouldAddCollection (nth 0 args [])
    then args ++ [T "/collection:" ++ getCollectionUrl]
    else args in
  execWithAuthRetry fullArgs.

(** [s.substring(n)] *)
Definition substring_from (n : nat) (s : text) : text := skipn n s.

Definition to_backslashes (s : text) : text := replace_all re_slash (T "\") s.
Definition to_slashes (s : text) : text := replace_all re_backslash (T "/") s.

Definition toLocalPath (serverOrLocalPath : text) : text :=
  let cleaned := replace re_changeset_suffix [] serverOrLocalPath in
  if test re_drive cleaned then cleaned
  else if truthy (cfg serverPath config) && startsWith cleaned (cfg serverPath config)
  then
    let rel :=
      to_slashes
        (replace re_leading_slash []
           (substring_from (length (cfg serverPath config)) cleaned)) in
    to_backslashes (path_join cwd rel)
  else if test re_server_root cleaned then
    to_backslashes (path_join cwd (to_slashes (replace re_server_root [] cleaned)))
  else to_backslashes (path_join cwd cleaned).

Definition localize (it : TFPendingItem) : TFPendingItem :=
  PendingItem (toLocalPath (file it)) (action it).

Definition status_detailed : list text :=
  [T "status"; T "/recursive"; T "/format:detailed"].

Definition status_brief : list text :=
  [T "status"; T "/recursive"; T "/format:brief"].

Definition status_workspace : list text :=
  [T "status"; T "/workspace:" ++ or_text (cfg workspace config) [];
   T "/recursive"; T "/format:brief"].

Definition status_collection : list text :=
  [T "status"; T "."; T "/recursive"; T "/format:brief"; T "/noprompt"].

(** A [try] block of [pendingChanges] that returns when it has found
    something: [Some] is the value returned from the function, [None]
    is falling through to the next statement, also after a failure. *)
Definition attempt (query : M output) (parse : text -> list TFPendingItem)
    : M (option (list TFPendingItem)) :=
  try_catch
    (o <- query ;;
     let found := map localize (parse (out_stdout o)) in
     if Nat.ltb 0 (length found) then ret (Some found) else ret None)
    (fun _ => ret None).

Definition pendingChanges : M (list TFPendingItem) :=
  r0 <- attempt (runBasic status_detailed) parsePendingDetailed ;;
  match r0 with
  | Some detailed => ret detailed
  | None =>
      r1 <- attempt (runBasic status_brief) parsePending ;;
      match r1 with
      | Some found => ret found
      | None =>
          r2 <- attempt (runBasic status_workspace) parsePending ;;
          match r2 with
          | Some found => ret found
          | None =>
              try_catch
                (o <- run status_collection ;;
                 ret (map localize (parsePending (out_stdout o))))
                (fun _ => ret [])
          end
      end
  end.

Definition history_target : text :=
  or_text (cfg serverPath config) (or_text cwd (T ".")).

(** [`/version:C${id}~C${id}`] needs the decimal numeral of [id].  The
    ids that the operations are called with are whole numbers; the
    language prints such a number digit by digit as long as it is
    below 10^21. *)
Fixpoint digits_of (fuel : nat) (n : N) (acc : text) : text :=
  match fuel with
  | 0 => acc
  | S f =>
      let d := ascii_of_nat (48 + N.to_nat (n mod 10)) in
      if N.ltb n 10 then d :: acc else digits_of f (n / 10) (d :: acc)
  end.

Definition decimal (n : N) : text := digits_of (S (N.to_nat (N.log2 n))) n [].

Definition changeset (id : N) : M (option TFHistoryItem) :=
  let item := history_target in
  o <- run [T "history"; item; T "/recursive"; T "/format:detailed";
            T "/noprompt"; T "/version:C" ++ decimal id ++ T "~C" ++ decimal id] ;;
  let items := parseHistory (out_stdout o) in
  let match_ :=
    or_else (find (fun h => number_eqb (changesetId h) (Num id)) items)
            (nth_error items 0) in
  ret match_.

(** *** The other operations

    [resolve], which answers a failure with a message of the editor,
    is left out. *)

(** [path.basename], [os.tmpdir()] and [os.EOL] of the platform;
    [os.EOL] is a line feed, or a carriage return and a line feed. *)
Variable path_basename : text -> text.
Variable os_tmpdir : text.
Variable os_EOL : text.

Definition getLatest (target : text) : M unit :=
  run [T "get"; target; T "/recursive"] ;;; ret tt.

(** [files] is optional: [None] is a call without it. *)
Definition checkIn (comment : text) (files : option (list text)) : M unit :=
  try_catch
    (run [T "add"; T "."; T "/recursive"; T "/noprompt"] ;;; ret tt)
    (fun _ => ret tt) ;;;
  let args :=
    match files with
    | Some (f :: fs) =>
        [T "checkin"] ++ (f :: fs)
          ++ [T "/comment:" ++ or_text comment []; T "/noprompt"]
    | _ =>
        [T "checkin"; T "."; T "/recursive";
         T "/comment:" ++ or_text comment []; T "/noprompt"]
    end in
  run args ;;; ret tt.

Definition undo (items_ : option (list text)) : M unit :=
  match items_ with
  | Some (i :: is_) => run ([T "undo"] ++ (i :: is_) ++ [T "/noprompt"]) ;;; ret tt
  | _ => run [T "undo"; T "."; T "/recursive"; T "/noprompt"] ;;; ret tt
  end.

Definition listBranches : M (list text) :=
  let item := or_text (cfg serverPath config) (or_text cwd (T ".")) in
  o <- run [T "branches"; item] ;;
  ret (parseBranches (out_stdout o)).

Definition createBranch (src dst : text) : M unit :=
  run [T "branch"; src; dst; T "/recursive"] ;;; ret tt.

(** A number in a condition: absent and zero are falsy. *)
Definition truthy_number (n : option N) : bool :=
  match n with Some k => negb (N.eqb k 0) | None => false end.

Definition number_text (n : option N) : text :=
  match n with Some k => decimal k | None => T "undefined" end.

Definition merge (src dst : text) (changesetFrom changesetTo : option N) : M unit :=
  let args := [T "merge"; src; dst] in
  let args :=
    if truthy_number changesetFrom && truthy_number changesetTo
    then args ++ [T "/version:C" ++ number_text changesetFrom
                    ++ T "~C" ++ number_text changesetTo]
    else args in
  run args ;;; ret tt.

Definition history (target : text) (max : N) : M (list TFHistoryItem) :=
  let item := if text_eqb target (T ".") then history_target else target in
  o <- run [T "history"; item; T "/recursive"; T "/format:detailed";
            T "/stopafter:" ++ decimal max; T "/noprompt"] ;;
  ret (parseHistory (out_stdout o)).

(** The value is the path that the source returns, together with the
    content that it has written there ([fs.writeFileSync]); a failure
    of the write itself is not part of the model. *)
Definition getFileAtChangeset (file : text) (id : N) : M (text * text) :=
  let localTarget := toLocalPath file in
  let tmpDir := os_tmpdir in
  let tmpFile :=
    path_join tmpDir
      (T "vstfs-C" ++ decimal id ++ T "-"
         ++ replace_all re_reserved (T "_") (path_basename localTarget)) in
  o <- run [T "view"; file ++ T ";C" ++ decimal id; T "/noprompt"] ;;
  let normalized := replace_all re_newline os_EOL (out_stdout o) in
  ret (tmpFile, normalized).

Definition rollbackToChangeset (id : N) : M unit :=
  run [T "rollback"; T "/changeset:C" ++ decimal id] ;;; ret tt.

(** [h.files.some(f => f.path.toLowerCase().includes(
    path.basename(file).toLowerCase()))] *)
Definition touches (file : text) (h : TFHistoryItem) : bool :=
  existsb
    (fun f => includes (toLowerCase (path f)) (toLowerCase (path_basename file)))
    (files h).

Definition getPreviousChangesetIdForFile (file : text) (currentId : N)
    : M (option number) :=
  try_catch
    (o <- run [T "history"; file; T "/format:detailed"; T "/stopafter:2";
              T "/version:C1~C" ++ decimal currentId; T "/noprompt"] ;;
     let items := filter (touches file) (parseHistory (out_stdout o)) in
     if Nat.eqb (length items) 0 then ret None
     else
       let sorted := sort_desc items in
       match find (fun h => number_ltb (changesetId h) (Num currentId)) sorted with
       | Some firstBelow => ret (Some (changesetId firstBelow))
       | None =>
           match Nat.leb 2 (length sorted), nth_error sorted 1 with
           | true, Some second => ret (Some (changesetId second))
           | _, _ => ret None
           end
       end)
    (fun _ => ret None).

End TFVC.

(** ** The changeset panel *)

(** The object that [escapeHtml] looks the matched character up in. *)
Definition html_entities : list (text * text) :=
  [(T "&", T "&amp;"); (T "<", T "&lt;"); (T ">", T "&gt;");
   ([DQUOTE], T "&quot;"); (T "'", T "&#39;")].

(** [table[key]] *)
Fixpoint lookup_key (key : text) (table : list (text * text)) : option text :=
  match table with
  | [] => None
  | (k, v) :: table' => if text_eqb key k then Some v else lookup_key key table'
  end.

(** What [String.prototype.replace] makes of the value of its
    function: a missing entry would read [undefined]. *)
Definition entity_of (ch : text) : text :=
  match lookup_key ch html_entities with
  | Some e => e
  | None => T "undefined"
  end.

Definition escapeHtml (s : text) : text :=
  replace_all_with re_html_special entity_of s.

(** ** What a pattern matches

    [matches r st st']: the pattern [r] can take the matcher from [st]
    to [st'].  The relation forgets the order in which the
    backtracking matcher tries the alternatives; [matcher_sound] and
    [matcher_complete] tie the two together. *)
Fixpoint matches (r : regex) (st st' : mstate) : Prop :=
  match r with
  | Eps => st' = st
  | Chr c =>
      exists a rs, rest st = a :: rs /\ c a = true /\
                   st' = MState (a :: seen st) rs (caps st)
  | Seq r1 r2 => exists st1, matches r1 st st1 /\ matches r2 st1 st'
  | Alt r1 r2 => matches r1 st st' \/ matches r2 st st'
  | Rep _ lo c =>
      exists x rs, forallb c x = true /\ lo <= length x /\
                   rest st = x ++ rs /\
                   st' = MState (rev x ++ seen st) rs (caps st)
  | Grp i r1 => exists st1, matches r1 st st1 /\ st' = set_cap i (span st st1) st1
  | Bol m => at_bol m st = true /\ st' = st
  | Eol m => at_eol m st = true /\ st' = st
  | Wb => xorb (word_before st) (word_after st) = true /\ st' = st
  end.

(** The groups a pattern can set. *)
Fixpoint groups_of (r : regex) : list nat :=
  match r with
  | Seq r1 r2 | Alt r1 r2 => groups_of r1 ++ groups_of r2
  | Grp i r1 => i :: groups_of r1
  | _ => []
  end.

(** ** The vocabulary of the properties *)

(** *** Matches *)

(** The part of the state that a pattern without groups can change:
    the matcher has passed the text [x]. *)
Definition advanced (st st' : mstate) (x : text) : Prop :=
  rest st = x ++ rest st' /\ seen st' = rev x ++ seen st /\ caps st' = caps st.

(** [x] spells the word [w] up to the case of its letters. *)
Definition spells_ci (w x : text) : Prop :=
  Forall2 (fun c a => is_char_ci c a = true) w x.

(** A text that does not begin with a character of [c]. *)
Definition stops (c : ascii -> bool) (s : text) : Prop :=
  match s with [] => True | a :: _ => c a = false end.

(** A text that does not begin with white space. *)
Definition tight (s : text) : Prop :=
  match s with [] => True | a :: _ => is_space a = false end.

(** The text before a position at which a line starts. *)
Definition line_start (pre : text) : Prop :=
  match rev pre with [] => True | a :: _ => is_newline a = true end.

(** The 256 code units of the model. *)
Definition all_ascii : list ascii := map ascii_of_nat (List.seq 0 256).

(** No character is both in [ok] and in [c]. *)
Definition disjoint (ok c : ascii -> bool) : bool :=
  forallb (fun a => negb (ok a && c a)) all_ascii.

(** [blocked ok r]: every match of [r] takes a character outside
    [ok]. *)
Fixpoint blocked (ok : ascii -> bool) (r : regex) : bool :=
  match r with
  | Chr c => disjoint ok c
  | Rep _ lo c => Nat.ltb 0 lo && disjoint ok c
  | Seq r1 r2 => blocked ok r1 || blocked ok r2
  | Alt r1 r2 => blocked ok r1 && blocked ok r2
  | Grp _ r1 => blocked ok r1
  | _ => false
  end.

(** Letters and digits. *)
Definition plain (a : ascii) : bool := is_alpha a || is_digit a.

(** Reading one more digit of a numeral. *)
Definition read_digit (acc : N) (a : ascii) : N := (10 * acc + digit_val a)%N.

(** *** The executor *)

(** [grows m]: [m] only adds invocations; [begins i m]: the first one
    it adds is [i]. *)
Definition grows {A} (m : M A) : Prop :=
  forall tr, exists t, snd (m tr) = tr ++ t.

Definition begins {A} (i : invocation) (m : M A) : Prop :=
  forall tr, exists t, snd (m tr) = tr ++ i :: t.

(** The argument vector of the query that [changeset] runs. *)
Definition history_query (cwd : text) (config : option VstfsConfig) (id : N)
    : list text :=
  [T "history"; history_target cwd config; T "/recursive"; T "/format:detailed";
   T "/noprompt"; T "/version:C" ++ decimal id ++ T "~C" ++ decimal id].

(** The policy in the words of the documentation: the variants of a
    query are tried in order, a variant that fails counting as one
    that found nothing, and the first non-empty result is returned;
    the result is empty when no variant finds anything. *)
Fixpoint first_nonempty (variants : list (M (list TFPendingItem)))
    : M (list TFPendingItem) :=
  match variants with
  | [] => ret []
  | v :: later =>
      found <- try_catch v (fun _ => ret []) ;;
      match found with
      | [] => first_nonempty later
      | _ :: _ => ret found
      end
  end.

(** A status query together with the parser of its format. *)
Definition variant (path_join : text -> text -> text) (cwd : text)
    (config : option VstfsConfig) (query : M output) (parse : text -> list TFPendingItem)
    : M (list TFPendingItem) :=
  o <- query ;; ret (map (localize path_join cwd config) (parse (out_stdout o))).

(** The four variants, in the order of the source. *)
Definition status_variants (tf : list invocation -> invocation -> proc_result)
    (path_join : text -> text -> text) (new_URL : text -> option URL)
    (cwd : text) (config : option VstfsConfig) : list (M (list TFPendingItem)) :=
  [variant path_join cwd config
     (runBasic tf new_URL config status_detailed) parsePendingDetailed;
   variant path_join cwd config
     (runBasic tf new_URL config status_brief) parsePending;
   variant path_join cwd config
     (runBasic tf new_URL config (status_workspace config)) parsePending;
   variant path_join cwd config
     (run tf new_URL cwd config status_collection) parsePending].

(** *** The compact pending-changes parser *)

Definition known_action (it : TFPendingItem) : Prop := In (action it) ACTIONS.

(** The five actions of a pending change. *)
Definition VOCABULARY : list text :=
  [T "edit"; T "add"; T "delete"; T "rename"; T "merge"].

(** The end of a line of the output: LF, or CR LF. *)
Definition line_end (eol : text) : Prop := eol = [LF] \/ eol = [CR; LF].

(** A line without a line break in it. *)
Definition unbroken (l : text) : Prop := forallb is_dot l = true.

(** A text without its NUL characters. *)
Definition without_NUL (s : text) : text :=
  filter (fun a => negb (is_char NUL a)) s.

(** The line [l] shows [body]: [body] neither starts nor ends with
    white space, and [l] is [body] with white space around it. *)
Definition padded (l body : text) : Prop :=
  exists w1 w2,
    l = w1 ++ body ++ w2 /\
    forallb is_space w1 = true /\ forallb is_space w2 = true /\
    tight body /\ tight (rev body).

(** One or more white-space characters. *)
Definition blanks (g : text) : Prop := g <> [] /\ forallb is_space g = true.

(** The lines that are passed over: a line that starts with three
    dashes, the titles of the columns, the notice that nothing is
    pending, and a banner, with letters in either case. *)
Definition heading (line : text) : Prop :=
  (exists rest_, line = T "---" ++ rest_) \/
  (exists f g1 n g2 c g3 l g4 p rest_,
     line = f ++ g1 ++ n ++ g2 ++ c ++ g3 ++ l ++ g4 ++ p ++ rest_ /\
     spells_ci (T "File") f /\ blanks g1 /\
     spells_ci (T "name") n /\ blanks g2 /\
     spells_ci (T "Change") c /\ blanks g3 /\
     spells_ci (T "Local") l /\ blanks g4 /\
     spells_ci (T "path") p) \/
  (exists x, spells_ci (T "There are no pending changes") x /\
             (line = x \/ line = x ++ T ".")) \/
  (exists w x rest_,
     In w [T "Collection"; T "Workspace"; T "User"] /\ spells_ci w x /\
     line = x ++ T ":" ++ rest_).

(** No two white-space characters in a row. *)
Fixpoint gapless (s : text) : bool :=
  match s with
  | a :: s' =>
      match s' with
      | b :: _ => negb (is_space a && is_space b) && gapless s'
      | [] => true
      end
  | [] => true
  end.

(** A folder header: a server path without two white-space characters
    in a row. *)
Definition folder_heading (line : text) : Prop :=
  (exists rest_, line = T "$/" ++ rest_) /\ gapless line = true.

(** The line that closes a table, [n change(s)]. *)
Definition summary (line : text) : Prop :=
  exists ds, ds <> [] /\ forallb is_digit ds = true /\ line = ds ++ T " change(s)".

(** A data row: a name, a change and a local path, with one or more
    white-space characters before the change and two or more before
    the local path. *)
Definition data_row (line : text) : Prop :=
  exists name gap1 change gap2 local,
    line = name ++ gap1 ++ change ++ gap2 ++ local /\
    (name <> [] /\ forallb is_dot name = true) /\
    (1 <= length gap1 /\ forallb is_space gap1 = true) /\
    (change <> [] /\ forallb is_change_char change = true) /\
    (2 <= length gap2 /\ forallb is_space gap2 = true) /\
    (local <> [] /\ forallb is_dot local = true).

(** A text without white space. *)
Definition solid (s : text) : Prop :=
  forallb (fun a => negb (is_space a)) s = true.

(** A path on a drive, [X:\...]. *)
Definition drive_path (p : text) : Prop :=
  exists a t, p = a :: ":" :: "\" :: t /\ is_alpha a = true.

(** The text of a column: no white space at its ends and no two
    white-space characters in a row. *)
Definition column (s : text) : Prop :=
  gapless s = true /\ tight s /\ tight (rev s).

(** The characters at the head of a text that are in [c]. *)
Fixpoint leading (c : ascii -> bool) (s : text) : text :=
  match s with
  | a :: s' => if c a then a :: leading c s' else []
  | [] => []
  end.

(** A word that is one of [ws] up to the case of its letters. *)
Definition one_of (ws : list text) (w : text) : bool :=
  existsb (text_eqb (toLowerCase w)) ws.

(** The first word of a text, a run of letters between two characters
    that are none, that is one of [ws]; [inside] tells that a letter
    stands before the text. *)
Fixpoint first_word (ws : list text) (inside : bool) (s : text) : option text :=
  match s with
  | [] => None
  | a :: s' =>
      if is_alpha a then
        if inside then first_word ws true s'
        else if one_of ws (leading is_alpha (a :: s'))
             then Some (leading is_alpha (a :: s'))
             else first_word ws true s'
      else first_word ws false s'
  end.

(** The action that a change column stands for: the first of its words
    that is one of the five actions, in lower case, and [edit] when
    there is none. *)
Definition column_action (change : text) : text :=
  match first_word VOCABULARY false change with
  | Some w => toLowerCase w
  | None => T "edit"
  end.

(** The word [w], in either case of its letters, somewhere in a text. *)
Definition spelled (w s : text) : Prop :=
  exists pre x post, s = pre ++ x ++ post /\ spells_ci w x.

Definition names_branch (s : text) : Prop := spelled (T "branch") s.

(** A row in the regular shape, with the local path and the action it
    shows: a name and a change of letters, commas and blanks, each
    without white space at its ends and without two white-space
    characters in a row, the change without the word [branch]; a local
    path on a drive; and between them either two or more white-space
    characters before the change and before the path, or, after a name
    without white space, one before the change and two to four before
    a path that has no two in a row. *)
Definition regular_row (line local act : text) : Prop :=
  exists name gap1 change gap2,
    line = name ++ gap1 ++ change ++ gap2 ++ local /\
    (name <> [] /\ forallb is_dot name = true /\ column name) /\
    forallb is_space gap1 = true /\
    (change <> [] /\ forallb is_change_char change = true /\ column change /\
     ~ names_branch change /\ act = column_action change) /\
    forallb is_space gap2 = true /\
    (drive_path local /\ forallb is_dot local = true /\ tight (rev local)) /\
    ((2 <= length gap1 /\ 2 <= length gap2) \/
     (length gap1 = 1 /\ solid name /\
      2 <= length gap2 <= 4 /\ gapless local = true)).

(** The lines of a table that stand for no record: a blank line, and a
    heading, a folder header or the closing line with white space
    around it. *)
Definition skipped (l : text) : Prop :=
  forallb is_space l = true \/
  exists body,
    padded l body /\ (heading body \/ folder_heading body \/ summary body).

(** A line that holds a data row which is no heading. *)
Definition row_line (l : text) : Prop :=
  exists body, padded l body /\ data_row body /\ ~ heading body.

(** A line of a well-formed table. *)
Definition table_line (l : text) : Prop := skipped l \/ row_line l.

(** The records that stand for the lines of a table: none for a line
    that is passed over and one for each data row, in the order of the
    rows.  The action of a record is [edit] or a word that its row
    spells, and the record of a row in the regular shape is its local
    path with the action of its change column. *)
Inductive table_reading : list text -> list TFPendingItem -> Prop :=
| reading_done : table_reading [] []
| reading_skip l ls its :
    skipped l -> table_reading ls its -> table_reading (l :: ls) its
| reading_row l body ls it its :
    padded l body -> data_row body -> ~ heading body ->
    (action it = T "edit" \/ spelled (action it) body) ->
    (forall local act, regular_row body local act -> it = PendingItem local act) ->
    table_reading ls its -> table_reading (l :: ls) (it :: its).

(** A part of a text. *)
Definition within (x s : text) : Prop := exists pre post, s = pre ++ x ++ post.

(** The text that a matcher state stands in. *)
Definition whole (st : mstate) : text := rev (seen st) ++ rest st.

(** The characters of the closing line. *)
Definition summary_char (a : ascii) : bool :=
  is_digit a || existsb (Ascii.eqb a) (T " change(s)").

(** What the buffer holds after closing lines only: their characters,
    set apart by single blanks. *)
Definition quiet (s : text) : Prop :=
  forallb summary_char s = true /\ gapless s = true /\ tight s /\ tight (rev s).

(** A text that starts with two white-space characters. *)
Definition starts_gap (s : text) : bool :=
  match s with
  | a :: b :: _ => is_space a && is_space b
  | _ => false
  end.

(** What the loop holds between the lines of a table: no name
    fragment, and in the buffer nothing but closing lines. *)
Definition at_rest (st : pstate) : Prop :=
  pendingNameFragment st = None /\ quiet (buffer st).

(** A state of the loop without the action [branch] among its records
    and without the word in its buffer. *)
Definition branchless (st : pstate) : Prop :=
  (forall it, In it (items st) -> action it <> T "branch") /\
  ~ names_branch (buffer st).

(** A line that none of the rules of [parsePending] recognises in the
    state [st]: no header, folder header or name fragment, no second
    half of a held fragment, and no row either alone or after what the
    buffer holds. *)
Definition unrecognised (st : pstate) (line : text) : Prop :=
  is_header line = false /\
  is_folder_header line = false /\
  is_name_fragment line = false /\
  pair_fragment (pendingNameFragment st) line = None /\
  tryParseRow (currentServerFolder st) line = None /\
  tryParseRow (currentServerFolder st) (joined (buffer st) line) = None.

(** What the loop does to its state when it discards the buffer. *)
Definition flushed (st : pstate) (line : text) : pstate :=
  PState (items st) (currentServerFolder st) [] None
         (console st ++ [drop_message (joined (buffer st) line)]).



(** The weight of a list of lines: their lengths, and one more for each. *)
Definition weight (ls : list text) : nat :=
  fold_right (fun l n => S (length l) + n) 0 ls.


(** *** The history parser *)

(** [b] holds a Changeset line that starts after [pre] and writes the
    number [ds]: at the start of a line, white space, the word
    [Changeset:] in any letter case, white space, and the digits [ds],
    as many as there are.  White space is what [\s] matches, line
    breaks included. *)
Definition changeset_line_at (b pre ds : text) : Prop :=
  exists ws1 tag ws2 post,
    b = pre ++ ws1 ++ tag ++ ws2 ++ ds ++ post /\
    line_start pre /\
    forallb is_space ws1 = true /\
    spells_ci (T "Changeset:") tag /\
    forallb is_space ws2 = true /\
    (ds <> [] /\ forallb is_digit ds = true) /\
    stops is_digit post.

Definition changeset_line (b ds : text) : Prop :=
  exists pre, changeset_line_at b pre ds.

(** The first Changeset line of [b]: none starts before it. *)
Definition first_changeset_line (b ds : text) : Prop :=
  exists pre,
    changeset_line_at b pre ds /\
    forall pre' ds', changeset_line_at b pre' ds' -> length pre <= length pre'.

(** The lines of a text, each with the line end (LF or CR) that closes
    it; the last line has none. *)
Fixpoint text_lines (s : text) : list text :=
  match s with
  | [] => [[]]
  | a :: s' =>
      if is_newline a then [a] :: text_lines s'
      else
        match text_lines s' with
        | l :: ls => (a :: l) :: ls
        | [] => [[a]]
        end
  end.

(** A line after its leading dashes. *)
Fixpoint after_dashes (l : text) : text :=
  match l with
  | a :: l' => if is_char "-" a then after_dashes l' else l
  | [] => []
  end.

(** A rule: a line of five or more dashes, with nothing but white
    space after them. *)
Definition is_rule_line (l : text) : bool :=
  Nat.leb 5 (length l - length (after_dashes l)) &&
  forallb is_space (after_dashes l).

(** The texts between the rules: [cur] is what the lines since the
    last rule hold. *)
Fixpoint gather (cur : text) (ls : list text) : list text :=
  match ls with
  | [] => [cur]
  | l :: ls' =>
      if is_rule_line l then cur :: gather [] ls' else gather (cur ++ l) ls'
  end.

(** The blocks of a history text in the words of the documentation:
    what stands between its rules, trimmed, where that is not empty. *)
Definition dash_separated_blocks (s : text) : list text :=
  filter truthy (map trim (gather [] (text_lines s))).

(** A well-formed list of lines: each but the last ends in its line
    end and holds no other, the last holds none. *)
Fixpoint lines_ok (ls : list text) : Prop :=
  match ls with
  | [] => False
  | [l] => forallb is_dot l = true
  | l :: ls' =>
      (exists body nl, l = body ++ [nl] /\ forallb is_dot body = true /\
                       is_newline nl = true) /\
      lines_ok ls'
  end.

(** A text at whose start a line ends, and a passed text (nearest
    first) after which a line starts. *)
Definition eol (s : text) : Prop :=
  match s with [] => True | a :: _ => is_newline a = true end.

Definition bol (sn : text) : Prop :=
  match sn with [] => True | a :: _ => is_newline a = true end.

(** The number that a run of decimal digits writes. *)
Definition written (ds : text) : N :=
  fold_left (fun acc a => (10 * acc + (N.of_nat (nat_of_ascii a) - 48))%N) ds 0%N.

(** The whole numbers that a double holds: a significand below 2^53
    times a power of two, below 2^1024. *)
Definition is_double (v : N) : Prop :=
  exists m e, (m < 2 ^ 53)%N /\ v = (m * 2 ^ e)%N /\ (v < 2 ^ 1024)%N.

Definition distance (a b : N) : N := (N.max a b - N.min a b)%N.

(** [x] is the Number value for the whole number [n]: a double as near
    to [n] as any other, and of two at the same distance the even
    multiple of their distance; [Infinity] from 2^1024 - 2^970 on. *)
Definition nearest_double (n : N) (x : number) : Prop :=
  match x with
  | Num v =>
      (n < 2 ^ 1024 - 2 ^ 970)%N /\
      is_double v /\
      forall v', is_double v' ->
        (distance n v <= distance n v')%N /\
        (distance n v = distance n v' -> v' <> v ->
         N.even (v / distance v v') = true)
  | Infinity => (2 ^ 1024 - 2 ^ 970 <= n)%N
  end.

(** The spacing of the doubles around [n]. *)
Definition ulp (n : N) : N := (2 ^ (N.size n - 53))%N.

(** The entries that a list of blocks stands for: one for each block
    with a Changeset line, whose id is the double for the number that
    the first such line writes, and none for a block without one. *)
Inductive history_entries : list text -> list TFHistoryItem -> Prop :=
| entries_done : history_entries [] []
| entries_block b bs h hs ds :
    first_changeset_line b ds ->
    nearest_double (written ds) (changesetId h) ->
    ((written ds < 2 ^ 53)%N -> changesetId h = Num (written ds)) ->
    history_entries bs hs ->
    history_entries (b :: bs) (h :: hs)
| entries_skip b bs hs :
    (forall ds, ~ changeset_line b ds) ->
    history_entries bs hs ->
    history_entries (b :: bs) hs.

(** *** Platforms and inputs of the examples *)

(** A server that refuses the first start of TF.exe with TF30063 and
    accepts every later one. *)
Definition tf_auth_then_ok (tr : list invocation) (i : invocation) : proc_result :=
  match tr with
  | [] => Proc (Some (T "Error: Command failed")) []
               (T "TF30063: You are not authorized to access the server.")
  | _ :: _ => Proc None (T "ok") []
  end.

(** A server that answers every query with the history of changeset 7. *)
Definition tf_always_7 (tr : list invocation) (i : invocation) : proc_result :=
  Proc None (unlines [T "Changeset: 7"; T "User: bob"]) [].

(** A [URL] constructor that throws on every input, which sends
    [getCollectionUrl] to its fallback. *)
Definition no_URL (raw : text) : option URL := None.

Definition config_with_server : option VstfsConfig :=
  Some (Config (T "http://tfs:8080/tfs/") [] (T "ws") [] [] (T "$/Proj")).

(** A [path.join] that only concatenates: it agrees with the one of
    the platform where the second path has no [.] or [..] segment and
    no doubled or leading separator. *)
Definition simple_join (d x : text) : text := d ++ T "\" ++ x.

(** A table with wide gaps, a row with one blank before its change, a
    blank line and the closing line. *)
Definition wide_table : list text :=
  [T "File name    Change    Local path";
   T "---------    ------    ----------";
   T "$/Proj/Dir";
   T "Foo.cs       edit      C:\ws\Dir\Foo.cs";
   T "Bar.cs add   C:\ws\Dir\Bar.cs";
   T "";
   T "2 change(s)"].

(** A table whose columns are as wide as their longest entry and set
    apart by a single blank. *)
Definition narrow_table : list text :=
  [T "File name   Change Local path";
   T "----------- ------ ------------------";
   T "$/Proj";
   T "a.cs        edit   C:\ws\a.cs";
   T "b.cs        delete C:\ws\b.cs";
   T "LongName.cs rename C:\ws\LongName.cs";
   T "";
   T "3 change(s)"].

(** A line of 501 letters. *)
Definition garbage501 : text := repeat "x" 501.

(** A line of 504 code units that is no row, but completes one when it
    follows a line that is still in the buffer. *)
Definition garbage_tail : text := T "xx  " ++ repeat "y" 500.

(** *** Lines *)

(** A character other than the line feed. *)
Definition no_LF (a : ascii) : bool := negb (is_char LF a).

(** *** Authentication failures *)

(** The marks of an authentication failure. *)
Definition auth_marks : list text :=
  [T "tf30063"; T "not authorized"; T "unauthorized"; T "401"].

(** *** Starting TF.exe *)

(** The argument vector that [run] hands to TF.exe. *)
Definition fullArgs (new_URL : text -> option URL) (config : option VstfsConfig)
    (args : list text) : list text :=
  if truthy (cfg serverUrl config) && shouldAddCollection (nth 0 args [])
  then args ++ [T "/collection:" ++ getCollectionUrl new_URL config]
  else args.

(** [starts n m]: [m] only adds invocations, and at most [n] of them. *)
Definition starts {A} (n : nat) (m : M A) : Prop :=
  forall tr, exists t, snd (m tr) = tr ++ t /\ length t <= n.

(** *** The commands of the operations *)

(** The message that [execOnce] rejects with. *)
Definition failure_message (p : proc_result) : option text :=
  match err p with
  | Some e => Some (or_text (stderr p) (or_text (stdout p) e))
  | None => None
  end.

(** [last_start tf tr tr' args p]: the trace [tr'] extends [tr], its
    last start of TF.exe is a hidden one on [args], and [p] is what
    TF.exe answered to it. *)
Definition last_start (tf : list invocation -> invocation -> proc_result)
    (tr tr' : list invocation) (args : list text) (p : proc_result) : Prop :=
  exists before,
    tr' = tr ++ before ++ [Invoke Hidden args] /\
    tf (tr ++ before) (Invoke Hidden args) = p.

(** A server on which every command fails. *)
Definition tf_fails (tr : list invocation) (i : invocation) : proc_result :=
  Proc (Some (T "Error: Command failed")) [] (T "TF10139: no").

(** A server on which [add] fails and every other command succeeds. *)
Definition tf_no_add (tr : list invocation) (i : invocation) : proc_result :=
  match argv i with
  | cmd :: _ =>
      if text_eqb cmd (T "add")
      then Proc (Some (T "Error: Command failed")) [] (T "nothing to add")
      else Proc None (T "ok") []
  | [] => Proc None (T "ok") []
  end.

(** *** The collection *)

(** A character other than the slash. *)
Definition no_slash (a : ascii) : bool := negb (is_char "/" a).

(** A [URL] constructor for the examples: it takes every text for the
    address of an organisation project at dev.azure.com. *)
Definition azure_URL (raw : text) : option URL :=
  Some (Url (T "https:") (T "dev.azure.com") (T "dev.azure.com")
            (T "/contoso/Project/_versionControl")).

(** *** The detailed pending-changes parser *)

(** [subsequence s l]: [s] is [l] with some of its members left out. *)
Inductive subsequence {A : Type} : list A -> list A -> Prop :=
| subsequence_nil : subsequence [] []
| subsequence_skip a s l : subsequence s l -> subsequence s (a :: l)
| subsequence_take a s l : subsequence s l -> subsequence (a :: s) (a :: l).

(** The path lines of an output: the lines that, without the white
    space around them, begin with [$/] or with a drive letter. *)
Definition path_lines (ls : list text) : list text :=
  filter (test re_path_line) (map trim ls).

(** The path that [parsePendingDetailed] holds, if it holds one. *)
Definition held (p : option text) : list text :=
  match p with Some x => [x] | None => [] end.

(** What [parsePendingDetailed] keeps true of a record. *)
Definition detailed_record (it : TFPendingItem) : Prop :=
  In (action it) ACTIONS /\
  test re_path_line (file it) = true /\
  trim (file it) = file it.

(** *** The fields of a history entry *)

(** The change words of an item line of the history. *)
Definition HISTORY_CHANGES : list text :=
  [T "edit"; T "add"; T "delete"; T "rename"; T "merge"].

(** What [parseHistory] keeps true of a file of an entry: its change
    is one of the five words in the letter case of the output, its
    path stands on one line and has no white space around it. *)
Definition file_record (f : TFFile) : Prop :=
  (exists w, In w HISTORY_CHANGES /\ spells_ci w (change f)) /\
  trim (path f) = path f /\
  forallb is_dot (path f) = true.

(** What it keeps true of an entry. *)
Definition history_record (h : TFHistoryItem) : Prop :=
  (trim (author h) = author h /\ forallb is_dot (author h) = true) /\
  (trim (date h) = date h /\ forallb is_dot (date h) = true) /\
  trim (comment h) = comment h /\
  Forall file_record (files h).

(** *** The records of a pending-changes query *)

(** A record as [pendingChanges] returns it: an action out of the six
    words, and a file that [toLocalPath] has returned. *)
Definition localized_record (path_join : text -> text -> text) (cwd : text)
    (config : option VstfsConfig) (it : TFPendingItem) : Prop :=
  In (action it) ACTIONS /\
  exists raw, file it = toLocalPath path_join cwd config raw.

(** *** Earlier changesets *)

(** The order of the numbers: [Infinity] is above every whole number. *)
Definition number_le (x y : number) : Prop :=
  match x, y with
  | Num a, Num b => (a <= b)%N
  | _, Infinity => True
  | Infinity, Num _ => False
  end.

Definition number_lt (x y : number) : Prop :=
  match x, y with
  | Num a, Num b => (a < b)%N
  | Num _, Infinity => True
  | Infinity, _ => False
  end.

(** Entries in descending order of their numbers. *)
Fixpoint descending (l : list TFHistoryItem) : Prop :=
  match l with
  | [] => True
  | a :: l' =>
      (forall x, In x l' -> number_le (changesetId x) (changesetId a)) /\ descending l'
  end.

(** The argument vector of the query of [getPreviousChangesetIdForFile]. *)
Definition previous_query (file : text) (currentId : N) : list text :=
  [T "history"; file; T "/format:detailed"; T "/stopafter:2";
   T "/version:C1~C" ++ decimal currentId; T "/noprompt"].

(** A [path.basename] for the examples: what follows the last slash
    or backslash. *)
Fixpoint last_segment (s acc : text) : text :=
  match s with
  | [] => rev acc
  | a :: s' =>
      if is_char "/" a || is_char "\" a then last_segment s' []
      else last_segment s' (a :: acc)
  end.

Definition simple_basename (s : text) : text := last_segment s [].

(** A server that answers every query with a history of two entries
    for one file, changesets 5 and 3. *)
Definition tf_history_5_3 (tr : list invocation) (i : invocation) : proc_result :=
  Proc None
    (unlines [T "Changeset: 5"; T "Items:"; T "  edit $/Proj/A.cs";
              T "--------"; T "Changeset: 3"; T "Items:"; T "  add $/Proj/A.cs"])
    [].

(** *** Files at a changeset *)

(** [ls.join(sep)] *)
Fixpoint join (sep : text) (ls : list text) : text :=
  match ls with
  | [] => []
  | l :: ls' =>
      l ++ match ls' with [] => [] | _ :: _ => sep ++ join sep ls' end
  end.

(** The argument vector of the query of [getFileAtChangeset]. *)
Definition view_query (file : text) (id : N) : list text :=
  [T "view"; file ++ T ";C" ++ decimal id; T "/noprompt"].

(** A character that a file name may hold. *)
Definition unreserved (a : ascii) : bool := negb (is_reserved a).

(** *** The changeset panel *)

(** What [escapeHtml] writes for one character. *)
Definition escape_char (a : ascii) : text :=
  if is_html_special a then entity_of [a] else [a].

(** The five entities. *)
Definition entities : list text := map snd html_entities.

(** * Properties *)

(** ** The matcher against what a pattern matches *)

Lemma rev_cons_app {A} (a : A) (x sn : list A) :
  rev (a :: x) ++ sn = rev x ++ a :: sn.
Proof. simpl. rewrite <- app_assoc. reflexivity. Qed.

Lemma or_else_some {A} (x y : option A) (v : A) :
  or_else x y = Some v -> x = Some v \/ (x = None /\ y = Some v).
Proof. destruct x; simpl; intros H; [left | right]; auto. Qed.

Lemma or_else_not_none {A} (x y : option A) :
  x <> None \/ y <> None -> or_else x y <> None.
Proof. destruct x; simpl; intros [H | H]; congruence. Qed.

Lemma rep_sound g c k : forall rs lo sn cs res,
  rep g c lo k sn rs cs = Some res ->
  exists x rs', rs = x ++ rs' /\ forallb c x = true /\ lo <= length x /\
                k (MState (rev x ++ sn) rs' cs) = Some res.
Proof.
  induction rs as [| a rs IH]; intros lo sn cs res H.
  - destruct lo; simpl in H; [| discriminate].
    exists [], []. repeat split; auto.
  - assert (Hstop : k (MState sn (a :: rs) cs) = Some res ->
      exists x rs', a :: rs = x ++ rs' /\ forallb c x = true /\ 0 <= length x /\
                    k (MState (rev x ++ sn) rs' cs) = Some res).
    { intros Hk. exists [], (a :: rs). repeat split; auto. }
    assert (Hgo : forall lo', rep g c lo' k (a :: sn) rs cs = Some res ->
      c a = true ->
      exists x rs', a :: rs = x ++ rs' /\ forallb c x = true /\
                    S lo' <= length x /\
                    k (MState (rev x ++ sn) rs' cs) = Some res).
    { intros lo' Hr Hc. destruct (IH _ _ _ _ Hr) as (x & rs' & -> & Hx & Hlo & Hk).
      exists (a :: x), rs'. rewrite rev_cons_app. simpl. rewrite Hc, Hx.
      repeat split; auto. lia. }
    destruct lo as [| lo]; simpl in H.
    + destruct (c a) eqn:Hc; [| auto].
      destruct g; apply or_else_some in H; destruct H as [H | [_ H]]; auto;
        destruct (Hgo 0 H eq_refl) as (x & rs' & ? & ? & ? & ?);
        exists x, rs'; repeat split; auto; lia.
    + destruct (c a) eqn:Hc; [| discriminate]. apply Hgo; auto.
Qed.

Lemma rep_complete g c k : forall x lo sn rs' cs,
  forallb c x = true -> lo <= length x ->
  k (MState (rev x ++ sn) rs' cs) <> None ->
  rep g c lo k sn (x ++ rs') cs <> None.
Proof.
  induction x as [| a x IH]; intros lo sn rs' cs Hx Hlo Hk.
  - assert (lo = 0) by (simpl in Hlo; lia). subst lo. simpl in *.
    destruct rs' as [| b rs']; simpl; auto.
    destruct (c b); auto.
    destruct g; apply or_else_not_none; auto.
  - simpl in Hx. apply andb_true_iff in Hx. destruct Hx as [Hc Hx].
    rewrite rev_cons_app in Hk.
    destruct lo as [| lo]; simpl; rewrite Hc.
    + specialize (IH 0 (a :: sn) rs' cs Hx (Nat.le_0_l _) Hk).
      destruct g; apply or_else_not_none; auto.
    + apply IH; auto. simpl in Hlo. lia.
Qed.

(** Whatever the matcher returns, the continuation returned it at a
    state the pattern leads to. *)
Lemma matcher_sound : forall r k st res,
  matcher r k st = Some res ->
  exists st', matches r st st' /\ k st' = Some res.
Proof.
  induction r as [| c | r1 IH1 r2 IH2 | r1 IH1 r2 IH2 | g lo c | i r IH | m | m |];
    intros k st res H; simpl in H.
  - exists st. split; [reflexivity | exact H].
  - destruct (rest st) as [| a rs] eqn:Hr; [discriminate |].
    destruct (c a) eqn:Hc; [| discriminate].
    eexists. split; [| exact H]. simpl. exists a, rs. auto.
  - destruct (IH1 _ _ _ H) as (st1 & H1 & Hk1).
    destruct (IH2 _ _ _ Hk1) as (st2 & H2 & Hk2).
    exists st2. split; [| exact Hk2]. simpl. exists st1. auto.
  - apply or_else_some in H. destruct H as [H | [_ H]].
    + destruct (IH1 _ _ _ H) as (st' & H1 & Hk). exists st'. simpl. auto.
    + destruct (IH2 _ _ _ H) as (st' & H1 & Hk). exists st'. simpl. auto.
  - destruct (rep_sound _ _ _ _ _ _ _ _ H) as (x & rs' & Hr & Hx & Hlo & Hk).
    eexists. split; [| exact Hk]. simpl. exists x, rs'. auto.
  - destruct (IH _ _ _ H) as (st1 & H1 & Hk).
    eexists. split; [| exact Hk]. simpl. exists st1. auto.
  - destruct (at_bol m st) eqn:Hb; [| discriminate]. exists st. simpl. auto.
  - destruct (at_eol m st) eqn:Hb; [| discriminate]. exists st. simpl. auto.
  - destruct (xorb (word_before st) (word_after st)) eqn:Hb; [| discriminate].
    exists st. simpl. auto.
Qed.

(** If the pattern leads to a state that the continuation accepts, the
    matcher does not fail. *)
Lemma matcher_complete : forall r k st st',
  matches r st st' -> k st' <> None -> matcher r k st <> None.
Proof.
  induction r as [| c | r1 IH1 r2 IH2 | r1 IH1 r2 IH2 | g lo c | i r IH | m | m |];
    intros k st st' H Hk; simpl in H; simpl.
  - subst. exact Hk.
  - destruct H as (a & rs & Hr & Hc & ->). rewrite Hr, Hc. exact Hk.
  - destruct H as (st1 & H1 & H2). eapply IH1; eauto.
  - apply or_else_not_none. destruct H as [H | H]; [left | right]; eauto.
  - destruct H as (x & rs & Hx & Hlo & Hr & ->). rewrite Hr.
    apply rep_complete; auto.
  - destruct H as (st1 & H1 & ->). eapply IH; eauto.
  - destruct H as [Hb ->]. rewrite Hb. exact Hk.
  - destruct H as [Hb ->]. rewrite Hb. exact Hk.
  - destruct H as [Hb ->]. rewrite Hb. exact Hk.
Qed.

(** A match moves code units from [rest] to [seen] and nothing else. *)
Lemma matches_shape : forall r st st',
  matches r st st' ->
  exists x, rest st = x ++ rest st' /\ seen st' = rev x ++ seen st.
Proof.
  induction r as [| c | r1 IH1 r2 IH2 | r1 IH1 r2 IH2 | g lo c | i r IH | m | m |];
    intros st st' H; simpl in H.
  - subst. exists []. auto.
  - destruct H as (a & rs & Hr & _ & ->). exists [a]. auto.
  - destruct H as (st1 & H1 & H2).
    destruct (IH1 _ _ H1) as (x & Hx & Hs), (IH2 _ _ H2) as (y & Hy & Ht).
    exists (x ++ y). rewrite Hx, Hy, Ht, Hs, rev_app_distr, !app_assoc. auto.
  - destruct H as [H | H]; eauto.
  - destruct H as (x & rs & _ & _ & Hr & ->). exists x. auto.
  - destruct H as (st1 & H1 & ->). destruct (IH _ _ H1) as (x & Hx & Hs).
    exists x. auto.
  - destruct H as [_ ->]. exists []. auto.
  - destruct H as [_ ->]. exists []. auto.
  - destruct H as [_ ->]. exists []. auto.
Qed.

Lemma span_shape st st' x :
  seen st' = rev x ++ seen st -> span st st' = x.
Proof.
  intros H. unfold span. rewrite H, length_app, Nat.add_sub.
  rewrite firstn_app, Nat.sub_diag, firstn_all. simpl.
  rewrite app_nil_r. apply rev_involutive.
Qed.

(** A match leaves the groups alone that the pattern does not hold. *)
Lemma matches_frame : forall r st st' i,
  matches r st st' -> ~ In i (groups_of r) ->
  lookup_cap i (caps st') = lookup_cap i (caps st).
Proof.
  induction r as [| c | r1 IH1 r2 IH2 | r1 IH1 r2 IH2 | g lo c | j r IH | m | m |];
    intros st st' i H Hi; simpl in H, Hi.
  - subst. auto.
  - destruct H as (a & rs & _ & _ & ->). auto.
  - destruct H as (st1 & H1 & H2). rewrite in_app_iff in Hi.
    rewrite (IH2 _ _ i H2), (IH1 _ _ i H1); auto.
  - rewrite in_app_iff in Hi. destruct H as [H | H]; eauto.
  - destruct H as (x & rs & _ & _ & _ & ->). auto.
  - destruct H as (st1 & H1 & ->). simpl.
    destruct (Nat.eqb_spec i j) as [-> | _]; [tauto |].
    apply IH; auto.
  - destruct H as [_ ->]. auto.
  - destruct H as [_ ->]. auto.
  - destruct H as [_ ->]. auto.
Qed.

Lemma match_here_sound r sn rs st :
  match_here r sn rs = Some st -> matches r (MState sn rs []) st.
Proof.
  intros H. destruct (matcher_sound _ _ _ _ H) as (st' & Hm & Hk).
  injection Hk as <-. exact Hm.
Qed.

Lemma match_here_complete r sn rs st :
  matches r (MState sn rs []) st -> match_here r sn rs <> None.
Proof.
  intros H. apply (matcher_complete _ _ _ _ H). discriminate.
Qed.

(** The leftmost position at which the pattern matches. *)
Lemma search_some r : forall rs sn f,
  search r sn rs = Some f ->
  exists p q st,
    rs = p ++ q /\ match_here r (rev p ++ sn) q = Some st /\
    f = found_of (rev p ++ sn) st /\
    forall p1 a p2, p = p1 ++ a :: p2 ->
      match_here r (rev p1 ++ sn) (a :: p2 ++ q) = None.
Proof.
  induction rs as [| a rs IH]; intros sn f H; simpl in H.
  - destruct (match_here r sn []) as [st |] eqn:Hm; [| discriminate].
    injection H as <-. exists [], [], st. repeat split; auto.
    intros [| ? ?]; discriminate.
  - destruct (match_here r sn (a :: rs)) as [st |] eqn:Hm.
    + injection H as <-. exists [], (a :: rs), st. repeat split; auto.
      intros [| ? ?]; discriminate.
    + destruct (IH _ _ H) as (p & q & st & -> & Hq & -> & Hleft).
      exists (a :: p), q, st. rewrite rev_cons_app. repeat split; auto.
      intros [| b p1] c p2 Hp; simpl in Hp; injection Hp as -> ->.
      * exact Hm.
      * rewrite rev_cons_app. auto.
Qed.

Lemma search_none r : forall rs sn,
  search r sn rs = None <->
  forall p q, rs = p ++ q -> match_here r (rev p ++ sn) q = None.
Proof.
  induction rs as [| a rs IH]; intros sn; simpl.
  - split.
    + intros H p q Hpq. symmetry in Hpq. apply app_eq_nil in Hpq.
      destruct Hpq as [-> ->]. simpl. destruct (match_here r sn []); congruence.
    + intros H. pose proof (H [] [] eq_refl) as H0. simpl in H0.
      rewrite H0. reflexivity.
  - split.
    + intros H [| b p] q Hpq; simpl in Hpq.
      * subst q. simpl. destruct (match_here r sn (a :: rs)); congruence.
      * injection Hpq as Hab Hrs. subst b rs. rewrite rev_cons_app.
        destruct (match_here r sn (a :: p ++ q)); [discriminate |].
        apply (proj1 (IH _) H). reflexivity.
    + intros H. pose proof (H [] (a :: rs) eq_refl) as H0. simpl in H0.
      rewrite H0. apply IH.
      intros p q ->. rewrite <- rev_cons_app. apply H. reflexivity.
Qed.

Lemma search_found r p q sn :
  match_here r (rev p ++ sn) q <> None -> search r sn (p ++ q) <> None.
Proof.
  intros H Hn. apply H. apply (proj1 (search_none r _ sn) Hn). reflexivity.
Qed.

(** ** Facts about [exec], [test] and [replace] *)

Lemma exec_inv r s f :
  exec r s = Some f ->
  exists p q st,
    s = p ++ q /\ matches r (MState (rev p) q []) st /\
    before f = p /\ after f = rest st /\ groups f = caps st /\
    forall p1 a p2, p = p1 ++ a :: p2 ->
      match_here r (rev p1) (a :: p2 ++ q) = None.
Proof.
  intros H. apply search_some in H.
  destruct H as (p & q & st & -> & Hm & -> & Hleft).
  rewrite app_nil_r in *. exists p, q, st. repeat split.
  - apply match_here_sound. exact Hm.
  - simpl. apply rev_involutive.
  - intros p1 a p2 Hp. specialize (Hleft p1 a p2 Hp).
    rewrite app_nil_r in Hleft. exact Hleft.
Qed.

Lemma exec_intro r p q st :
  matches r (MState (rev p) q []) st -> exec r (p ++ q) <> None.
Proof.
  intros H. apply search_found. rewrite app_nil_r.
  eapply match_here_complete. exact H.
Qed.

Lemma exec_none r s :
  exec r s = None ->
  forall p q st, s = p ++ q -> ~ matches r (MState (rev p) q []) st.
Proof.
  intros H p q st -> Hm. apply (exec_intro _ _ _ _ Hm). exact H.
Qed.

Lemma test_true r s :
  test r s = true -> exists f, exec r s = Some f.
Proof. unfold test. destruct (exec r s); eauto; discriminate. Qed.

Lemma test_false r s : test r s = false -> exec r s = None.
Proof. unfold test. destruct (exec r s); auto; discriminate. Qed.

Lemma test_intro r p q st :
  matches r (MState (rev p) q []) st -> test r (p ++ q) = true.
Proof.
  intros H. unfold test. pose proof (exec_intro _ _ _ _ H).
  destruct (exec r (p ++ q)); congruence.
Qed.

Lemma replace_no_match r by_ s : test r s = false -> replace r by_ s = s.
Proof. intros H. unfold replace. rewrite (test_false _ _ H). reflexivity. Qed.

(** A pattern that opens with [^] (no [m] flag) matches at the start
    of the text or nowhere. *)
Lemma anchored_at_start r p q st :
  matches (Seq (Bol false) r) (MState (rev p) q []) st -> p = [].
Proof.
  simpl. intros (st1 & [Hb ->] & _). unfold at_bol in Hb. simpl in Hb.
  destruct (rev p) eqn:Hp; [| discriminate].
  apply (f_equal (@rev ascii)) in Hp. rewrite rev_involutive in Hp. exact Hp.
Qed.

(** [s.replace(/c/g, b)] for a single-character pattern and a
    single-character replacement rewrites the text unit by unit. *)
Lemma replace_all_char c b : forall s sn,
  replace_scan (Chr c) [b] 0 sn s = map (fun a => if c a then b else a) s.
Proof.
  induction s as [| a s IH]; intros sn; simpl; [reflexivity |].
  unfold match_here. simpl matcher. destruct (c a); simpl seen; simpl length.
  - rewrite Nat.sub_succ_l, Nat.sub_diag by lia. simpl. rewrite IH. reflexivity.
  - rewrite IH. reflexivity.
Qed.

(** ** Literals and word lists *)

Lemma is_char_eq c a : is_char c a = true -> a = c.
Proof. unfold is_char. intros H. apply Ascii.eqb_eq in H. auto. Qed.

Lemma is_char_refl c : is_char c c = true.
Proof. apply Ascii.eqb_refl. Qed.

Lemma is_char_ci_exact c a :
  is_alpha c = false -> is_char_ci c a = true -> a = c.
Proof.
  unfold is_char_ci. intros ->. intros H. apply Ascii.eqb_eq in H. auto.
Qed.

Lemma is_char_ci_lower c a : is_char_ci c a = true -> lower_char a = lower_char c.
Proof.
  unfold is_char_ci. destruct (is_alpha c).
  - intros H. apply andb_true_iff in H. destruct H as [_ H].
    apply Ascii.eqb_eq in H. auto.
  - intros H. apply Ascii.eqb_eq in H. subst. reflexivity.
Qed.

Lemma spells_ci_lower w x : spells_ci w x -> toLowerCase x = toLowerCase w.
Proof.
  induction 1 as [| c a w x Hc _ IH]; simpl; [reflexivity |].
  rewrite IH, (is_char_ci_lower _ _ Hc). reflexivity.
Qed.

Lemma lit_ci_matches : forall w st st',
  matches (lit_ci w) st st' -> exists x, advanced st st' x /\ spells_ci w x.
Proof.
  induction w as [| c w IH]; intros st st' H.
  - simpl in H. subst. exists []. repeat split. constructor.
  - change (lit_ci (c :: w)) with (Seq (Chr (is_char_ci c)) (lit_ci w)) in H.
    simpl in H. destruct H as (st1 & (a & rs & Hr & Hc & ->) & H).
    destruct (IH _ _ H) as (x & (Hx & Hs & Hcaps) & Hw). simpl in *.
    exists (a :: x). repeat split.
    + rewrite Hr, Hx. reflexivity.
    + rewrite Hs. simpl. rewrite <- app_assoc. reflexivity.
    + exact Hcaps.
    + constructor; assumption.
Qed.

Lemma words_ci_matches : forall ws st st',
  matches (words_ci ws) st st' ->
  exists w x, In w ws /\ advanced st st' x /\ spells_ci w x.
Proof.
  induction ws as [| w ws IH]; intros st st' H.
  - simpl in H. destruct H as (a & rs & _ & Hf & _). discriminate.
  - destruct ws as [| w' ws].
    + change (words_ci [w]) with (lit_ci w) in H.
      destruct (lit_ci_matches _ _ _ H) as (x & Hx & Hw).
      exists w, x. simpl. auto.
    + change (words_ci (w :: w' :: ws))
        with (Alt (lit_ci w) (words_ci (w' :: ws))) in H.
      simpl in H. destruct H as [H | H].
      * destruct (lit_ci_matches _ _ _ H) as (x & Hx & Hw).
        exists w, x. simpl. auto.
      * destruct (IH _ _ H) as (v & x & Hin & Hx & Hw).
        exists v, x. split; [right; exact Hin | auto].
Qed.

Lemma matches_seq_app : forall l1 l2 st st',
  matches (seq (l1 ++ l2)) st st' <->
  exists mid, matches (seq l1) st mid /\ matches (seq l2) mid st'.
Proof.
  induction l1 as [| r l1 IH]; intros l2 st st'.
  - simpl. split.
    + intros H. exists st. auto.
    + intros (mid & -> & H). exact H.
  - change (seq ((r :: l1) ++ l2)) with (Seq r (seq (l1 ++ l2))).
    change (seq (r :: l1)) with (Seq r (seq l1)). simpl. split.
    + intros (st1 & H1 & H). apply IH in H. destruct H as (mid & H2 & H3).
      exists mid. split; [exists st1; auto | exact H3].
    + intros (mid & (st1 & H1 & H2) & H3). exists st1. split; [exact H1 |].
      apply IH. exists mid. auto.
Qed.

Lemma rep_matches g lo c st st' :
  matches (Rep g lo c) st st' ->
  exists x, advanced st st' x /\ forallb c x = true /\ lo <= length x.
Proof.
  simpl. intros (x & rs & Hx & Hlo & Hr & ->). exists x. repeat split; auto.
Qed.

Lemma matcher_seq_sound r1 r2 k st res :
  matcher (Seq r1 r2) k st = Some res ->
  exists st1, matches r1 st st1 /\ matcher r2 k st1 = Some res.
Proof. simpl. apply matcher_sound. Qed.

(** ** Building a match *)

Lemma nonempty_length {A} (l : list A) : l <> [] -> 1 <= length l.
Proof. destruct l; simpl; [congruence | lia]. Qed.

Lemma matches_seq_cons r rs st mid st' :
  matches r st mid -> matches (seq rs) mid st' -> matches (seq (r :: rs)) st st'.
Proof. intros H1 H2. exists mid. auto. Qed.

Lemma step_bol rs sn cs st' :
  matches (seq rs) (MState [] sn cs) st' ->
  matches (seq (Bol false :: rs)) (MState [] sn cs) st'.
Proof. intros H. eexists. split; [split; reflexivity | exact H]. Qed.

Lemma step_eol rs sn cs st' :
  matches (seq rs) (MState sn [] cs) st' ->
  matches (seq (Eol false :: rs)) (MState sn [] cs) st'.
Proof. intros H. eexists. split; [split; reflexivity | exact H]. Qed.

Lemma step_rep g lo c x rs sn q cs st' :
  forallb c x = true -> lo <= length x ->
  matches (seq rs) (MState (rev x ++ sn) q cs) st' ->
  matches (seq (Rep g lo c :: rs)) (MState sn (x ++ q) cs) st'.
Proof.
  intros Hx Hlo H. eexists. split; [| exact H]. exists x, q. auto.
Qed.

Lemma step_grp_rep i g lo c x rs sn q cs st' :
  forallb c x = true -> lo <= length x ->
  matches (seq rs) (MState (rev x ++ sn) q ((i, x) :: cs)) st' ->
  matches (seq (Grp i (Rep g lo c) :: rs)) (MState sn (x ++ q) cs) st'.
Proof.
  intros Hx Hlo H. eexists. split; [| exact H].
  exists (MState (rev x ++ sn) q cs). split; [exists x, q; auto |].
  unfold set_cap. simpl. rewrite (span_shape _ _ x); reflexivity.
Qed.

Lemma spells_ci_matches : forall w x sn q cs,
  spells_ci w x ->
  matches (lit_ci w) (MState sn (x ++ q) cs) (MState (rev x ++ sn) q cs).
Proof.
  induction w as [| c w IH]; intros x sn q cs H; inversion H as [| ? a ? x' Hc Hw]; subst.
  - reflexivity.
  - change (lit_ci (c :: w)) with (Seq (Chr (is_char_ci c)) (lit_ci w)).
    exists (MState (a :: sn) (x' ++ q) cs). split.
    + exists a, (x' ++ q). auto.
    + rewrite rev_cons_app. apply IH. exact Hw.
Qed.

(** ** What a greedy repetition takes *)

(** A greedy repetition in front of a continuation that accepts
    everything takes all it can. *)
Lemma rep_greedy_total c (f : mstate -> mstate) : forall rs lo sn cs res,
  rep true c lo (fun st => Some (f st)) sn rs cs = Some res ->
  exists x rs', rs = x ++ rs' /\ forallb c x = true /\ lo <= length x /\
                stops c rs' /\ res = f (MState (rev x ++ sn) rs' cs).
Proof.
  induction rs as [| a rs IH]; intros lo sn cs res H.
  - destruct lo; simpl in H; [| discriminate]. injection H as <-.
    exists [], []. repeat split; auto.
  - assert (Hgo : forall lo', rep true c lo' (fun st => Some (f st)) (a :: sn) rs cs
                              = Some res -> c a = true ->
      exists x rs', a :: rs = x ++ rs' /\ forallb c x = true /\
                    S lo' <= length x /\ stops c rs' /\
                    res = f (MState (rev x ++ sn) rs' cs)).
    { intros lo' Hr Hc.
      destruct (IH _ _ _ _ Hr) as (x & rs' & -> & Hx & Hlo & Hstop & ->).
      exists (a :: x), rs'. rewrite rev_cons_app. simpl. rewrite Hc, Hx.
      repeat split; auto. lia. }
    destruct lo as [| lo]; simpl in H.
    + destruct (c a) eqn:Hc.
      * apply or_else_some in H. destruct H as [H | [Hnone _]].
        -- destruct (Hgo 0 H eq_refl) as (x & rs' & ? & ? & ? & ? & ?).
           exists x, rs'. repeat split; auto. lia.
        -- exfalso. revert Hnone.
           apply (rep_complete true c _ [] 0 (a :: sn) rs cs);
             [reflexivity | simpl; lia | discriminate].
      * injection H as <-. exists [], (a :: rs). repeat split; auto.
    + destruct (c a) eqn:Hc; [| discriminate]. apply Hgo; auto.
Qed.

Lemma rep_greedy_max c k : forall x lo sn q cs res,
  forallb c x = true -> lo <= length x -> stops c q ->
  k (MState (rev x ++ sn) q cs) = Some res ->
  rep true c lo k sn (x ++ q) cs = Some res.
Proof.
  induction x as [| a x IH]; intros lo sn q cs res Hx Hlo Hstop Hk.
  - assert (lo = 0) by (simpl in Hlo; lia). subst lo. simpl in *.
    destruct q as [| b q]; [exact Hk |]. simpl in *. rewrite Hstop. exact Hk.
  - simpl in Hx. apply andb_true_iff in Hx. destruct Hx as [Hc Hx].
    rewrite rev_cons_app in Hk.
    destruct lo as [| lo]; simpl; rewrite Hc.
    + rewrite (IH 0 (a :: sn) q cs res); auto. lia.
    + apply IH; auto. simpl in Hlo. lia.
Qed.

Lemma matcher_lit_ci : forall w x k sn q cs,
  spells_ci w x ->
  matcher (lit_ci w) k (MState sn (x ++ q) cs) = k (MState (rev x ++ sn) q cs).
Proof.
  induction w as [| c w IH]; intros x k sn q cs H;
    inversion H as [| ? a ? x' Hc Hw]; subst.
  - reflexivity.
  - change (lit_ci (c :: w)) with (Seq (Chr (is_char_ci c)) (lit_ci w)).
    simpl. rewrite Hc, <- app_assoc. apply IH. exact Hw.
Qed.

Lemma rep_greedy_all c k x lo sn cs res :
  forallb c x = true -> lo <= length x ->
  k (MState (rev x ++ sn) [] cs) = Some res ->
  rep true c lo k sn x cs = Some res.
Proof.
  intros Hx Hlo Hk.
  pose proof (rep_greedy_max c k x lo sn [] cs res Hx Hlo I Hk) as H.
  rewrite app_nil_r in H. exact H.
Qed.

Lemma span_states sn r cs x r' cs' :
  span (MState sn r cs) (MState (rev x ++ sn) r' cs') = x.
Proof. apply span_shape. reflexivity. Qed.

(** ** What a lazy repetition takes *)

Lemma rep_stops_none g c lo k sn rs cs :
  stops c rs -> rep g c (S lo) k sn rs cs = None.
Proof.
  destruct rs as [| a rs]; simpl; [reflexivity |]. intros ->. reflexivity.
Qed.

(** A lazy repetition stops at the first length at which the
    continuation accepts. *)
Lemma rep_lazy_first c k : forall x lo sn q cs res,
  forallb c x = true -> lo <= length x ->
  (forall x1 x2, x = x1 ++ x2 -> x2 <> [] -> lo <= length x1 ->
     k (MState (rev x1 ++ sn) (x2 ++ q) cs) = None) ->
  k (MState (rev x ++ sn) q cs) = Some res ->
  rep false c lo k sn (x ++ q) cs = Some res.
Proof.
  induction x as [| a x IH]; intros lo sn q cs res Hx Hlo Hfail Hk.
  - assert (lo = 0) by (simpl in Hlo; lia). subst lo. simpl in *.
    destruct q as [| b q]; [exact Hk |]. simpl.
    destruct (c b); [rewrite Hk; reflexivity | exact Hk].
  - simpl in Hx. apply andb_true_iff in Hx. destruct Hx as [Hc Hx].
    rewrite rev_cons_app in Hk.
    assert (Hshift : forall lo', lo' <= length x ->
              (forall x1 x2, a :: x = x1 ++ x2 -> x2 <> [] -> S lo' <= length x1 ->
                 k (MState (rev x1 ++ sn) (x2 ++ q) cs) = None) ->
              rep false c lo' k (a :: sn) (x ++ q) cs = Some res).
    { intros lo' Hlo' Hf. apply IH; auto.
      intros x1 x2 Hsplit Hne Hl. rewrite <- rev_cons_app.
      apply Hf; [rewrite Hsplit; reflexivity | exact Hne | simpl; lia]. }
    destruct lo as [| lo]; simpl; rewrite Hc.
    + pose proof (Hfail [] (a :: x) eq_refl) as H0. simpl in H0.
      rewrite H0 by (try discriminate; lia).
      simpl. apply Hshift; [lia |].
      intros x1 x2 Hsplit Hne _. apply Hfail; auto. lia.
    + apply Hshift; [simpl in Hlo; lia |]. intros x1 x2 Hsplit Hne Hl.
      apply Hfail; auto.
Qed.

(** ** Patterns that a text cannot match *)

Lemma in_all_ascii a : In a all_ascii.
Proof.
  unfold all_ascii. rewrite <- (ascii_nat_embedding a).
  apply in_map, in_seq. pose proof (nat_ascii_bounded a). lia.
Qed.

Lemma disjoint_spec ok c a : disjoint ok c = true -> ok a = true -> c a = false.
Proof.
  unfold disjoint. rewrite forallb_forall. intros H Hok.
  specialize (H a (in_all_ascii a)). rewrite Hok in H. simpl in H.
  destruct (c a); [discriminate | reflexivity].
Qed.

Lemma blocked_no_match ok : forall r st st',
  blocked ok r = true -> forallb ok (rest st) = true -> ~ matches r st st'.
Proof.
  induction r as [| c | r1 IH1 r2 IH2 | r1 IH1 r2 IH2 | g lo c | i r IH | m | m |];
    intros st st' Hb Hok H; simpl in Hb, H; try discriminate.
  - destruct H as (a & rs & Hr & Hc & _). rewrite Hr in Hok. simpl in Hok.
    apply andb_true_iff in Hok. destruct Hok as [Ha _].
    rewrite (disjoint_spec _ _ _ Hb Ha) in Hc. discriminate.
  - destruct H as (st1 & H1 & H2). apply orb_true_iff in Hb.
    destruct Hb as [Hb | Hb]; [apply (IH1 _ _ Hb Hok H1) |].
    apply (IH2 _ _ Hb) in H2; [exact H2 |].
    destruct (matches_shape _ _ _ H1) as (x & Hx & _).
    rewrite Hx, forallb_app in Hok. apply andb_true_iff in Hok. tauto.
  - apply andb_true_iff in Hb. destruct Hb as [Hb1 Hb2].
    destruct H as [H | H]; [apply (IH1 _ _ Hb1 Hok H) | apply (IH2 _ _ Hb2 Hok H)].
  - destruct H as (x & rs & Hx & Hlo & Hr & _).
    apply andb_true_iff in Hb. destruct Hb as [Hpos Hd].
    apply Nat.ltb_lt in Hpos. destruct x as [| a x]; [simpl in Hlo; lia |].
    rewrite Hr in Hok. simpl in Hok, Hx.
    apply andb_true_iff in Hok, Hx. destruct Hok as [Ha _], Hx as [Hc _].
    rewrite (disjoint_spec _ _ _ Hd Ha) in Hc. discriminate.
  - destruct H as (st1 & H1 & _). apply (IH _ _ Hb Hok H1).
Qed.

Lemma blocked_match_here ok r sn q :
  blocked ok r = true -> forallb ok q = true -> match_here r sn q = None.
Proof.
  intros Hb Hok. destruct (match_here r sn q) as [st |] eqn:H; [| reflexivity].
  apply match_here_sound in H.
  destruct (blocked_no_match ok r (MState sn q []) st Hb Hok H).
Qed.

Lemma blocked_exec ok r s :
  blocked ok r = true -> forallb ok s = true -> exec r s = None.
Proof.
  intros Hb Hok. apply search_none. intros p q ->.
  rewrite forallb_app in Hok. apply andb_true_iff in Hok.
  apply (blocked_match_here ok); tauto.
Qed.

Lemma blocked_test ok r s :
  blocked ok r = true -> forallb ok s = true -> test r s = false.
Proof. intros Hb Hok. unfold test. rewrite (blocked_exec ok); auto. Qed.

Lemma blocked_replace ok r by_ s :
  blocked ok r = true -> forallb ok s = true -> replace r by_ s = s.
Proof. intros Hb Hok. unfold replace. rewrite (blocked_exec ok); auto. Qed.

Lemma blocked_replace_scan ok r by_ : forall s sn,
  blocked ok r = true -> forallb ok s = true -> replace_scan r by_ 0 sn s = s.
Proof.
  induction s as [| a s IH]; intros sn Hb Hok; simpl.
  - rewrite (blocked_match_here ok); auto.
  - rewrite (blocked_match_here ok); auto. rewrite IH; auto.
    simpl in Hok. apply andb_true_iff in Hok. tauto.
Qed.

Lemma blocked_split_scan ok r : forall s piece sn,
  blocked ok r = true -> forallb ok s = true ->
  split_scan r 0 piece sn s = [rev piece ++ s].
Proof.
  induction s as [| a s IH]; intros piece sn Hb Hok; simpl.
  - rewrite app_nil_r. reflexivity.
  - rewrite (blocked_match_here ok); auto. rewrite IH; auto.
    + simpl. rewrite <- app_assoc. reflexivity.
    + simpl in Hok. apply andb_true_iff in Hok. tauto.
Qed.

(** ** Trimming and numerals *)

Lemma drop_spaces_suffix : forall s, exists p, s = p ++ drop_spaces s.
Proof.
  induction s as [| a s [p IH]]; simpl.
  - exists []. reflexivity.
  - destruct (is_space a).
    + exists (a :: p). simpl. rewrite <- IH. reflexivity.
    + exists []. reflexivity.
Qed.

Lemma drop_spaces_tight : forall s, tight (drop_spaces s).
Proof.
  induction s as [| a s IH]; simpl; [exact I |].
  destruct (is_space a) eqn:Ha; [exact IH | exact Ha].
Qed.

Lemma drop_spaces_fixed s : tight s -> drop_spaces s = s.
Proof. destruct s as [| a s]; simpl; [reflexivity | intros ->; reflexivity]. Qed.

Lemma tight_app s t : tight (s ++ t) -> s <> [] -> tight s.
Proof. destruct s; simpl; [congruence | auto]. Qed.

Lemma trim_idem s : trim (trim s) = trim s.
Proof.
  unfold trim. set (u := drop_spaces s). set (v := drop_spaces (rev u)).
  assert (Hv : tight v) by apply drop_spaces_tight.
  assert (Hrv : tight (rev v)).
  { destruct (drop_spaces_suffix (rev u)) as [p Hp]. fold v in Hp.
    apply (f_equal (@rev ascii)) in Hp.
    rewrite rev_involutive, rev_app_distr in Hp.
    destruct v as [| a v']; [exact I |].
    apply (tight_app (rev (a :: v')) (rev p)).
    - rewrite <- Hp. apply drop_spaces_tight.
    - simpl. intros H. apply app_eq_nil in H. destruct H; discriminate. }
  rewrite (drop_spaces_fixed _ Hrv), rev_involutive, (drop_spaces_fixed _ Hv).
  reflexivity.
Qed.

Lemma plain_trim s : forallb plain s = true -> trim s = s.
Proof.
  intros H. unfold trim.
  assert (Ht : forall t, forallb plain t = true -> drop_spaces t = t).
  { intros [| a t] Ha; simpl; [reflexivity |]. simpl in Ha.
    apply andb_true_iff in Ha. destruct Ha as [Ha _].
    assert (Hd : disjoint plain is_space = true) by (vm_compute; reflexivity).
    rewrite (disjoint_spec _ _ _ Hd Ha). reflexivity. }
  rewrite (Ht s H), Ht, rev_involutive; [reflexivity |].
  rewrite forallb_forall in *. intros a Ha. apply H, in_rev, Ha.
Qed.

Lemma digit_not_semicolon x : forallb is_digit x = true -> ~ In ";" x.
Proof.
  intros H Hin. rewrite forallb_forall in H. specialize (H _ Hin). discriminate.
Qed.

Lemma digit_not_space a : is_digit a = true -> is_space a = false.
Proof.
  assert (Hd : disjoint is_digit is_space = true) by (vm_compute; reflexivity).
  apply (disjoint_spec _ _ _ Hd).
Qed.

Lemma digit_char k : k < 10 -> is_digit (ascii_of_nat (48 + k)) = true.
Proof.
  intros H. do 10 (destruct k as [| k]; [reflexivity |]). lia.
Qed.

Lemma digits_of_digits fuel : forall n acc,
  forallb is_digit acc = true -> forallb is_digit (digits_of fuel n acc) = true.
Proof.
  induction fuel as [| fuel IH]; intros n acc Hacc; cbn [digits_of];
    [exact Hacc |].
  assert (Hd : is_digit (ascii_of_nat (48 + N.to_nat (n mod 10))) = true).
  { apply digit_char. pose proof (N.mod_lt n 10). lia. }
  destruct (N.ltb n 10).
  - cbn [forallb]. rewrite Hd. exact Hacc.
  - apply IH. cbn [forallb]. rewrite Hd. exact Hacc.
Qed.

Lemma digits_of_nonempty fuel : forall n acc,
  acc <> [] \/ fuel <> 0 -> digits_of fuel n acc <> [].
Proof.
  induction fuel as [| fuel IH]; intros n acc H; cbn [digits_of].
  - destruct H; congruence.
  - destruct (N.ltb n 10); [discriminate |]. apply IH. left. discriminate.
Qed.

Lemma decimal_digits n : decimal n <> [] /\ forallb is_digit (decimal n) = true.
Proof.
  unfold decimal. split.
  - apply digits_of_nonempty. right. discriminate.
  - apply digits_of_digits. reflexivity.
Qed.

Lemma digit_val_char k : k < 10 -> digit_val (ascii_of_nat (48 + k)) = N.of_nat k.
Proof.
  intros H. unfold digit_val, code. rewrite nat_ascii_embedding by lia.
  f_equal. lia.
Qed.

Lemma digits_of_read fuel : forall n acc,
  (n < 10 ^ N.of_nat fuel)%N ->
  fold_left read_digit (digits_of fuel n acc) 0%N = fold_left read_digit acc n.
Proof.
  induction fuel as [| fuel IH]; intros n acc Hn.
  - simpl in *. assert (n = 0%N) by lia. subst. reflexivity.
  - cbn [digits_of].
    assert (Hd : digit_val (ascii_of_nat (48 + N.to_nat (n mod 10))) = (n mod 10)%N).
    { rewrite digit_val_char.
      - apply N2Nat.id.
      - pose proof (N.mod_lt n 10). lia. }
    destruct (N.ltb_spec n 10) as [Hlt | Hge].
    + cbn [fold_left]. unfold read_digit at 2. rewrite Hd.
      rewrite N.mod_small by exact Hlt. reflexivity.
    + rewrite IH.
      * cbn [fold_left]. unfold read_digit at 2. rewrite Hd.
        rewrite <- N.div_mod by discriminate. reflexivity.
      * rewrite Nat2N.inj_succ, N.pow_succ_r' in Hn.
        apply N.Div0.div_lt_upper_bound. exact Hn.
Qed.

(** The value of the decimal numeral of [n] is [n]. *)
Lemma MV_decimal n : MV (decimal n) = n.
Proof.
  unfold MV, decimal.
  change (fun acc a => (10 * acc + digit_val a)%N) with read_digit.
  rewrite digits_of_read; [reflexivity |].
  destruct n as [| p]; [reflexivity |].
  apply N.lt_le_trans with (2 ^ N.succ (N.log2 (N.pos p)))%N.
  - apply N.log2_spec. reflexivity.
  - rewrite Nat2N.inj_succ, N2Nat.id. apply N.pow_le_mono_l. lia.
Qed.

(** Where [/\r?\n/] matches: at a line feed, and at a carriage return
    that a line feed follows. *)
Lemma newline_here sn rs :
  match_here re_newline sn rs
  = match rs with
    | a :: q =>
        if is_char CR a then
          match q with
          | b :: q' =>
              if is_char LF b then Some (MState (b :: a :: sn) q' []) else None
          | [] => None
          end
        else if is_char LF a then Some (MState (a :: sn) q []) else None
    | [] => None
    end.
Proof.
  unfold match_here, re_newline, opt. cbn [seq fold_right matcher seen rest caps].
  destruct rs as [| a q]; [reflexivity |].
  destruct (is_char CR a) eqn:Ha.
  - apply is_char_eq in Ha. subst a.
    destruct q as [| b q']; cbn [matcher seen rest caps]; [reflexivity |].
    destruct (is_char LF b); reflexivity.
  - destruct (is_char LF a); reflexivity.
Qed.

(** Two runs of characters of a set that open the same text and end
    before a character outside the set are the same run. *)
Lemma run_unique c (x x' r r' : text) :
  x ++ r = x' ++ r' ->
  forallb c x = true -> forallb c x' = true ->
  stops c r -> stops c r' ->
  x = x' /\ r = r'.
Proof.
  intros E Hx Hx' Hr Hr'.
  assert (Hone : forall l y q q',
            forallb c (y ++ l) = true -> stops c q ->
            q = l ++ q' -> l = []).
  { intros l y q q' Hy Hq ->. destruct l as [| a l]; [reflexivity |].
    rewrite forallb_app in Hy. apply andb_true_iff in Hy. destruct Hy as [_ Hy].
    simpl in Hy, Hq. rewrite Hq in Hy. discriminate. }
  apply app_eq_app in E. destruct E as (l & [[E1 E2] | [E1 E2]]).
  - assert (l = []) by (apply (Hone l x' r' r); [rewrite <- E1 | |]; assumption).
    subst l. rewrite app_nil_r in E1. simpl in E2. auto.
  - assert (l = []) by (apply (Hone l x r r'); [rewrite <- E1 | |]; assumption).
    subst l. rewrite app_nil_r in E1. simpl in E2. auto.
Qed.

(** ** The executor *)

Section ExecutorFacts.

Variable tf : list invocation -> invocation -> proc_result.
Variable new_URL : text -> option URL.
Variable config : option VstfsConfig.

Lemma execOnce_trace args tr r tr' :
  execOnce tf args tr = (r, tr') -> tr' = tr ++ [Invoke Hidden args].
Proof.
  unfold execOnce, spawn. destruct (err (tf tr (Invoke Hidden args)));
    intros H; injection H as _ <-; reflexivity.
Qed.

Lemma signIn_trace tr :
  truthy (cfg serverUrl config) = true ->
  signIn tf new_URL config tr
  = (Ok tt, tr ++ [Invoke Visible [T "workspaces";
                                   T "/collection:" ++ getCollectionUrl new_URL config]]).
Proof.
  intros Hs. unfold signIn. rewrite Hs. simpl.
  unfold try_catch, bind, execVisibleOnce, spawn, ret.
  destruct (err _); reflexivity.
Qed.

(** C10.  Without a configured server URL ([config] absent, or its
    [serverUrl] empty) a first attempt that fails with an
    authentication-failure message is not followed by a sign-in or a
    retry: TF.exe has been started once, and the error of that attempt
    is what the caller gets. *)
Theorem no_retry_without_server_url args tr e tr1 :
  truthy (cfg serverUrl config) = false ->
  execOnce tf args tr = (Throw e, tr1) ->
  isAuthError (error_text e) = true ->
  execWithAuthRetry tf new_URL config args tr
  = (Throw e, tr ++ [Invoke Hidden args]).
Proof.
  intros Hs H1 _. unfold execWithAuthRetry, try_catch.
  rewrite H1, Hs, andb_false_r. unfold throw.
  rewrite (execOnce_trace _ _ _ _ H1). reflexivity.
Qed.

(** C3, as amended.  With a server URL configured, a first attempt
    that fails with an authentication-failure message is followed by
    one visible sign-in invocation and then by one more attempt of the
    same command, whose outcome (result or error) is the outcome of
    the call: three starts of TF.exe in all, never a second retry. *)
Theorem auth_retry_once args tr e tr1 :
  execOnce tf args tr = (Throw e, tr1) ->
  isAuthError (error_text e) = true ->
  truthy (cfg serverUrl config) = true ->
  let sign_in :=
    Invoke Visible [T "workspaces";
                    T "/collection:" ++ getCollectionUrl new_URL config] in
  execWithAuthRetry tf new_URL config args tr
  = execOnce tf args (tr ++ [Invoke Hidden args; sign_in]) /\
  snd (execWithAuthRetry tf new_URL config args tr)
  = tr ++ [Invoke Hidden args; sign_in; Invoke Hidden args].
Proof.
  intros H1 Ha Hs sign_in.
  assert (Hrun : execWithAuthRetry tf new_URL config args tr
                 = execOnce tf args (tr ++ [Invoke Hidden args; sign_in])).
  { unfold execWithAuthRetry, try_catch. rewrite H1, Ha, Hs. simpl.
    unfold bind. rewrite (signIn_trace _ Hs), (execOnce_trace _ _ _ _ H1).
    rewrite <- app_assoc. reflexivity. }
  split; [exact Hrun |]. rewrite Hrun.
  destruct (execOnce tf args (tr ++ [Invoke Hidden args; sign_in])) as [r tr'] eqn:H2.
  simpl. rewrite (execOnce_trace _ _ _ _ H2), <- app_assoc. reflexivity.
Qed.

End ExecutorFacts.

(** C3 as stated fails: no server URL is configured, the first attempt
    fails with TF30063 and a retry would have succeeded, yet the call
    ends with that error after a single start of TF.exe. *)
Lemma auth_failure_without_retry :
  execOnce tf_auth_then_ok [T "status"] []
  = (Throw (T "TF30063: You are not authorized to access the server."),
     [Invoke Hidden [T "status"]]) /\
  isAuthError (error_text (T "TF30063: You are not authorized to access the server."))
  = true /\
  execOnce tf_auth_then_ok [T "status"] [Invoke Hidden [T "status"]]
  = (Ok (Output (T "ok") []), [Invoke Hidden [T "status"]; Invoke Hidden [T "status"]]) /\
  execWithAuthRetry tf_auth_then_ok no_URL None [T "status"] []
  = (Throw (T "TF30063: You are not authorized to access the server."),
     [Invoke Hidden [T "status"]]).
Proof. vm_compute. repeat split; reflexivity. Qed.

Lemma auth_retry_once_witness :
  execWithAuthRetry tf_auth_then_ok no_URL config_with_server [T "status"] []
  = (Ok (Output (T "ok") []),
     [Invoke Hidden [T "status"];
      Invoke Visible [T "workspaces"; T "/collection:http://tfs:8080/tfs"];
      Invoke Hidden [T "status"]]).
Proof.
  pose proof (auth_retry_once tf_auth_then_ok no_URL config_with_server
                [T "status"] []
                (T "TF30063: You are not authorized to access the server.")
                [Invoke Hidden [T "status"]] eq_refl eq_refl eq_refl) as [H _].
  rewrite H. vm_compute. reflexivity.
Defined.

Lemma no_retry_without_server_url_witness :
  execWithAuthRetry tf_auth_then_ok no_URL None [T "status"] []
  = (Throw (T "TF30063: You are not authorized to access the server."),
     [Invoke Hidden [T "status"]]).
Proof.
  exact (no_retry_without_server_url tf_auth_then_ok no_URL None
           [T "status"] [] (T "TF30063: You are not authorized to access the server.")
           [Invoke Hidden [T "status"]] eq_refl eq_refl eq_refl).
Defined.

(** ** Changeset lookup *)

Lemma number_eqb_eq x y : number_eqb x y = true <-> x = y.
Proof.
  destruct x as [a |], y as [b |]; simpl; try (split; congruence).
  rewrite N.eqb_eq. split; congruence.
Qed.

(** What [find] answers: the first element that passes the test. *)
Lemma find_first {A} (f : A -> bool) (l : list A) :
  match find f l with
  | Some x =>
      exists pre post,
        l = pre ++ x :: post /\ f x = true /\ Forall (fun y => f y = false) pre
  | None => Forall (fun y => f y = false) l
  end.
Proof.
  induction l as [| a l IH]; simpl; [constructor |].
  destruct (f a) eqn:Ha.
  - exists [], l. auto.
  - destruct (find f l) as [x |].
    + destruct IH as (pre & post & -> & Hx & Hpre).
      exists (a :: pre), post. auto.
    + constructor; assumption.
Qed.

Section ChangesetFacts.

Variable tf : list invocation -> invocation -> proc_result.
Variable new_URL : text -> option URL.
Variable cwd : text.
Variable config : option VstfsConfig.

(** C2, as amended.  The lookup runs one detailed history query for
    the range [C<id>~C<id>].  A failure of that query is thrown to the
    caller.  Otherwise the answer is the first parsed entry whose
    [changesetId] is [id]: no entry before it has that id.  When no
    parsed entry has that id the answer is the first parsed entry,
    whatever its id.  It is [null] exactly when nothing was parsed. *)
Theorem changeset_lookup id tr :
  match changeset tf new_URL cwd config id tr with
  | (Throw e, tr') =>
      run tf new_URL cwd config (history_query cwd config id) tr = (Throw e, tr')
  | (Ok r, tr') =>
      exists o,
        run tf new_URL cwd config (history_query cwd config id) tr = (Ok o, tr') /\
        let items := parseHistory (out_stdout o) in
        (r = None <-> items = []) /\
        forall h, r = Some h ->
          (exists pre post,
             items = pre ++ h :: post /\ changesetId h = Num id /\
             Forall (fun x => changesetId x <> Num id) pre) \/
          (exists post,
             items = h :: post /\
             Forall (fun x => changesetId x <> Num id) items)
  end.
Proof.
  unfold changeset, bind. fold (history_query cwd config id).
  destruct (run tf new_URL cwd config (history_query cwd config id) tr)
    as [[o | e] tr'] eqn:Hrun; [| reflexivity].
  unfold ret. exists o. split; [reflexivity |]. cbv zeta.
  set (items := parseHistory (out_stdout o)).
  assert (Hneq : forall l,
            Forall (fun y => number_eqb (changesetId y) (Num id) = false) l ->
            Forall (fun x => changesetId x <> Num id) l).
  { intros l. apply Forall_impl. intros x Hx Heq.
    apply number_eqb_eq in Heq. congruence. }
  pose proof (find_first (fun h => number_eqb (changesetId h) (Num id)) items) as Hf.
  destruct (find _ items) as [h0 |] eqn:Hfind; simpl.
  - destruct Hf as (pre & post & Hitems & Hid & Hpre).
    apply number_eqb_eq in Hid. split.
    + split; [discriminate |]. rewrite Hitems. destruct pre; discriminate.
    + intros h [= <-]. left. exists pre, post. auto.
  - split.
    + destruct items; simpl; split; congruence.
    + intros h Hh. change (nth_error items 0 = Some h) in Hh. right.
      destruct items as [| h1 post]; [discriminate |].
      injection Hh as ->. exists post. auto.
Qed.

End ChangesetFacts.

(** C2 as stated fails: asked for changeset 5, the lookup returns the
    entry of changeset 7. *)
Lemma changeset_other_id :
  fst (changeset tf_always_7 no_URL (T "C:\ws") None 5 [])
  = Ok (Some (HistoryItem (Num 7) (T "bob") [] [] [])) /\
  changesetId (HistoryItem (Num 7) (T "bob") [] [] []) <> Num 5.
Proof. split; [vm_compute; reflexivity | discriminate]. Qed.

(** ** The pending-changes query *)

(** *** The invocations of a computation *)

Lemma begins_grows {A} i (m : M A) : begins i m -> grows m.
Proof. intros H tr. destruct (H tr) as [t Ht]. eauto. Qed.

Lemma grows_ret {A} (a : A) : grows (ret a).
Proof. intros tr. exists []. simpl. symmetry. apply app_nil_r. Qed.

Lemma grows_throw {A} e : grows (@throw A e).
Proof. intros tr. exists []. simpl. symmetry. apply app_nil_r. Qed.

Lemma begins_spawn tf w args : begins (Invoke w args) (spawn tf w args).
Proof. intros tr. exists []. unfold spawn. destruct (err _); reflexivity. Qed.

Lemma grows_bind {A B} (m : M A) (k : A -> M B) :
  grows m -> (forall a, grows (k a)) -> grows (bind m k).
Proof.
  intros Hm Hk tr. unfold bind. destruct (Hm tr) as [t Ht].
  destruct (m tr) as [[a | e] tr1]; simpl in Ht; subst tr1.
  - destruct (Hk a (tr ++ t)) as [t' Ht']. exists (t ++ t').
    rewrite Ht'. symmetry. apply app_assoc.
  - exists t. reflexivity.
Qed.

Lemma grows_try_catch {A} (m : M A) (h : text -> M A) :
  grows m -> (forall e, grows (h e)) -> grows (try_catch m h).
Proof.
  intros Hm Hh tr. unfold try_catch. destruct (Hm tr) as [t Ht].
  destruct (m tr) as [[a | e] tr1]; simpl in Ht; subst tr1.
  - exists t. reflexivity.
  - destruct (Hh e (tr ++ t)) as [t' Ht']. exists (t ++ t').
    rewrite Ht'. symmetry. apply app_assoc.
Qed.

Lemma begins_bind {A B} i (m : M A) (k : A -> M B) :
  begins i m -> (forall a, grows (k a)) -> begins i (bind m k).
Proof.
  intros Hm Hk tr. unfold bind. destruct (Hm tr) as [t Ht].
  destruct (m tr) as [[a | e] tr1]; simpl in Ht; subst tr1.
  - destruct (Hk a (tr ++ i :: t)) as [t' Ht']. exists (t ++ t').
    rewrite Ht', <- app_assoc. reflexivity.
  - exists t. reflexivity.
Qed.

Lemma begins_try_catch {A} i (m : M A) (h : text -> M A) :
  begins i m -> (forall e, grows (h e)) -> begins i (try_catch m h).
Proof.
  intros Hm Hh tr. unfold try_catch. destruct (Hm tr) as [t Ht].
  destruct (m tr) as [[a | e] tr1]; simpl in Ht; subst tr1.
  - exists t. reflexivity.
  - destruct (Hh e (tr ++ i :: t)) as [t' Ht']. exists (t ++ t').
    rewrite Ht', <- app_assoc. reflexivity.
Qed.

Ltac trace_step :=
  first [ apply begins_bind | apply begins_try_catch | apply begins_spawn
        | apply grows_bind | apply grows_try_catch | apply grows_ret
        | apply grows_throw | eapply begins_grows; apply begins_spawn ];
  intros.

(** *** The policy *)

Lemma or_text_nil x : or_text x [] = x.
Proof. destruct x; reflexivity. Qed.

Section PendingFacts.

Variable tf : list invocation -> invocation -> proc_result.
Variable path_join : text -> text -> text.
Variable new_URL : text -> option URL.
Variable cwd : text.
Variable config : option VstfsConfig.

Lemma attempt_variant query parse tr :
  attempt path_join cwd config query parse tr
  = match try_catch (variant path_join cwd config query parse) (fun _ => ret []) tr with
    | (Ok [], tr') => (Ok None, tr')
    | (Ok (it :: l), tr') => (Ok (Some (it :: l)), tr')
    | (Throw e, tr') => (Throw e, tr')
    end.
Proof.
  unfold attempt, variant, try_catch, bind, ret.
  destruct (query tr) as [[o | e] tr']; [| reflexivity].
  destruct (map _ _); reflexivity.
Qed.

Lemma caught_never_throws {A} (m : M A) (d : A) tr :
  exists a tr', try_catch m (fun _ => ret d) tr = (Ok a, tr').
Proof.
  unfold try_catch, ret. destruct (m tr) as [[a | e] tr']; eauto.
Qed.

Lemma first_nonempty_never_throws vs : forall tr,
  exists l tr', first_nonempty vs tr = (Ok l, tr').
Proof.
  induction vs as [| v vs IH]; intros tr; simpl.
  - unfold ret. eauto.
  - unfold bind. destruct (caught_never_throws v [] tr) as (l & tr' & ->).
    destruct l; [apply IH | unfold ret; eauto].
Qed.

Lemma pendingChanges_first_nonempty tr :
  pendingChanges tf path_join new_URL cwd config tr
  = first_nonempty (status_variants tf path_join new_URL cwd config) tr.
Proof.
  unfold pendingChanges, status_variants. simpl first_nonempty.
  unfold bind at 1. rewrite attempt_variant.
  unfold bind at 4.
  destruct (caught_never_throws
              (variant path_join cwd config (runBasic tf new_URL config status_detailed)
                       parsePendingDetailed) [] tr) as (l0 & t0 & ->).
  destruct l0; [| reflexivity].
  unfold bind at 1. rewrite attempt_variant.
  unfold bind at 3.
  destruct (caught_never_throws
              (variant path_join cwd config (runBasic tf new_URL config status_brief) parsePending)
              [] t0) as (l1 & t1 & ->).
  destruct l1; [| reflexivity].
  unfold bind at 1. rewrite attempt_variant.
  unfold bind at 2.
  destruct (caught_never_throws
              (variant path_join cwd config (runBasic tf new_URL config (status_workspace config))
                       parsePending) [] t1) as (l2 & t2 & ->).
  destruct l2; [| reflexivity].
  unfold bind at 2. fold (variant path_join cwd config (run tf new_URL cwd config status_collection) parsePending).
  destruct (caught_never_throws
              (variant path_join cwd config (run tf new_URL cwd config status_collection) parsePending)
              [] t2) as (l3 & t3 & ->).
  destruct l3; reflexivity.
Qed.

Lemma grows_signIn : grows (signIn tf new_URL config).
Proof.
  unfold signIn. destruct (negb _); repeat trace_step.
Qed.

Lemma begins_execWithAuthRetry args :
  begins (Invoke Hidden args) (execWithAuthRetry tf new_URL config args).
Proof.
  unfold execWithAuthRetry, execOnce. apply begins_try_catch.
  - apply begins_spawn.
  - intros e. destruct (_ && _); [| apply grows_throw].
    apply grows_bind; [apply grows_signIn |]. intros _.
    eapply begins_grows. apply begins_spawn.
Qed.

Lemma grows_ensureWorkspaceConfigured :
  grows (ensureWorkspaceConfigured tf new_URL cwd config).
Proof.
  pose proof begins_execWithAuthRetry as Hx.
  unfold ensureWorkspaceConfigured, map_workfolder, runBasic.
  destruct (_ || _); [apply grows_ret |].
  apply grows_try_catch.
  - apply grows_bind; [eapply begins_grows; apply Hx |]. intros o.
    destruct (_ || _); [apply grows_ret |].
    apply grows_bind; [eapply begins_grows; apply Hx | intros; apply grows_ret].
  - intros e. apply grows_try_catch; [| intros; apply grows_throw].
    apply grows_bind; [eapply begins_grows; apply Hx |]. intros _.
    apply grows_bind; [eapply begins_grows; apply Hx | intros; apply grows_ret].
Qed.

Lemma grows_run args : grows (run tf new_URL cwd config args).
Proof.
  unfold run. apply grows_bind; [apply grows_ensureWorkspaceConfigured |].
  intros _. eapply begins_grows. apply begins_execWithAuthRetry.
Qed.

Lemma grows_first_nonempty vs :
  Forall grows vs -> grows (first_nonempty vs).
Proof.
  induction 1 as [| v vs Hv _ IH]; simpl; [apply grows_ret |].
  apply grows_bind.
  - apply grows_try_catch; [exact Hv | intros; apply grows_ret].
  - intros [| it l]; [exact IH | apply grows_ret].
Qed.

Lemma first_nonempty_all_fail vs :
  Forall (fun v => forall tr, exists e tr', v tr = (Throw e, tr')) vs ->
  forall tr, fst (first_nonempty vs tr) = Ok [].
Proof.
  induction 1 as [| v vs Hv _ IH]; intros tr; simpl; [reflexivity |].
  unfold bind, try_catch. destruct (Hv tr) as (e & tr' & ->). simpl. apply IH.
Qed.

(** C5, as amended.  [pendingChanges] runs the policy of the
    documentation on four status queries, in this order: detailed,
    brief, brief with the workspace, and brief for the current
    directory with [/noprompt] through [run].  A query is started only
    after the one before it has failed or parsed to nothing, and the
    first non-empty parsed result is the answer.  The call never
    throws, its first start of TF.exe is the detailed status query,
    and when every variant fails the answer is the empty list.  The
    last query names the collection exactly when a server URL is
    configured: [run] sets the workspace up and then adds
    [/collection:] to the arguments in that case only. *)
Theorem pendingChanges_policy tr :
  let variants :=
    [variant path_join cwd config
       (runBasic tf new_URL config [T "status"; T "/recursive"; T "/format:detailed"])
       parsePendingDetailed;
     variant path_join cwd config
       (runBasic tf new_URL config [T "status"; T "/recursive"; T "/format:brief"])
       parsePending;
     variant path_join cwd config
       (runBasic tf new_URL config
          [T "status"; T "/workspace:" ++ cfg workspace config; T "/recursive";
           T "/format:brief"])
       parsePending;
     variant path_join cwd config
       (run tf new_URL cwd config
          [T "status"; T "."; T "/recursive"; T "/format:brief"; T "/noprompt"])
       parsePending] in
  pendingChanges tf path_join new_URL cwd config tr = first_nonempty variants tr /\
  (exists found tr',
     pendingChanges tf path_join new_URL cwd config tr = (Ok found, tr')) /\
  (exists later,
     snd (pendingChanges tf path_join new_URL cwd config tr)
     = tr ++ Invoke Hidden [T "status"; T "/recursive"; T "/format:detailed"] :: later) /\
  (Forall (fun v => forall t, exists e t', v t = (Throw e, t')) variants ->
   fst (pendingChanges tf path_join new_URL cwd config tr) = Ok []) /\
  (forall t,
     run tf new_URL cwd config
       [T "status"; T "."; T "/recursive"; T "/format:brief"; T "/noprompt"] t
     = (ensureWorkspaceConfigured tf new_URL cwd config ;;;
        execWithAuthRetry tf new_URL config
          (if truthy (cfg serverUrl config)
           then [T "status"; T "."; T "/recursive"; T "/format:brief"; T "/noprompt";
                 T "/collection:" ++ getCollectionUrl new_URL config]
           else [T "status"; T "."; T "/recursive"; T "/format:brief"; T "/noprompt"])) t).
Proof.
  intros variants.
  assert (Hv : variants = status_variants tf path_join new_URL cwd config).
  { unfold variants, status_variants, status_workspace. rewrite or_text_nil. reflexivity. }
  rewrite Hv, pendingChanges_first_nonempty.
  split; [reflexivity |]. split; [| split; [| split]].
  - apply first_nonempty_never_throws.
  - revert tr. change (begins (Invoke Hidden status_detailed)
      (first_nonempty (status_variants tf path_join new_URL cwd config))).
    unfold status_variants. simpl first_nonempty.
    apply begins_bind.
    + apply begins_try_catch; [| intros; apply grows_ret].
      unfold variant. apply begins_bind; [| intros; apply grows_ret].
      apply begins_execWithAuthRetry.
    + intros [| it l]; [| apply grows_ret].
      apply (grows_first_nonempty
               [variant path_join cwd config
                  (runBasic tf new_URL config status_brief) parsePending;
                variant path_join cwd config
                  (runBasic tf new_URL config (status_workspace config)) parsePending;
                variant path_join cwd config
                  (run tf new_URL cwd config status_collection) parsePending]).
      repeat constructor; unfold variant;
        (apply grows_bind; [| intros; apply grows_ret]).
      * eapply begins_grows. apply begins_execWithAuthRetry.
      * eapply begins_grows. apply begins_execWithAuthRetry.
      * apply grows_run.
  - intros H. apply first_nonempty_all_fail. exact H.
  - intros t. unfold run. destruct (truthy (cfg serverUrl config)); reflexivity.
Qed.

End PendingFacts.

(** C5 as stated fails: without a configured server URL the last query
    is the brief status of the current directory, and no start of
    TF.exe names a collection. *)
Lemma pendingChanges_without_collection :
  pendingChanges tf_fails simple_join no_URL (T "C:\ws") None []
  = (Ok [],
     [Invoke Hidden [T "status"; T "/recursive"; T "/format:detailed"];
      Invoke Hidden [T "status"; T "/recursive"; T "/format:brief"];
      Invoke Hidden [T "status"; T "/workspace:"; T "/recursive"; T "/format:brief"];
      Invoke Hidden [T "status"; T "."; T "/recursive"; T "/format:brief";
                     T "/noprompt"]]) /\
  Forall (fun i => existsb (fun a => startsWith a (T "/collection:")) (argv i) = false)
         (snd (pendingChanges tf_fails simple_join no_URL (T "C:\ws") None [])).
Proof. split; [vm_compute; reflexivity | vm_compute; repeat constructor]. Qed.


(** ** The path normalizer *)

(** *** Drive-letter paths *)

Lemma test_drive_iff s :
  test re_drive s = true <->
  exists a t, s = a :: ":" :: "\" :: t /\ is_alpha a = true.
Proof.
  split.
  - intros H. apply test_true in H. destruct H as [f H].
    apply exec_inv in H. destruct H as (p & q & st & -> & Hm & _).
    pose proof (anchored_at_start _ _ _ _ Hm) as ->. simpl in Hm.
    destruct Hm as (st1 & [_ ->] & st2 & (a & rs & Hr & Ha & ->) & Hm).
    destruct Hm as (st3 & (st4 & (b & rs1 & Hr1 & Hb & ->) & st5 &
                             (c & rs2 & Hr2 & Hc & ->) & _) & _).
    simpl in *. apply is_char_eq in Hb, Hc. subst. exists a, rs2. auto.
  - intros (a & t & -> & Ha). unfold test, exec. simpl.
    unfold match_here. simpl. rewrite Ha. reflexivity.
Qed.

Lemma to_backslashes_drive s :
  test re_drive s = true -> test re_drive (to_backslashes s) = true.
Proof.
  rewrite !test_drive_iff. intros (a & t & -> & Ha).
  unfold to_backslashes, replace_all, re_slash.
  change (T "\") with ["\"]. rewrite replace_all_char.
  simpl. exists a. eexists. split; [| exact Ha].
  destruct (is_char "/" a) eqn:Hs.
  - apply is_char_eq in Hs. subst a. discriminate.
  - reflexivity.
Qed.

Lemma simple_join_drive d x :
  test re_drive d = true -> test re_drive (simple_join d x) = true.
Proof.
  rewrite !test_drive_iff. intros (a & t & -> & Ha).
  exists a. eexists. split; [reflexivity | exact Ha].
Qed.

(** *** The changeset suffix *)

Lemma suffix_matches sn q cs st :
  matches re_changeset_suffix (MState sn q cs) st <->
  exists c x, q = ";" :: c :: x /\ is_char_ci "C" c = true /\
              forallb is_digit x = true /\ 1 <= length x /\
              st = MState (rev x ++ c :: ";" :: sn) [] cs.
Proof.
  split.
  - simpl. intros (st1 & (st2 & (a & rs & Hr & Ha & ->) & st3 &
                           (c & rs1 & Hr1 & Hc & ->) & ->) & st4 &
                    (x & rs2 & Hx & Hlen & Hr2 & ->) & st5 & [He ->] & ->).
    simpl in *. apply is_char_ci_exact in Ha; [| reflexivity].
    unfold at_eol in He. simpl in He. destruct rs2; [| discriminate].
    subst. rewrite app_nil_r. exists c, x. auto.
  - intros (c & x & -> & Hc & Hx & Hlen & ->). simpl.
    eexists. split.
    + eexists. split; [exists ";"; eexists; simpl; repeat split |].
      eexists. split; [exists c; eexists; simpl; repeat split; exact Hc |]. reflexivity.
    + eexists. split.
      * exists x, []. simpl. rewrite app_nil_r. repeat split; auto.
      * eexists. split; [split; reflexivity | reflexivity].
Qed.

(** Two ways of cutting a text before a changeset suffix agree. *)
Lemma suffix_unique p p' c c' x x' :
  p ++ ";" :: c :: x = p' ++ ";" :: c' :: x' ->
  is_char_ci "C" c = true -> is_char_ci "C" c' = true ->
  forallb is_digit x = true -> forallb is_digit x' = true ->
  p = p'.
Proof.
  intros H Hc Hc' Hx Hx'.
  assert (Hsemi : forall d, is_char_ci "C" d = true -> d <> ";").
  { intros d Hd ->. discriminate. }
  assert (Hone : forall l q d y q' d' y',
             q = q' ++ l -> ";" :: d' :: y' = l ++ ";" :: d :: y ->
             is_char_ci "C" d' = true -> forallb is_digit y' = true -> l = []).
  { intros l q d y q' d' y' _ Hl Hd' Hy'.
    destruct l as [| a l]; [reflexivity |]. exfalso.
    injection Hl as <- Hl. destruct l as [| b l].
    - injection Hl as Hl _. apply (Hsemi _ Hd'). auto.
    - injection Hl as _ Hl. apply (digit_not_semicolon _ Hy').
      rewrite Hl. apply in_or_app. right. left. reflexivity. }
  apply app_eq_app in H. destruct H as (l & [[Hp Hl] | [Hp Hl]]).
  - rewrite (Hone l p c x p' c' x' Hp) in Hp; auto.
    rewrite app_nil_r in Hp. auto.
  - rewrite (Hone l p' c' x' p c x Hp) in Hp; auto.
    rewrite app_nil_r in Hp. auto.
Qed.

Lemma strip_suffix p ds :
  ds <> [] -> forallb is_digit ds = true ->
  replace re_changeset_suffix [] (p ++ T ";C" ++ ds) = p.
Proof.
  intros Hne Hds. change (T ";C" ++ ds) with (";" :: "C" :: ds).
  assert (Hlen : 1 <= length ds) by (destruct ds; simpl; [congruence | lia]).
  unfold replace.
  destruct (exec re_changeset_suffix (p ++ ";" :: "C" :: ds)) as [f |] eqn:He.
  - apply exec_inv in He.
    destruct He as (p' & q & st & Hs & Hm & Hb & Ha & _).
    apply suffix_matches in Hm. destruct Hm as (c & x & -> & Hc & Hx & _ & ->).
    rewrite Hb, Ha. simpl. rewrite app_nil_r. symmetry.
    apply (suffix_unique _ _ _ _ _ _ Hs); auto.
  - exfalso. revert He. eapply exec_intro. apply suffix_matches.
    exists "C", ds. repeat split; auto.
Qed.

(** *** Normalizing *)

Section PathFacts.

Variable path_join : text -> text -> text.
Variable cwd : text.
Variable config : option VstfsConfig.

(** C6, as amended.  For a path [p] that does not itself end in a
    changeset suffix, [p] with [;C<n>] appended normalizes to the same
    local path as [p]. *)
Theorem changeset_suffix_dropped p n :
  test re_changeset_suffix p = false ->
  toLocalPath path_join cwd config (p ++ T ";C" ++ decimal n)
  = toLocalPath path_join cwd config p.
Proof.
  intros Hp. destruct (decimal_digits n) as [Hne Hd].
  unfold toLocalPath. rewrite (strip_suffix p _ Hne Hd).
  rewrite (replace_no_match _ _ _ Hp). reflexivity.
Qed.

Lemma toLocalPath_drive p :
  (forall x, test re_drive (path_join cwd x) = true) ->
  test re_drive (toLocalPath path_join cwd config p) = true.
Proof.
  intros Hjoin. unfold toLocalPath.
  destruct (test re_drive (replace re_changeset_suffix [] p)) eqn:Hd; [exact Hd |].
  destruct (_ && _); [apply to_backslashes_drive, Hjoin |].
  destruct (test re_server_root _); apply to_backslashes_drive, Hjoin.
Qed.

(** C9, as amended.  Let the working directory be a drive-letter path
    and let [path.join] keep the drive root of its first argument.
    Then every output of [toLocalPath] is a drive-letter path, and
    normalizing it again changes nothing unless the output itself ends
    in a changeset suffix. *)
Theorem toLocalPath_idempotent p :
  test re_drive cwd = true ->
  (forall d x, test re_drive d = true -> test re_drive (path_join d x) = true) ->
  test re_changeset_suffix (toLocalPath path_join cwd config p) = false ->
  toLocalPath path_join cwd config (toLocalPath path_join cwd config p)
  = toLocalPath path_join cwd config p.
Proof.
  intros Hcwd Hjoin Hclean.
  assert (Hd : test re_drive (toLocalPath path_join cwd config p) = true).
  { apply toLocalPath_drive. intros x. apply Hjoin, Hcwd. }
  set (q := toLocalPath path_join cwd config p) in *.
  unfold toLocalPath at 1. rewrite (replace_no_match _ _ _ Hclean), Hd.
  reflexivity.
Qed.

End PathFacts.

(** C6 as stated fails for a server path that already carries a
    changeset suffix: only the suffix at the very end is removed. *)
Lemma suffix_on_suffixed_path :
  toLocalPath simple_join (T "C:\ws") None
    (T "$/Proj/File.cs;C1" ++ T ";C" ++ decimal 2)
  = T "C:\ws\Proj\File.cs;C1" /\
  toLocalPath simple_join (T "C:\ws") None (T "$/Proj/File.cs;C1")
  = T "C:\ws\Proj\File.cs".
Proof. split; vm_compute; reflexivity. Qed.

Lemma changeset_suffix_dropped_witness :
  toLocalPath simple_join (T "C:\ws") None (T "$/Proj/File.cs" ++ T ";C" ++ decimal 42)
  = toLocalPath simple_join (T "C:\ws") None (T "$/Proj/File.cs").
Proof.
  apply (changeset_suffix_dropped simple_join (T "C:\ws") None
           (T "$/Proj/File.cs") 42).
  reflexivity.
Defined.

(** C9 as stated fails: the output for a local path with two
    changeset suffixes still ends in one, which a second application
    removes. *)
Lemma toLocalPath_twice_differs :
  test re_drive (T "C:\ws") = true /\
  toLocalPath simple_join (T "C:\ws") None (T "C:\ws\a.cs;C1;C2")
  = T "C:\ws\a.cs;C1" /\
  toLocalPath simple_join (T "C:\ws") None
    (toLocalPath simple_join (T "C:\ws") None (T "C:\ws\a.cs;C1;C2"))
  = T "C:\ws\a.cs".
Proof. repeat split; vm_compute; reflexivity. Qed.

Lemma toLocalPath_idempotent_witness :
  toLocalPath simple_join (T "C:\ws") None
    (toLocalPath simple_join (T "C:\ws") None (T "$/Proj/File.cs;C42"))
  = toLocalPath simple_join (T "C:\ws") None (T "$/Proj/File.cs;C42").
Proof.
  apply (toLocalPath_idempotent simple_join (T "C:\ws") None
           (T "$/Proj/File.cs;C42")).
  - reflexivity.
  - exact simple_join_drive.
  - reflexivity.
Defined.

(** ** The compact pending-changes parser *)

(** *** Actions *)

Lemma actions_lower w : In w ACTIONS -> toLowerCase w = w.
Proof.
  intros H. repeat (destruct H as [<- | H]; [reflexivity |]). destruct H.
Qed.

(** What the action group captures is, in lower case, one of the six
    words of the pattern. *)
Lemma action_group_matches i st st' :
  matches (action_group i) st st' ->
  exists x, lookup_cap i (caps st') = Some x /\ In (toLowerCase x) ACTIONS.
Proof.
  unfold action_group. cbn [matches]. intros (st1 & H & ->).
  destruct (words_ci_matches _ _ _ H) as (w & x & Hin & (_ & Hs & _) & Hw).
  exists x. rewrite (span_shape _ _ _ Hs). simpl. rewrite Nat.eqb_refl.
  split; [reflexivity |].
  rewrite (spells_ci_lower _ _ Hw), (actions_lower _ Hin). exact Hin.
Qed.

(** In a pattern [pre (action) post] whose [post] does not set group
    [i] again, group [i] of a match is one of the six words. *)
Lemma seq_action_group pre post i st st' :
  matches (seq (pre ++ action_group i :: post)) st st' ->
  ~ In i (groups_of (seq post)) ->
  exists x, lookup_cap i (caps st') = Some x /\ In (toLowerCase x) ACTIONS.
Proof.
  intros H Hi. apply matches_seq_app in H. destruct H as (mid & _ & H).
  change (seq (action_group i :: post)) with (Seq (action_group i) (seq post)) in H.
  cbn [matches] in H. destruct H as (st1 & H1 & H2).
  destruct (action_group_matches _ _ _ H1) as (x & Hx & Hin).
  exists x. rewrite (matches_frame _ _ _ _ H2 Hi). auto.
Qed.

Lemma exec_action_group r pre post i s m :
  r = seq (pre ++ action_group i :: post) ->
  ~ In i (groups_of (seq post)) ->
  exec r s = Some m ->
  In (toLowerCase (group i m)) ACTIONS.
Proof.
  intros -> Hi H. apply exec_inv in H.
  destruct H as (p & q & st & _ & Hm & _ & _ & Hg & _).
  destruct (seq_action_group _ _ _ _ _ Hm Hi) as (x & Hx & Hin).
  unfold group. rewrite Hg, Hx. exact Hin.
Qed.

Ltac no_later_group := simpl; intuition discriminate.

Lemma action_word_group s m :
  exec re_action_word s = Some m -> In (toLowerCase (group 1 m)) ACTIONS.
Proof.
  apply (exec_action_group re_action_word [Wb] [Wb] 1); [reflexivity |].
  no_later_group.
Qed.

Lemma action_first_group s m :
  exec re_action_first s = Some m -> In (toLowerCase (group 1 m)) ACTIONS.
Proof.
  apply (exec_action_group re_action_first [Bol false]
           [plus is_space; Grp 2 (plus is_dot); Eol false] 1); [reflexivity |].
  no_later_group.
Qed.

Lemma server_item_group s m :
  exec re_server_item s = Some m -> In (toLowerCase (group 2 m)) ACTIONS.
Proof.
  apply (exec_action_group re_server_item
           [Bol false; Grp 1 (seq [lit (T "$/"); lazy_star is_dot]);
            Chr (is_char ";"); star is_space]
           [star is_space; Eol false] 2); [reflexivity |].
  no_later_group.
Qed.

Lemma local_item_group s m :
  exec re_local_item s = Some m -> In (toLowerCase (group 2 m)) ACTIONS.
Proof.
  apply (exec_action_group re_local_item
           [Bol false; Grp 1 (seq [Chr is_dot; lit (T ":\"); lazy_plus not_dash]);
            star is_space; Chr (is_char "-"); plus is_space]
           [star is_space; Eol false] 2); [reflexivity |].
  no_later_group.
Qed.

Lemma action_then_local_group s m :
  exec re_action_then_local s = Some m -> In (toLowerCase (group 1 m)) ACTIONS.
Proof.
  apply (exec_action_group re_action_then_local [Wb]
           [Wb; plus is_space;
            Grp 2 (seq [Chr is_alpha; lit (T ":\"); plus is_dot]); Eol false] 1);
    [reflexivity |].
  no_later_group.
Qed.

Lemma tryParseRow_action folder row it :
  tryParseRow folder row = Some it -> In (action it) ACTIONS.
Proof.
  unfold tryParseRow.
  destruct (or_else _ _) as [table |].
  - intros [= <-]. simpl.
    destruct (exec re_action_word _) as [m |] eqn:Hm.
    + apply (action_word_group _ _ Hm).
    + simpl. auto.
  - destruct (exec re_action_first _) as [m |] eqn:H1.
    { intros [= <-]. apply (action_first_group _ _ H1). }
    destruct (exec re_server_item _) as [m |] eqn:H2.
    { intros [= <-]. apply (server_item_group _ _ H2). }
    destruct (exec re_local_item _) as [m |] eqn:H3; [| discriminate].
    intros [= <-]. apply (local_item_group _ _ H3).
Qed.

Lemma pair_fragment_action fragment line it :
  pair_fragment fragment line = Some it -> In (action it) ACTIONS.
Proof.
  unfold pair_fragment. destruct fragment as [f |]; [| discriminate].
  destruct (truthy f); [| discriminate].
  destruct (exec re_action_then_local line) as [m |] eqn:Hm; [| discriminate].
  intros [= <-]. apply (action_then_local_group _ _ Hm).
Qed.

Lemma pending_step_actions st raw :
  Forall known_action (items st) ->
  Forall known_action (items (pending_step st raw)).
Proof.
  intros H. unfold pending_step, push.
  destruct (is_header _); [exact H |].
  destruct (is_folder_header _); [exact H |].
  destruct (is_name_fragment _); [exact H |].
  destruct (pair_fragment _ _) as [it |] eqn:Hp.
  { simpl. apply Forall_app. split; [exact H |].
    constructor; [apply (pair_fragment_action _ _ _ Hp) | constructor]. }
  destruct (tryParseRow _ (trim raw)) as [it |] eqn:Hr.
  { simpl. apply Forall_app. split; [exact H |].
    constructor; [apply (tryParseRow_action _ _ _ Hr) | constructor]. }
  cbv zeta. destruct (tryParseRow _ (joined _ _)) as [it |] eqn:Hb.
  { simpl. apply Forall_app. split; [exact H |].
    constructor; [apply (tryParseRow_action _ _ _ Hb) | constructor]. }
  destruct (Nat.ltb _ _); exact H.
Qed.

Lemma pending_run_actions : forall ls st,
  Forall known_action (items st) ->
  Forall known_action (items (fold_left pending_step ls st)).
Proof.
  induction ls as [| l ls IH]; intros st H; simpl; [exact H |].
  apply IH, pending_step_actions, H.
Qed.

Lemma parsePending_actions stdout it :
  In it (parsePending stdout) -> In (action it) ACTIONS.
Proof.
  intros H. unfold parsePending, parsePending_run in H.
  pose proof (pending_run_actions (pending_lines stdout) (pending_init [])
                (Forall_nil _)) as Hall.
  rewrite Forall_forall in Hall. apply (Hall _ H).
Qed.

(** *** Rows in the regular shape *)

Lemma alpha_not_space a : is_alpha a = true -> is_space a = false.
Proof.
  assert (Hd : disjoint is_alpha is_space = true) by (vm_compute; reflexivity).
  apply (disjoint_spec _ _ _ Hd).
Qed.

Lemma solid_dot s : solid s -> forallb is_dot s = true.
Proof.
  unfold solid. rewrite !forallb_forall. intros H a Ha. specialize (H a Ha).
  assert (Hd : disjoint is_newline (fun a => negb (is_space a)) = true)
    by (vm_compute; reflexivity).
  unfold is_dot. destruct (is_newline a) eqn:Hn; [| reflexivity].
  rewrite (disjoint_spec _ _ _ Hd Hn) in H. discriminate.
Qed.

Lemma solid_stops x2 q : solid x2 -> x2 <> [] -> stops is_space (x2 ++ q).
Proof.
  destruct x2 as [| a x2]; [congruence |]. unfold solid. simpl.
  intros H _. apply andb_true_iff in H. destruct H as [H _].
  destruct (is_space a); [discriminate | reflexivity].
Qed.

Lemma solid_app_r x1 x2 : solid (x1 ++ x2) -> solid x2.
Proof.
  unfold solid. rewrite forallb_app. intros H.
  apply andb_true_iff in H. tauto.
Qed.

Lemma alpha_solid s : forallb is_alpha s = true -> solid s.
Proof.
  unfold solid. rewrite !forallb_forall. intros H a Ha.
  rewrite (alpha_not_space _ (H a Ha)). reflexivity.
Qed.

Lemma alpha_change s :
  forallb is_alpha s = true -> forallb is_change_char s = true.
Proof.
  rewrite !forallb_forall. intros H a Ha. unfold is_change_char.
  rewrite (H a Ha). reflexivity.
Qed.

Lemma is_char_ci_alpha c a :
  is_alpha c = true -> is_char_ci c a = true -> is_alpha a = true.
Proof.
  unfold is_char_ci. intros ->. intros H. apply andb_true_iff in H. tauto.
Qed.

Lemma spells_alpha w x :
  spells_ci w x -> forallb is_alpha w = true -> forallb is_alpha x = true.
Proof.
  induction 1 as [| c a w x Hc _ IH]; simpl; [reflexivity |].
  intros H. apply andb_true_iff in H. destruct H as [Hw Hws].
  rewrite (is_char_ci_alpha _ _ Hw Hc). auto.
Qed.

Lemma spells_length w x : spells_ci w x -> length x = length w.
Proof. induction 1; simpl; auto. Qed.

Lemma actions_alpha w : In w ACTIONS -> forallb is_alpha w = true /\ w <> [].
Proof.
  intros H. repeat (destruct H as [<- | H]; [split; [reflexivity | discriminate] |]).
  destruct H.
Qed.

Lemma trim_fixed s : tight s -> tight (rev s) -> trim s = s.
Proof.
  intros H1 H2. unfold trim.
  rewrite (drop_spaces_fixed _ H1), (drop_spaces_fixed _ H2).
  apply rev_involutive.
Qed.

Lemma solid_trim s : solid s -> trim s = s.
Proof.
  intros H. apply trim_fixed.
  - destruct s as [| a s]; [exact I |]. unfold solid in H. simpl in *.
    apply andb_true_iff in H. destruct H as [H _].
    destruct (is_space a); [discriminate | reflexivity].
  - assert (Hr : solid (rev s)).
    { unfold solid in *. rewrite forallb_forall in *. intros a Ha.
      apply H, in_rev, Ha. }
    destruct (rev s) as [| a t]; [exact I |]. unfold solid in Hr. simpl in *.
    apply andb_true_iff in Hr. destruct Hr as [Hr _].
    destruct (is_space a); [discriminate | reflexivity].
Qed.

(** The match of the three-column pattern on a row whose name and
    change are free of white space. *)
Lemma row_wide_match name gap1 change gap2 local :
  name <> [] -> solid name ->
  2 <= length gap1 -> forallb is_space gap1 = true ->
  change <> [] -> forallb is_alpha change = true ->
  2 <= length gap2 -> forallb is_space gap2 = true ->
  local <> [] -> forallb is_dot local = true -> tight local ->
  match_here re_row_wide [] (name ++ gap1 ++ change ++ gap2 ++ local)
  = Some (MState (rev local ++ rev gap2 ++ rev change ++ rev gap1 ++ rev name)
                 [] [(3, local); (2, change); (1, name)]).
Proof.
  intros Hn Hsolid Hg1 Hs1 Hc Halpha Hg2 Hs2 Hl Hdot Htight.
  apply nonempty_length in Hn, Hc, Hl.
  unfold match_here, re_row_wide, lazy_plus, plus.
  cbn [seq fold_right matcher at_bol seen rest caps].
  apply rep_lazy_first; [apply solid_dot; exact Hsolid | exact Hn | |].
  - intros x1 x2 Hsplit Hne _. cbn [matcher seen rest caps set_cap].
    apply rep_stops_none. apply solid_stops; [| exact Hne].
    rewrite Hsplit in Hsolid. apply (solid_app_r _ _ Hsolid).
  - cbn [matcher seen rest caps set_cap].
    rewrite span_states.
    apply rep_greedy_max; [exact Hs1 | exact Hg1 | |].
    { apply solid_stops; [apply alpha_solid; exact Halpha |].
      intros ->. simpl in Hc. lia. }
    cbn [matcher seen rest caps set_cap].
    apply rep_lazy_first; [apply alpha_change; exact Halpha | exact Hc | |].
    + intros x1 x2 Hsplit Hne _. cbn [matcher seen rest caps set_cap].
      apply rep_stops_none. apply solid_stops; [| exact Hne].
      apply alpha_solid in Halpha. rewrite Hsplit in Halpha.
      apply (solid_app_r _ _ Halpha).
    + cbn [matcher seen rest caps set_cap].
      rewrite span_states.
      apply rep_greedy_max; [exact Hs2 | exact Hg2 | |].
      { destruct local; [exact I | exact Htight]. }
      cbn [matcher seen rest caps set_cap].
      apply rep_greedy_all; [exact Hdot | exact Hl |].
      cbn [matcher at_eol seen rest caps set_cap].
      rewrite span_states. unfold set_cap. cbn [seen rest caps].
      rewrite app_nil_r. reflexivity.
Qed.

Lemma exec_at_start r s st :
  match_here r [] s = Some st -> exec r s = Some (found_of [] st).
Proof. intros H. unfold exec. destruct s; simpl; rewrite H; reflexivity. Qed.

Lemma alpha_word a : is_alpha a = true -> is_word a = true.
Proof. unfold is_word. intros ->. reflexivity. Qed.

Lemma word_after_alpha x q sn cs :
  x <> [] -> forallb is_alpha x = true ->
  word_after (MState sn (x ++ q) cs) = true.
Proof.
  destruct x as [| a x]; [congruence |]. simpl. intros _ H.
  apply andb_true_iff in H. apply alpha_word. tauto.
Qed.

Lemma word_before_alpha x sn q cs :
  x <> [] -> forallb is_alpha x = true ->
  word_before (MState (rev x ++ sn) q cs) = true.
Proof.
  intros Hne H. unfold word_before. cbn [seen].
  assert (Hr : forallb is_alpha (rev x) = true).
  { rewrite forallb_forall in *. intros a Ha. apply H, in_rev, Ha. }
  destruct (rev x) as [| a t] eqn:E.
  - apply (f_equal (@rev ascii)) in E. rewrite rev_involutive in E. contradiction.
  - simpl in *. apply andb_true_iff in Hr. apply alpha_word. tauto.
Qed.

Lemma spells_ci_words : forall ws w x sn q cs,
  In w ws -> spells_ci w x ->
  matches (words_ci ws) (MState sn (x ++ q) cs) (MState (rev x ++ sn) q cs).
Proof.
  induction ws as [| v ws IH]; intros w x sn q cs Hin Hw; [destruct Hin |].
  destruct ws as [| v' ws].
  - destruct Hin as [-> | []]. apply spells_ci_matches. exact Hw.
  - change (words_ci (v :: v' :: ws)) with (Alt (lit_ci v) (words_ci (v' :: ws))).
    destruct Hin as [-> | Hin].
    + left. apply spells_ci_matches. exact Hw.
    + right. apply (IH w); assumption.
Qed.

(** In a text of letters the word pattern finds the text itself, when
    it spells one of the six words. *)
Lemma action_word_exact w change :
  In w ACTIONS -> spells_ci w change ->
  exists m, exec re_action_word change = Some m /\ toLowerCase (group 1 m) = w.
Proof.
  intros Hin Hw.
  destruct (actions_alpha _ Hin) as [Hwa Hwne].
  pose proof (spells_alpha _ _ Hw Hwa) as Ha.
  assert (Hne : change <> []).
  { intros ->. inversion Hw. subst. congruence. }
  assert (Hex : exec re_action_word change <> None).
  { apply (exec_intro re_action_word [] change
      (MState (rev change ++ []) [] [(1, change)])).
    unfold re_action_word, action_group. cbn [seq fold_right rev].
    exists (MState [] change []). split.
    { split; [| reflexivity].
      pose proof (word_after_alpha change [] [] [] Hne Ha) as Hafter.
      rewrite app_nil_r in Hafter. rewrite Hafter. reflexivity. }
    exists (MState (rev change ++ []) [] [(1, change)]). split.
    - exists (MState (rev change ++ []) [] []). split.
      + pose proof (spells_ci_words ACTIONS w change [] [] [] Hin Hw) as Hword.
        rewrite app_nil_r in Hword at 1. exact Hword.
      + rewrite span_states. reflexivity.
    - exists (MState (rev change ++ []) [] [(1, change)]). split; [| reflexivity].
      split; [| reflexivity].
      rewrite (word_before_alpha change [] [] _ Hne Ha). reflexivity. }
  destruct (exec re_action_word change) as [m |] eqn:Hm; [| congruence].
  exists m. split; [reflexivity |].
  apply exec_inv in Hm.
  destruct Hm as (p & q & st & Hsplit & Hmt & _ & _ & Hg & _).
  unfold re_action_word, action_group in Hmt. cbn [seq fold_right matches] in Hmt.
  destruct Hmt as (st1 & [Hb1 ->] & st2 & (st3 & Hwords & ->) & st4 & [Hb2 ->] & ->).
  destruct (words_ci_matches _ _ _ Hwords) as (w' & x & Hin' & (Hrest & Hseen & Hcaps) & Hw').
  destruct st3 as [sn3 rs3 cs3]. cbn [seen rest caps] in *. subst q.
  subst sn3 cs3. rewrite span_states in Hg, Hb2.
  unfold set_cap in Hg, Hb2. cbn [seen rest caps] in Hg, Hb2.
  destruct (actions_alpha _ Hin') as [Hwa' Hwne'].
  pose proof (spells_alpha _ _ Hw' Hwa') as Hxa.
  assert (Hxne : x <> []).
  { intros ->. inversion Hw'. subst. congruence. }
  rewrite Hsplit, !forallb_app in Ha.
  apply andb_true_iff in Ha. destruct Ha as [Hpa Ha].
  apply andb_true_iff in Ha. destruct Ha as [_ Hra].
  rewrite (word_before_alpha x (rev p) rs3 _ Hxne Hxa) in Hb2.
  assert (Hrs : rs3 = []).
  { destruct rs3 as [| a rs3]; [reflexivity |]. simpl in Hra.
    apply andb_true_iff in Hra. destruct Hra as [Hra _].
    unfold word_after in Hb2. cbn [rest] in Hb2.
    rewrite (alpha_word _ Hra) in Hb2. discriminate. }
  rewrite (word_after_alpha x rs3 (rev p) [] Hxne Hxa) in Hb1.
  assert (Hp : p = []).
  { destruct p as [| a p]; [reflexivity |].
    rewrite <- (app_nil_r (rev (a :: p))) in Hb1.
    rewrite (word_before_alpha (a :: p) [] _ _ ltac:(discriminate) Hpa) in Hb1.
    discriminate. }
  subst p rs3. rewrite app_nil_r in Hsplit. simpl in Hsplit. subst x.
  unfold group. rewrite Hg. simpl.
  rewrite (spells_ci_lower _ _ Hw). apply actions_lower. exact Hin.
Qed.

(** *** Oversized lines *)

Lemma joined_length buffer line : length line <= length (joined buffer line).
Proof.
  unfold joined. destruct (truthy buffer); [| lia].
  rewrite !length_app. lia.
Qed.

Lemma pending_step_unrecognised st raw :
  unrecognised st (trim raw) ->
  pending_step st raw =
  if Nat.ltb 500 (length (joined (buffer st) (trim raw)))
  then flushed st (trim raw)
  else PState (items st) (currentServerFolder st) (joined (buffer st) (trim raw))
              (pendingNameFragment st) (console st).
Proof.
  intros (Hh & Hf & Hn & Hp & Hr & Hb). unfold pending_step.
  rewrite Hh, Hf, Hn, Hp, Hr. cbv zeta. rewrite Hb. reflexivity.
Qed.

(** C7, as amended.  Wherever the compact status text holds a line of
    more than 500 code units that no rule of the parser recognises,
    neither on its own nor joined to what the buffer holds, the loop
    discards the buffer together with that line: the records are those
    found before the line, the buffer and the held name fragment are
    empty afterwards, and the parse goes on from there to its end. *)
Theorem oversized_garbage_dropped stdout pre g post :
  pending_lines stdout = pre ++ g :: post ->
  500 < length (trim g) ->
  unrecognised (fold_left pending_step pre (pending_init [])) (trim g) ->
  let reached := fold_left pending_step pre (pending_init []) in
  let left := fold_left pending_step (pre ++ [g]) (pending_init []) in
  left = flushed reached (trim g) /\
  items left = items reached /\
  buffer left = [] /\
  pendingNameFragment left = None /\
  parsePending stdout = items (fold_left pending_step post left).
Proof.
  intros Hlines Hlen Hun reached left.
  change (unrecognised reached (trim g)) in Hun.
  assert (Hleft : left = flushed reached (trim g)).
  { unfold left. rewrite fold_left_app. cbn [fold_left]. fold reached.
    rewrite (pending_step_unrecognised _ _ Hun).
    pose proof (joined_length (buffer reached) (trim g)) as Hj.
    destruct (Nat.ltb_spec 500 (length (joined (buffer reached) (trim g))));
      [reflexivity | lia]. }
  split; [exact Hleft |]. rewrite Hleft. repeat split.
  unfold parsePending, parsePending_run. rewrite Hlines.
  change (pre ++ g :: post) with (pre ++ [g] ++ post).
  rewrite app_assoc, fold_left_app. fold left. rewrite Hleft. reflexivity.
Qed.

(** C7 as stated fails when the buffer is not empty: the oversized
    line is no header, folder header or name fragment and no row on
    its own, yet joined to the buffered line before it it is read as a
    row, and a record comes out. *)
Lemma oversized_line_completes_row :
  500 < length garbage_tail /\
  is_header garbage_tail = false /\
  is_folder_header garbage_tail = false /\
  is_name_fragment garbage_tail = false /\
  tryParseRow None garbage_tail = None /\
  parsePending (unlines [T "a"; garbage_tail]) = [PendingItem (T "a") (T "edit")].
Proof. vm_compute. repeat split; try reflexivity. lia. Qed.

Lemma oversized_garbage_dropped_witness :
  parsePending (unlines [T "Foo.cs     edit     C:\ws\Foo.cs"; garbage501;
                         T "Bar.cs     add      C:\ws\Bar.cs"])
  = [PendingItem (T "C:\ws\Foo.cs") (T "edit");
     PendingItem (T "C:\ws\Bar.cs") (T "add")].
Proof.
  pose proof (oversized_garbage_dropped
                (unlines [T "Foo.cs     edit     C:\ws\Foo.cs"; garbage501;
                          T "Bar.cs     add      C:\ws\Bar.cs"])
                [T "Foo.cs     edit     C:\ws\Foo.cs"] garbage501
                [T "Bar.cs     add      C:\ws\Bar.cs"]) as H.
  cbv zeta in H.
  destruct H as (_ & _ & _ & _ & H).
  - vm_compute. reflexivity.
  - vm_compute. lia.
  - vm_compute. repeat split; reflexivity.
  - rewrite H. vm_compute. reflexivity.
Defined.

(** *** Lines of letters and digits *)

Ltac by_blocked H :=
  first [ apply (blocked_exec plain) | apply (blocked_test plain) ];
  [vm_compute; reflexivity | exact H].

(** A line of letters and digits is recognised by no rule, whatever
    folder or name fragment the loop holds, as long as the buffer is
    empty. *)
Lemma plain_line_unrecognised st line :
  forallb plain line = true -> buffer st = [] -> unrecognised st line.
Proof.
  intros H Hbuf.
  assert (Hrow : forall folder, tryParseRow folder line = None).
  { intros folder. unfold tryParseRow. rewrite (plain_trim _ H).
    replace (exec re_row_wide line) with (@None found) by (symmetry; by_blocked H).
    replace (exec re_row_narrow line) with (@None found) by (symmetry; by_blocked H).
    replace (exec re_action_first line) with (@None found) by (symmetry; by_blocked H).
    replace (exec re_server_item line) with (@None found) by (symmetry; by_blocked H).
    replace (exec re_local_item line) with (@None found) by (symmetry; by_blocked H).
    reflexivity. }
  unfold unrecognised. repeat split.
  - unfold is_header.
    replace (test re_dashes3 line) with false by (symmetry; by_blocked H).
    replace (test re_table_header line) with false by (symmetry; by_blocked H).
    replace (test re_no_pending line) with false by (symmetry; by_blocked H).
    replace (test re_banner line) with false by (symmetry; by_blocked H).
    reflexivity.
  - unfold is_folder_header.
    replace (test re_server_root line) with false by (symmetry; by_blocked H).
    reflexivity.
  - unfold is_name_fragment.
    rewrite (blocked_replace plain re_ellipsis_end [] line); [| vm_compute; reflexivity | exact H].
    replace (test re_asset_ext line) with false by (symmetry; by_blocked H).
    apply andb_false_r.
  - unfold pair_fragment. destruct (pendingNameFragment st) as [f |]; [| reflexivity].
    destruct (truthy f); [| reflexivity].
    replace (exec re_action_then_local line) with (@None found)
      by (symmetry; by_blocked H).
    reflexivity.
  - apply Hrow.
  - rewrite Hbuf. apply Hrow.
Qed.

Lemma plain_pending_lines line :
  forallb plain line = true -> line <> [] -> pending_lines line = [line].
Proof.
  intros H Hne. unfold pending_lines, lines_of, split.
  destruct line as [| a line']; [congruence |].
  rewrite (blocked_split_scan plain); [| vm_compute; reflexivity | exact H].
  simpl rev. simpl app. cbn [map]. unfold clean_line, replace_all.
  rewrite (blocked_replace_scan plain re_nul); [| vm_compute; reflexivity | exact H].
  rewrite (blocked_replace_scan plain re_trailing_space);
    [| vm_compute; reflexivity | exact H].
  cbn [filter]. unfold nonblank. rewrite (plain_trim _ H). reflexivity.
Qed.

(** A text that is one line of more than 500 letters and digits gives
    no record: the line goes to the buffer and the buffer is
    discarded, with one notice on the console. *)
Lemma plain_garbage_dropped line out :
  forallb plain line = true -> 500 < length line ->
  parsePending_run line out
  = PState [] None [] None (out ++ [drop_message line]).
Proof.
  intros H Hlen. unfold parsePending_run.
  rewrite (plain_pending_lines _ H) by (intros ->; simpl in Hlen; lia).
  cbn [fold_left].
  rewrite (pending_step_unrecognised (pending_init out) line);
    [| rewrite (plain_trim _ H); apply (plain_line_unrecognised _ _ H); reflexivity].
  rewrite (plain_trim _ H). unfold joined, pending_init, flushed. simpl.
  destruct (Nat.ltb_spec 500 (length line)); [reflexivity | lia].
Qed.

(** *** The console *)





(** *** Short inputs *)

Lemma weight_app l1 l2 : weight (l1 ++ l2) = weight l1 + weight l2.
Proof. induction l1 as [| a l1 IH]; simpl; [reflexivity | rewrite IH; lia]. Qed.















(** ** The history parser *)

Lemma at_bol_line_start pre q cs :
  at_bol true (MState (rev pre) q cs) = true <-> line_start pre.
Proof.
  unfold at_bol, line_start. simpl. destruct (rev pre); simpl; [tauto |].
  split; auto.
Qed.

(** *** The Changeset line *)

Lemma changeset_line_here pre q ds :
  changeset_line_at (pre ++ q) pre ds -> match_here re_changeset (rev pre) q <> None.
Proof.
  intros (ws1 & tag & ws2 & post & E & Hpre & Hw1 & Htag & Hw2 & [Hne Hds] & _).
  apply app_inv_head in E. subst q.
  apply nonempty_length in Hne.
  eapply match_here_complete.
  unfold re_changeset, star, plus.
  eapply matches_seq_cons.
  { split; [apply at_bol_line_start; exact Hpre | reflexivity]. }
  apply step_rep; [assumption | lia |].
  eapply matches_seq_cons; [apply spells_ci_matches; exact Htag |].
  apply step_rep; [assumption | lia |].
  apply step_grp_rep; [assumption .. |].
  reflexivity.
Qed.

Lemma prefix_cut {A} (p q p' q' : list A) :
  p ++ q = p' ++ q' -> length p' < length p ->
  exists a p2, p = p' ++ a :: p2 /\ q' = a :: p2 ++ q.
Proof.
  intros E Hlen. apply app_eq_app in E.
  destruct E as [x [[Hp Hq] | [Hp Hq]]].
  - destruct x as [| a x].
    + rewrite app_nil_r in Hp. subst. lia.
    + exists a, x. subst. auto.
  - subst. rewrite length_app in Hlen. lia.
Qed.

(** The match that [exec] reports for the Changeset pattern: the first
    Changeset line. *)
Lemma changeset_match b m :
  exec re_changeset b = Some m ->
  exists ds, first_changeset_line b ds /\ group 1 m = ds.
Proof.
  intros H. apply search_some in H.
  destruct H as (p & q & st & -> & Hm & -> & Hleft). rewrite app_nil_r in Hm.
  assert (Hleft' : forall p1 a p2, p = p1 ++ a :: p2 ->
            match_here re_changeset (rev p1) (a :: p2 ++ q) = None).
  { intros p1 a p2 Hp. specialize (Hleft p1 a p2 Hp).
    rewrite app_nil_r in Hleft. exact Hleft. }
  clear Hleft.
  unfold match_here, re_changeset, star, plus in Hm.
  change (seq [Bol true; Rep true 0 is_space; lit_ci (T "Changeset:");
               Rep true 0 is_space; Grp 1 (Rep true 1 is_digit)])
    with (Seq (Bol true)
           (Seq (Rep true 0 is_space)
              (Seq (lit_ci (T "Changeset:"))
                 (Seq (Rep true 0 is_space)
                    (Seq (Grp 1 (Rep true 1 is_digit)) Eps))))) in Hm.
  apply matcher_seq_sound in Hm. destruct Hm as (st1 & [Hb ->] & Hm).
  apply matcher_seq_sound in Hm. destruct Hm as (st2 & H1 & Hm).
  apply matcher_seq_sound in Hm. destruct Hm as (st3 & H2 & Hm).
  apply matcher_seq_sound in Hm. destruct Hm as (st4 & H3 & Hm).
  apply rep_matches in H1. destruct H1 as (ws1 & (Hr1 & Hs1 & Hc1) & Hw1 & _).
  apply lit_ci_matches in H2. destruct H2 as (tag & (Hr2 & Hs2 & Hc2) & Htag).
  apply rep_matches in H3. destruct H3 as (ws2 & (Hr3 & Hs3 & Hc3) & Hw2 & _).
  cbn [matcher] in Hm.
  apply (rep_greedy_total is_digit (fun st' => set_cap 1 (span st4 st') st')) in Hm.
  destruct Hm as (ds & post & Hr4 & Hds & Hlen & Hstop & ->).
  simpl in Hr1. exists ds. split.
  - exists p. split.
    + exists ws1, tag, ws2, post. repeat split; auto.
      * rewrite Hr1, Hr2, Hr3, Hr4. reflexivity.
      * apply (at_bol_line_start p q []). exact Hb.
      * intros ->. simpl in Hlen. lia.
    + intros pre' ds' Hline.
      destruct (Nat.le_gt_cases (length p) (length pre')) as [? | Hlt]; [assumption |].
      exfalso. pose proof Hline as (w1 & t & w2 & po & E & _).
      destruct (prefix_cut _ _ _ _ E Hlt) as (a & p2 & Hp & Hq).
      rewrite Hp, <- app_assoc in Hline. simpl in Hline.
      apply changeset_line_here in Hline.
      apply Hline, Hleft'. exact Hp.
  - unfold group, found_of. simpl. rewrite (span_shape _ _ ds); reflexivity.
Qed.

Lemma first_changeset_line_line b ds : first_changeset_line b ds -> changeset_line b ds.
Proof. intros (pre & H & _). exists pre. exact H. Qed.

Lemma changeset_line_found b ds :
  changeset_line b ds -> exec re_changeset b <> None.
Proof.
  intros (pre & H). pose proof H as (ws1 & tag & ws2 & post & E & _).
  rewrite E in *. apply search_found. rewrite app_nil_r.
  apply (changeset_line_here _ _ ds). exact H.
Qed.

Lemma changeset_line_iff b :
  test re_changeset b = true <-> exists ds, changeset_line b ds.
Proof.
  split.
  - intros H. apply test_true in H. destruct H as [m H].
    destruct (changeset_match _ _ H) as (ds & Hline & _).
    exists ds. apply first_changeset_line_line, Hline.
  - intros [ds H]. unfold test. pose proof (changeset_line_found _ _ H).
    destruct (exec re_changeset b); congruence.
Qed.

Lemma history_item_none b :
  history_item b = None <-> test re_changeset b = false.
Proof.
  unfold history_item, test. destruct (exec re_changeset b); split; congruence.
Qed.

(** *** Doubles *)

Section Doubles.

Local Open Scope N_scope.

Lemma MV_written ds : MV ds = written ds.
Proof.
  unfold MV, written. generalize 0. induction ds as [| a ds IH]; intros acc; simpl.
  - reflexivity.
  - rewrite IH. f_equal. f_equal. unfold digit_val, code. lia.
Qed.


Lemma ulp_pos n : 0 < ulp n.
Proof. unfold ulp. apply N.neq_0_lt_0, N.pow_nonzero. discriminate. Qed.

Lemma size_bounds n : n <> 0 -> 2 ^ (N.size n - 1) <= n < 2 ^ N.size n.
Proof.
  intros Hn. rewrite N.size_log2 by exact Hn.
  replace (N.succ (N.log2 n) - 1) with (N.log2 n) by lia.
  apply N.log2_spec. lia.
Qed.

(** Above 53 bits the quotient by the spacing has exactly 53 bits. *)
Lemma quotient_bits n :
  53 < N.size n -> 2 ^ 52 <= n / ulp n < 2 ^ 53.
Proof.
  intros Hs. assert (Hn : n <> 0) by (intros ->; simpl in Hs; lia).
  destruct (size_bounds n Hn) as [Hlo Hhi]. unfold ulp.
  set (sh := N.size n - 53) in *.
  replace (N.size n - 1) with (52 + sh) in Hlo by lia.
  replace (N.size n) with (53 + sh) in Hhi by lia.
  rewrite N.pow_add_r in Hlo, Hhi.
  assert (Hp : 0 < 2 ^ sh) by (apply N.neq_0_lt_0, N.pow_nonzero; discriminate).
  split.
  - apply N.div_le_lower_bound; lia.
  - apply N.Div0.div_lt_upper_bound; lia.
Qed.

Lemma small_exact n : N.size n <= 53 -> ulp n = 1 /\ n < 2 ^ 53.
Proof.
  intros Hs. unfold ulp. replace (N.size n - 53) with 0 by lia. split; [reflexivity |].
  apply N.lt_le_trans with (2 ^ N.size n); [apply N.size_gt |].
  apply N.pow_le_mono_r; [discriminate | exact Hs].
Qed.

Lemma distance_cases a b :
  (a <= b /\ distance a b = b - a) \/ (b <= a /\ distance a b = a - b).
Proof. unfold distance. lia. Qed.

Lemma distance_sym a b : distance a b = distance b a.
Proof. unfold distance. lia. Qed.

(** A double above [q * 2^sh], for [q] of 53 bits, is a multiple of
    [2^sh]. *)
Lemma double_multiple sh q m e :
  2 ^ 52 <= q -> m < 2 ^ 53 -> q * 2 ^ sh < m * 2 ^ e ->
  exists k, m * 2 ^ e = k * 2 ^ sh.
Proof.
  intros Hq Hm Hlt.
  destruct (N.le_gt_cases sh e) as [Hle | Hgt].
  - exists (m * 2 ^ (e - sh)). rewrite <- N.mul_assoc, <- N.pow_add_r.
    replace (e - sh + sh) with e by lia. reflexivity.
  - exfalso.
    assert (Hp : 0 < 2 ^ e) by (apply N.neq_0_lt_0, N.pow_nonzero; discriminate).
    assert (Hs : 2 ^ sh = 2 ^ (sh - e) * 2 ^ e).
    { rewrite <- N.pow_add_r. f_equal. lia. }
    assert (H2 : 2 <= 2 ^ (sh - e)).
    { change 2 with (2 ^ 1) at 1. apply N.pow_le_mono_r; [discriminate | lia]. }
    rewrite Hs in Hlt.
    assert (m * 2 ^ e < 2 ^ 53 * 2 ^ e) by (apply N.mul_lt_mono_pos_r; assumption).
    assert (2 ^ 53 * 2 ^ e <= q * (2 ^ (sh - e) * 2 ^ e)).
    { rewrite N.mul_assoc. apply N.mul_le_mono_r.
      change (2 ^ 53) with (2 ^ 52 * 2). apply N.mul_le_mono; assumption. }
    lia.
Qed.

(** No multiple of [u] lies strictly between two consecutive ones. *)
Lemma between_multiples u q k : q * u < k * u -> k * u < (q + 1) * u -> False.
Proof.
  intros H1 H2. destruct (N.eq_dec u 0) as [-> | Hu]; [lia |].
  apply N.mul_lt_mono_pos_r in H1, H2; lia.
Qed.

(** Rounding [q * u + r] to a multiple of [u]. *)
Lemma round_nearest u q r v' :
  0 < u -> r < u ->
  v' <= q * u \/ (q + 1) * u <= v' ->
  let n := q * u + r in
  let q' := if N.ltb u (2 * r) || (N.eqb u (2 * r) && N.odd q) then q + 1 else q in
  distance n (q' * u) <= distance n v' /\
  (distance n (q' * u) = distance n v' -> v' <> q' * u ->
   N.even (q' * u / distance (q' * u) v') = true).
Proof.
  intros Hu Hr Hv n q'.
  assert (Hq1 : (q + 1) * u = q * u + u) by lia.
  destruct (N.ltb_spec u (2 * r)) as [Hlt | Hge]; cbn [orb] in q'.
  - (* rounded up *)
    subst q'. rewrite Hq1 in *. set (a := q * u) in *.
    destruct (distance_cases n (a + u)) as [[_ ->] | [_ ->]];
      destruct (distance_cases n v') as [[? ->] | [? ->]]; subst n; split; try lia.
  - destruct (N.eqb_spec u (2 * r)) as [Heq | Hne]; cbn [andb] in q'.
    + destruct (N.odd q) eqn:Hodd; subst q'.
      * (* a tie, upwards *)
        rewrite Hq1 in *. set (a := q * u) in *.
        destruct (distance_cases n (a + u)) as [[_ Hd] | [_ Hd]]; rewrite Hd;
          destruct (distance_cases n v') as [[? Hd'] | [? Hd']]; rewrite Hd';
          subst n; split; try lia.
        intros He Hne. assert (v' = a) by lia. subst v'.
        destruct (distance_cases (a + u) a) as [[? ->] | [? ->]]; [lia |].
        replace (a + u - a) with u by lia. rewrite <- Hq1.
        rewrite N.div_mul by lia. rewrite N.even_add, <- N.negb_odd, Hodd. reflexivity.
      * (* a tie, downwards *)
        set (a := q * u) in *.
        destruct (distance_cases n a) as [[_ Hd] | [_ Hd]]; rewrite Hd;
          destruct (distance_cases n v') as [[? Hd'] | [? Hd']]; rewrite Hd';
          subst n; split; try lia.
        intros He Hne. assert (v' = a + u) by lia. subst v'.
        destruct (distance_cases a (a + u)) as [[? ->] | [? ->]]; [| lia].
        replace (a + u - a) with u by lia. unfold a.
        rewrite N.div_mul by lia. rewrite <- N.negb_odd, Hodd. reflexivity.
    + (* rounded down *)
      subst q'. set (a := q * u) in *.
      destruct (distance_cases n a) as [[_ ->] | [_ ->]];
        destruct (distance_cases n v') as [[? ->] | [? ->]]; subst n; split; try lia.
Qed.

Lemma size_small n : n < 2 ^ 53 -> N.size n <= 53.
Proof.
  intros H. destruct (N.eq_dec n 0) as [-> | Hn]; [simpl; lia |].
  rewrite N.size_log2 by exact Hn.
  apply N.le_succ_l, N.log2_lt_pow2; lia.
Qed.

(** Below 2^53 every whole number is its own double. *)
Lemma Number_value_exact n : n < 2 ^ 53 -> Number_value n = Num n.
Proof.
  intros H. unfold Number_value.
  replace (N.size n - 53) with 0 by (pose proof (size_small n H); lia).
  change (2 ^ 0) with 1. rewrite N.div_1_r, N.mod_1_r. cbn [N.mul N.ltb N.eqb N.compare orb andb].
  rewrite N.mul_1_r.
  destruct (N.leb_spec (2 ^ 1024) n) as [Hbig | _]; [| reflexivity].
  exfalso. assert (2 ^ 53 < 2 ^ 1024) by (apply N.pow_lt_mono_r; lia). lia.
Qed.

Lemma pow_split a b : b <= a -> 2 ^ a = 2 ^ (a - b) * 2 ^ b.
Proof. intros H. rewrite <- N.pow_add_r. f_equal. lia. Qed.

Lemma Number_value_nearest n : nearest_double n (Number_value n).
Proof.
  unfold Number_value. fold (ulp n).
  set (u := ulp n). set (q := n / u). set (r := n mod u).
  set (q' := if N.ltb u (2 * r) || (N.eqb u (2 * r) && N.odd q) then q + 1 else q).
  assert (Hu : 0 < u) by apply ulp_pos.
  assert (Hn : n = q * u + r).
  { unfold q, r. rewrite N.mul_comm. apply N.div_mod. lia. }
  assert (Hr : r < u) by (apply N.mod_lt; lia).
  assert (Hq' : q' = q \/ q' = q + 1 /\ u <= 2 * r).
  { unfold q'. destruct (N.ltb_spec u (2 * r)); cbn [orb]; [right; split; lia |].
    destruct (N.eqb_spec u (2 * r)); cbn [andb]; [| left; reflexivity].
    destruct (N.odd q); [right; split; lia | left; reflexivity]. }
  assert (Hup : q' = q + 1 \/ q' = q /\ (2 * r < u \/ 2 * r = u /\ N.odd q = false)).
  { unfold q'. destruct (N.ltb_spec u (2 * r)); cbn [orb]; [left; reflexivity |].
    destruct (N.eqb_spec u (2 * r)); cbn [andb]; [| right; split; [reflexivity | lia]].
    destruct (N.odd q); [left; reflexivity | right; split; [reflexivity | lia]]. }
  destruct (N.le_gt_cases (N.size n) 53) as [Hsmall | Hbig].
  - (* at most 53 bits: the number itself *)
    destruct (small_exact n Hsmall) as [Hu1 Hlt]. fold u in Hu1.
    assert (Hr0 : r = 0) by lia.
    assert (Hqq : q' = q) by (destruct Hq' as [? | [_ ?]]; [assumption | lia]).
    assert (Hv : q' * u = n) by (rewrite Hqq, Hn, Hr0, Hu1; lia).
    assert (H1024 : 2 ^ 53 < 2 ^ 1024 - 2 ^ 970) by (vm_compute; reflexivity).
    destruct (N.leb_spec (2 ^ 1024) (q' * u)) as [Hinf | Hfin]; [lia |].
    split; [lia |]. split.
    + exists n, 0. rewrite Hv. split; [exact Hlt |]. split; [simpl; lia | lia].
    + intros v' _. pose proof (round_nearest u q r v' Hu Hr) as Hround.
      cbv zeta in Hround. fold q' in Hround. rewrite <- Hn in Hround.
      apply Hround. rewrite Hu1. lia.
  - (* more than 53 bits *)
    destruct (quotient_bits n Hbig) as [Hqlo Hqhi]. fold u q in Hqlo, Hqhi.
    set (sh := N.size n - 53) in *.
    assert (Hsh : N.size n = 53 + sh) by lia.
    assert (Hu2 : u = 2 ^ sh) by reflexivity.
    destruct (N.leb_spec (2 ^ 1024) (q' * u)) as [Hinf | Hfin].
    + (* Infinity *)
      assert (Hle : q' * u <= 2 ^ 53 * u) by (apply N.mul_le_mono_r; lia).
      assert (H1024 : 1024 <= 53 + sh).
      { destruct (N.le_gt_cases 1024 (53 + sh)) as [? | Hlt]; [assumption |].
        exfalso. rewrite Hu2, <- N.pow_add_r in Hle.
        assert (2 ^ (53 + sh) < 2 ^ 1024) by (apply N.pow_lt_mono_r; lia). lia. }
      cbn [nearest_double].
      destruct (N.eq_dec sh 971) as [H971 | Hmore].
      * assert (Hqe : q' = 2 ^ 53).
        { rewrite Hu2, H971 in Hinf, Hle.
          change (2 ^ 1024) with (2 ^ 53 * 2 ^ 971) in Hinf.
          apply N.mul_le_mono_pos_r in Hinf; [| vm_compute; reflexivity]. lia. }
        destruct Hq' as [? | [Hq1 Hr2]]; [lia |].
        rewrite Hn. rewrite Hu2, H971 in *.
        assert (q = 2 ^ 53 - 1) by lia. subst q'.
        replace (2 ^ 1024 - 2 ^ 970) with ((2 ^ 53 - 1) * 2 ^ 971 + 2 ^ 970)
          by (vm_compute; reflexivity).
        assert (2 ^ 970 <= r).
        { change (2 ^ 971) with (2 * 2 ^ 970) in Hr2. lia. }
        rewrite H. lia.
      * destruct (size_bounds n) as [Hlo _]; [intros E; rewrite E in Hbig; simpl in Hbig; lia |].
        rewrite Hsh in Hlo.
        assert (2 ^ 1024 <= 2 ^ (53 + sh - 1)) by (apply N.pow_le_mono_r; lia).
        assert (2 ^ 1024 - 2 ^ 970 <= 2 ^ 1024) by lia. lia.
    + (* a double *)
      assert (Hsh2 : sh <= 971).
      { destruct (N.le_gt_cases sh 971) as [? | Hgt]; [assumption |]. exfalso.
        assert (2 ^ 52 * 2 ^ 972 <= q' * u).
        { apply N.mul_le_mono; [destruct Hq' as [-> | [-> _]]; lia |].
          rewrite Hu2. apply N.pow_le_mono_r; lia. }
        change (2 ^ 52 * 2 ^ 972) with (2 ^ 1024) in *. lia. }
      split; [| split].
      * destruct (N.le_gt_cases (2 ^ 1024 - 2 ^ 970) n) as [Hge | ?]; [| assumption].
        exfalso.
        assert (Hs971 : sh = 971).
        { destruct (N.eq_dec sh 971) as [? | Hne]; [assumption |]. exfalso.
          assert (n < 2 ^ (53 + sh)) by (rewrite <- Hsh; apply N.size_gt).
          assert (2 ^ (53 + sh) <= 2 ^ 1023) by (apply N.pow_le_mono_r; lia).
          assert (2 ^ 1023 <= 2 ^ 1024 - 2 ^ 970) by (vm_compute; discriminate).
          lia. }
        rewrite Hu2, Hs971 in *.
        replace (2 ^ 1024 - 2 ^ 970) with ((2 ^ 53 - 1) * 2 ^ 971 + 2 ^ 970) in Hge
          by (vm_compute; reflexivity).
        assert (Hq53 : q = 2 ^ 53 - 1).
        { assert (2 ^ 53 - 1 <= q); [| lia].
          destruct (N.le_gt_cases (2 ^ 53 - 1) q) as [? | Hlt]; [assumption |]. exfalso.
          assert (q + 1 <= 2 ^ 53 - 1) by lia.
          assert ((q + 1) * 2 ^ 971 <= (2 ^ 53 - 1) * 2 ^ 971)
            by (apply N.mul_le_mono_r; assumption).
          lia. }
        assert (Hr970 : 2 ^ 970 <= r) by lia.
        change (2 ^ 971) with (2 * 2 ^ 970) in Hup.
        assert (Hodd : N.odd q = true) by (rewrite Hq53; vm_compute; reflexivity).
        destruct Hup as [Hq1 | [_ [? | [_ ?]]]]; [| lia | congruence].
        rewrite Hq1, Hq53 in Hfin.
        change ((2 ^ 53 - 1 + 1) * 2 ^ 971) with (2 ^ 1024) in Hfin. lia.
      * destruct (N.eq_dec q' (2 ^ 53)) as [He | Hne].
        -- exists (2 ^ 52), (sh + 1). split; [vm_compute; reflexivity |].
           split; [| exact Hfin]. rewrite He, Hu2, N.pow_add_r.
           change (2 ^ 53) with (2 ^ 52 * 2 ^ 1). lia.
        -- exists q', sh. split; [| split; [rewrite Hu2; reflexivity | exact Hfin]].
           destruct Hq' as [-> | [-> _]]; lia.
      * intros v' (m & e & Hm & Hv' & _).
        pose proof (round_nearest u q r v' Hu Hr) as Hround.
        cbv zeta in Hround. fold q' in Hround. rewrite <- Hn in Hround.
        apply Hround.
        destruct (N.le_gt_cases v' (q * u)) as [? | Hlo]; [left; assumption |].
        destruct (N.le_gt_cases ((q + 1) * u) v') as [? | Hhi]; [right; assumption |].
        exfalso. rewrite Hv', Hu2 in Hlo.
        destruct (double_multiple sh q m e Hqlo Hm Hlo) as [k Hk].
        rewrite Hv', Hk, <- Hu2 in Hhi. rewrite Hk, <- Hu2 in Hlo.
        apply (between_multiples u q k); assumption.
Qed.

End Doubles.

(** *** Lines and rules *)

Lemma lines_ok_cons l ls :
  lines_ok (l :: ls) <->
  (forallb is_dot l = true /\ ls = []) \/
  ((exists body nl, l = body ++ [nl] /\ forallb is_dot body = true /\
                    is_newline nl = true) /\ lines_ok ls).
Proof.
  destruct ls as [| x ls]; simpl.
  - split; [auto |]. intros [[H _] | [_ []]]. exact H.
  - split; [auto |]. intros [[_ H] | H]; [discriminate | exact H].
Qed.

Lemma text_lines_ok : forall s, lines_ok (text_lines s) /\ concat (text_lines s) = s.
Proof.
  induction s as [| a s [IH1 IH2]]; [split; reflexivity |].
  cbn [text_lines]. destruct (is_newline a) eqn:Ha.
  - split; [| simpl; rewrite IH2; reflexivity].
    apply lines_ok_cons. right. split; [| exact IH1].
    exists [], a. auto.
  - destruct (text_lines s) as [| l ls]; [destruct IH1 |].
    split; [| simpl in *; rewrite IH2; reflexivity].
    apply lines_ok_cons in IH1. apply lines_ok_cons.
    assert (Hd : is_dot a = true) by (unfold is_dot; rewrite Ha; reflexivity).
    destruct IH1 as [[Hl ->] | [(body & nl & -> & Hb & Hn) Hls]].
    + left. simpl. rewrite Hd, Hl. auto.
    + right. split; [| exact Hls]. exists (a :: body), nl. simpl. rewrite Hd, Hb. auto.
Qed.

Lemma newline_not_dot a : is_newline a = true -> is_dot a = false.
Proof. unfold is_dot. intros ->. reflexivity. Qed.

Lemma newline_space a : is_newline a = true -> is_space a = true.
Proof.
  unfold is_newline, is_space, between. intros H.
  apply orb_true_iff in H. destruct H as [H | H]; apply Nat.eqb_eq in H; rewrite H; reflexivity.
Qed.

Lemma dash_dot a : is_char "-" a = true -> is_dot a = true.
Proof. intros H. apply is_char_eq in H. subst a. reflexivity. Qed.

Lemma dash_not_space a : is_char "-" a = true -> is_space a = false.
Proof. intros H. apply is_char_eq in H. subst a. reflexivity. Qed.

(** A line end inside well-formed lines closes one of them. *)
Lemma lines_split : forall ls u nl v,
  lines_ok ls -> concat ls = u ++ nl :: v -> is_newline nl = true ->
  exists ls1 ls2,
    ls = ls1 ++ ls2 /\ ls1 <> [] /\ concat ls1 = u ++ [nl] /\ concat ls2 = v /\
    lines_ok ls2.
Proof.
  induction ls as [| l ls IH]; intros u nl v Hok E Hnl; [destruct Hok |].
  apply lines_ok_cons in Hok.
  destruct Hok as [[Hl ->] | [(body & e & -> & Hb & He) Hls]].
  - exfalso. simpl in E. rewrite app_nil_r in E. subst l.
    rewrite forallb_app in Hl. apply andb_true_iff in Hl. destruct Hl as [_ Hl].
    simpl in Hl. rewrite (newline_not_dot _ Hnl) in Hl. discriminate.
  - simpl in E. rewrite <- app_assoc in E. simpl in E.
    apply app_eq_app in E. destruct E as [x [[Hbx Hx] | [Hux Hx]]].
    + (* the line end lies in [body] or is its end *)
      destruct x as [| c x].
      * simpl in Hx. injection Hx as Hn Hv. subst e v. rewrite app_nil_r in Hbx.
        subst u. exists [body ++ [nl]], ls. repeat split; auto; try discriminate.
        simpl. rewrite app_nil_r. reflexivity.
      * exfalso. simpl in Hx. injection Hx as Hc _. subst c body.
        rewrite forallb_app in Hb. apply andb_true_iff in Hb. destruct Hb as [_ Hb].
        simpl in Hb. rewrite (newline_not_dot _ Hnl) in Hb. discriminate.
    + destruct x as [| c x].
      * simpl in Hx. injection Hx as Hn Hv. subst e v. rewrite app_nil_r in Hux.
        subst u. exists [body ++ [nl]], ls. repeat split; auto; try discriminate.
        simpl. rewrite app_nil_r. reflexivity.
      * simpl in Hx. injection Hx as Hc Hx. subst c u.
        destruct (IH x nl v Hls Hx Hnl) as (ls1 & ls2 & -> & Hne & H1 & H2 & Hok2).
        exists ((body ++ [e]) :: ls1), ls2. repeat split; auto; try discriminate.
        simpl. rewrite H1, <- !app_assoc. reflexivity.
Qed.

(** *** Where the rule pattern matches *)

Lemma rule_match sn rs st :
  match_here re_rule sn rs = Some st ->
  at_bol true (MState sn rs []) = true /\
  exists d w,
    rs = d ++ w ++ rest st /\ seen st = rev (d ++ w) ++ sn /\
    forallb (is_char "-") d = true /\ 5 <= length d /\
    forallb is_space w = true /\ eol (rest st).
Proof.
  intros H. apply match_here_sound in H.
  unfold re_rule, star in H. cbn [seq fold_right] in H.
  destruct H as (st1 & [Hb ->] & st2 & H1 & st3 & H2 & st4 & [He ->] & ->).
  apply rep_matches in H1. destruct H1 as (d & (Hr1 & Hs1 & _) & Hd & Hlen).
  apply rep_matches in H2. destruct H2 as (w & (Hr2 & Hs2 & _) & Hw & _).
  simpl in Hr1. split; [exact Hb |]. exists d, w. repeat split; auto.
  - rewrite Hr1, Hr2. reflexivity.
  - rewrite Hs2, Hs1, rev_app_distr, <- app_assoc. reflexivity.
  - unfold at_eol in He. unfold eol. destruct (rest st3); [exact I | exact He].
Qed.

Lemma rule_found sn d w q :
  at_bol true (MState sn (d ++ w ++ q) []) = true ->
  forallb (is_char "-") d = true -> 5 <= length d ->
  forallb is_space w = true -> eol q ->
  match_here re_rule sn (d ++ w ++ q) <> None.
Proof.
  intros Hb Hd Hlen Hw Hq.
  apply (match_here_complete _ _ _ (MState (rev w ++ rev d ++ sn) q [])).
  unfold re_rule, star.
  eapply matches_seq_cons; [split; [exact Hb | reflexivity] |].
  apply step_rep; [exact Hd | exact Hlen |].
  apply step_rep; [exact Hw | lia |].
  eapply matches_seq_cons; [| reflexivity].
  split; [| reflexivity]. unfold at_eol. simpl.
  destruct q; [reflexivity | exact Hq].
Qed.

Lemma rule_needs_bol sn rs :
  at_bol true (MState sn rs []) = false -> match_here re_rule sn rs = None.
Proof.
  intros H. destruct (match_here re_rule sn rs) eqn:E; [| reflexivity].
  apply rule_match in E. destruct E as [E _]. congruence.
Qed.

Lemma rule_needs_dash a rs sn :
  is_char "-" a = false -> match_here re_rule sn (a :: rs) = None.
Proof.
  intros H. destruct (match_here re_rule sn (a :: rs)) eqn:E; [| reflexivity].
  apply rule_match in E. destruct E as (_ & d & w & Hrs & _ & Hd & Hlen & _).
  destruct d as [| b d]; [simpl in Hlen; lia |].
  simpl in Hrs, Hd. injection Hrs as <- _. rewrite H in Hd. discriminate.
Qed.

(** *** The scan between two matches *)

Lemma split_scan_skip r : forall u piece sn rs,
  split_scan r (length u) piece sn (u ++ rs) = split_scan r 0 piece (rev u ++ sn) rs.
Proof.
  induction u as [| a u IH]; intros piece sn rs; [reflexivity |].
  cbn [length app split_scan]. rewrite IH, rev_cons_app. reflexivity.
Qed.

Lemma split_scan_walk r : forall l piece sn rs,
  (forall l1 a l2, l = l1 ++ a :: l2 ->
     match_here r (rev l1 ++ sn) (a :: l2 ++ rs) = None) ->
  split_scan r 0 piece sn (l ++ rs) = split_scan r 0 (rev l ++ piece) (rev l ++ sn) rs.
Proof.
  induction l as [| a l IH]; intros piece sn rs H; [reflexivity |].
  pose proof (H [] a l eq_refl) as H0. cbn [rev app] in H0.
  cbn [app split_scan]. rewrite H0.
  rewrite IH.
  - rewrite !rev_cons_app. reflexivity.
  - intros l1 b l2 ->. rewrite <- rev_cons_app. apply (H (a :: l1)). reflexivity.
Qed.

(** *** Rules among the lines *)

Lemma after_dashes_split l :
  exists d, l = d ++ after_dashes l /\ forallb (is_char "-") d = true /\
            stops (is_char "-") (after_dashes l).
Proof.
  induction l as [| a l (d & Hl & Hd & Hs)]; [exists []; simpl; auto |].
  cbn [after_dashes]. destruct (is_char "-" a) eqn:Ha.
  - exists (a :: d). simpl. rewrite Ha, Hd. split; [f_equal; exact Hl | auto].
  - exists []. simpl. auto.
Qed.

Lemma spaces_stop_dash w q : forallb is_space w = true -> eol q ->
  stops (is_char "-") (w ++ q).
Proof.
  intros Hw Hq. destruct w as [| a w]; simpl.
  - destruct q as [| b q]; [exact I |]. simpl in Hq. unfold stops.
    destruct (is_char "-" b) eqn:Hb; [| reflexivity].
    apply dash_dot in Hb. rewrite (newline_not_dot _ Hq) in Hb. discriminate.
  - simpl in Hw. apply andb_true_iff in Hw. destruct Hw as [Ha _]. unfold stops.
    destruct (is_char "-" a) eqn:Hb; [| reflexivity].
    apply dash_not_space in Hb. congruence.
Qed.

(** A rule line is five or more dashes and white space. *)
Lemma is_rule_line_iff l :
  is_rule_line l = true <->
  exists d w, l = d ++ w /\ forallb (is_char "-") d = true /\ 5 <= length d /\
              forallb is_space w = true.
Proof.
  unfold is_rule_line. destruct (after_dashes_split l) as (d & Hl & Hd & Hs). split.
  - intros H. apply andb_true_iff in H. destruct H as [Hn Hw].
    apply Nat.leb_le in Hn. exists d, (after_dashes l). repeat split; auto.
    rewrite Hl in Hn at 1. rewrite length_app in Hn. lia.
  - intros (d' & w & E & Hd' & Hlen & Hw).
    assert (Hsw : stops (is_char "-") w).
    { rewrite <- (app_nil_r w). apply spaces_stop_dash; [exact Hw | exact I]. }
    subst l.
    destruct (run_unique _ _ _ _ _ Hl Hd' Hd Hsw Hs) as [<- <-].
    rewrite length_app, Hw.
    replace (length d' + length w - length w) with (length d') by lia.
    apply andb_true_iff. split; [apply Nat.leb_le; exact Hlen | reflexivity].
Qed.

Lemma at_bol_bol sn rs cs : at_bol true (MState sn rs cs) = true <-> bol sn.
Proof. unfold at_bol, bol. simpl. destruct sn; simpl; tauto. Qed.

Lemma forallb_last {A} (p : A -> bool) l a :
  forallb p (l ++ [a]) = true <-> forallb p l = true /\ p a = true.
Proof.
  rewrite forallb_app. simpl. rewrite andb_true_r. apply andb_true_iff.
Qed.

(** What follows the dashes of a line is a line of its own. *)
Lemma lines_ok_tail d w ls :
  forallb (is_char "-") d = true -> lines_ok ((d ++ w) :: ls) -> lines_ok (w :: ls).
Proof.
  intros Hd H. apply lines_ok_cons in H. apply lines_ok_cons.
  destruct H as [[Hl ->] | [(body & nl & E & Hb & Hn) Hls]].
  - left. rewrite forallb_app in Hl. apply andb_true_iff in Hl. tauto.
  - right. split; [| exact Hls].
    destruct (exists_last (l := w)) as (w0 & c & ->).
    + intros ->. rewrite app_nil_r in E. subst d.
      apply forallb_last in Hd. destruct Hd as [_ Hd].
      apply dash_dot in Hd. rewrite (newline_not_dot _ Hn) in Hd. discriminate.
    + rewrite app_assoc in E. apply app_inj_tail in E. destruct E as [<- <-].
      exists w0, c. rewrite forallb_app in Hb. apply andb_true_iff in Hb.
      repeat split; tauto.
Qed.

(** A match of the rule pattern at the start of a line: the line is a
    rule. *)
Lemma rule_shape_line l ls d w q :
  lines_ok (l :: ls) -> l ++ concat ls = d ++ w ++ q ->
  forallb (is_char "-") d = true -> 5 <= length d ->
  forallb is_space w = true -> eol q ->
  is_rule_line l = true.
Proof.
  intros Hok E Hd Hlen Hw Hq. apply is_rule_line_iff.
  apply lines_ok_cons in Hok.
  destruct Hok as [[Hl ->] | [(body & nl & -> & Hb & Hn) _]].
  - simpl in E. rewrite app_nil_r in E. subst l.
    destruct q as [| b q].
    + exists d, w. rewrite app_nil_r. auto.
    + exfalso. simpl in Hq. rewrite !forallb_app in Hl. simpl in Hl.
      rewrite (newline_not_dot _ Hq) in Hl.
      rewrite andb_false_r, andb_false_r in Hl. discriminate.
  - rewrite <- app_assoc in E. simpl in E.
    apply app_eq_app in E. destruct E as [x [[Hbx Hx] | [Hdx Hx]]].
    + (* the dashes end inside the line *)
      subst body. rewrite forallb_app in Hb. apply andb_true_iff in Hb.
      destruct Hb as [_ Hxd].
      exists d, (x ++ [nl]). rewrite <- app_assoc. repeat split; auto.
      apply forallb_last. split; [| apply newline_space; exact Hn].
      apply app_eq_app in Hx. destruct Hx as [y [[Hwy Hy] | [Hxy Hy]]].
      * subst w. rewrite forallb_app in Hw. apply andb_true_iff in Hw. tauto.
      * destruct y as [| c y]; [rewrite app_nil_r in Hxy; subst x; exact Hw |].
        exfalso. subst q x. simpl in Hq.
        rewrite forallb_app in Hxd. simpl in Hxd.
        rewrite (newline_not_dot _ Hq), andb_false_r in Hxd. discriminate.
    + destruct x as [| c x].
      * rewrite app_nil_r in Hdx. subst d. exists body, [nl].
        repeat split; auto. simpl. rewrite (newline_space _ Hn). reflexivity.
      * exfalso. simpl in Hx. injection Hx as Hc _. subst c d.
        rewrite forallb_app in Hd. simpl in Hd.
        apply andb_true_iff in Hd. destruct Hd as [_ Hd].
        apply andb_true_iff in Hd. destruct Hd as [Hd _].
        apply dash_dot in Hd. rewrite (newline_not_dot _ Hn) in Hd. discriminate.
Qed.

(** At the start of a rule line the pattern matches. *)
Lemma rule_line_match l ls sn :
  lines_ok (l :: ls) -> is_rule_line l = true -> bol sn ->
  match_here re_rule sn (l ++ concat ls) <> None.
Proof.
  intros Hok Hr Hb. apply is_rule_line_iff in Hr.
  destruct Hr as (d & w & -> & Hd & Hlen & Hw).
  apply lines_ok_cons in Hok.
  destruct Hok as [[_ ->] | [(body & nl & E & _ & Hn) _]].
  - simpl. rewrite app_nil_r.
    rewrite <- (app_nil_r w). apply rule_found; auto; [| exact I].
    apply at_bol_bol. exact Hb.
  - destruct (exists_last (l := w)) as (w0 & c & ->).
    + intros ->. rewrite app_nil_r in E. subst d.
      apply forallb_last in Hd. destruct Hd as [_ Hd].
      apply dash_dot in Hd. rewrite (newline_not_dot _ Hn) in Hd. discriminate.
    + rewrite app_assoc in E. apply app_inj_tail in E. destruct E as [_ ->].
      rewrite <- !app_assoc. simpl.
      apply forallb_last in Hw. destruct Hw as [Hw _].
      apply rule_found; auto. apply at_bol_bol. exact Hb.
Qed.

(** Inside a line, and at the start of a line that is no rule, the
    pattern does not match. *)
Lemma plain_line_no_match l ls sn :
  lines_ok (l :: ls) -> is_rule_line l = false -> bol sn ->
  forall l1 a l2, l = l1 ++ a :: l2 ->
    match_here re_rule (rev l1 ++ sn) (a :: l2 ++ concat ls) = None.
Proof.
  intros Hok Hr Hb l1 a l2 E.
  destruct l1 as [| b l1'].
  - (* the start of the line *)
    simpl in *.
    destruct (match_here re_rule sn (a :: l2 ++ concat ls)) as [st |] eqn:Hm;
      [| reflexivity].
    apply rule_match in Hm. destruct Hm as (_ & d & w & Hrs & _ & Hd & Hlen & Hw & Hq).
    rewrite (rule_shape_line l ls d w (rest st)) in Hr; auto; [discriminate |].
    rewrite E. exact Hrs.
  - destruct (exists_last (l := b :: l1')) as (l0 & c & Hl1); [discriminate |].
    rewrite Hl1 in *. clear Hl1 b l1'.
    apply rule_needs_bol. rewrite rev_app_distr. simpl.
    assert (Hc : is_dot c = true).
    { apply lines_ok_cons in Hok.
      destruct Hok as [[Hl _] | [(body & nl & E' & Hbody & _) _]].
      - rewrite E, !forallb_app in Hl. simpl in Hl.
        apply andb_true_iff in Hl. destruct Hl as [Hl _].
        apply andb_true_iff in Hl. destruct Hl as [_ Hl].
        apply andb_true_iff in Hl. tauto.
      - rewrite E' in E. rewrite <- app_assoc in E. simpl in E.
        apply app_eq_app in E. destruct E as [x [[Hbx Hx] | [Hlx Hx]]].
        + destruct x as [| c' x]; [simpl in Hx; discriminate |].
          simpl in Hx. injection Hx as Hc' _. subst c' body.
          rewrite forallb_app in Hbody. simpl in Hbody.
          apply andb_true_iff in Hbody. destruct Hbody as [_ Hbody].
          apply andb_true_iff in Hbody. tauto.
        + destruct x as [| c' x]; [simpl in Hx; discriminate |].
          simpl in Hx. injection Hx as _ Hx. destruct x; discriminate. }
    unfold at_bol. simpl. unfold is_dot in Hc.
    destruct (is_newline c); [discriminate | reflexivity].
Qed.

(** *** White space at the edges *)

Lemma drop_spaces_blank s : forallb is_space s = true -> drop_spaces s = [].
Proof.
  induction s as [| a s IH]; simpl; [reflexivity |].
  intros H. apply andb_true_iff in H. destruct H as [-> H]. auto.
Qed.

Lemma drop_spaces_app_blank w s :
  forallb is_space w = true -> drop_spaces (w ++ s) = drop_spaces s.
Proof.
  induction w as [| a w IH]; simpl; [reflexivity |].
  intros H. apply andb_true_iff in H. destruct H as [-> H]. auto.
Qed.

Lemma drop_spaces_app x y l :
  drop_spaces x = drop_spaces y -> drop_spaces (x ++ l) = drop_spaces (y ++ l).
Proof.
  intros H.
  assert (Hgo : forall z, drop_spaces (z ++ l)
                          = match drop_spaces z with
                            | [] => drop_spaces l
                            | _ :: _ => drop_spaces z ++ l
                            end).
  { induction z as [| a z IH]; simpl; [destruct (drop_spaces l); reflexivity |].
    destruct (is_space a); [exact IH | reflexivity]. }
  rewrite (Hgo x), (Hgo y), H. reflexivity.
Qed.

Lemma trim_same x y : drop_spaces x = drop_spaces y -> trim x = trim y.
Proof. unfold trim. intros ->. reflexivity. Qed.

Lemma trim_blank s : forallb is_space s = true -> trim s = [].
Proof. intros H. unfold trim. rewrite (drop_spaces_blank _ H). reflexivity. Qed.

(** *** Lines that are no rules *)

Lemma blank_no_rule l : forallb is_space l = true -> is_rule_line l = false.
Proof.
  intros H. destruct (is_rule_line l) eqn:E; [| reflexivity].
  apply is_rule_line_iff in E. destruct E as (d & w & -> & Hd & Hlen & _).
  destruct d as [| a d]; [simpl in Hlen; lia |].
  simpl in H, Hd. apply andb_true_iff in H, Hd.
  destruct H as [H _], Hd as [Hd _]. apply dash_not_space in Hd. congruence.
Qed.

Lemma forallb_concat {A} (p : A -> bool) ls :
  forallb p (concat ls) = true <-> Forall (fun l => forallb p l = true) ls.
Proof.
  induction ls as [| l ls IH]; simpl.
  - split; [constructor | reflexivity].
  - rewrite forallb_app, andb_true_iff, IH. split.
    + intros [H1 H2]. constructor; assumption.
    + intros H. inversion H. auto.
Qed.

Lemma gather_blank : forall ls1 ls2 cur,
  forallb is_space (concat ls1) = true ->
  gather cur (ls1 ++ ls2) = gather (cur ++ concat ls1) ls2.
Proof.
  induction ls1 as [| l ls1 IH]; intros ls2 cur H; simpl.
  - rewrite app_nil_r. reflexivity.
  - simpl in H. rewrite forallb_app in H. apply andb_true_iff in H.
    destruct H as [Hl H]. rewrite (blank_no_rule _ Hl), IH by exact H.
    rewrite app_assoc. reflexivity.
Qed.

(** *** The pieces between the rules *)

Lemma split_rule_lines : forall n ls piece sn cur,
  length ls <= n -> lines_ok ls -> bol sn ->
  drop_spaces (rev piece) = drop_spaces cur ->
  map trim (split_scan re_rule 0 piece sn (concat ls)) = map trim (gather cur ls).
Proof.
  induction n as [| n IH]; intros ls piece sn cur Hn Hok Hb Hcur;
    destruct ls as [| l ls]; try (destruct Hok; fail); [simpl in Hn; lia |].
  simpl in Hn. cbn [concat gather].
  destruct (is_rule_line l) eqn:Hr.
  - (* a rule *)
    destruct (match_here re_rule sn (l ++ concat ls)) as [st |] eqn:Hm;
      [| destruct (rule_line_match l ls sn Hok Hr Hb Hm)].
    pose proof (rule_match _ _ _ Hm) as (_ & d & w & Hrs & Hseen & Hd & Hlen & Hw & Hq).
    pose proof (proj1 (is_rule_line_iff l) Hr) as (d0 & w0 & Hl & Hd0 & Hlen0 & Hw0).
    subst l. rewrite <- app_assoc in Hrs, Hm. rewrite <- app_assoc.
    assert (Hstop0 : stops (is_char "-") (w0 ++ concat ls)).
    { destruct w0 as [| a w0].
      - apply lines_ok_cons in Hok. rewrite app_nil_r in Hok.
        destruct Hok as [[_ ->] | [(body & nl & E & _ & Hnl) _]]; [exact I |].
        exfalso. subst d0. apply forallb_last in Hd0. destruct Hd0 as [_ Hd0].
        apply dash_dot in Hd0. rewrite (newline_not_dot _ Hnl) in Hd0. discriminate.
      - simpl in Hw0. apply andb_true_iff in Hw0. destruct Hw0 as [Ha _].
        simpl. destruct (is_char "-" a) eqn:Hda; [| reflexivity].
        apply dash_not_space in Hda. congruence. }
    destruct (run_unique _ _ _ _ _ Hrs Hd0 Hd Hstop0 (spaces_stop_dash _ _ Hw Hq))
      as [-> Hrest].
    apply lines_ok_tail in Hok; [| exact Hd].
    (* the step of the scan at the rule *)
    destruct d as [| a d]; [simpl in Hlen; lia |].
    assert (Hlenm : length (seen st) - length sn = S (length (d ++ w))).
    { rewrite Hseen, length_app, length_rev. cbn [app length].
      rewrite !length_app. lia. }
    change ((a :: d) ++ w0 ++ concat ls) with (a :: (d ++ w0 ++ concat ls)) in *.
    cbn [split_scan]. rewrite Hm, Hlenm.
    rewrite Hrest, app_assoc, split_scan_skip.
    cbn [map]. f_equal; [apply trim_same, Hcur |].
    destruct (rest st) as [| nl q] eqn:Hrst.
    + (* the rule and the white space after it end the text *)
      rewrite app_nil_r in Hrest.
      assert (Hblank : forallb is_space (concat ls) = true).
      { rewrite <- Hrest, forallb_app in Hw. apply andb_true_iff in Hw. tauto. }
      rewrite <- (app_nil_r ls), gather_blank by exact Hblank.
      simpl. rewrite (trim_blank _ Hblank). reflexivity.
    + simpl in Hq.
      destruct (lines_split (w0 :: ls) w nl q Hok Hrest Hq)
        as (ls1 & ls2 & E & Hne & H1 & H2 & Hok2).
      destruct ls1 as [| x ls1]; [congruence |].
      simpl in E. injection E as <- ->. simpl in H1.
      assert (Hblank : forallb is_space (concat ls1) = true).
      { assert (Hall : forallb is_space (w ++ [nl]) = true).
        { apply forallb_last. split; [exact Hw | apply newline_space; exact Hq]. }
        rewrite <- H1, forallb_app in Hall. apply andb_true_iff in Hall. tauto. }
      rewrite gather_blank by exact Hblank. simpl app.
      cbn [split_scan]. rewrite rule_needs_dash.
      * rewrite <- H2. apply IH; auto.
        -- rewrite length_app in Hn. lia.
        -- simpl. rewrite (newline_space _ Hq).
           rewrite (drop_spaces_blank _ Hblank). reflexivity.
      * destruct (is_char "-" nl) eqn:Hdn; [| reflexivity].
        apply dash_dot in Hdn. rewrite (newline_not_dot _ Hq) in Hdn. discriminate.
  - (* a line that is no rule *)
    rewrite split_scan_walk by (apply plain_line_no_match; assumption).
    apply lines_ok_cons in Hok.
    assert (Hinv : drop_spaces (rev (rev l ++ piece)) = drop_spaces (cur ++ l)).
    { rewrite rev_app_distr, rev_involutive. apply drop_spaces_app, Hcur. }
    destruct Hok as [[_ ->] | [(body & nl & -> & _ & Hnl) Hok]].
    + simpl. f_equal. apply trim_same, Hinv.
    + apply IH; auto; [lia |].
      rewrite rev_app_distr. simpl. exact Hnl.
Qed.

(** The blocks of [parseHistory] are the texts between the rules. *)
Lemma history_blocks_by_lines s : history_blocks s = dash_separated_blocks s.
Proof.
  unfold history_blocks, dash_separated_blocks. f_equal.
  destruct s as [| a s]; [reflexivity |].
  unfold split. destruct (text_lines_ok (a :: s)) as [Hok Hcat].
  rewrite <- Hcat at 1.
  apply (split_rule_lines (length (text_lines (a :: s)))); auto.
  exact I.
Qed.

(** *** The entries *)

Lemma history_item_id b h :
  history_item b = Some h ->
  exists ds, first_changeset_line b ds /\
             changesetId h = Number_value (written ds).
Proof.
  unfold history_item. destruct (exec re_changeset b) as [m |] eqn:Hm; [| discriminate].
  intros [= <-]. destruct (changeset_match _ _ Hm) as (ds & Hline & Hg).
  exists ds. simpl. unfold Number_of_digits. rewrite Hg, MV_written. auto.
Qed.

(** C4, as amended.  The entries of [parseHistory] are, in order, one
    for each block of the text that holds a Changeset line, and none
    for a block without one.  The blocks are what stands between the
    rules of the text (the lines of five or more dashes with only
    white space after them), trimmed, where that is not empty.  The
    [changesetId] of an entry is the double nearest to the number that
    the first Changeset line of its block writes: that number itself
    when it is below 2^53, [Infinity] from 2^1024 - 2^970 on. *)
Theorem parseHistory_changesets stdout :
  history_entries (dash_separated_blocks stdout) (parseHistory stdout).
Proof.
  unfold parseHistory. rewrite history_blocks_by_lines.
  induction (dash_separated_blocks stdout) as [| b bs IH]; simpl; [constructor |].
  destruct (history_item b) as [h |] eqn:Hb.
  - destruct (history_item_id _ _ Hb) as (ds & Hline & Hid).
    apply (entries_block b bs h _ ds); auto.
    + rewrite Hid. apply Number_value_nearest.
    + intros Hlt. rewrite Hid. apply Number_value_exact, Hlt.
  - apply entries_skip; [| exact IH]. intros ds Hline.
    apply history_item_none in Hb.
    assert (test re_changeset b = true) by (apply changeset_line_iff; eauto).
    congruence.
Qed.

(** C4 as stated fails: the id of the entry is a double, and past 2^53
    it is not always the number on the Changeset line. *)
Lemma parseHistory_rounds_id :
  map changesetId (parseHistory (T "Changeset: 9007199254740993"))
  = [Num 9007199254740992] /\
  written (T "9007199254740993") = 9007199254740993%N /\
  Num 9007199254740992 <> Num 9007199254740993.
Proof. split; [vm_compute; reflexivity | split; [reflexivity | discriminate]]. Qed.

(** *** A block that opens with its Changeset line *)

Lemma spells_ci_self : spells_ci (T "Changeset:") (T "Changeset:").
Proof. repeat constructor. Qed.

(** A block that opens with [Changeset: n] gives the entry whose id is
    the double of [n], whatever follows the number. *)
Lemma changeset_block_id n post :
  stops is_digit post ->
  exists h, history_item (T "Changeset: " ++ decimal n ++ post) = Some h /\
            changesetId h = Number_value n.
Proof.
  intros Hpost. destruct (decimal_digits n) as [Hne Hds].
  assert (Hm : match_here re_changeset [] (T "Changeset: " ++ decimal n ++ post)
               = Some (MState (rev (decimal n) ++ rev (T "Changeset: "))
                        post [(1, decimal n)])).
  { unfold match_here, re_changeset, star, plus.
    change (T "Changeset: " ++ decimal n ++ post)
      with ([] ++ T "Changeset:" ++ [" "] ++ decimal n ++ post).
    cbn [seq fold_right matcher at_bol seen rest caps].
    apply (rep_greedy_max is_space _ []); [reflexivity | simpl; lia | reflexivity |].
    cbn beta. cbn [matcher].
    rewrite matcher_lit_ci by apply spells_ci_self.
    cbn [matcher seen rest caps].
    apply (rep_greedy_max is_space _ [" "]); [reflexivity | simpl; lia | |].
    { destruct (decimal n) as [| d ds]; [congruence |]. simpl in *.
      apply andb_true_iff in Hds. apply digit_not_space. tauto. }
    cbn [matcher seen rest caps].
    apply (rep_greedy_max is_digit); auto.
    { apply nonempty_length. exact Hne. }
    cbn [matcher]. unfold set_cap. simpl.
    rewrite (span_shape _ _ (decimal n)); reflexivity. }
  unfold history_item, exec.
  destruct (T "Changeset: " ++ decimal n ++ post) as [| a s] eqn:Hb;
    [discriminate |].
  cbn [search]. rewrite Hm. eexists. split; [reflexivity |].
  simpl. unfold group, Number_of_digits. simpl. rewrite MV_decimal. reflexivity.
Qed.


(** ** Lines *)

Lemma forallb_rev {A} (p : A -> bool) l : forallb p (rev l) = forallb p l.
Proof.
  induction l as [| a l IH]; simpl; [reflexivity |].
  rewrite forallb_app, IH. simpl. rewrite andb_true_r. apply andb_comm.
Qed.

Lemma CR_no_LF a : is_char CR a = true -> no_LF a = true.
Proof. intros H. apply is_char_eq in H. subst a. reflexivity. Qed.

(** No piece of a text split into lines holds a line feed. *)
Lemma split_scan_no_LF : forall rs skip piece sn,
  forallb no_LF piece = true ->
  Forall (fun l => forallb no_LF l = true) (split_scan re_newline skip piece sn rs).
Proof.
  induction rs as [| a rs IH]; intros skip piece sn Hp; cbn [split_scan].
  - constructor; [| constructor]. rewrite forallb_rev. exact Hp.
  - destruct skip as [| n]; [| apply IH; exact Hp].
    rewrite newline_here.
    destruct (is_char CR a) eqn:Ha.
    + destruct rs as [| b q].
      * apply IH. simpl. rewrite (CR_no_LF _ Ha). exact Hp.
      * destruct (is_char LF b) eqn:Hb.
        -- cbn [seen length]. rewrite Nat.sub_succ_l by lia.
           rewrite Nat.sub_succ_l, Nat.sub_diag by lia.
           constructor; [rewrite forallb_rev; exact Hp |]. apply IH. reflexivity.
        -- apply IH. simpl. rewrite (CR_no_LF _ Ha). exact Hp.
    + destruct (is_char LF a) eqn:Hl.
      * cbn [seen length]. rewrite Nat.sub_succ_l, Nat.sub_diag by lia.
        constructor; [rewrite forallb_rev; exact Hp |]. apply IH. reflexivity.
      * apply IH. simpl. unfold no_LF at 1. rewrite Hl. exact Hp.
Qed.

Lemma lines_of_no_LF stdout :
  Forall (fun l => forallb no_LF l = true) (lines_of stdout).
Proof.
  unfold lines_of, split. destruct stdout as [| a s].
  - rewrite newline_here. repeat constructor.
  - apply split_scan_no_LF. reflexivity.
Qed.

(** A line that does not end in a carriage return. *)
Lemma split_scan_line : forall l piece sn rest_,
  forallb no_LF l = true -> (forall l', l <> l' ++ [CR]) ->
  split_scan re_newline 0 piece sn (l ++ LF :: rest_)
  = (rev piece ++ l) :: split_scan re_newline 0 [] (LF :: rev l ++ sn) rest_.
Proof.
  induction l as [| a l IH]; intros piece sn rest_ Hl Hcr.
  - cbn [app split_scan]. rewrite newline_here.
    change (is_char CR LF) with false. change (is_char LF LF) with true.
    cbn [seen length]. rewrite Nat.sub_succ_l, Nat.sub_diag by lia.
    rewrite app_nil_r. reflexivity.
  - cbn [forallb] in Hl. apply andb_true_iff in Hl. destruct Hl as [Ha Hl].
    assert (Hnone : match_here re_newline sn ((a :: l) ++ LF :: rest_) = None).
    { rewrite newline_here. cbn [app].
      destruct (is_char CR a) eqn:Hc.
      - destruct l as [| b l].
        + exfalso. apply is_char_eq in Hc. subst a. apply (Hcr []). reflexivity.
        + cbn [app]. cbn [forallb] in Hl. apply andb_true_iff in Hl.
          destruct Hl as [Hb _]. unfold no_LF in Hb.
          destruct (is_char LF b); [discriminate | reflexivity].
      - unfold no_LF in Ha. destruct (is_char LF a); [discriminate | reflexivity]. }
    change ((a :: l) ++ LF :: rest_) with (a :: (l ++ LF :: rest_)) in *.
    cbn [split_scan]. rewrite Hnone.
    rewrite IH; [| exact Hl |].
    + cbn [rev]. rewrite <- !app_assoc. reflexivity.
    + intros l' E. apply (Hcr (a :: l')). rewrite E. reflexivity.
Qed.

Lemma unlines_cons l x ls : unlines (l :: x :: ls) = l ++ LF :: unlines (x :: ls).
Proof. reflexivity. Qed.

(** Lines put together with line feeds come apart again. *)
Lemma split_scan_unlines : forall ls l piece sn,
  Forall (fun l => forallb no_LF l = true /\ forall l', l <> l' ++ [CR]) (l :: ls) ->
  split_scan re_newline 0 piece sn (unlines (l :: ls)) = (rev piece ++ l) :: ls.
Proof.
  induction ls as [| x ls IH]; intros l piece sn H;
    inversion H as [| ? ? [Hl Hcr] Hls]; subst.
  - cbn [unlines flat_map]. rewrite app_nil_r.
    apply (blocked_split_scan no_LF); [reflexivity | exact Hl].
  - rewrite unlines_cons, split_scan_line by assumption.
    rewrite (IH x [] _ Hls). reflexivity.
Qed.

Lemma lines_of_unlines l ls :
  Forall (fun l => forallb no_LF l = true /\ forall l', l <> l' ++ [CR]) (l :: ls) ->
  lines_of (unlines (l :: ls)) = l :: ls.
Proof.
  intros H. unfold lines_of, split.
  destruct (unlines (l :: ls)) as [| a s] eqn:E.
  - destruct ls as [| x ls].
    + cbn [unlines flat_map] in E. rewrite app_nil_r in E. subst l.
      rewrite newline_here. reflexivity.
    + rewrite unlines_cons in E. destruct l; discriminate.
  - rewrite <- E. apply (split_scan_unlines ls l [] [] H).
Qed.

(** ** [parseBranches] *)

Lemma drop_spaces_forallb p s : forallb p s = true -> forallb p (drop_spaces s) = true.
Proof.
  induction s as [| a s IH]; simpl; [reflexivity |]. intros H.
  destruct (is_space a); [| exact H].
  apply andb_true_iff in H. apply IH. tauto.
Qed.

Lemma trim_forallb p s : forallb p s = true -> forallb p (trim s) = true.
Proof.
  intros H. unfold trim. rewrite forallb_rev. apply drop_spaces_forallb.
  rewrite forallb_rev. apply drop_spaces_forallb. exact H.
Qed.

Lemma trimmed_end s : trim s = s -> forall s', s <> s' ++ [CR].
Proof.
  intros H s' E. apply (f_equal (@rev ascii)) in H.
  unfold trim in H. rewrite rev_involutive in H.
  pose proof (drop_spaces_tight (rev (drop_spaces s))) as Ht.
  rewrite H, E, rev_app_distr in Ht. simpl in Ht. vm_compute in Ht. discriminate.
Qed.

Lemma filter_all {A} (p : A -> bool) l :
  (forall x, In x l -> p x = true) -> filter p l = l.
Proof.
  induction l as [| a l IH]; intros H; simpl; [reflexivity |].
  rewrite (H a (or_introl eq_refl)). f_equal. apply IH. intros x Hx.
  apply H. right. exact Hx.
Qed.

Lemma branches_title_spells l :
  spells_ci (T "Branches:") l -> test re_branches_title l = true.
Proof.
  intros H.
  apply (test_intro re_branches_title [] l (MState (rev l ++ []) [] [])).
  unfold re_branches_title. cbn [seq fold_right rev].
  exists (MState [] l []). split; [split; reflexivity |].
  exists (MState (rev l ++ []) [] []). split.
  - pose proof (spells_ci_matches (T "Branches:") l [] [] [] H) as Hm.
    rewrite app_nil_r in Hm at 1. exact Hm.
  - exists (MState (rev l ++ []) [] []). split; [split; reflexivity | reflexivity].
Qed.

(** What it takes to be an entry of [parseBranches]. *)
Lemma parseBranches_In stdout l :
  In l (parseBranches stdout) <->
  In l (map trim (lines_of stdout)) /\
  truthy l && negb (includes (toLowerCase l) (T "no items found")) = true /\
  negb (test re_branches_title l) = true.
Proof.
  unfold parseBranches. fold (lines_of stdout). rewrite !filter_In. tauto.
Qed.

Lemma trimmed_line_no_LF stdout l :
  In l (map trim (lines_of stdout)) -> trim l = l /\ forallb no_LF l = true.
Proof.
  intros H. apply in_map_iff in H. destruct H as (raw & <- & Hraw).
  split; [apply trim_idem |]. apply trim_forallb.
  pose proof (lines_of_no_LF stdout) as Hall. rewrite Forall_forall in Hall.
  apply Hall, Hraw.
Qed.

(** X1.  Every entry of [parseBranches] is a line of the output without the
    white space around it: it is not empty, holds no line feed, does
    not hold [no items found] in any letter case, and is not the title
    [Branches:]. *)
Theorem parseBranches_entries stdout l :
  In l (parseBranches stdout) ->
  In l (map trim (lines_of stdout)) /\
  l <> [] /\ trim l = l /\ forallb no_LF l = true /\
  includes (toLowerCase l) (T "no items found") = false /\
  ~ spells_ci (T "Branches:") l.
Proof.
  intros H. apply parseBranches_In in H. destruct H as (Hl & Hkeep & Htitle).
  apply andb_true_iff in Hkeep. destruct Hkeep as [Hne Hnone].
  destruct (trimmed_line_no_LF _ _ Hl) as [Ht Hlf].
  split; [exact Hl |]. split; [| split; [exact Ht | split; [exact Hlf | split]]].
  - intros E. rewrite E in Hne. discriminate.
  - destruct (includes _ _); [discriminate | reflexivity].
  - intros Hs. rewrite (branches_title_spells _ Hs) in Htitle. discriminate.
Qed.

Lemma parseBranches_entries_witness :
  In (T "$/Proj/Main") (parseBranches (T "Branches:" ++ [CR; LF] ++ T "  $/Proj/Main ")) /\
  trim (T "$/Proj/Main") = T "$/Proj/Main".
Proof.
  assert (H : In (T "$/Proj/Main")
                (parseBranches (T "Branches:" ++ [CR; LF] ++ T "  $/Proj/Main ")))
    by (vm_compute; auto).
  split; [exact H |].
  apply (parseBranches_entries _ _ H).
Defined.

(** X2.  The entries of [parseBranches], written out one to a line, are
    read back as they are. *)
Theorem parseBranches_unlines stdout :
  parseBranches (unlines (parseBranches stdout)) = parseBranches stdout.
Proof.
  assert (Hall : forall x, In x (parseBranches stdout) ->
            (trim x = x /\ forallb no_LF x = true) /\
            truthy x && negb (includes (toLowerCase x) (T "no items found")) = true /\
            negb (test re_branches_title x) = true).
  { intros x Hx. apply parseBranches_In in Hx. destruct Hx as (Hl & Hk & Ht).
    split; [apply (trimmed_line_no_LF _ _ Hl) | auto]. }
  destruct (parseBranches stdout) as [| l ls] eqn:E; [vm_compute; reflexivity |].
  unfold parseBranches at 1. fold (lines_of (unlines (l :: ls))).
  rewrite lines_of_unlines.
  - rewrite (map_ext_in trim (fun x => x)), map_id
      by (intros x Hx; apply (Hall x Hx)).
    assert (Hkeep : filter (fun l => truthy l &&
                       negb (includes (toLowerCase l) (T "no items found")))
                      (l :: ls) = l :: ls).
    { apply filter_all. intros x Hx. apply (Hall x Hx). }
    transitivity (filter (fun l0 => negb (test re_branches_title l0)) (l :: ls));
      [f_equal; exact Hkeep |].
    apply filter_all. intros x Hx. apply (Hall x Hx).
  - apply Forall_forall. intros x Hx.
    destruct (Hall x Hx) as ((Ht & Hlf) & _). split; [exact Hlf |].
    apply trimmed_end. exact Ht.
Qed.

(** ** Finding a text in a text *)

Lemma startsWith_iff : forall p s,
  startsWith s p = true <-> exists post, s = p ++ post.
Proof.
  induction p as [| c p IH]; intros s; simpl.
  - split; [intros _; exists s; reflexivity | destruct s; reflexivity].
  - destruct s as [| a s]; simpl.
    + split; [discriminate | intros [post H]; discriminate].
    + rewrite andb_true_iff, IH. split.
      * intros [Hc [post ->]]. apply Ascii.eqb_eq in Hc. subst. eauto.
      * intros [post H]. injection H as -> ->. split; [apply Ascii.eqb_refl | eauto].
Qed.

Lemma includes_iff p : forall s,
  includes s p = true <-> exists pre post, s = pre ++ p ++ post.
Proof.
  induction s as [| a s IH]; cbn [includes].
  - rewrite orb_false_r, startsWith_iff. split.
    + intros [post H]. exists [], post. exact H.
    + intros (pre & post & H). destruct pre; [eauto |]. discriminate.
  - rewrite orb_true_iff, startsWith_iff, IH. split.
    + intros [[post H] | (pre & post & ->)].
      * exists [], post. exact H.
      * exists (a :: pre), post. reflexivity.
    + intros (pre & post & H). destruct pre as [| b pre].
      * left. exists post. exact H.
      * injection H as -> ->. right. eauto.
Qed.

(** ** Authentication failures *)

(** X3.  [isAuthError] holds of a message exactly when some part of it
    reads, in lower case, [tf30063], [not authorized], [unauthorized]
    or [401]. *)
Theorem isAuthError_iff message :
  isAuthError message = true <->
  exists pre x post mark,
    In mark auth_marks /\ message = pre ++ x ++ post /\ toLowerCase x = mark.
Proof.
  unfold isAuthError.
  replace (or_text message []) with message by (destruct message; reflexivity).
  assert (Hone : forall mark,
            includes (toLowerCase message) mark = true <->
            exists pre x post, message = pre ++ x ++ post /\ toLowerCase x = mark).
  { intros mark. rewrite includes_iff. unfold toLowerCase. split.
    - intros (pre & post & H).
      apply map_eq_app in H. destruct H as (pre' & r & -> & <- & H).
      apply map_eq_app in H. destruct H as (x & post' & -> & <- & <-).
      exists pre', x, post'. auto.
    - intros (pre & x & post & -> & <-). rewrite !map_app. eauto. }
  rewrite !orb_true_iff, !Hone. unfold auth_marks. split.
  - intros [[[H | H] | H] | H]; destruct H as (pre & x & post & Hm & Hx);
      exists pre, x, post; eexists; (split; [| split; [exact Hm | exact Hx]]);
      simpl; auto.
  - intros (pre & x & post & mark & Hin & Hm & Hx).
    destruct Hin as [<- | [<- | [<- | [<- | []]]]]; eauto 10.
Qed.

(** ** The executor, continued *)

Section RunFacts.

Variable tf : list invocation -> invocation -> proc_result.
Variable path_join : text -> text -> text.
Variable new_URL : text -> option URL.
Variable cwd : text.
Variable config : option VstfsConfig.

(** *** Signing in *)

(** X4.  [signIn] throws when no server URL is configured, and then starts
    nothing.  Otherwise it starts TF.exe once, in a visible window, on
    the [workspaces] command of the collection, and it succeeds
    whatever that command returns. *)
Theorem signIn_outcome tr :
  signIn tf new_URL config tr
  = if truthy (cfg serverUrl config)
    then (Ok tt, tr ++ [Invoke Visible [T "workspaces";
                                        T "/collection:" ++ getCollectionUrl new_URL config]])
    else (Throw (T "VSTFS: serverUrl is not configured. Set 'vstfs.serverUrl' in settings."),
          tr).
Proof.
  destruct (truthy (cfg serverUrl config)) eqn:Hs.
  - apply signIn_trace. exact Hs.
  - unfold signIn. rewrite Hs. reflexivity.
Qed.

(** *** Where a result comes from *)

Lemma spawn_ok w args tr o tr' :
  spawn tf w args tr = (Ok o, tr') ->
  tr' = tr ++ [Invoke w args] /\
  tf tr (Invoke w args) = Proc None (out_stdout o) (out_stderr o).
Proof.
  unfold spawn. destruct (tf tr (Invoke w args)) as [e so se]. simpl.
  destruct e; [discriminate |]. intros H. injection H as <- <-. auto.
Qed.

Lemma execWithAuthRetry_ok args tr o tr' :
  execWithAuthRetry tf new_URL config args tr = (Ok o, tr') ->
  exists before,
    tr' = tr ++ before ++ [Invoke Hidden args] /\
    tf (tr ++ before) (Invoke Hidden args) = Proc None (out_stdout o) (out_stderr o).
Proof.
  unfold execWithAuthRetry, try_catch, execOnce.
  destruct (spawn tf Hidden args tr) as [[o1 | e] tr1] eqn:H1.
  - intros H. injection H as <- <-. apply spawn_ok in H1. destruct H1 as [-> H1].
    exists []. rewrite app_nil_r. auto.
  - destruct (isAuthError (error_text e) && truthy (cfg serverUrl config)) eqn:Hc;
      [| discriminate].
    apply andb_true_iff in Hc. destruct Hc as [_ Hs].
    unfold bind. rewrite (signIn_trace _ _ _ _ Hs).
    pose proof (execOnce_trace tf _ _ _ _ H1) as ->.
    intros H. apply spawn_ok in H. destruct H as [-> H].
    eexists [_; _]. rewrite <- !app_assoc in *. split; [reflexivity |]. exact H.
Qed.

(** X5.  What [run] returns is what TF.exe has answered to its last start:
    a hidden one, on the arguments of the call, with the collection
    after them where a server URL is configured and the command is
    one of those that take it. *)
Theorem run_output args tr o tr' :
  run tf new_URL cwd config args tr = (Ok o, tr') ->
  exists before,
    tr' = tr ++ before ++ [Invoke Hidden (fullArgs new_URL config args)] /\
    tf (tr ++ before) (Invoke Hidden (fullArgs new_URL config args))
    = Proc None (out_stdout o) (out_stderr o).
Proof.
  unfold run. fold (fullArgs new_URL config args). unfold bind.
  destruct (grows_ensureWorkspaceConfigured tf new_URL cwd config tr) as [t Ht].
  destruct (ensureWorkspaceConfigured tf new_URL cwd config tr) as [[[] | e] tr1];
    [| discriminate].
  simpl in Ht. subst tr1. intros H.
  apply execWithAuthRetry_ok in H. destruct H as (before & -> & H).
  exists (t ++ before). rewrite <- !app_assoc in *. auto.
Qed.

(** *** Without a server URL *)

(** X7.  Without a configured server URL [run] is a single hidden start of
    TF.exe on the arguments as they are: no set-up of the workspace,
    no collection, no sign-in and no second attempt. *)
Theorem run_unconfigured args tr :
  truthy (cfg serverUrl config) = false ->
  run tf new_URL cwd config args tr = execOnce tf args tr /\
  snd (run tf new_URL cwd config args tr) = tr ++ [Invoke Hidden args].
Proof.
  intros Hs.
  assert (H : run tf new_URL cwd config args tr = execOnce tf args tr).
  { unfold run, ensureWorkspaceConfigured, execWithAuthRetry.
    rewrite Hs. simpl. unfold bind, ret, try_catch.
    destruct (execOnce tf args tr) as [[o | e] tr1]; [reflexivity |].
    rewrite andb_false_r. reflexivity. }
  split; [exact H |]. rewrite H.
  destruct (execOnce tf args tr) as [r tr1] eqn:E.
  apply execOnce_trace in E. exact E.
Qed.

(** *** How often TF.exe is started *)

Lemma starts_ret {A} (a : A) : starts 0 (ret a).
Proof. intros tr. exists []. rewrite app_nil_r. auto. Qed.

Lemma starts_throw {A} e : starts 0 (@throw A e).
Proof. intros tr. exists []. rewrite app_nil_r. auto. Qed.

Lemma starts_spawn w args : starts 1 (spawn tf w args).
Proof.
  intros tr. exists [Invoke w args]. unfold spawn.
  destruct (err _); auto.
Qed.

Lemma starts_more {A} n n' (m : M A) : starts n m -> n <= n' -> starts n' m.
Proof.
  intros H Hn tr. destruct (H tr) as (t & Ht & Hl). exists t. split; [exact Ht | lia].
Qed.

Lemma starts_bind {A B} a b (m : M A) (k : A -> M B) :
  starts a m -> (forall x, starts b (k x)) -> starts (a + b) (bind m k).
Proof.
  intros Hm Hk tr. unfold bind. destruct (Hm tr) as (t & Ht & Hl).
  destruct (m tr) as [[x | e] tr1]; simpl in Ht; subst tr1.
  - destruct (Hk x (tr ++ t)) as (t' & Ht' & Hl'). exists (t ++ t').
    rewrite Ht', length_app, app_assoc. split; [reflexivity | lia].
  - exists t. split; [reflexivity | lia].
Qed.

Lemma starts_try_catch {A} a b (m : M A) (h : text -> M A) :
  starts a m -> (forall e, starts b (h e)) -> starts (a + b) (try_catch m h).
Proof.
  intros Hm Hh tr. unfold try_catch. destruct (Hm tr) as (t & Ht & Hl).
  destruct (m tr) as [[x | e] tr1]; simpl in Ht; subst tr1.
  - exists t. split; [reflexivity | lia].
  - destruct (Hh e (tr ++ t)) as (t' & Ht' & Hl'). exists (t ++ t').
    rewrite Ht', length_app, app_assoc. split; [reflexivity | lia].
Qed.

Lemma starts_signIn : starts 1 (signIn tf new_URL config).
Proof.
  intros tr. destruct (truthy (cfg serverUrl config)) eqn:Hs.
  - rewrite (signIn_trace _ _ _ _ Hs). eexists [_].
    split; [reflexivity | simpl; lia].
  - unfold signIn. rewrite Hs. exists []. rewrite app_nil_r.
    split; [reflexivity | simpl; lia].
Qed.

Lemma starts_execWithAuthRetry args :
  starts 3 (execWithAuthRetry tf new_URL config args).
Proof.
  unfold execWithAuthRetry, execOnce.
  apply (starts_try_catch 1 2); [apply starts_spawn |]. intros e.
  destruct (_ && _); [| eapply starts_more; [apply starts_throw | lia]].
  apply (starts_bind 1 1); [apply starts_signIn |]. intros _. apply starts_spawn.
Qed.

Lemma starts_map_workfolder : starts 3 (map_workfolder tf new_URL cwd config).
Proof. apply starts_execWithAuthRetry. Qed.

Lemma starts_ensureWorkspaceConfigured :
  starts 12 (ensureWorkspaceConfigured tf new_URL cwd config).
Proof.
  unfold ensureWorkspaceConfigured.
  destruct (_ || _); [eapply starts_more; [apply starts_ret | lia] |].
  apply (starts_try_catch 6 6).
  - apply (starts_bind 3 3); [apply starts_execWithAuthRetry |]. intros o.
    destruct (_ || _); [eapply starts_more; [apply starts_ret | lia] |].
    apply (starts_bind 3 0); [apply starts_map_workfolder |].
    intros _. apply starts_ret.
  - intros e. apply (starts_try_catch 6 0); [| intros; apply starts_throw].
    apply (starts_bind 3 3); [apply starts_execWithAuthRetry |]. intros _.
    apply (starts_bind 3 0); [apply starts_map_workfolder |].
    intros _. apply starts_ret.
Qed.

(** X8.  A call of [run] starts TF.exe at least once and at most fifteen
    times: up to twelve times to set the workspace up, and up to three
    times for the command with its single retry. *)
Theorem run_starts args tr :
  exists t,
    snd (run tf new_URL cwd config args tr) = tr ++ t /\
    length t <= 15 /\
    (forall o tr', run tf new_URL cwd config args tr = (Ok o, tr') -> 1 <= length t).
Proof.
  assert (H : starts 15 (run tf new_URL cwd config args)).
  { unfold run. apply (starts_bind 12 3);
      [apply starts_ensureWorkspaceConfigured |].
    intros _. apply starts_execWithAuthRetry. }
  destruct (H tr) as (t & Ht & Hl). exists t. split; [exact Ht |].
  split; [exact Hl |]. intros o tr' Hrun.
  rewrite Hrun in Ht. simpl in Ht. subst tr'.
  unfold run, bind in Hrun.
  destruct (grows_ensureWorkspaceConfigured tf new_URL cwd config tr) as [t1 Ht1].
  destruct (ensureWorkspaceConfigured tf new_URL cwd config tr) as [[[] | e] tr1];
    [| discriminate].
  simpl in Ht1. subst tr1.
  apply execWithAuthRetry_ok in Hrun. destruct Hrun as (before & E & _).
  rewrite <- app_assoc in E. apply app_inv_head in E.
  rewrite E, !length_app. simpl. lia.
Qed.

End RunFacts.

Lemma run_unconfigured_witness :
  run tf_always_7 no_URL [] None [T "get"; T "."; T "/recursive"] []
  = execOnce tf_always_7 [T "get"; T "."; T "/recursive"] [] /\
  snd (run tf_always_7 no_URL [] None [T "get"; T "."; T "/recursive"] [])
  = [] ++ [Invoke Hidden [T "get"; T "."; T "/recursive"]].
Proof.
  exact (run_unconfigured tf_always_7 no_URL [] None
           [T "get"; T "."; T "/recursive"] [] eq_refl).
Defined.

Lemma run_output_witness :
  exists before,
    [Invoke Hidden [T "status"]]
    = [] ++ before ++ [Invoke Hidden (fullArgs no_URL None [T "status"])] /\
    tf_always_7 ([] ++ before) (Invoke Hidden (fullArgs no_URL None [T "status"]))
    = Proc None (unlines [T "Changeset: 7"; T "User: bob"]) [].
Proof.
  exact (run_output tf_always_7 no_URL [] None [T "status"] []
           (Output (unlines [T "Changeset: 7"; T "User: bob"]) [])
           [Invoke Hidden [T "status"]] eq_refl).
Defined.

(** ** The operations *)

Section OperationFacts.

Variable tf : list invocation -> invocation -> proc_result.
Variable new_URL : text -> option URL.
Variable cwd : text.
Variable config : option VstfsConfig.

Lemma spawn_failed w args tr e tr' :
  spawn tf w args tr = (Throw e, tr') ->
  tr' = tr ++ [Invoke w args] /\
  failure_message (tf tr (Invoke w args)) = Some e.
Proof.
  unfold spawn, failure_message. destruct (err _); [| discriminate].
  intros [= <- <-]. auto.
Qed.

Lemma execWithAuthRetry_failed args tr e tr' :
  execWithAuthRetry tf new_URL config args tr = (Throw e, tr') ->
  exists p, last_start tf tr tr' args p /\ failure_message p = Some e.
Proof.
  unfold execWithAuthRetry, try_catch, execOnce.
  destruct (spawn tf Hidden args tr) as [[o1 | e1] tr1] eqn:H1; [discriminate |].
  destruct (isAuthError (error_text e1) && truthy (cfg serverUrl config)) eqn:Hc.
  - apply andb_true_iff in Hc. destruct Hc as [_ Hs].
    unfold bind. rewrite (signIn_trace _ _ _ _ Hs).
    apply spawn_failed in H1. destruct H1 as [-> _].
    intros H. apply spawn_failed in H. destruct H as [-> H].
    eexists. split; [| exact H]. eexists [_; _].
    rewrite <- !app_assoc. split; reflexivity.
  - unfold throw. intros [= <- <-]. apply spawn_failed in H1.
    destruct H1 as [-> H1]. eexists. split; [| exact H1].
    exists []. rewrite app_nil_r. split; reflexivity.
Qed.

(** X9.  When [run] throws, the error is either that of the workspace
    set-up, which begins with [Cannot configure TFVC workspace: ], or
    the failure of the last start of TF.exe on the full arguments of
    the command: its error output if there is any, else its output if
    there is any, else the text of the error of the process. *)
Theorem run_error args tr e tr' :
  run tf new_URL cwd config args tr = (Throw e, tr') ->
  (exists c, e = T "Cannot configure TFVC workspace: " ++ string_of_error c) \/
  (exists p, last_start tf tr tr' (fullArgs new_URL config args) p /\
             failure_message p = Some e).
Proof.
  unfold run. fold (fullArgs new_URL config args). unfold bind.
  destruct (grows_ensureWorkspaceConfigured tf new_URL cwd config tr) as [t Ht].
  destruct (ensureWorkspaceConfigured tf new_URL cwd config tr)
    as [[[] | e1] tr1] eqn:He.
  - simpl in Ht. subst tr1. intros H. right.
    apply execWithAuthRetry_failed in H. destruct H as (p & (before & -> & Hp) & Hf).
    exists p. split; [| exact Hf]. exists (t ++ before).
    rewrite <- !app_assoc in *. auto.
  - intros [= <- <-]. left.
    unfold ensureWorkspaceConfigured in He. revert He.
    destruct (_ || _); [discriminate |].
    unfold try_catch at 1.
    destruct (bind (runBasic tf new_URL config [T "workfold"]) _ tr)
      as [[[] | e2] tr2]; [discriminate |].
    unfold try_catch.
    destruct (bind _ _ tr2) as [[[] | c] tr3]; [discriminate |].
    unfold throw. intros H. exists c. injection H as <- _. reflexivity.
Qed.

(** A successful [run]: the last start is the command. *)
Lemma run_ok_last args tr o tr' :
  run tf new_URL cwd config args tr = (Ok o, tr') ->
  last_start tf tr tr' (fullArgs new_URL config args)
             (Proc None (out_stdout o) (out_stderr o)).
Proof.
  unfold run. fold (fullArgs new_URL config args). unfold bind.
  destruct (grows_ensureWorkspaceConfigured tf new_URL cwd config tr) as [t Ht].
  destruct (ensureWorkspaceConfigured tf new_URL cwd config tr) as [[[] | e] tr1];
    [| discriminate].
  simpl in Ht. subst tr1. intros H.
  apply execWithAuthRetry_ok in H. destruct H as (before & -> & H).
  exists (t ++ before). rewrite <- !app_assoc in *. auto.
Qed.

(** *** Failures of the workspace set-up *)

Lemma last_start_later tr t tr' args p :
  last_start tf (tr ++ t) tr' args p -> last_start tf tr tr' args p.
Proof.
  intros (before & -> & H). exists (t ++ before).
  rewrite <- !app_assoc in *. auto.
Qed.

(** X6.  [ensureWorkspaceConfigured] starts nothing unless a server URL and
    a workspace are configured, and the only error it throws is that
    of its last resort: the message that the last start of TF.exe
    failed with (on [workspace /new], or on [workfold /map] after it),
    as the text of an error, after [Cannot configure TFVC workspace: ]. *)
Theorem ensureWorkspaceConfigured_outcome tr :
  (truthy (cfg serverUrl config) && truthy (cfg workspace config) = false ->
   ensureWorkspaceConfigured tf new_URL cwd config tr = (Ok tt, tr)) /\
  (forall e tr',
     ensureWorkspaceConfigured tf new_URL cwd config tr = (Throw e, tr') ->
     exists c args p,
       e = T "Cannot configure TFVC workspace: " ++ string_of_error c /\
       (args = [T "workspace"; T "/new"; cfg workspace config;
                T "/collection:" ++ getCollectionUrl new_URL config;
                T "/location:server"] \/
        args = [T "workfold"; T "/map";
                or_text (cfg serverPath config) (T "$/Era/Prototypes/Overpowered");
                cwd; T "/workspace:" ++ cfg workspace config;
                T "/collection:" ++ getCollectionUrl new_URL config]) /\
       last_start tf tr tr' args p /\ failure_message p = Some c).
Proof.
  unfold ensureWorkspaceConfigured. split.
  - intros H. apply andb_false_iff in H.
    destruct H as [-> | ->]; simpl; rewrite ?orb_true_r; reflexivity.
  - intros e tr'. destruct (_ || _); [discriminate |].
    unfold try_catch at 1.
    assert (Hg : grows (bind (runBasic tf new_URL config [T "workfold"])
                (fun o => if includes (out_stdout o) cwd
                               || includes (out_stdout o) (cfg workspace config)
                          then ret tt
                          else map_workfolder tf new_URL cwd config ;;; ret tt))).
    { apply grows_bind; [eapply begins_grows; apply begins_execWithAuthRetry |].
      intros o. destruct (_ || _); [apply grows_ret |].
      apply grows_bind; [| intros; apply grows_ret].
      eapply begins_grows. apply begins_execWithAuthRetry. }
    destruct (Hg tr) as [t Ht].
    destruct (bind (runBasic tf new_URL config [T "workfold"]) _ tr)
      as [[[] | e1] tr1]; [discriminate |].
    simpl in Ht. subst tr1.
    unfold try_catch, bind, runBasic, map_workfolder, runBasic.
    destruct (execWithAuthRetry tf new_URL config
                [T "workspace"; T "/new"; cfg workspace config;
                 T "/collection:" ++ getCollectionUrl new_URL config;
                 T "/location:server"] (tr ++ t)) as [[o | c] tr2] eqn:Hnew.
    + pose proof (begins_grows _ _ (begins_execWithAuthRetry tf new_URL config
                [T "workspace"; T "/new"; cfg workspace config;
                 T "/collection:" ++ getCollectionUrl new_URL config;
                 T "/location:server"]) (tr ++ t)) as [t2 Ht2].
      rewrite Hnew in Ht2. simpl in Ht2. subst tr2.
      destruct (execWithAuthRetry tf new_URL config _ ((tr ++ t) ++ t2))
        as [[o' | c] tr3] eqn:Hmap; [discriminate |].
      unfold throw. intros [= <- <-].
      apply execWithAuthRetry_failed in Hmap. destruct Hmap as (p & Hp & Hf).
      eexists c, _, p. split; [reflexivity |]. split; [right; reflexivity |].
      split; [| exact Hf]. apply (last_start_later _ t), (last_start_later _ t2), Hp.
    + unfold throw. intros [= <- <-].
      apply execWithAuthRetry_failed in Hnew. destruct Hnew as (p & Hp & Hf).
      eexists c, _, p. split; [reflexivity |]. split; [left; reflexivity |].
      split; [| exact Hf]. apply (last_start_later _ t), Hp.
Qed.
Lemma fullArgs_plain (args : list text) :
  shouldAddCollection (nth 0 args []) = false -> fullArgs new_URL config args = args.
Proof. intros H. unfold fullArgs. rewrite H, andb_false_r. reflexivity. Qed.

(** X10.  [undo] without items, and with an empty list of them, undoes
    everything under the working directory: when it succeeds its last
    start of TF.exe is [undo . /recursive /noprompt].  With items its
    last start names the items and is not recursive.  The collection
    is never added. *)
Theorem undo_command items_ tr tr' :
  undo tf new_URL cwd config items_ tr = (Ok tt, tr') ->
  exists p,
    last_start tf tr tr'
      match items_ with
      | Some (i :: is_) => [T "undo"] ++ (i :: is_) ++ [T "/noprompt"]
      | _ => [T "undo"; T "."; T "/recursive"; T "/noprompt"]
      end p /\
    err p = None.
Proof.
  unfold undo.
  destruct items_ as [[| i is_] |]; unfold bind;
    match goal with |- context [run tf new_URL cwd config ?a tr] =>
      destruct (run tf new_URL cwd config a tr) as [[o | e] tr1] eqn:Hrun
    end; try discriminate; unfold ret; intros [= <-];
    apply run_ok_last in Hrun; rewrite fullArgs_plain in Hrun by reflexivity;
    eexists; (split; [exact Hrun | reflexivity]).
Qed.

(** X11.  [checkIn] first tries to add what is new, and goes on whatever
    comes of that: its outcome is the outcome of the check-in command
    that it runs next.  With files the command names them and is not
    recursive; without files, and with an empty list of them, it is
    [checkin . /recursive].  The comment follows either way. *)
Theorem checkIn_outcome comment files tr :
  let tr1 := snd (run tf new_URL cwd config
                    [T "add"; T "."; T "/recursive"; T "/noprompt"] tr) in
  let args :=
    match files with
    | Some (f :: fs) =>
        T "checkin" :: (f :: fs) ++ [T "/comment:" ++ comment; T "/noprompt"]
    | _ => [T "checkin"; T "."; T "/recursive"; T "/comment:" ++ comment;
            T "/noprompt"]
    end in
  checkIn tf new_URL cwd config comment files tr
  = match run tf new_URL cwd config args tr1 with
    | (Ok _, t) => (Ok tt, t)
    | (Throw e, t) => (Throw e, t)
    end /\
  (forall tr', checkIn tf new_URL cwd config comment files tr = (Ok tt, tr') ->
     exists p, last_start tf tr1 tr' args p /\ err p = None).
Proof.
  intros tr1 args.
  assert (Hc : or_text comment [] = comment) by (destruct comment; reflexivity).
  assert (E : checkIn tf new_URL cwd config comment files tr
              = match run tf new_URL cwd config args tr1 with
                | (Ok _, t) => (Ok tt, t)
                | (Throw e, t) => (Throw e, t)
                end).
  { unfold checkIn. rewrite Hc. subst tr1 args. unfold bind, try_catch, ret.
    destruct (run tf new_URL cwd config
                [T "add"; T "."; T "/recursive"; T "/noprompt"] tr)
      as [[o | e] t0]; cbn [snd];
      destruct files as [[| f fs] |]; reflexivity. }
  split; [exact E |]. intros tr'. rewrite E.
  destruct (run tf new_URL cwd config args tr1) as [[o | e] t] eqn:Hrun;
    [| discriminate].
  intros [= <-]. apply run_ok_last in Hrun.
  rewrite fullArgs_plain in Hrun by (unfold args; destruct files as [[| f fs] |]; reflexivity).
  eexists. split; [exact Hrun | reflexivity].
Qed.

(** X12.  [merge] gives the range of changesets to TF.exe only when both of
    its ends are given and neither is zero; otherwise the whole of the
    source is merged. *)
Theorem merge_command src dst from to tr tr' :
  merge tf new_URL cwd config src dst from to tr = (Ok tt, tr') ->
  exists p,
    last_start tf tr tr'
      match from, to with
      | Some a, Some b =>
          if (N.eqb a 0 || N.eqb b 0)%bool then [T "merge"; src; dst]
          else [T "merge"; src; dst;
                T "/version:C" ++ decimal a ++ T "~C" ++ decimal b]
      | _, _ => [T "merge"; src; dst]
      end p /\
    err p = None.
Proof.
  unfold merge, bind.
  match goal with |- context [run tf new_URL cwd config ?a tr] =>
    destruct (run tf new_URL cwd config a tr) as [[o | e] tr1] eqn:Hrun
  end; [| discriminate].
  unfold ret. intros [= <-]. apply run_ok_last in Hrun.
  destruct from as [a |], to as [b |]; cbn [truthy_number number_text andb] in Hrun;
    try (rewrite fullArgs_plain in Hrun by reflexivity;
         eexists; split; [exact Hrun | reflexivity]).
  - destruct (N.eqb a 0), (N.eqb b 0); cbn [negb andb orb] in *;
      rewrite fullArgs_plain in Hrun by reflexivity;
      eexists; (split; [exact Hrun | reflexivity]).
  - destruct (negb (N.eqb a 0)); cbn [andb] in Hrun;
      rewrite fullArgs_plain in Hrun by reflexivity;
      eexists; (split; [exact Hrun | reflexivity]).
Qed.

(** X13.  [history] returns what [parseHistory] reads in the answer to its
    query.  The query is for the target, and for the dot it is for
    the mapped server path, or else the working directory; it names
    the collection exactly when a server URL is configured. *)
Theorem history_result target max tr entries tr' :
  history tf new_URL cwd config target max tr = (Ok entries, tr') ->
  exists p,
    last_start tf tr tr'
      ([T "history";
        if text_eqb target (T ".")
        then or_text (cfg serverPath config) (or_text cwd (T "."))
        else target;
        T "/recursive"; T "/format:detailed"; T "/stopafter:" ++ decimal max;
        T "/noprompt"]
       ++ if truthy (cfg serverUrl config)
          then [T "/collection:" ++ getCollectionUrl new_URL config]
          else []) p /\
    err p = None /\
    entries = parseHistory (stdout p).
Proof.
  unfold history, bind.
  match goal with |- context [run tf new_URL cwd config ?a tr] =>
    destruct (run tf new_URL cwd config a tr) as [[o | e] tr1] eqn:Hrun
  end; [| discriminate].
  unfold ret. intros [= <- <-]. apply run_ok_last in Hrun.
  unfold fullArgs in Hrun. cbn [nth] in Hrun.
  replace (shouldAddCollection (T "history")) with true in Hrun
    by (vm_compute; reflexivity).
  rewrite andb_true_r in Hrun. unfold history_target in Hrun.
  exists (Proc None (out_stdout o) (out_stderr o)).
  split; [| split; reflexivity].
  destruct (truthy (cfg serverUrl config)); [exact Hrun |].
  rewrite app_nil_r. exact Hrun.
Qed.

End OperationFacts.

Lemma run_error_witness :
  (exists c, T "TF10139: no" = T "Cannot configure TFVC workspace: " ++ string_of_error c) \/
  (exists p, last_start tf_fails [] [Invoke Hidden [T "get"]]
               (fullArgs no_URL None [T "get"]) p /\
             failure_message p = Some (T "TF10139: no")).
Proof.
  exact (run_error tf_fails no_URL [] None [T "get"] [] (T "TF10139: no")
           [Invoke Hidden [T "get"]] eq_refl).
Defined.

Lemma undo_command_witness :
  exists p,
    last_start tf_always_7 [] [Invoke Hidden [T "undo"; T "."; T "/recursive"; T "/noprompt"]]
      [T "undo"; T "."; T "/recursive"; T "/noprompt"] p /\
    err p = None.
Proof.
  exact (undo_command tf_always_7 no_URL [] None (Some []) []
           [Invoke Hidden [T "undo"; T "."; T "/recursive"; T "/noprompt"]] eq_refl).
Defined.

Lemma merge_command_witness :
  exists p,
    last_start tf_always_7 [] [Invoke Hidden [T "merge"; T "$/a"; T "$/b"]]
      [T "merge"; T "$/a"; T "$/b"] p /\
    err p = None.
Proof.
  exact (merge_command tf_always_7 no_URL [] None (T "$/a") (T "$/b")
           (Some 0%N) (Some 5%N) []
           [Invoke Hidden [T "merge"; T "$/a"; T "$/b"]] eq_refl).
Defined.

Lemma history_result_witness :
  exists p,
    last_start tf_always_7 []
      [Invoke Hidden [T "history"; T "C:\ws"; T "/recursive"; T "/format:detailed";
                      T "/stopafter:50"; T "/noprompt"]]
      ([T "history";
        if text_eqb (T ".") (T ".")
        then or_text (cfg serverPath None) (or_text (T "C:\ws") (T "."))
        else T ".";
        T "/recursive"; T "/format:detailed"; T "/stopafter:" ++ decimal 50;
        T "/noprompt"]
       ++ if truthy (cfg serverUrl None)
          then [T "/collection:" ++ getCollectionUrl no_URL None]
          else []) p /\
    err p = None /\
    [HistoryItem (Num 7) (T "bob") [] [] []] = parseHistory (stdout p).
Proof.
  exact (history_result tf_always_7 no_URL (T "C:\ws") None (T ".") 50 []
           [HistoryItem (Num 7) (T "bob") [] [] []]
           [Invoke Hidden [T "history"; T "C:\ws"; T "/recursive"; T "/format:detailed";
                           T "/stopafter:50"; T "/noprompt"]] eq_refl).
Defined.

(** ** The collection *)

Lemma text_eqb_eq : forall s t, text_eqb s t = true <-> s = t.
Proof.
  induction s as [| a s IH]; intros [| b t]; simpl; try (split; [discriminate | congruence]).
  - tauto.
  - rewrite andb_true_iff, IH, Ascii.eqb_eq. split; [intros [-> ->] | intros [= -> ->]]; auto.
Qed.

Lemma slash_here sn rs :
  match_here (lit (T "/")) sn rs
  = match rs with
    | a :: q => if is_char "/" a then Some (MState (a :: sn) q []) else None
    | [] => None
    end.
Proof.
  unfold match_here. destruct rs as [| a q]; [reflexivity |].
  cbn. destruct (is_char "/" a); reflexivity.
Qed.

Lemma split_scan_slash : forall x piece sn rest_,
  forallb no_slash x = true ->
  split_scan (lit (T "/")) 0 piece sn (x ++ "/" :: rest_)
  = (rev piece ++ x) :: split_scan (lit (T "/")) 0 [] ("/" :: rev x ++ sn) rest_.
Proof.
  induction x as [| a x IH]; intros piece sn rest_ Hx.
  - cbn [app split_scan]. rewrite slash_here.
    change (is_char "/" "/") with true.
    cbn [seen length]. rewrite Nat.sub_succ_l, Nat.sub_diag by lia.
    rewrite app_nil_r. reflexivity.
  - cbn [forallb] in Hx. apply andb_true_iff in Hx. destruct Hx as [Ha Hx].
    change ((a :: x) ++ "/" :: rest_) with (a :: (x ++ "/" :: rest_)).
    cbn [split_scan]. rewrite slash_here. unfold no_slash in Ha.
    destruct (is_char "/" a); [discriminate |].
    rewrite IH by exact Hx. cbn [rev]. rewrite <- !app_assoc. reflexivity.
Qed.

Lemma split_scan_no_slash x piece sn :
  forallb no_slash x = true ->
  split_scan (lit (T "/")) 0 piece sn x = [rev piece ++ x].
Proof. apply (blocked_split_scan no_slash). reflexivity. Qed.

Section CollectionFacts.

Variable new_URL : text -> option URL.
Variable config : option VstfsConfig.

(** X14.  Where the server URL is no URL for the platform, the collection is
    the server URL without the white space around it and without one
    slash at its end. *)
Theorem getCollectionUrl_fallback :
  new_URL (trim (cfg serverUrl config)) = None ->
  (exists body,
     trim (cfg serverUrl config) = body ++ T "/" /\
     getCollectionUrl new_URL config = body) \/
  (endsWith (trim (cfg serverUrl config)) (T "/") = false /\
   getCollectionUrl new_URL config = trim (cfg serverUrl config)).
Proof.
  intros Hurl. unfold getCollectionUrl.
  replace (or_text (trim (cfg serverUrl config)) [])
    with (trim (cfg serverUrl config)) by (destruct (trim _); reflexivity).
  rewrite Hurl. unfold replace.
  destruct (exec re_trailing_slash _) as [f |] eqn:He.
  - left. apply exec_inv in He.
    destruct He as (p & q & st & Hs & Hm & Hb & Ha & _).
    unfold re_trailing_slash in Hm. cbn [seq fold_right matches] in Hm.
    destruct Hm as (st1 & (a & rs & Hr & Hc & ->) & st2 & [He ->] & ->).
    cbn [rest] in *. apply is_char_eq in Hc. subst a q.
    unfold at_eol in He. cbn [rest] in He. destruct rs; [| discriminate].
    exists p. split; [exact Hs |]. rewrite Hb, Ha. simpl. apply app_nil_r.
  - right. split; [| reflexivity].
    destruct (endsWith _ _) eqn:E; [| reflexivity]. exfalso.
    unfold endsWith in E. apply startsWith_iff in E. destruct E as [post E].
    apply (f_equal (@rev ascii)) in E. rewrite rev_involutive in E.
    simpl in E. revert He. rewrite E.
    apply (exec_intro re_trailing_slash (rev post) (T "/")
             (MState ("/" :: rev (rev post)) [] [])).
    unfold re_trailing_slash. cbn [seq fold_right matches].
    eexists. split; [exists "/", []; repeat split |].
    eexists. split; [split; reflexivity | reflexivity].
Qed.

(** X15.  For an address at dev.azure.com the collection is the origin with
    the first segment of the path, the organisation: what follows it
    in the path is dropped. *)
Theorem getCollectionUrl_azure u org rest_ :
  new_URL (trim (cfg serverUrl config)) = Some u ->
  toLowerCase (hostname u) = T "dev.azure.com" ->
  pathname u = T "/" ++ org ++ rest_ ->
  org <> [] -> forallb no_slash org = true ->
  stops no_slash rest_ ->
  getCollectionUrl new_URL config = protocol u ++ T "//" ++ host u ++ T "/" ++ org.
Proof.
  intros Hurl Hhost Hpath Hne Horg Hrest.
  assert (Hsplit : exists more,
            split (lit (T "/")) (pathname u) = [] :: org :: more).
  { rewrite Hpath. unfold split.
    change (T "/" ++ org ++ rest_) with ("/" :: (org ++ rest_)). cbv iota beta.
    pose proof (split_scan_slash [] [] [] (org ++ rest_) eq_refl) as H0.
    cbn [rev app] in H0. rewrite H0. clear H0.
    destruct rest_ as [| a r].
    - rewrite app_nil_r, split_scan_no_slash by exact Horg. exists []. reflexivity.
    - simpl in Hrest. unfold no_slash in Hrest.
      destruct (is_char "/" a) eqn:Ea; [| discriminate].
      apply is_char_eq in Ea. subst a.
      rewrite split_scan_slash by exact Horg. eexists. reflexivity. }
  destruct Hsplit as [more Hsplit].
  unfold getCollectionUrl.
  replace (or_text (trim (cfg serverUrl config)) [])
    with (trim (cfg serverUrl config)) by (destruct (trim _); reflexivity).
  rewrite Hurl, Hhost, Hsplit, (proj2 (text_eqb_eq _ _) eq_refl).
  cbn [filter truthy].
  destruct org as [| c org]; [congruence |].
  unfold or_text. cbn [truthy nth]. rewrite <- !app_assoc. reflexivity.
Qed.

End CollectionFacts.

Lemma getCollectionUrl_fallback_witness :
  (exists body,
     trim (cfg serverUrl config_with_server) = body ++ T "/" /\
     getCollectionUrl no_URL config_with_server = body) \/
  (endsWith (trim (cfg serverUrl config_with_server)) (T "/") = false /\
   getCollectionUrl no_URL config_with_server = trim (cfg serverUrl config_with_server)).
Proof. exact (getCollectionUrl_fallback no_URL config_with_server eq_refl). Defined.

Lemma getCollectionUrl_azure_witness :
  getCollectionUrl azure_URL config_with_server = T "https://dev.azure.com/contoso".
Proof.
  apply (getCollectionUrl_azure azure_URL config_with_server
           (Url (T "https:") (T "dev.azure.com") (T "dev.azure.com")
                (T "/contoso/Project/_versionControl"))
           (T "contoso") (T "/Project/_versionControl")).
  - reflexivity.
  - reflexivity.
  - reflexivity.
  - discriminate.
  - reflexivity.
  - reflexivity.
Defined.

(** ** The path normalizer, continued *)

(** What the suffix pattern takes away is the end of the text. *)
Lemma replace_suffix_cut p :
  exists suffix,
    p = replace re_changeset_suffix [] p ++ suffix /\
    (suffix = [] \/
     exists c x, suffix = ";" :: c :: x /\ is_char_ci "C" c = true /\
                 forallb is_digit x = true /\ x <> []).
Proof.
  unfold replace.
  destruct (exec re_changeset_suffix p) as [f |] eqn:He.
  - apply exec_inv in He.
    destruct He as (p' & q & st & Hs & Hm & Hb & Ha & _).
    apply suffix_matches in Hm. destruct Hm as (c & x & -> & Hc & Hx & Hl & ->).
    rewrite Hb, Ha. simpl. rewrite app_nil_r. exists (";" :: c :: x).
    split; [exact Hs |]. right. exists c, x. repeat split; auto.
    intros ->. simpl in Hl. lia.
  - exists []. rewrite app_nil_r. auto.
Qed.

Lemma replace_suffix_drive p :
  test re_drive p = true -> test re_drive (replace re_changeset_suffix [] p) = true.
Proof.
  intros Hd. destruct (replace_suffix_cut p) as (suffix & Hp & Hsuf).
  destruct Hsuf as [-> | (c & x & -> & _)].
  - rewrite app_nil_r in Hp. rewrite <- Hp. exact Hd.
  - apply test_drive_iff in Hd. destruct Hd as (a & t & E & Ha).
    apply test_drive_iff.
    destruct (replace re_changeset_suffix [] p) as [| r0 [| r1 [| r2 r]]];
      rewrite E in Hp; simpl in Hp.
    + injection Hp as -> _. discriminate.
    + injection Hp as _ Hp _. discriminate.
    + injection Hp as _ _ Hp _. discriminate.
    + injection Hp as <- <- <- _. exists a, r. auto.
Qed.

Lemma to_backslashes_map s :
  to_backslashes s = map (fun a => if is_char "/" a then "\" else a) s.
Proof.
  unfold to_backslashes, replace_all, re_slash.
  change (T "\") with ["\"]. apply replace_all_char.
Qed.

Lemma to_backslashes_no_slash s :
  forallb (fun a => negb (is_char "/" a)) (to_backslashes s) = true.
Proof.
  rewrite to_backslashes_map, forallb_forall. intros b H. apply in_map_iff in H.
  destruct H as (a & Ha & _). destruct (is_char "/" a) eqn:E.
  - subst b. reflexivity.
  - subst b. rewrite E. reflexivity.
Qed.

Section LocalPathFacts.

Variable path_join : text -> text -> text.
Variable cwd : text.
Variable config : option VstfsConfig.

(** X16.  A path that begins with a drive letter is only cut: [toLocalPath]
    returns it without its changeset suffix, whatever the working
    directory and the mapping are, and what it returns begins with the
    same drive letter. *)
Theorem toLocalPath_local_path p :
  test re_drive p = true ->
  toLocalPath path_join cwd config p = replace re_changeset_suffix [] p /\
  test re_drive (toLocalPath path_join cwd config p) = true /\
  exists suffix, p = toLocalPath path_join cwd config p ++ suffix.
Proof.
  intros Hd. pose proof (replace_suffix_drive p Hd) as Hr.
  assert (E : toLocalPath path_join cwd config p = replace re_changeset_suffix [] p).
  { unfold toLocalPath. rewrite Hr. reflexivity. }
  rewrite E. split; [reflexivity |]. split; [exact Hr |].
  destruct (replace_suffix_cut p) as (suffix & Hp & _). eauto.
Qed.

(** X17.  Every other path comes back without a forward slash. *)
Theorem toLocalPath_backslashes p :
  test re_drive (replace re_changeset_suffix [] p) = false ->
  forallb (fun a => negb (is_char "/" a)) (toLocalPath path_join cwd config p)
  = true.
Proof.
  intros Hd. unfold toLocalPath. rewrite Hd.
  destruct (_ && _); [apply to_backslashes_no_slash |].
  destruct (test re_server_root _); apply to_backslashes_no_slash.
Qed.

End LocalPathFacts.

Lemma toLocalPath_local_path_witness :
  toLocalPath simple_join (T "C:\ws") config_with_server (T "D:\x/A.cs;C12")
  = T "D:\x/A.cs".
Proof.
  destruct (toLocalPath_local_path simple_join (T "C:\ws") config_with_server
              (T "D:\x/A.cs;C12") eq_refl) as [H _].
  rewrite H. vm_compute. reflexivity.
Defined.

Lemma toLocalPath_backslashes_witness :
  forallb (fun a => negb (is_char "/" a))
    (toLocalPath simple_join (T "C:\ws") config_with_server (T "$/Proj/Dir/A.cs"))
  = true.
Proof.
  apply (toLocalPath_backslashes simple_join (T "C:\ws") config_with_server
           (T "$/Proj/Dir/A.cs")).
  vm_compute. reflexivity.
Defined.

(** ** The detailed pending-changes parser *)

Lemma subsequence_nil_l {A} (l : list A) : subsequence [] l.
Proof. induction l; constructor; auto. Qed.

Lemma subsequence_app {A} (s1 l1 : list A) :
  subsequence s1 l1 -> forall s2 l2, subsequence s2 l2 ->
  subsequence (s1 ++ s2) (l1 ++ l2).
Proof.
  induction 1; intros s2 l2 H2; simpl;
    [exact H2 | apply subsequence_skip; auto | apply subsequence_take; auto].
Qed.

Lemma subsequence_app_l {A} : forall (l s t : list A),
  subsequence (s ++ t) l -> subsequence s l.
Proof.
  induction l as [| a l IH]; intros s t H.
  - inversion H as [E | |]. destruct s; [constructor | discriminate].
  - inversion H as [| ? ? ? H' | ? s' ? H' E]; subst.
    + apply subsequence_skip. apply (IH s t H').
    + destruct s as [| b s].
      * apply subsequence_nil_l.
      * simpl in E. injection E as -> ->. apply subsequence_take.
        apply (IH s t H').
Qed.

Lemma change_line_group s m :
  exec re_change_line s = Some m -> In (toLowerCase (group 1 m)) ACTIONS.
Proof.
  apply (exec_action_group re_change_line
           [Bol false; lit_ci (T "change:"); star is_space] [Wb] 1);
    [reflexivity |].
  no_later_group.
Qed.

Lemma detailed_step_keeps st raw :
  Forall detailed_record (d_items st) ->
  (forall p, currentPath st = Some p -> test re_path_line p = true /\ trim p = p) ->
  Forall detailed_record (d_items (detailed_step st raw)) /\
  (forall p, currentPath (detailed_step st raw) = Some p ->
             test re_path_line p = true /\ trim p = p).
Proof.
  intros Hit Hp. unfold detailed_step.
  destruct (negb (truthy (trim raw))); [auto |].
  destruct (test re_path_line (trim raw)) eqn:Hpath.
  { simpl. split; [exact Hit |]. intros p [= <-]. split; [exact Hpath | apply trim_idem]. }
  assert (Hreset : forall b : bool,
            Forall detailed_record (d_items (if b then DState (d_items st) None else st)) /\
            (forall p, currentPath (if b then DState (d_items st) None else st) = Some p ->
                       test re_path_line p = true /\ trim p = p)).
  { intros [|]; simpl; [split; [exact Hit | discriminate] | auto]. }
  destruct (exec re_change_line (trim raw)) as [m |] eqn:Hm; [| apply Hreset].
  destruct (currentPath st) as [p |] eqn:Hc; [| apply Hreset].
  destruct (truthy p); [| apply Hreset].
  simpl. split; [| discriminate].
  apply Forall_app. split; [exact Hit |]. constructor; [| constructor].
  destruct (Hp p eq_refl) as [H1 H2].
  split; [apply (change_line_group _ _ Hm) | split; assumption].
Qed.

Lemma detailed_step_order st raw P :
  subsequence (map file (d_items st) ++ held (currentPath st)) P ->
  subsequence (map file (d_items (detailed_step st raw))
                 ++ held (currentPath (detailed_step st raw)))
              (P ++ path_lines [raw]).
Proof.
  intros H. unfold detailed_step, path_lines. cbn [map filter].
  assert (Hfiles : subsequence (map file (d_items st)) P)
    by (apply (subsequence_app_l _ _ _ H)).
  destruct (truthy (trim raw)) eqn:Hne; cbn [negb].
  2:{ destruct (trim raw); [| discriminate].
      replace (test re_path_line []) with false by (vm_compute; reflexivity).
      rewrite app_nil_r. exact H. }
  destruct (test re_path_line (trim raw)) eqn:Hpath.
  { simpl. apply subsequence_app; [exact Hfiles |].
    apply subsequence_take, subsequence_nil. }
  rewrite app_nil_r.
  assert (Hreset : forall b : bool,
            subsequence
              (map file (d_items (if b then DState (d_items st) None else st))
                 ++ held (currentPath (if b then DState (d_items st) None else st))) P).
  { intros [|]; simpl; [rewrite app_nil_r; exact Hfiles | exact H]. }
  destruct (exec re_change_line (trim raw)) as [m |]; [| apply Hreset].
  destruct (currentPath st) as [p |] eqn:Hc; [| apply Hreset].
  destruct (truthy p); [| apply Hreset].
  simpl. rewrite app_nil_r, map_app. simpl. simpl in H. exact H.
Qed.

Lemma path_lines_app l1 l2 : path_lines (l1 ++ l2) = path_lines l1 ++ path_lines l2.
Proof. unfold path_lines. rewrite map_app, filter_app. reflexivity. Qed.

Lemma detailed_run : forall ls st P,
  Forall detailed_record (d_items st) ->
  (forall p, currentPath st = Some p -> test re_path_line p = true /\ trim p = p) ->
  subsequence (map file (d_items st) ++ held (currentPath st)) P ->
  Forall detailed_record (d_items (fold_left detailed_step ls st)) /\
  subsequence (map file (d_items (fold_left detailed_step ls st))) (P ++ path_lines ls).
Proof.
  induction ls as [| raw ls IH]; intros st P Hit Hp Hs; simpl.
  - split; [exact Hit |]. unfold path_lines. simpl. rewrite app_nil_r.
    apply (subsequence_app_l _ _ _ Hs).
  - destruct (detailed_step_keeps st raw Hit Hp) as [Hit' Hp'].
    destruct (IH _ _ Hit' Hp' (detailed_step_order st raw P Hs)) as [H1 H2].
    split; [exact H1 |].
    change (raw :: ls) with ([raw] ++ ls). rewrite path_lines_app, app_assoc.
    exact H2.
Qed.

(** X18.  Every record of [parsePendingDetailed] has an action out of add,
    edit, delete, rename, merge, branch and, as its file, a path line
    of the output; the files of the records are path lines of the
    output in their order, none of them used twice. *)
Theorem parsePendingDetailed_records stdout :
  Forall detailed_record (parsePendingDetailed stdout) /\
  subsequence (map file (parsePendingDetailed stdout))
              (path_lines (lines_of stdout)).
Proof.
  unfold parsePendingDetailed.
  apply (detailed_run (lines_of stdout) (DState [] None) []).
  - constructor.
  - discriminate.
  - constructor.
Qed.

(** ** The compact pending-changes parser, continued *)

(** *** Lines without a gap *)

(** A pattern that asks for two or more white-space characters in a
    row matches no text without such a gap. *)
Lemma gap_needed pre post g s :
  test re_gap s = false ->
  exec (seq (pre ++ Rep g 2 is_space :: post)) s = None.
Proof.
  intros Hgap. destruct (exec _ s) as [f |] eqn:He; [| reflexivity]. exfalso.
  apply exec_inv in He. destruct He as (p & q & st & -> & Hm & _).
  apply matches_seq_app in Hm. destruct Hm as (mid & Hpre & Hm).
  change (seq (Rep g 2 is_space :: post)) with (Seq (Rep g 2 is_space) (seq post)) in Hm.
  cbn [matches] in Hm. destruct Hm as (st1 & (x & rs & Hx & Hlen & Hrest & ->) & _).
  destruct (matches_shape _ _ _ Hpre) as (y & Hy & Hseen). cbn [seen rest] in *.
  assert (Ht : test re_gap ((p ++ y) ++ x ++ rs) = true).
  { apply (test_intro re_gap (p ++ y) (x ++ rs)
             (MState (rev x ++ rev (p ++ y)) rs [])).
    exists x, rs. auto. }
  rewrite Hy, Hrest, app_assoc, Ht in Hgap. discriminate.
Qed.

Lemma row_wide_needs_gap s : test re_gap s = false -> exec re_row_wide s = None.
Proof.
  apply (gap_needed [Bol false; Grp 1 (lazy_plus is_dot)]
           [Grp 2 (lazy_plus is_change_char); Rep true 2 is_space;
            Grp 3 (plus is_dot); Eol false] true).
Qed.

Lemma row_narrow_needs_gap s : test re_gap s = false -> exec re_row_narrow s = None.
Proof.
  apply (gap_needed [Bol false; Grp 1 (lazy_plus is_dot); Rep true 1 is_space;
                     Grp 2 (lazy_plus is_change_char)]
           [Grp 3 (plus is_dot); Eol false] true).
Qed.

(** *** A line that gives the action first *)

Lemma space_stops_alpha ws q :
  ws <> [] -> forallb is_space ws = true -> stops is_alpha (ws ++ q).
Proof.
  destruct ws as [| a ws]; [congruence |]. simpl. intros _ H.
  apply andb_true_iff in H. destruct H as [H _].
  destruct (is_alpha a) eqn:E; [| reflexivity].
  rewrite (alpha_not_space _ E) in H. discriminate.
Qed.

(** X19.  A line [ACTION path]: one of the six words in any letter case, one
    white-space character, and a path on one line that neither begins
    nor ends with white space and holds no two white-space characters
    in a row.  [tryParseRow] gives the path and the word in lower
    case. *)
Theorem tryParseRow_action_first folder w x s p :
  In w ACTIONS -> spells_ci w x ->
  is_space s = true ->
  p <> [] -> forallb is_dot p = true -> tight p -> tight (rev p) ->
  test re_gap (x ++ s :: p) = false ->
  tryParseRow folder (x ++ s :: p) = Some (PendingItem p w).
Proof.
  intros Hin Hw Hs Hp Hdot Htp Hend Hgap.
  destruct (actions_alpha _ Hin) as [Hwa Hwne].
  pose proof (spells_alpha _ _ Hw Hwa) as Ha.
  assert (Hne : x <> []) by (intros ->; inversion Hw; subst; congruence).
  assert (Htrim : trim (x ++ s :: p) = x ++ s :: p).
  { apply trim_fixed.
    - destruct x as [| a x]; [congruence |]. simpl in *.
      apply andb_true_iff in Ha. destruct Ha as [Ha _]. apply alpha_not_space, Ha.
    - rewrite rev_app_distr. simpl. rewrite <- app_assoc.
      destruct (rev p) as [| b r] eqn:E; [| exact Hend].
      apply (f_equal (@rev ascii)) in E. rewrite rev_involutive in E. contradiction. }
  unfold tryParseRow. rewrite Htrim.
  rewrite (row_wide_needs_gap _ Hgap), (row_narrow_needs_gap _ Hgap). cbn [or_else].
  assert (Hex : exec re_action_first (x ++ s :: p) <> None).
  { apply (exec_intro re_action_first [] (x ++ s :: p)
             (MState (rev p ++ s :: rev x ++ []) [] [(2, p); (1, x)])).
    unfold re_action_first, action_group, plus. cbn [rev].
    apply step_bol.
    eexists. split.
    { exists (MState (rev x ++ []) (s :: p) []). split.
      - apply (spells_ci_words _ w); assumption.
      - reflexivity. }
    rewrite span_states. unfold set_cap. cbn [seen rest caps].
    change (s :: p) with ([s] ++ p).
    apply step_rep; [simpl; rewrite Hs; reflexivity | simpl; lia |].
    rewrite <- (app_nil_r p) at 1.
    apply step_grp_rep; [exact Hdot | destruct p; simpl; [congruence | lia] |].
    apply step_eol. reflexivity. }
  destruct (exec re_action_first (x ++ s :: p)) as [m |] eqn:Hm; [| congruence].
  clear Hex. apply f_equal. apply exec_inv in Hm.
  destruct Hm as (p0 & q & st & Hsplit & Hmt & _ & _ & Hg & _).
  pose proof (anchored_at_start _ _ _ _ Hmt) as ->. simpl in Hsplit. subst q.
  unfold re_action_first, action_group, plus in Hmt. cbn [seq fold_right matches rev] in Hmt.
  destruct Hmt as (st0 & [_ ->] & st1 & (st2 & Hwords & ->) & st3 &
                   (ws & rs3 & Hws & Hwl & Hr3 & ->) & st4 &
                   (st5 & (y & rs5 & Hy & Hyl & Hr5 & ->) & ->) & st6 & [He ->] & ->).
  destruct (words_ci_matches _ _ _ Hwords) as (w' & x' & Hin' & (Hrest & Hseen & Hcaps) & Hw').
  destruct st2 as [sn2 rs2 cs2]. unfold set_cap in *. cbn [seen rest caps] in *.
  subst sn2 cs2. rewrite span_states in *.
  unfold at_eol in He. cbn [rest] in He. destruct rs5; [| discriminate].
  rewrite app_nil_r in Hr5. subst rs3 rs2.
  destruct (actions_alpha _ Hin') as [Hwa' _].
  pose proof (spells_alpha _ _ Hw' Hwa') as Ha'.
  assert (Hwsne : ws <> []) by (intros ->; simpl in Hwl; lia).
  destruct (run_unique is_alpha x x' (s :: p) (ws ++ y) Hrest Ha Ha') as [<- E].
  { simpl. destruct (is_alpha s) eqn:Es; [| reflexivity].
    rewrite (alpha_not_space _ Es) in Hs. discriminate. }
  { apply space_stops_alpha; assumption. }
  destruct ws as [| b ws]; [congruence |]. simpl in E. injection E as <- E.
  assert (ws = []).
  { destruct ws as [| c ws]; [reflexivity |]. exfalso.
    simpl in Hws. apply andb_true_iff in Hws. destruct Hws as [_ Hws].
    apply andb_true_iff in Hws. destruct Hws as [Hc _].
    rewrite E in Htp. simpl in Htp. congruence. }
  subst ws. simpl in E. subst y.
  unfold group. rewrite Hg. cbn [lookup_cap Nat.eqb].
  rewrite span_states.
  rewrite (trim_fixed p Htp Hend), (spells_ci_lower _ _ Hw), (actions_lower _ Hin).
  reflexivity.
Qed.

Lemma tryParseRow_action_first_witness :
  tryParseRow None (T "Edit C:\ws\my file.cs")
  = Some (PendingItem (T "C:\ws\my file.cs") (T "edit")).
Proof.
  apply (tryParseRow_action_first None (T "edit") (T "Edit") " " (T "C:\ws\my file.cs")).
  - simpl. auto.
  - repeat constructor.
  - reflexivity.
  - discriminate.
  - reflexivity.
  - reflexivity.
  - reflexivity.
  - vm_compute. reflexivity.
Defined.

(** *** Rows without a local path *)

(** X20.  A row in the regular shape whose third column is no drive-letter
    path: the file of the record is the name column, after the
    current server folder (its backslashes turned into slashes) and a
    slash when a folder header has been seen. *)
Theorem tryParseRow_server_row folder name gap1 w change gap2 third :
  name <> [] -> solid name ->
  2 <= length gap1 -> forallb is_space gap1 = true ->
  In w ACTIONS -> spells_ci w change ->
  2 <= length gap2 -> forallb is_space gap2 = true ->
  third <> [] -> forallb is_dot third = true ->
  tight third -> tight (rev third) ->
  test re_drive third = false ->
  tryParseRow folder (name ++ gap1 ++ change ++ gap2 ++ third)
  = Some (PendingItem
            match folder with
            | Some f => if truthy f then to_slashes f ++ T "/" ++ name else name
            | None => name
            end w).
Proof.
  intros Hn Hsolid Hg1 Hs1 Hin Hw Hg2 Hs2 Hlne Hdot Hlt Hend Hdrive.
  destruct (actions_alpha _ Hin) as [Hwa Hwne].
  pose proof (spells_alpha _ _ Hw Hwa) as Ha.
  assert (Hne : change <> []).
  { intros ->. inversion Hw. subst. congruence. }
  assert (Htrim : trim (name ++ gap1 ++ change ++ gap2 ++ third)
                  = name ++ gap1 ++ change ++ gap2 ++ third).
  { apply trim_fixed.
    - destruct name as [| b name]; [congruence |]. unfold solid in Hsolid.
      simpl in *. apply andb_true_iff in Hsolid. destruct Hsolid as [H _].
      destruct (is_space b); [discriminate | reflexivity].
    - rewrite !rev_app_distr, <- !app_assoc.
      destruct (rev third) as [| b r] eqn:E; [| exact Hend].
      apply (f_equal (@rev ascii)) in E. rewrite rev_involutive in E.
      contradiction. }
  unfold tryParseRow. rewrite Htrim.
  rewrite (exec_at_start _ _ _
             (row_wide_match name gap1 change gap2 third Hn Hsolid Hg1 Hs1
                Hne Ha Hg2 Hs2 Hlne Hdot Hlt)).
  cbn [or_else]. unfold found_of, group. cbn [groups caps lookup_cap Nat.eqb].
  rewrite (trim_fixed third Hlt Hend), Hdrive.
  rewrite (solid_trim change (alpha_solid _ Ha)), (solid_trim name Hsolid).
  destruct (action_word_exact w change Hin Hw) as (m & -> & Hm).
  unfold group in Hm. rewrite Hm. reflexivity.
Qed.

Lemma tryParseRow_server_row_witness :
  tryParseRow (Some (T "$\Proj\Dir")) (T "Foo.cs   add   (none)")
  = Some (PendingItem (T "$/Proj/Dir/Foo.cs") (T "add")).
Proof.
  apply (tryParseRow_server_row (Some (T "$\Proj\Dir")) (T "Foo.cs") (T "   ")
           (T "add") (T "add") (T "   ") (T "(none)")).
  - discriminate.
  - reflexivity.
  - simpl. lia.
  - reflexivity.
  - simpl. auto.
  - repeat constructor.
  - simpl. lia.
  - reflexivity.
  - discriminate.
  - reflexivity.
  - reflexivity.
  - reflexivity.
  - vm_compute. reflexivity.
Defined.

(** *** A name fragment and the line after it *)

Lemma alpha_stops_space a q : is_alpha a = true -> stops is_space (a :: q).
Proof. intros H. simpl. apply alpha_not_space, H. Qed.

(** The line [ACTION X:\path] that can follow a name fragment. *)
Lemma action_then_local_exact w x ws a t :
  In w ACTIONS -> spells_ci w x ->
  ws <> [] -> forallb is_space ws = true ->
  is_alpha a = true -> t <> [] -> forallb is_dot t = true ->
  exists m,
    exec re_action_then_local (x ++ ws ++ a :: ":" :: "\" :: t) = Some m /\
    toLowerCase (group 1 m) = w /\
    group 2 m = a :: ":" :: "\" :: t.
Proof.
  intros Hin Hw Hwsne Hws Ha Htne Ht.
  destruct (actions_alpha _ Hin) as [Hwa Hwne].
  pose proof (spells_alpha _ _ Hw Hwa) as Hxa.
  assert (Hne : x <> []) by (intros ->; inversion Hw; subst; congruence).
  set (loc := a :: ":" :: "\" :: t) in *.
  assert (Hhere : matches re_action_then_local (MState [] (x ++ ws ++ loc) [])
                    (MState (rev loc ++ rev ws ++ rev x ++ []) []
                            [(2, loc); (1, x)])).
  { unfold re_action_then_local, action_group, plus.
    eapply matches_seq_cons.
    { split; [| reflexivity].
      rewrite (word_after_alpha x _ [] [] Hne Hxa). reflexivity. }
    eapply matches_seq_cons.
    { exists (MState (rev x ++ []) (ws ++ loc) []). split.
      - apply (spells_ci_words _ w); assumption.
      - reflexivity. }
    rewrite span_states. unfold set_cap. cbn [seen rest caps].
    eapply matches_seq_cons.
    { split; [| reflexivity].
      rewrite (word_before_alpha x [] _ _ Hne Hxa).
      destruct ws as [| b ws]; [congruence |]. cbn [forallb] in Hws.
      apply andb_true_iff in Hws. destruct Hws as [Hb _].
      unfold word_after. cbn [rest app].
      destruct (is_word b) eqn:Eb; [| reflexivity].
      assert (Hd : disjoint is_word is_space = true) by (vm_compute; reflexivity).
      rewrite (disjoint_spec _ _ _ Hd Eb) in Hb. discriminate. }
    apply step_rep; [exact Hws | destruct ws; simpl; [congruence | lia] |].
    eapply matches_seq_cons.
    { exists (MState (rev loc ++ rev ws ++ rev x ++ []) [] [(1, x)]). split.
      - unfold loc.
        eapply matches_seq_cons.
        { exists a. eexists. cbn [rest]. repeat split. exact Ha. }
        eapply matches_seq_cons.
        { eapply (matches_seq_cons (Chr (is_char ":"))).
          { exists ":". eexists. cbn [rest]. repeat split. }
          eapply (matches_seq_cons (Chr (is_char "\"))).
          { exists "\". eexists. cbn [rest]. repeat split. }
          reflexivity. }
        eapply matches_seq_cons; [| reflexivity].
        exists t, []. cbn [seen rest caps]. rewrite app_nil_r.
        repeat split; [exact Ht | destruct t; simpl; [congruence | lia] |].
        cbn [rev]. rewrite <- !app_assoc. reflexivity.
      - reflexivity. }
    rewrite span_states. unfold set_cap. cbn [seen rest caps].
    apply step_eol. reflexivity. }
  destruct (exec re_action_then_local (x ++ ws ++ loc)) as [m |] eqn:Hm.
  2:{ exfalso. revert Hm. apply (exec_intro _ [] _ _ Hhere). }
  exists m. split; [reflexivity |].
  apply exec_inv in Hm.
  destruct Hm as (p0 & q & st & Hsplit & Hmt & _ & _ & Hg & Hleft).
  assert (p0 = []).
  { destruct p0 as [| c p0]; [reflexivity |]. exfalso.
    specialize (Hleft [] c p0 eq_refl). cbn [rev] in Hleft.
    change (c :: p0 ++ q) with ((c :: p0) ++ q) in Hleft.
    rewrite <- Hsplit in Hleft.
    revert Hleft. apply (match_here_complete _ _ _ _ Hhere). }
  subst p0. cbn [app rev] in *. subst q.
  unfold re_action_then_local, action_group, plus in Hmt.
  cbn [seq fold_right matches] in Hmt.
  destruct Hmt as (st0 & [_ ->] & st1 & (st2 & Hwords & ->) & st3 & [_ ->] & st4 &
                   (ws' & rs4 & Hws' & Hwl' & Hr4 & ->) & st5 &
                   (st6 & Hloc & ->) & st7 & [He ->] & ->).
  destruct (words_ci_matches _ _ _ Hwords) as (w' & x' & Hin' & (Hrest & Hseen & Hcaps) & Hw').
  destruct st2 as [sn2 rs2 cs2]. unfold set_cap in *. cbn [seen rest caps] in *.
  subst sn2 cs2. rewrite span_states in *.
  destruct Hloc as (s1 & (a' & r1 & Hr1 & Ha' & ->) & s2 &
                    (s3 & (c1 & r2 & Hr2 & Hc1 & ->) & s4 &
                     (c2 & r3 & Hr3 & Hc2 & ->) & ->) & s5 &
                    (t' & r5 & Ht' & Htl' & Hr5 & ->) & ->).
  cbn [seen rest caps] in *.
  apply is_char_eq in Hc1, Hc2. subst c1 c2.
  unfold at_eol in He. cbn [rest] in He. destruct r5; [| discriminate].
  rewrite app_nil_r in Hr5. subst r3 r2 r1 rs4 rs2.
  destruct (actions_alpha _ Hin') as [Hwa' _].
  pose proof (spells_alpha _ _ Hw' Hwa') as Hxa'.
  assert (Hws'ne : ws' <> []) by (intros ->; simpl in Hwl'; lia).
  destruct (run_unique is_alpha x x' (ws ++ loc) (ws' ++ a' :: ":" :: "\" :: t')
              Hrest Hxa Hxa') as [<- E].
  { apply space_stops_alpha; assumption. }
  { apply space_stops_alpha; assumption. }
  destruct (run_unique is_space ws ws' loc (a' :: ":" :: "\" :: t') E Hws Hws')
    as [<- E'].
  { apply alpha_stops_space, Ha. }
  { apply alpha_stops_space, Ha'. }
  unfold group. rewrite Hg. cbn [lookup_cap Nat.eqb].
  split.
  - rewrite (spells_ci_lower _ _ Hw). apply actions_lower, Hin.
  - match goal with |- span ?s1 ?s2 = _ =>
      rewrite (span_shape s1 s2 (a' :: ":" :: "\" :: t')) end.
    + symmetry. exact E'.
    + cbn [seen rev]. rewrite <- !app_assoc. reflexivity.
Qed.

Lemma server_root_letter a q : is_alpha a = true -> test re_server_root (a :: q) = false.
Proof.
  intros Ha. destruct (test re_server_root (a :: q)) eqn:E; [| reflexivity].
  exfalso. apply test_true in E. destruct E as [f E]. apply exec_inv in E.
  destruct E as (p & r & st & Hs & Hm & _).
  pose proof (anchored_at_start _ _ _ _ Hm) as ->. simpl in Hs. subst r.
  unfold re_server_root in Hm. cbn [seq fold_right matches lit map] in Hm.
  destruct Hm as (st1 & [_ ->] & st2 & Hm & _).
  cbn [T String.list_ascii_of_string map seq fold_right matches] in Hm.
  destruct Hm as (st3 & (b & rs & Hr & Hb & ->) & _).
  cbn [rest] in Hr. injection Hr as <- _. apply is_char_eq in Hb. subst a.
  discriminate.
Qed.

Lemma trimmed_tail (s1 s2 : text) :
  trim (s1 ++ s2) = s1 ++ s2 -> s2 <> [] -> tight (rev s2).
Proof.
  intros H Hne. apply (f_equal (@rev ascii)) in H.
  unfold trim in H. rewrite rev_involutive in H.
  pose proof (drop_spaces_tight (rev (drop_spaces (s1 ++ s2)))) as Ht.
  rewrite H, rev_app_distr in Ht.
  destruct (rev s2) as [| b r] eqn:E; [| exact Ht].
  apply (f_equal (@rev ascii)) in E. rewrite rev_involutive in E. contradiction.
Qed.

(** X21.  After a name fragment, a line [ACTION X:\path] that is itself
    neither a header nor a name fragment gives the record of that path
    and action.  The fragment is not used and is let go of; the buffer
    of a wrapped row stays as it is. *)
Theorem pending_step_pairs st raw f w x ws a t :
  pendingNameFragment st = Some f -> f <> [] ->
  trim raw = x ++ ws ++ a :: ":" :: "\" :: t ->
  In w ACTIONS -> spells_ci w x ->
  ws <> [] -> forallb is_space ws = true ->
  is_alpha a = true -> t <> [] -> forallb is_dot t = true ->
  is_header (trim raw) = false ->
  is_name_fragment (trim raw) = false ->
  pending_step st raw
  = PState (items st ++ [PendingItem (a :: ":" :: "\" :: t) w])
           (currentServerFolder st) (buffer st) None (console st).
Proof.
  intros Hfrag Hf Hline Hin Hw Hwsne Hws Ha Htne Ht Hhead Hname.
  assert (Hne : x <> []) by (intros ->; inversion Hw; subst;
                             destruct (actions_alpha _ Hin); congruence).
  assert (Hxa : forallb is_alpha x = true)
    by (apply (spells_alpha _ _ Hw), (actions_alpha _ Hin)).
  assert (Hloc : trim (a :: ":" :: "\" :: t) = a :: ":" :: "\" :: t).
  { apply trim_fixed.
    - apply alpha_not_space, Ha.
    - apply (trimmed_tail (x ++ ws)); [| discriminate].
      rewrite <- app_assoc, <- Hline. apply trim_idem. }
  unfold pending_step. rewrite Hhead, Hname.
  assert (Hfolder : is_folder_header (trim raw) = false).
  { unfold is_folder_header. rewrite Hline.
    destruct x as [| b x]; [congruence |]. cbn [app].
    cbn [forallb] in Hxa. apply andb_true_iff in Hxa. destruct Hxa as [Hb _].
    rewrite (server_root_letter _ _ Hb). reflexivity. }
  rewrite Hfolder, Hfrag. unfold pair_fragment.
  destruct f as [| c f]; [congruence |]. cbn [truthy].
  rewrite Hline.
  destruct (action_then_local_exact w x ws a t Hin Hw Hwsne Hws Ha Htne Ht)
    as (m & -> & H1 & H2).
  rewrite H1, H2, Hloc. reflexivity.
Qed.

Lemma pending_step_pairs_witness :
  pending_step (PState [] None [] (Some (T "PigButcherBossContro...")) [])
               (T "   edit   C:\ws\Assets\PigButcherBossController.prefab.bak")
  = PState [PendingItem (T "C:\ws\Assets\PigButcherBossController.prefab.bak") (T "edit")]
           None [] None [].
Proof.
  apply (pending_step_pairs
           (PState [] None [] (Some (T "PigButcherBossContro...")) [])
           (T "   edit   C:\ws\Assets\PigButcherBossController.prefab.bak")
           (T "PigButcherBossContro...") (T "edit") (T "edit") (T "   ")
           "C" (T "ws\Assets\PigButcherBossController.prefab.bak")).
  - reflexivity.
  - discriminate.
  - vm_compute. reflexivity.
  - simpl. auto.
  - repeat constructor.
  - discriminate.
  - reflexivity.
  - reflexivity.
  - discriminate.
  - reflexivity.
  - vm_compute. reflexivity.
  - vm_compute. reflexivity.
Defined.

(** ** The compact pending-changes parser on tables *)

(** *** Lines put together and taken apart *)

Lemma dot_no_newline a q sn :
  is_dot a = true -> match_here re_newline sn (a :: q) = None.
Proof.
  intros H. rewrite newline_here.
  assert (Hd : disjoint is_dot (fun a => is_char CR a || is_char LF a) = true)
    by (vm_compute; reflexivity).
  pose proof (disjoint_spec _ _ _ Hd H) as Hn. cbv beta in Hn.
  apply orb_false_iff in Hn. destruct Hn as [-> ->]. reflexivity.
Qed.

Lemma split_scan_unbroken l piece sn rs :
  unbroken l ->
  split_scan re_newline 0 piece sn (l ++ rs)
  = split_scan re_newline 0 (rev l ++ piece) (rev l ++ sn) rs.
Proof.
  intros H. apply split_scan_walk. intros l1 a l2 ->.
  apply dot_no_newline. unfold unbroken in H.
  rewrite forallb_app in H. simpl in H.
  apply andb_true_iff in H. destruct H as [_ H]. apply andb_true_iff in H. tauto.
Qed.

Lemma split_scan_line_end eol l piece sn rs :
  line_end eol -> unbroken l ->
  split_scan re_newline 0 piece sn (l ++ eol ++ rs)
  = (rev piece ++ l) :: split_scan re_newline 0 [] (rev eol ++ rev l ++ sn) rs.
Proof.
  intros He Hl. rewrite (split_scan_unbroken _ _ _ _ Hl).
  destruct He as [-> | ->]; cbn [app split_scan]; rewrite newline_here.
  - change (is_char CR LF) with false. change (is_char LF LF) with true.
    cbn [seen length]. rewrite Nat.sub_succ_l, Nat.sub_diag by lia.
    rewrite rev_app_distr, rev_involutive. reflexivity.
  - change (is_char CR CR) with true. change (is_char LF LF) with true.
    cbn [seen length]. rewrite Nat.sub_succ_l by lia.
    rewrite Nat.sub_succ_l, Nat.sub_diag by lia.
    rewrite rev_app_distr, rev_involutive. reflexivity.
Qed.

Lemma join_cons2 sep l x ls : join sep (l :: x :: ls) = l ++ sep ++ join sep (x :: ls).
Proof. reflexivity. Qed.

Lemma split_scan_join eol : forall ls l piece sn,
  line_end eol -> Forall unbroken (l :: ls) ->
  split_scan re_newline 0 piece sn (join eol (l :: ls)) = (rev piece ++ l) :: ls.
Proof.
  induction ls as [| x ls IH]; intros l piece sn He H;
    inversion H as [| ? ? Hl Hls]; subst.
  - cbn [join]. rewrite app_nil_r.
    rewrite <- (app_nil_r l) at 1. rewrite (split_scan_unbroken _ _ _ _ Hl).
    cbn [split_scan]. rewrite rev_app_distr, rev_involutive. reflexivity.
  - rewrite join_cons2, (split_scan_line_end _ _ _ _ _ He Hl).
    rewrite (IH x [] _ He Hls). reflexivity.
Qed.

(** The lines of a text are the lines it was put together from. *)
Lemma lines_of_join eol l ls :
  line_end eol -> Forall unbroken (l :: ls) ->
  lines_of (join eol (l :: ls)) = l :: ls.
Proof.
  intros He H. unfold lines_of, split.
  destruct (join eol (l :: ls)) as [| a s] eqn:E.
  - destruct ls as [| x ls].
    + cbn [join] in E. rewrite app_nil_r in E. subst l.
      rewrite newline_here. reflexivity.
    + rewrite join_cons2 in E. destruct l; [| discriminate].
      destruct He as [-> | ->]; discriminate.
  - rewrite <- E. apply (split_scan_join eol ls l [] [] He H).
Qed.

(** *** Cleaning a line *)

Lemma replace_nul : forall l sn, replace_scan re_nul [] 0 sn l = without_NUL l.
Proof.
  induction l as [| a l IH]; intros sn; [reflexivity |].
  cbn [replace_scan without_NUL filter]. unfold match_here, re_nul.
  cbn [matcher rest seen caps].
  destruct (is_char NUL a); cbn [negb].
  - cbn [seen length]. rewrite Nat.sub_succ_l, Nat.sub_diag by lia.
    cbn [app]. apply IH.
  - f_equal. apply IH.
Qed.

Lemma replace_scan_skip_all r : forall rs sn,
  replace_scan r [] (length rs) sn rs = [].
Proof.
  induction rs as [| a rs IH]; intros sn; cbn [length replace_scan].
  - destruct (match_here r sn []); reflexivity.
  - apply IH.
Qed.

Lemma trailing_space_match sn rs st :
  match_here re_trailing_space sn rs = Some st ->
  forallb is_space rs = true /\ length (seen st) - length sn = length rs /\ rs <> [].
Proof.
  intros H. apply match_here_sound in H.
  unfold re_trailing_space, plus in H. cbn [seq fold_right] in H.
  destruct H as (st1 & H1 & st2 & [He ->] & ->).
  apply rep_matches in H1. destruct H1 as (x & (Hr & Hs & _) & Hx & Hlen).
  simpl in Hr. unfold at_eol in He. cbn [andb] in He.
  destruct (rest st1); [| discriminate]. rewrite app_nil_r in Hr. subst x.
  split; [exact Hx |]. split.
  - rewrite Hs, length_app, length_rev. simpl. lia.
  - intros ->. simpl in Hlen. lia.
Qed.

(** Removing the white space at the end of a line takes white space
    off its end. *)
Lemma trailing_space_removed : forall rs sn,
  exists w, rs = replace_scan re_trailing_space [] 0 sn rs ++ w /\
            forallb is_space w = true.
Proof.
  induction rs as [| a rs IH]; intros sn; cbn [replace_scan].
  - exists []. destruct (match_here _ sn []); auto.
  - destruct (match_here re_trailing_space sn (a :: rs)) as [st |] eqn:Hm.
    + apply trailing_space_match in Hm. destruct Hm as (Hw & -> & _).
      cbn [length app]. rewrite replace_scan_skip_all.
      exists (a :: rs). auto.
    + destruct (IH (a :: sn)) as (w & Hw & Hs).
      exists w. split; [| exact Hs]. simpl. rewrite <- Hw. reflexivity.
Qed.

Lemma trim_app_blank s w : forallb is_space w = true -> trim (s ++ w) = trim s.
Proof.
  intros Hw. unfold trim.
  assert (Hgo : forall z, drop_spaces (z ++ w)
                          = match drop_spaces z with
                            | [] => []
                            | _ :: _ => drop_spaces z ++ w
                            end).
  { induction z as [| a z IH]; simpl; [apply drop_spaces_blank; exact Hw |].
    destruct (is_space a); [exact IH | reflexivity]. }
  rewrite Hgo. destruct (drop_spaces s) as [| a t]; [reflexivity |].
  rewrite rev_app_distr, drop_spaces_app_blank; [reflexivity |].
  rewrite forallb_rev. exact Hw.
Qed.

(** A cleaned line is the line without its NUL characters, up to the
    white space at its end. *)
Lemma clean_line_shape l :
  exists w, without_NUL l = clean_line l ++ w /\ forallb is_space w = true.
Proof.
  unfold clean_line, replace_all. rewrite replace_nul.
  apply trailing_space_removed.
Qed.

Lemma clean_line_trim l : trim (clean_line l) = trim (without_NUL l).
Proof.
  destruct (clean_line_shape l) as (w & Hw & Hs).
  rewrite Hw, trim_app_blank by exact Hs. reflexivity.
Qed.

Lemma pending_step_trim st raw raw' :
  trim raw = trim raw' -> pending_step st raw = pending_step st raw'.
Proof. intros H. unfold pending_step. rewrite H. reflexivity. Qed.

Lemma pending_run_cleaned : forall ls st,
  fold_left pending_step (filter nonblank (map clean_line ls)) st
  = fold_left pending_step (filter nonblank (map without_NUL ls)) st.
Proof.
  induction ls as [| l ls IH]; intros st; [reflexivity |].
  cbn [map filter].
  assert (Hnb : nonblank (clean_line l) = nonblank (without_NUL l)).
  { unfold nonblank. rewrite clean_line_trim. reflexivity. }
  rewrite Hnb. destruct (nonblank (without_NUL l)); [| apply IH].
  cbn [fold_left]. rewrite (pending_step_trim st _ _ (clean_line_trim l)).
  apply IH.
Qed.

(** The loop of [parsePending] on lines put together with line ends. *)
Lemma parsePending_join eol ls out :
  line_end eol -> Forall unbroken ls ->
  parsePending_run (join eol ls) out
  = fold_left pending_step (filter nonblank (map without_NUL ls)) (pending_init out).
Proof.
  intros He H. unfold parsePending_run, pending_lines.
  destruct ls as [| l ls]; [reflexivity |].
  rewrite (lines_of_join _ _ _ He H). apply pending_run_cleaned.
Qed.

(** *** Lines that no rule recognises *)

Lemma gapless_cons a b s :
  gapless (a :: b :: s) = negb (is_space a && is_space b) && gapless (b :: s).
Proof. reflexivity. Qed.

Lemma gapless_gap : forall p a b q,
  is_space a = true -> is_space b = true -> gapless (p ++ a :: b :: q) = false.
Proof.
  induction p as [| c p IH]; intros a b q Ha Hb.
  - simpl. rewrite Ha, Hb. reflexivity.
  - cbn [app gapless]. rewrite (IH a b q Ha Hb).
    destruct (p ++ a :: b :: q) eqn:E; [destruct p; discriminate | apply andb_false_r].
Qed.

Lemma gapless_no_gap s : gapless s = true -> test re_gap s = false.
Proof.
  intros H. destruct (test re_gap s) eqn:Ht; [| reflexivity]. exfalso.
  apply test_true in Ht. destruct Ht as [f Hf]. apply exec_inv in Hf.
  destruct Hf as (p & q & st & -> & Hm & _).
  unfold re_gap in Hm. apply rep_matches in Hm.
  destruct Hm as (x & (Hr & _) & Hx & Hlen). simpl in Hr. subst q.
  destruct x as [| a [| b x]]; simpl in Hlen; try lia.
  simpl in Hx. apply andb_true_iff in Hx. destruct Hx as [Ha Hx].
  apply andb_true_iff in Hx. destruct Hx as [Hb _].
  change ((a :: b :: x) ++ rest st) with (a :: b :: x ++ rest st) in H.
  rewrite (gapless_gap p a b _ Ha Hb) in H. discriminate.
Qed.

Lemma gapless_app : forall x y,
  gapless x = true -> gapless y = true -> tight (rev x) ->
  gapless (x ++ y) = true.
Proof.
  induction x as [| a x IH]; intros y Hx Hy Ht; [exact Hy |].
  destruct x as [| b x].
  - simpl in Ht. cbn [app]. destruct y as [| c y]; [reflexivity |].
    rewrite gapless_cons, Ht. cbn [andb negb]. exact Hy.
  - rewrite gapless_cons in Hx. apply andb_true_iff in Hx. destruct Hx as [Hab Hx].
    change ((a :: b :: x) ++ y) with (a :: b :: (x ++ y)).
    rewrite gapless_cons, Hab. cbn [andb]. apply (IH y Hx Hy).
    cbn [rev] in *. destruct (rev x ++ [b]) as [| c t] eqn:E.
    + destruct (rev x); discriminate.
    + exact Ht.
Qed.

Lemma quiet_trim s : quiet s -> trim s = s.
Proof. intros (_ & _ & H1 & H2). apply trim_fixed; assumption. Qed.

Ltac by_summary H :=
  first [ apply (blocked_exec summary_char) | apply (blocked_test summary_char) ];
  [vm_compute; reflexivity | exact H].

Lemma quiet_row_none folder s : quiet s -> tryParseRow folder s = None.
Proof.
  intros Hq. pose proof Hq as (H & Hg & _). apply gapless_no_gap in Hg.
  unfold tryParseRow. rewrite (quiet_trim _ Hq).
  rewrite (row_wide_needs_gap _ Hg), (row_narrow_needs_gap _ Hg). cbn [or_else].
  replace (exec re_action_first s) with (@None found) by (symmetry; by_summary H).
  replace (exec re_server_item s) with (@None found) by (symmetry; by_summary H).
  replace (exec re_local_item s) with (@None found) by (symmetry; by_summary H).
  reflexivity.
Qed.

Lemma quiet_nil : quiet [].
Proof. repeat split. Qed.

Lemma joined_quiet b l : quiet b -> quiet l -> l <> [] -> quiet (joined b l).
Proof.
  intros (Hb1 & Hb2 & Hb3 & Hb4) (Hl1 & Hl2 & Hl3 & Hl4) Hne. unfold joined.
  destruct (truthy b) eqn:Htb; [| repeat split; assumption].
  destruct b as [| c b]; [discriminate |]. clear Htb.
  assert (Hsp : gapless (T " " ++ l) = true).
  { destruct l as [| a l]; [congruence |]. simpl in Hl3.
    change (T " " ++ a :: l) with (" "%char :: a :: l).
    rewrite gapless_cons, Hl3, andb_false_r. cbn [negb andb]. exact Hl2. }
  repeat split.
  - rewrite !forallb_app, Hb1, Hl1. reflexivity.
  - apply gapless_app; assumption.
  - exact Hb3.
  - rewrite !rev_app_distr. destruct (rev l) as [| a t] eqn:E; [| exact Hl4].
    apply (f_equal (@rev ascii)) in E. rewrite rev_involutive in E. contradiction.
Qed.

Lemma quiet_unrecognised st s :
  pendingNameFragment st = None -> quiet (buffer st) -> quiet s -> s <> [] ->
  unrecognised st s.
Proof.
  intros Hf Hb Hq Hne. pose proof Hq as (H & _).
  unfold unrecognised. repeat split.
  - unfold is_header.
    replace (test re_dashes3 s) with false by (symmetry; by_summary H).
    replace (test re_table_header s) with false by (symmetry; by_summary H).
    replace (test re_no_pending s) with false by (symmetry; by_summary H).
    replace (test re_banner s) with false by (symmetry; by_summary H).
    reflexivity.
  - unfold is_folder_header.
    replace (test re_server_root s) with false by (symmetry; by_summary H).
    reflexivity.
  - unfold is_name_fragment.
    rewrite (blocked_replace summary_char re_ellipsis_end [] s);
      [| vm_compute; reflexivity | exact H].
    replace (test re_asset_ext s) with false by (symmetry; by_summary H).
    apply andb_false_r.
  - rewrite Hf. reflexivity.
  - apply quiet_row_none, Hq.
  - apply quiet_row_none, joined_quiet; assumption.
Qed.

Lemma digit_summary_char a : is_digit a = true -> summary_char a = true.
Proof. unfold summary_char. intros ->. reflexivity. Qed.

Lemma digit_gapless : forall ds, forallb is_digit ds = true -> gapless ds = true.
Proof.
  induction ds as [| a ds IH]; intros H; [reflexivity |].
  simpl in H. apply andb_true_iff in H. destruct H as [Ha H].
  destruct ds as [| b ds]; [reflexivity |].
  rewrite gapless_cons, (digit_not_space _ Ha). cbn [andb negb]. apply IH, H.
Qed.

Lemma summary_quiet l : summary l -> quiet l /\ l <> [].
Proof.
  intros (ds & Hne & Hds & ->). split; [| destruct ds; [congruence | discriminate]].
  assert (Htr : tight (rev ds)).
  { assert (Hr : forallb is_digit (rev ds) = true) by (rewrite forallb_rev; exact Hds).
    destruct (rev ds) as [| a t]; [exact I |]. simpl in *.
    apply andb_true_iff in Hr. apply digit_not_space. tauto. }
  repeat split.
  - rewrite forallb_app. apply andb_true_iff. split; [| reflexivity].
    rewrite forallb_forall in *. intros a Ha. apply digit_summary_char, Hds, Ha.
  - apply gapless_app; [apply digit_gapless; exact Hds | reflexivity | exact Htr].
  - destruct ds as [| a ds]; [congruence |]. simpl in *.
    apply andb_true_iff in Hds. apply digit_not_space. tauto.
  - rewrite rev_app_distr. reflexivity.
Qed.

(** *** Rows of the table *)

Lemma data_row_narrow line : data_row line -> exec re_row_narrow line <> None.
Proof.
  intros (name & gap1 & change & gap2 & local & -> & [Hn Hnd] & [Hg1 Hs1] &
          [Hc Hcc] & [Hg2 Hs2] & [Hl Hld]).
  apply nonempty_length in Hn, Hc, Hl.
  rewrite <- (app_nil_r local).
  eapply (exec_intro re_row_narrow []).
  unfold re_row_narrow, lazy_plus, plus. simpl rev.
  apply step_bol.
  apply step_grp_rep; [assumption .. |].
  apply step_rep; [assumption .. |].
  apply step_grp_rep; [assumption .. |].
  apply step_rep; [assumption .. |].
  apply step_grp_rep; [assumption .. |].
  apply step_eol. reflexivity.
Qed.

Lemma data_row_gap line : data_row line -> test re_gap line = true.
Proof.
  intros (name & gap1 & change & gap2 & local & -> & _ & _ & _ & [Hg2 Hs2] & _).
  rewrite !app_assoc. rewrite <- (app_assoc _ gap2 local).
  apply (test_intro re_gap _ _ (MState (rev gap2 ++ rev ((name ++ gap1) ++ change))
                                       local [])).
  exists gap2, local. auto.
Qed.

Lemma data_row_parses folder line :
  data_row line -> trim line = line ->
  exists it, tryParseRow folder line = Some it.
Proof.
  intros Hrow Htrim. unfold tryParseRow. rewrite Htrim.
  pose proof (data_row_narrow _ Hrow) as Hw.
  destruct (exec re_row_wide line) as [table |]; [simpl; eauto |].
  destruct (exec re_row_narrow line) as [table |]; [| congruence].
  simpl. eauto.
Qed.

(** *** Columns *)

Lemma rep_no_gap g k sn s cs :
  starts_gap s = false -> rep g is_space 2 k sn s cs = None.
Proof.
  destruct s as [| a [| b s]]; cbn [rep starts_gap].
  - reflexivity.
  - destruct (is_space a); reflexivity.
  - destruct (is_space a); [| reflexivity]. cbn [andb]. intros ->. reflexivity.
Qed.

Lemma gapless_starts s : gapless s = true -> starts_gap s = false.
Proof.
  destruct s as [| a [| b s]]; [reflexivity .. |].
  rewrite gapless_cons. cbn [starts_gap]. intros H.
  apply andb_true_iff in H. destruct H as [H _].
  destruct (is_space a && is_space b); [discriminate | reflexivity].
Qed.

Lemma gapless_suffix : forall x1 x2, gapless (x1 ++ x2) = true -> gapless x2 = true.
Proof.
  induction x1 as [| a x1 IH]; intros x2 H; [exact H |].
  apply IH. cbn [app] in H. destruct (x1 ++ x2) as [| b t] eqn:E; [reflexivity |].
  rewrite gapless_cons in H. apply andb_true_iff in H. tauto.
Qed.

(** Inside a column no two white-space characters are ahead. *)
Lemma column_suffix x1 x2 q :
  column (x1 ++ x2) -> x2 <> [] -> starts_gap (x2 ++ q) = false.
Proof.
  intros (Hg & _ & Hr) Hne. destruct x2 as [| a x2]; [congruence |].
  destruct x2 as [| b x2].
  - rewrite rev_app_distr in Hr. simpl in Hr. cbn [app starts_gap].
    rewrite Hr. destruct q; reflexivity.
  - cbn [app starts_gap]. apply gapless_suffix in Hg.
    rewrite gapless_cons in Hg. apply andb_true_iff in Hg. destruct Hg as [Hg _].
    destruct (is_space a && is_space b); [discriminate | reflexivity].
Qed.

Lemma column_stops s q : column s -> s <> [] -> stops is_space (s ++ q).
Proof.
  intros (_ & Ht & _) Hne. destruct s as [| a s]; [congruence | exact Ht].
Qed.

(** The match of the three-column pattern on a row whose name and
    change are columns. *)
Lemma row_wide_columns name gap1 change gap2 local :
  name <> [] -> forallb is_dot name = true -> column name ->
  2 <= length gap1 -> forallb is_space gap1 = true ->
  change <> [] -> forallb is_change_char change = true -> column change ->
  2 <= length gap2 -> forallb is_space gap2 = true ->
  local <> [] -> forallb is_dot local = true -> tight local ->
  match_here re_row_wide [] (name ++ gap1 ++ change ++ gap2 ++ local)
  = Some (MState (rev local ++ rev gap2 ++ rev change ++ rev gap1 ++ rev name)
                 [] [(3, local); (2, change); (1, name)]).
Proof.
  intros Hn Hnd Hnc Hg1 Hs1 Hc Hcc Hccol Hg2 Hs2 Hl Hdot Htight.
  pose proof (nonempty_length _ Hn) as Hnl.
  pose proof (nonempty_length _ Hc) as Hcl.
  pose proof (nonempty_length _ Hl) as Hll.
  unfold match_here, re_row_wide, lazy_plus, plus.
  cbn [seq fold_right matcher at_bol seen rest caps].
  apply rep_lazy_first; [exact Hnd | exact Hnl | |].
  - intros x1 x2 Hsplit Hne _. cbn [matcher seen rest caps set_cap].
    rewrite Hsplit in Hnc.
    apply rep_no_gap. apply (column_suffix x1 x2 _ Hnc Hne).
  - cbn [matcher seen rest caps set_cap].
    rewrite span_states.
    apply rep_greedy_max; [exact Hs1 | exact Hg1 | |].
    { apply column_stops; assumption. }
    cbn [matcher seen rest caps set_cap].
    apply rep_lazy_first; [exact Hcc | exact Hcl | |].
    + intros x1 x2 Hsplit Hne _. cbn [matcher seen rest caps set_cap].
      rewrite Hsplit in Hccol.
      apply rep_no_gap. apply (column_suffix x1 x2 _ Hccol Hne).
    + cbn [matcher seen rest caps set_cap].
      rewrite span_states.
      apply rep_greedy_max; [exact Hs2 | exact Hg2 | |].
      { destruct local; [exact I | exact Htight]. }
      cbn [matcher seen rest caps set_cap].
      apply rep_greedy_all; [exact Hdot | exact Hll |].
      cbn [matcher at_eol seen rest caps set_cap].
      rewrite span_states. unfold set_cap. cbn [seen rest caps].
      rewrite app_nil_r. reflexivity.
Qed.

Lemma leading_split c : forall s,
  exists q, s = leading c s ++ q /\ forallb c (leading c s) = true /\ stops c q.
Proof.
  induction s as [| a s (q & Hq & Hl & Hs)]; simpl.
  - exists []. repeat split.
  - destruct (c a) eqn:Ha.
    + exists q. simpl. rewrite Ha, Hl. rewrite <- Hq. auto.
    + exists (a :: s). repeat split. exact Ha.
Qed.

(** *** Rows with one blank before the change *)

(** A repetition fails where the continuation fails after each of its
    lengths. *)
Lemma rep_none g c k : forall x lo sn q cs,
  forallb c x = true -> stops c q ->
  (forall y1 y2, x = y1 ++ y2 -> lo <= length y1 ->
     k (MState (rev y1 ++ sn) (y2 ++ q) cs) = None) ->
  rep g c lo k sn (x ++ q) cs = None.
Proof.
  induction x as [| a x IH]; intros lo sn q cs Hx Hq Hk.
  - pose proof (Hk [] [] eq_refl) as H0. cbn [app rev length] in H0 |- *.
    destruct lo as [| lo]; destruct q as [| b q]; cbn [rep]; try reflexivity.
    + apply H0. lia.
    + simpl in Hq. rewrite Hq. apply H0. lia.
    + simpl in Hq. rewrite Hq. reflexivity.
  - simpl in Hx. apply andb_true_iff in Hx. destruct Hx as [Ha Hx].
    assert (Hnext : forall lo', (forall y1 y2, a :: x = y1 ++ y2 -> S lo' <= length y1 ->
                       k (MState (rev y1 ++ sn) (y2 ++ q) cs) = None) ->
                    rep g c lo' k (a :: sn) (x ++ q) cs = None).
    { intros lo' H. apply IH; [exact Hx | exact Hq |].
      intros y1 y2 E Hl. rewrite <- rev_cons_app. apply H; [rewrite E; reflexivity |].
      simpl. lia. }
    destruct lo as [| lo]; cbn [app rep]; rewrite Ha.
    + pose proof (Hk [] (a :: x) eq_refl) as H0. cbn [app rev length] in H0.
      rewrite H0 by lia.
      rewrite Hnext by (intros y1 y2 E Hl; apply Hk; [exact E | lia]).
      destruct g; reflexivity.
    + apply Hnext. exact Hk.
Qed.

Lemma suffix_three {A} (a g l x1 x2 : list A) :
  a ++ g ++ l = x1 ++ x2 ->
  (exists a1 a2, a = a1 ++ a2 /\ a2 <> [] /\ x2 = a2 ++ g ++ l) \/
  (exists g1 g2, g = g1 ++ g2 /\ x2 = g2 ++ l) \/
  (exists l1 l2, l = l1 ++ l2 /\ x2 = l2).
Proof.
  intros E. apply app_eq_app in E. destruct E as (m & [[-> E] | [-> E]]).
  - destruct m as [| b m].
    + right. left. exists [], g. auto.
    + left. exists x1, (b :: m). repeat split; [discriminate | exact E].
  - apply app_eq_app in E. destruct E as (n & [[-> E] | [-> E]]).
    + right. left. exists m, n. auto.
    + right. right. exists n, x2. auto.
Qed.

Lemma solid_gapless : forall s, solid s -> gapless s = true.
Proof.
  unfold solid. induction s as [| a s IH]; intros H; [reflexivity |].
  simpl in H. apply andb_true_iff in H. destruct H as [Ha H].
  destruct s as [| b s]; [reflexivity |].
  rewrite gapless_cons, (IH H). destruct (is_space a); [discriminate | reflexivity].
Qed.

Lemma solid_tight_rev s : solid s -> tight (rev s).
Proof.
  intros H. assert (Hr : solid (rev s)).
  { unfold solid in *. rewrite forallb_rev. exact H. }
  destruct (rev s) as [| a t]; [exact I |]. unfold solid in Hr. simpl in *.
  apply andb_true_iff in Hr. destruct Hr as [Hr _].
  destruct (is_space a); [discriminate | reflexivity].
Qed.

(** A name, one white-space character and a change make one column. *)
Lemma name_change_column name w change :
  name <> [] -> solid name -> change <> [] -> column change ->
  column (name ++ [w] ++ change).
Proof.
  intros Hn Hs Hc (Hcg & Hct & Hcr). repeat split.
  - apply gapless_app; [apply solid_gapless, Hs | | apply solid_tight_rev, Hs].
    destruct change as [| c change]; [congruence |]. cbn [app].
    rewrite gapless_cons. simpl in Hct. rewrite Hct, andb_false_r. exact Hcg.
  - destruct name as [| a name]; [congruence |]. unfold solid in Hs. simpl in *.
    apply andb_true_iff in Hs. destruct Hs as [Ha _].
    destruct (is_space a); [discriminate | reflexivity].
  - rewrite !rev_app_distr, <- !app_assoc.
    destruct (rev change) as [| c t] eqn:E; [| exact Hcr].
    apply (f_equal (@rev ascii)) in E. rewrite rev_involutive in E. contradiction.
Qed.

(** After the start of a short gap and the path that follows it, no
    two white-space characters are ahead. *)
Lemma tail_no_gap y l z1 s :
  y ++ l = z1 ++ s -> z1 <> [] -> length y <= 2 ->
  l <> [] -> tight l -> gapless l = true -> starts_gap s = false.
Proof.
  intros E Hz Hy Hl Ht Hg. apply app_eq_app in E.
  destruct E as (m & [[-> E] | [-> E]]).
  - subst s. destruct z1 as [| c z1]; [congruence |].
    rewrite length_app in Hy. simpl in Hy.
    destruct l as [| a l]; [congruence |]. simpl in Ht.
    destruct m as [| b [| b' m]]; simpl in Hy; try lia.
    + apply gapless_starts, Hg.
    + cbn [app starts_gap]. rewrite Ht. apply andb_false_r.
  - subst l. apply gapless_starts. apply (gapless_suffix _ _ Hg).
Qed.

(** The three-column pattern finds nothing in a row with one
    white-space character before the change and at most four before
    the path. *)
Lemma row_wide_none name w change gap2 local :
  name <> [] -> solid name -> is_space w = true ->
  change <> [] -> forallb is_change_char change = true -> column change ->
  forallb is_space gap2 = true -> length gap2 <= 4 ->
  local <> [] -> tight local -> gapless local = true ->
  match_here re_row_wide [] (name ++ [w] ++ change ++ gap2 ++ local) = None.
Proof.
  intros Hn Hs Hw Hc Hcc Hccol Hs2 Hg2 Hl Hlt Hlg.
  pose proof (name_change_column name w change Hn Hs Hc Hccol) as Hcol.
  unfold match_here, re_row_wide, lazy_plus, plus.
  cbn [seq fold_right matcher at_bol seen rest caps].
  destruct (leading_split is_dot (name ++ [w] ++ change ++ gap2 ++ local))
    as (q0 & Hq0 & Hd0 & Hst0).
  rewrite Hq0 at 1.
  apply rep_none; [exact Hd0 | exact Hst0 |].
  intros x1 x2 Hx Hlen. cbn [matcher seen rest caps set_cap].
  assert (Hsplit : (name ++ [w] ++ change) ++ gap2 ++ local = x1 ++ x2 ++ q0).
  { rewrite <- !app_assoc. rewrite Hq0 at 1. rewrite Hx, <- app_assoc. reflexivity. }
  destruct (suffix_three _ _ _ _ _ Hsplit)
    as [(a1 & a2 & Ha & Hne & E) | [(g1 & g2 & Hg & E) | (l1 & l2 & Hll & E)]];
    rewrite E.
  - apply rep_no_gap. rewrite Ha in Hcol. apply (column_suffix a1 a2 _ Hcol Hne).
  - rewrite Hg, forallb_app in Hs2. apply andb_true_iff in Hs2.
    destruct Hs2 as [_ Hs2]. rewrite Hg, length_app in Hg2.
    apply rep_none; [exact Hs2 | |].
    { destruct local; [exact I | exact Hlt]. }
    intros y1 y2 Hy Hly. cbn [matcher seen rest caps set_cap].
    destruct (leading_split is_change_char (y2 ++ local)) as (q1 & Hq1 & Hd1 & Hst1).
    rewrite Hq1 at 1.
    apply rep_none; [exact Hd1 | exact Hst1 |].
    intros z1 z2 Hz Hlz. cbn [matcher seen rest caps set_cap].
    apply rep_no_gap.
    apply (tail_no_gap y2 local z1 (z2 ++ q1)); auto.
    + rewrite Hq1 at 1. rewrite Hz, <- app_assoc. reflexivity.
    + intros ->. simpl in Hlz. lia.
    + rewrite Hy, length_app in Hg2. lia.
  - apply rep_no_gap. apply gapless_starts. rewrite Hll in Hlg.
    apply (gapless_suffix _ _ Hlg).
Qed.

Lemma exec_anchored_none r s :
  match_here (Seq (Bol false) r) [] s = None -> exec (Seq (Bol false) r) s = None.
Proof.
  intros H. destruct (exec _ s) as [f |] eqn:E; [| reflexivity]. exfalso.
  apply exec_inv in E. destruct E as (p & q & st & -> & Hm & _).
  pose proof (anchored_at_start _ _ _ _ Hm) as ->.
  apply (match_here_complete _ _ _ _ Hm). exact H.
Qed.

(** The match of the second table pattern on such a row. *)
Lemma row_narrow_match name w change gap2 local :
  name <> [] -> forallb is_dot name = true -> solid name -> is_space w = true ->
  change <> [] -> forallb is_change_char change = true -> column change ->
  2 <= length gap2 -> forallb is_space gap2 = true ->
  local <> [] -> forallb is_dot local = true -> tight local ->
  match_here re_row_narrow [] (name ++ [w] ++ change ++ gap2 ++ local)
  = Some (MState (rev local ++ rev gap2 ++ rev change ++ [w] ++ rev name)
                 [] [(3, local); (2, change); (1, name)]).
Proof.
  intros Hn Hnd Hs Hw Hc Hcc Hccol Hg2 Hs2 Hl Hdot Htight.
  pose proof (nonempty_length _ Hn) as Hnl.
  pose proof (nonempty_length _ Hc) as Hcl.
  pose proof (nonempty_length _ Hl) as Hll.
  unfold match_here, re_row_narrow, lazy_plus, plus.
  cbn [seq fold_right matcher at_bol seen rest caps].
  apply rep_lazy_first; [exact Hnd | exact Hnl | |].
  - intros x1 x2 Hsplit Hne _. cbn [matcher seen rest caps set_cap].
    apply rep_stops_none. apply solid_stops; [| exact Hne].
    rewrite Hsplit in Hs. apply (solid_app_r _ _ Hs).
  - cbn [matcher seen rest caps set_cap].
    rewrite span_states.
    apply (rep_greedy_max is_space _ [w]);
      [simpl; rewrite Hw; reflexivity | simpl; lia | |].
    { apply column_stops; assumption. }
    cbn [matcher seen rest caps set_cap rev app].
    apply rep_lazy_first; [exact Hcc | exact Hcl | |].
    + intros x1 x2 Hsplit Hne _. cbn [matcher seen rest caps set_cap].
      rewrite Hsplit in Hccol.
      apply rep_no_gap. apply (column_suffix x1 x2 _ Hccol Hne).
    + cbn [matcher seen rest caps set_cap].
      rewrite span_states.
      apply rep_greedy_max; [exact Hs2 | exact Hg2 | |].
      { destruct local; [exact I | exact Htight]. }
      cbn [matcher seen rest caps set_cap].
      apply rep_greedy_all; [exact Hdot | exact Hll |].
      cbn [matcher at_eol seen rest caps set_cap].
      rewrite span_states. unfold set_cap. cbn [seen rest caps].
      rewrite app_nil_r. reflexivity.
Qed.

(** *** The words of the change column *)

Lemma in_existsb t l : existsb (text_eqb t) l = true <-> In t l.
Proof.
  rewrite existsb_exists. split.
  - intros (x & Hx & E). apply text_eqb_eq in E. subst. exact Hx.
  - intros H. exists t. split; [exact H | apply text_eqb_eq; reflexivity].
Qed.

Lemma lower_spells : forall w x,
  forallb is_alpha w = true -> toLowerCase x = w -> spells_ci w x.
Proof.
  assert (Hall : forallb (fun c => implb (is_alpha c) (forallb (fun a =>
                   implb (Ascii.eqb (lower_char a) c) (is_char_ci c a)) all_ascii))
                   all_ascii = true) by (vm_compute; reflexivity).
  rewrite forallb_forall in Hall.
  induction w as [| c w IH]; intros [| a x] Hw E; simpl in E; try discriminate.
  - constructor.
  - injection E as Ea Ex. simpl in Hw. apply andb_true_iff in Hw.
    destruct Hw as [Hc Hw]. constructor; [| apply IH; assumption].
    pose proof (Hall c (in_all_ascii c)) as H. rewrite Hc in H. cbn [implb] in H.
    rewrite forallb_forall in H. specialize (H a (in_all_ascii a)).
    rewrite Ea, Ascii.eqb_refl in H. exact H.
Qed.

Lemma word_stops q : word_after (MState [] q []) = false <-> stops is_word q.
Proof. unfold word_after, stops. destruct q; simpl; intuition congruence. Qed.

(** Where the word pattern matches, a word that is one of the six
    starts and ends. *)
Lemma action_word_here sn rs st :
  match_here re_action_word sn rs = Some st ->
  exists x q,
    rs = x ++ q /\ x <> [] /\ forallb is_alpha x = true /\
    In (toLowerCase x) ACTIONS /\
    word_before (MState sn rs []) = false /\ stops is_word q /\
    lookup_cap 1 (caps st) = Some x.
Proof.
  intros H. apply match_here_sound in H.
  unfold re_action_word, action_group in H. cbn [seq fold_right matches] in H.
  destruct H as (st1 & [Hb1 ->] & st2 & (st3 & Hwords & ->) & st4 & [Hb2 ->] & ->).
  destruct (words_ci_matches _ _ _ Hwords) as (w & x & Hin & (Hrest & Hseen & Hcaps) & Hw).
  destruct st3 as [sn3 rs3 cs3]. cbn [seen rest caps] in *. subst rs sn3 cs3.
  destruct (actions_alpha _ Hin) as [Hwa Hwne].
  pose proof (spells_alpha _ _ Hw Hwa) as Hxa.
  assert (Hxne : x <> []).
  { intros ->. inversion Hw. subst. congruence. }
  rewrite span_states in Hb2. unfold set_cap in Hb2. cbn [seen rest caps] in Hb2.
  rewrite (word_before_alpha x sn rs3 _ Hxne Hxa) in Hb2.
  rewrite (word_after_alpha x rs3 sn [] Hxne Hxa) in Hb1.
  exists x, rs3. repeat split; auto.
  - rewrite (spells_ci_lower _ _ Hw), (actions_lower _ Hin). exact Hin.
  - destruct (word_before _); [discriminate | reflexivity].
  - unfold word_after in Hb2. cbn [rest] in Hb2. unfold stops.
    destruct rs3 as [| a t]; [exact I |]. destruct (is_word a); [discriminate | reflexivity].
  - rewrite span_states. unfold set_cap. cbn [caps lookup_cap Nat.eqb]. reflexivity.
Qed.

Lemma action_word_there sn x q :
  word_before (MState sn (x ++ q) []) = false ->
  x <> [] -> forallb is_alpha x = true -> In (toLowerCase x) ACTIONS ->
  stops is_word q ->
  match_here re_action_word sn (x ++ q) <> None.
Proof.
  intros Hb Hne Ha Hin Hq.
  destruct (actions_alpha _ Hin) as [Hwa _].
  pose proof (lower_spells _ x Hwa eq_refl) as Hw.
  apply (match_here_complete _ _ _ (MState (rev x ++ sn) q [(1, x)])).
  unfold re_action_word, action_group. cbn [seq fold_right].
  exists (MState sn (x ++ q) []). split.
  { split; [| reflexivity]. rewrite Hb.
    rewrite (word_after_alpha x q sn [] Hne Ha). reflexivity. }
  exists (MState (rev x ++ sn) q [(1, x)]). split.
  - exists (MState (rev x ++ sn) q []). split.
    + apply (spells_ci_words ACTIONS _ x sn q [] Hin Hw).
    + rewrite span_states. reflexivity.
  - exists (MState (rev x ++ sn) q [(1, x)]). split; [| reflexivity].
    split; [| reflexivity].
    rewrite (word_before_alpha x sn q _ Hne Ha).
    unfold word_after. cbn [rest]. destruct q as [| a t]; [reflexivity |].
    simpl in Hq. rewrite Hq. reflexivity.
Qed.

Lemma alpha_run_unique : forall x x' q q',
  x ++ q = x' ++ q' ->
  forallb is_alpha x = true -> forallb is_alpha x' = true ->
  stops is_word q -> stops is_word q' -> x = x'.
Proof.
  induction x as [| a x IH]; intros [| b x'] q q' E Hx Hx' Hq Hq'; simpl in *.
  - reflexivity.
  - subst q. apply andb_true_iff in Hx'. destruct Hx' as [Hb _].
    simpl in Hq. rewrite (alpha_word _ Hb) in Hq. discriminate.
  - subst q'. apply andb_true_iff in Hx. destruct Hx as [Ha _].
    simpl in Hq'. rewrite (alpha_word _ Ha) in Hq'. discriminate.
  - injection E as -> E. apply andb_true_iff in Hx, Hx'.
    f_equal. apply (IH x' q q'); tauto.
Qed.

Lemma change_char_word a : is_change_char a = true -> is_word a = is_alpha a.
Proof.
  assert (Hall : forallb (fun a => implb (is_change_char a)
                                        (Bool.eqb (is_word a) (is_alpha a)))
                         all_ascii = true) by (vm_compute; reflexivity).
  rewrite forallb_forall in Hall. intros H.
  specialize (Hall a (in_all_ascii a)). rewrite H in Hall. simpl in Hall.
  apply Bool.eqb_prop in Hall. exact Hall.
Qed.

Lemma change_stops q :
  forallb is_change_char q = true -> stops is_alpha q -> stops is_word q.
Proof.
  destruct q as [| a q]; simpl; [auto |]. intros H Ha.
  apply andb_true_iff in H. destruct H as [H _].
  rewrite (change_char_word _ H). exact Ha.
Qed.

(** The word pattern finds the first word that is one of the six. *)
Lemma action_scan : forall rs sn,
  forallb is_change_char rs = true ->
  option_map (group 1) (search re_action_word sn rs)
  = first_word ACTIONS (word_before (MState sn rs [])) rs.
Proof.
  induction rs as [| a rs IH]; intros sn Hcc.
  - cbn [search first_word].
    destruct (match_here re_action_word sn []) as [st |] eqn:Hm; [| reflexivity].
    apply action_word_here in Hm.
    destruct Hm as (x & q & E & Hne & _). symmetry in E.
    apply app_eq_nil in E. destruct E. contradiction.
  - pose proof Hcc as Hcc'. simpl in Hcc'. apply andb_true_iff in Hcc'.
    destruct Hcc' as [Hca Hrs].
    assert (Hnext : option_map (group 1) (search re_action_word (a :: sn) rs)
                    = first_word ACTIONS (is_alpha a) rs).
    { rewrite (IH (a :: sn) Hrs). unfold word_before. cbn [seen].
      rewrite (change_char_word _ Hca). reflexivity. }
    cbn [search first_word].
    destruct (match_here re_action_word sn (a :: rs)) as [st |] eqn:Hm.
    + apply action_word_here in Hm.
      destruct Hm as (x & q & E & Hne & Hxa & Hin & Hb & Hq & Hcap).
      destruct x as [| b x]; [congruence |]. injection E as <- E.
      pose proof Hxa as Hxa'. simpl in Hxa'. apply andb_true_iff in Hxa'.
      destruct Hxa' as [Ha _]. rewrite Ha.
      unfold word_before in Hb |- *. cbn [seen] in Hb |- *. rewrite Hb.
      destruct (leading_split is_alpha (a :: rs)) as (q' & Hq' & Hl & Hs).
      assert (Hx : a :: x = leading is_alpha (a :: rs)).
      { apply (alpha_run_unique _ _ q q'); auto.
        - rewrite <- Hq'. simpl. rewrite E. reflexivity.
        - apply change_stops; [| exact Hs].
          rewrite Hq', forallb_app in Hcc. apply andb_true_iff in Hcc. tauto. }
      rewrite <- Hx. unfold one_of.
      replace (existsb (text_eqb (toLowerCase (a :: x))) ACTIONS) with true
        by (symmetry; apply in_existsb; exact Hin).
      cbn [option_map]. unfold group, found_of. cbn [groups]. rewrite Hcap.
      reflexivity.
    + rewrite Hnext. destruct (is_alpha a) eqn:Ha; [| reflexivity].
      destruct (word_before (MState sn (a :: rs) [])) eqn:Hb; [reflexivity |].
      destruct (leading_split is_alpha (a :: rs)) as (q' & Hq' & Hl & Hs).
      destruct (one_of ACTIONS (leading is_alpha (a :: rs))) eqn:Hone; [| reflexivity].
      exfalso. apply in_existsb in Hone.
      assert (Hne : leading is_alpha (a :: rs) <> []).
      { simpl. rewrite Ha. discriminate. }
      refine (action_word_there sn _ q' _ Hne Hl Hone _ _).
      * rewrite <- Hq'. exact Hb.
      * apply change_stops; [| exact Hs].
        rewrite Hq', forallb_app in Hcc. apply andb_true_iff in Hcc. tauto.
      * rewrite <- Hq'. exact Hm.
Qed.

Lemma spelled_within w y s : within y s -> spelled w y -> spelled w s.
Proof.
  intros (p & q & ->) (pre & x & post & -> & Hx).
  exists (p ++ pre), x, (post ++ q). rewrite <- !app_assoc. auto.
Qed.

Lemma leading_within c s : exists q, s = [] ++ leading c s ++ q.
Proof. destruct (leading_split c s) as (q & Hq & _). exists q. exact Hq. Qed.

Lemma one_of_five w :
  toLowerCase w <> T "branch" -> one_of ACTIONS w = one_of VOCABULARY w.
Proof.
  intros Hnb. unfold one_of.
  destruct (existsb _ VOCABULARY) eqn:Hv.
  - apply in_existsb. apply in_existsb in Hv. unfold VOCABULARY in Hv. unfold ACTIONS.
    repeat (destruct Hv as [Hv | Hv]; [rewrite <- Hv; simpl; auto 10 |]). destruct Hv.
  - destruct (existsb _ ACTIONS) eqn:Ha; [| reflexivity].
    apply in_existsb in Ha. unfold ACTIONS in Ha.
    assert (Hin : In (toLowerCase w) VOCABULARY).
    { unfold VOCABULARY.
      repeat (destruct Ha as [Ha | Ha];
              [first [contradiction Hnb; symmetry; exact Ha
                     | rewrite <- Ha; simpl; auto 10] |]).
      destruct Ha. }
    apply in_existsb in Hin. congruence.
Qed.

(** Without the word [branch], the first of the six is the first of
    the five. *)
Lemma first_word_five : forall s inside,
  ~ names_branch s ->
  first_word ACTIONS inside s = first_word VOCABULARY inside s.
Proof.
  induction s as [| a s IH]; intros inside Hnb; [reflexivity |].
  assert (Hs : ~ names_branch s).
  { intros H. apply Hnb. apply (spelled_within _ s); [| exact H].
    exists [a], []. rewrite app_nil_r. reflexivity. }
  cbn [first_word]. rewrite !(IH _ Hs).
  destruct (is_alpha a); [| reflexivity]. destruct inside; [reflexivity |].
  rewrite one_of_five; [reflexivity |].
  intros E. apply Hnb. destruct (leading_within is_alpha (a :: s)) as [q Hq].
  exists [], (leading is_alpha (a :: s)), q. split; [exact Hq |].
  apply lower_spells; [reflexivity | exact E].
Qed.

(** The action that [tryParseRow] reads off a change column. *)
Lemma action_of_column change :
  forallb is_change_char change = true -> ~ names_branch change ->
  toLowerCase
    match exec re_action_word change with
    | Some actionMatch => group 1 actionMatch
    | None => T "edit"
    end
  = column_action change.
Proof.
  intros Hcc Hnb. unfold column_action.
  rewrite <- (first_word_five _ false Hnb).
  pose proof (action_scan change [] Hcc) as H. unfold exec.
  change (word_before (MState [] change [])) with false in H.
  rewrite <- H. destruct (search re_action_word [] change); reflexivity.
Qed.

(** A row in the regular shape: [tryParseRow] gives the local path and
    the action of the change column. *)
Lemma regular_row_parses folder name gap1 change gap2 local :
  name <> [] -> forallb is_dot name = true -> column name ->
  forallb is_space gap1 = true ->
  change <> [] -> forallb is_change_char change = true -> column change ->
  ~ names_branch change ->
  forallb is_space gap2 = true ->
  drive_path local -> forallb is_dot local = true ->
  tight (rev local) ->
  (2 <= length gap1 /\ 2 <= length gap2) \/
  (length gap1 = 1 /\ solid name /\ 2 <= length gap2 <= 4 /\ gapless local = true) ->
  tryParseRow folder (name ++ gap1 ++ change ++ gap2 ++ local)
  = Some (PendingItem local (column_action change)).
Proof.
  intros Hn Hnd Hnc Hs1 Hne Hcc Hccol Hnb Hs2 Hd Hdot Hend Hshape.
  assert (Hdrive : test re_drive local = true) by (apply test_drive_iff; exact Hd).
  destruct Hd as (a & t & Hl & Hal).
  assert (Hlne : local <> []) by (rewrite Hl; discriminate).
  assert (Hlt : tight local).
  { rewrite Hl. simpl. apply alpha_not_space. exact Hal. }
  assert (Htrim : trim (name ++ gap1 ++ change ++ gap2 ++ local)
                  = name ++ gap1 ++ change ++ gap2 ++ local).
  { apply trim_fixed.
    - destruct Hnc as (_ & Ht & _). destruct name as [| b name]; [congruence |].
      exact Ht.
    - rewrite !rev_app_distr, <- !app_assoc.
      destruct (rev local) as [| b r] eqn:E; [| exact Hend].
      apply (f_equal (@rev ascii)) in E. rewrite rev_involutive in E.
      contradiction. }
  pose proof (action_of_column change Hcc Hnb) as Hact. unfold group in Hact.
  pose proof Hccol as (_ & Hct & Hcr).
  unfold tryParseRow. rewrite Htrim.
  destruct Hshape as [[Hg1 Hg2] | (Hg1 & Hsolid & [Hg2 Hg4] & Hlg)].
  - rewrite (exec_at_start _ _ _
               (row_wide_columns name gap1 change gap2 local Hn Hnd Hnc Hg1 Hs1
                  Hne Hcc Hccol Hg2 Hs2 Hlne Hdot Hlt)).
    cbn [or_else]. unfold found_of, group. cbn [groups caps lookup_cap Nat.eqb].
    rewrite (trim_fixed local Hlt Hend), Hdrive, (trim_fixed change Hct Hcr), Hact.
    reflexivity.
  - destruct gap1 as [| w [| w' gap1]]; try discriminate. clear Hg1.
    simpl in Hs1. rewrite andb_true_r in Hs1.
    assert (Hwide : exec re_row_wide (name ++ [w] ++ change ++ gap2 ++ local) = None).
    { apply (exec_anchored_none
               (seq [Grp 1 (lazy_plus is_dot); Rep true 2 is_space;
                     Grp 2 (lazy_plus is_change_char); Rep true 2 is_space;
                     Grp 3 (plus is_dot); Eol false])).
      apply (row_wide_none name w change gap2 local); assumption. }
    rewrite Hwide.
    rewrite (exec_at_start _ _ _
               (row_narrow_match name w change gap2 local Hn Hnd Hsolid Hs1
                  Hne Hcc Hccol Hg2 Hs2 Hlne Hdot Hlt)).
    cbn [or_else]. unfold found_of, group. cbn [groups caps lookup_cap Nat.eqb].
    rewrite (trim_fixed local Hlt Hend), Hdrive, (trim_fixed change Hct Hcr), Hact.
    reflexivity.
Qed.

(** *** Headings *)

Lemma test_anchored r s :
  test (Seq (Bol false) r) s = true <-> exists st, matches r (MState [] s []) st.
Proof.
  split.
  - intros H. apply test_true in H. destruct H as [f H].
    apply exec_inv in H. destruct H as (p & q & st & -> & Hm & _).
    pose proof (anchored_at_start _ _ _ _ Hm) as ->.
    cbn [matches] in Hm. destruct Hm as (st1 & [_ ->] & Hm).
    exists st. exact Hm.
  - intros [st Hm].
    apply (test_intro (Seq (Bol false) r) [] s st).
    cbn [matches rev]. exists (MState [] s []). split; [split; reflexivity | exact Hm].
Qed.

Lemma step_lit_ci w x rs sn q cs st' :
  spells_ci w x ->
  matches (seq rs) (MState (rev x ++ sn) q cs) st' ->
  matches (seq (lit_ci w :: rs)) (MState sn (x ++ q) cs) st'.
Proof.
  intros Hw H. eapply matches_seq_cons; [| exact H].
  apply spells_ci_matches. exact Hw.
Qed.

Lemma dashes3_iff s :
  test re_dashes3 s = true <-> exists rest_, s = T "---" ++ rest_.
Proof.
  unfold re_dashes3. change (seq [Bol false; Rep true 3 (is_char "-")])
    with (Seq (Bol false) (seq [Rep true 3 (is_char "-")])).
  rewrite test_anchored. split.
  - intros [st Hm]. cbn [seq fold_right matches] in Hm.
    destruct Hm as (st1 & (x & rs & Hx & Hlen & Hr & _) & _).
    cbn [rest] in Hr. subst s.
    destruct x as [| a [| b [| c x]]]; simpl in Hlen; try lia.
    simpl in Hx. repeat (apply andb_true_iff in Hx; destruct Hx as [?H Hx]).
    repeat match goal with H : is_char _ _ = true |- _ => apply is_char_eq in H end.
    subst. exists (x ++ rs). reflexivity.
  - intros [r ->]. eexists.
    apply (step_rep true 3 (is_char "-") (T "---") [] [] r []);
      [reflexivity | simpl; lia | reflexivity].
Qed.

Lemma blanks_rep g : blanks g <-> forallb is_space g = true /\ 1 <= length g.
Proof.
  unfold blanks. split.
  - intros [Hne H]. split; [exact H | apply nonempty_length, Hne].
  - intros [H Hl]. split; [| exact H]. intros ->. simpl in Hl. lia.
Qed.

Lemma table_header_iff s :
  test re_table_header s = true <->
  exists f g1 n g2 c g3 l g4 p rest_,
    s = f ++ g1 ++ n ++ g2 ++ c ++ g3 ++ l ++ g4 ++ p ++ rest_ /\
    spells_ci (T "File") f /\ blanks g1 /\
    spells_ci (T "name") n /\ blanks g2 /\
    spells_ci (T "Change") c /\ blanks g3 /\
    spells_ci (T "Local") l /\ blanks g4 /\
    spells_ci (T "path") p.
Proof.
  unfold re_table_header.
  match goal with
  | |- test (seq (Bol false :: ?rs)) s = true <-> _ =>
      change (seq (Bol false :: rs)) with (Seq (Bol false) (seq rs))
  end.
  rewrite test_anchored. split.
  - intros [st Hm]. unfold plus in Hm.
    cbn [seq fold_right] in Hm.
    destruct Hm as (s1 & H1 & s2 & H2 & s3 & H3 & s4 & H4 & s5 & H5 & s6 & H6 &
                    s7 & H7 & s8 & H8 & s9 & H9 & Hend).
    cbn [matches] in Hend. subst s9.
    apply lit_ci_matches in H1, H3, H5, H7, H9.
    apply rep_matches in H2, H4, H6, H8.
    destruct H1 as (f & (E1 & _) & Hf). destruct H2 as (g1 & (E2 & _) & Hg1).
    destruct H3 as (n & (E3 & _) & Hn). destruct H4 as (g2 & (E4 & _) & Hg2).
    destruct H5 as (c & (E5 & _) & Hc). destruct H6 as (g3 & (E6 & _) & Hg3).
    destruct H7 as (l & (E7 & _) & Hl). destruct H8 as (g4 & (E8 & _) & Hg4).
    destruct H9 as (p & (E9 & _) & Hp).
    cbn [rest] in E1.
    exists f, g1, n, g2, c, g3, l, g4, p, (rest st).
    rewrite E1, E2, E3, E4, E5, E6, E7, E8, E9.
    repeat split; try assumption; try (apply blanks_rep; assumption).
  - intros (f & g1 & n & g2 & c & g3 & l & g4 & p & r & -> & Hf & Hg1 & Hn & Hg2 &
            Hc & Hg3 & Hl & Hg4 & Hp).
    apply blanks_rep in Hg1, Hg2, Hg3, Hg4.
    eexists. unfold plus.
    apply step_lit_ci; [exact Hf |]. apply step_rep; [tauto | tauto |].
    apply step_lit_ci; [exact Hn |]. apply step_rep; [tauto | tauto |].
    apply step_lit_ci; [exact Hc |]. apply step_rep; [tauto | tauto |].
    apply step_lit_ci; [exact Hl |]. apply step_rep; [tauto | tauto |].
    apply step_lit_ci; [exact Hp |]. reflexivity.
Qed.

Lemma no_pending_iff s :
  test re_no_pending s = true <->
  exists x, spells_ci (T "There are no pending changes") x /\
            (s = x \/ s = x ++ T ".").
Proof.
  unfold re_no_pending.
  match goal with
  | |- test (seq (Bol false :: ?rs)) s = true <-> _ =>
      change (seq (Bol false :: rs)) with (Seq (Bol false) (seq rs))
  end.
  rewrite test_anchored. split.
  - intros [st Hm]. unfold opt in Hm. cbn [seq fold_right] in Hm.
    destruct Hm as (s1 & H1 & s2 & H2 & s3 & H3 & Hend).
    cbn [matches] in Hend. subst s3.
    apply lit_ci_matches in H1. destruct H1 as (x & (E1 & _) & Hx).
    cbn [rest] in E1. exists x. split; [exact Hx |].
    cbn [matches] in H3. destruct H3 as [He ->]. unfold at_eol in He.
    destruct (rest s2) as [| b t] eqn:E2; [| discriminate].
    cbn [matches] in H2. destruct H2 as [(a & rs & Hr & Ha & ->) | ->].
    + right. cbn [rest] in E2. subst rs. apply is_char_eq in Ha. subst a.
      rewrite E1, Hr. reflexivity.
    + left. rewrite E1, E2, app_nil_r. reflexivity.
  - intros (x & Hx & [-> | ->]).
    + exists (MState (rev x ++ []) [] []). rewrite <- (app_nil_r x) at 1.
      apply step_lit_ci; [exact Hx |]. unfold opt.
      eapply matches_seq_cons; [right; reflexivity |].
      apply step_eol. reflexivity.
    + eexists. apply step_lit_ci; [exact Hx |]. unfold opt.
      eapply matches_seq_cons.
      { left. exists "."%char, []. repeat split. }
      cbn [seen rest caps]. apply step_eol. reflexivity.
Qed.

Lemma banner_iff s :
  test re_banner s = true <->
  exists w x rest_,
    In w [T "Collection"; T "Workspace"; T "User"] /\ spells_ci w x /\
    s = x ++ T ":" ++ rest_.
Proof.
  unfold re_banner.
  match goal with
  | |- test (seq (Bol false :: ?rs)) s = true <-> _ =>
      change (seq (Bol false :: rs)) with (Seq (Bol false) (seq rs))
  end.
  rewrite test_anchored. split.
  - intros [st Hm]. cbn [seq fold_right] in Hm.
    destruct Hm as (s1 & H1 & s2 & H2 & Hend).
    cbn [matches] in Hend. subst s2.
    cbn [matches] in H1. destruct H1 as (s0 & H1 & ->).
    apply words_ci_matches in H1. destruct H1 as (w & x & Hin & (E1 & _) & Hx).
    cbn [rest] in E1.
    cbn [matches] in H2. destruct H2 as (a & rs & Hr & Ha & _).
    apply is_char_eq in Ha. subst a. unfold set_cap in Hr. cbn [rest] in Hr.
    exists w, x, rs. repeat split; [exact Hin | exact Hx |].
    rewrite E1, Hr. reflexivity.
  - intros (w & x & r & Hin & Hx & ->).
    eexists. eapply matches_seq_cons.
    { cbn [matches]. eexists. split; [| reflexivity].
      apply (spells_ci_words _ w x [] (T ":" ++ r) [] Hin Hx). }
    eapply matches_seq_cons; [| reflexivity].
    cbn [matches]. exists ":"%char, r. repeat split.
Qed.

Lemma is_header_iff s : is_header s = true <-> heading s.
Proof.
  unfold is_header, heading.
  rewrite !orb_true_iff, dashes3_iff, table_header_iff, no_pending_iff, banner_iff.
  tauto.
Qed.

Lemma is_header_false s : ~ heading s -> is_header s = false.
Proof.
  intros H. destruct (is_header s) eqn:E; [| reflexivity].
  apply is_header_iff in E. contradiction.
Qed.

Lemma server_root_iff s :
  test re_server_root s = true <-> exists rest_, s = T "$/" ++ rest_.
Proof.
  unfold re_server_root.
  change (seq [Bol false; lit (T "$/")]) with (Seq (Bol false) (seq [lit (T "$/")])).
  rewrite test_anchored. split.
  - intros [st Hm]. cbn [seq fold_right matches lit map] in Hm.
    destruct Hm as (s1 & (s2 & (a & rs & Hr & Ha & ->) & s3 &
                          (b & rs' & Hr' & Hb & ->) & ->) & _).
    cbn [rest] in Hr, Hr'. apply is_char_eq in Ha, Hb. subst.
    exists rs'. reflexivity.
  - intros [r ->]. eexists. cbn [seq fold_right matches lit map].
    eexists. split; [| reflexivity].
    eexists. split; [exists "$"%char, ("/"%char :: r); repeat split |].
    eexists. split; [exists "/"%char, r; repeat split | reflexivity].
Qed.

(** *** Where the text of a group comes from *)

Lemma within_refl s : within s s.
Proof. exists [], []. rewrite app_nil_r. reflexivity. Qed.

Lemma within_nil s : within [] s.
Proof. exists [], s. reflexivity. Qed.

Lemma within_trans x y z : within x y -> within y z -> within x z.
Proof.
  intros (p1 & q1 & ->) (p2 & q2 & ->).
  exists (p2 ++ p1), (q1 ++ q2). rewrite <- !app_assoc. reflexivity.
Qed.

Lemma within_app_l x s t : within x s -> within x (s ++ t).
Proof.
  intros (p & q & ->). exists p, (q ++ t). rewrite <- !app_assoc. reflexivity.
Qed.

Lemma within_app_r x s t : within x t -> within x (s ++ t).
Proof.
  intros (p & q & ->). exists (s ++ p), q. rewrite <- !app_assoc. reflexivity.
Qed.

Lemma trim_within s : within (trim s) s.
Proof.
  unfold trim. destruct (drop_spaces_suffix s) as [p Hp].
  destruct (drop_spaces_suffix (rev (drop_spaces s))) as [p' Hp'].
  apply (f_equal (@rev ascii)) in Hp'.
  rewrite rev_involutive, rev_app_distr in Hp'.
  exists p, (rev p'). rewrite <- Hp'. exact Hp.
Qed.

Lemma matches_whole r st st' : matches r st st' -> whole st' = whole st.
Proof.
  intros H. destruct (matches_shape _ _ _ H) as (x & Hr & Hs).
  unfold whole. rewrite Hs, Hr, rev_app_distr, rev_involutive, <- app_assoc.
  reflexivity.
Qed.

Lemma span_within r st st' : matches r st st' -> within (span st st') (whole st).
Proof.
  intros H. destruct (matches_shape _ _ _ H) as (x & Hr & Hs).
  rewrite (span_shape _ _ _ Hs). unfold whole. rewrite Hr.
  exists (rev (seen st)), (rest st'). reflexivity.
Qed.

(** A group holds a part of the text that is matched. *)
Lemma matches_caps : forall r st st',
  matches r st st' ->
  forall i v, lookup_cap i (caps st') = Some v ->
    lookup_cap i (caps st) = Some v \/ within v (whole st).
Proof.
  induction r as [| c | r1 IH1 r2 IH2 | r1 IH1 r2 IH2 | g lo c | j r IH | m | m |];
    intros st st' H i v Hv; simpl in H.
  - subst. auto.
  - destruct H as (a & rs & _ & _ & ->). auto.
  - destruct H as (st1 & H1 & H2).
    destruct (IH2 _ _ H2 _ _ Hv) as [Hc | Hw].
    + apply (IH1 _ _ H1 _ _ Hc).
    + right. rewrite <- (matches_whole _ _ _ H1). exact Hw.
  - destruct H as [H | H]; eauto.
  - destruct H as (x & rs & _ & _ & _ & ->). auto.
  - destruct H as (st1 & H1 & ->). unfold set_cap in Hv. cbn [caps lookup_cap] in Hv.
    destruct (Nat.eqb i j).
    + injection Hv as <-. right. apply (span_within _ _ _ H1).
    + apply (IH _ _ H1 _ _ Hv).
  - destruct H as [_ ->]. auto.
  - destruct H as [_ ->]. auto.
  - destruct H as [_ ->]. auto.
Qed.

Lemma exec_group_within r s f i : exec r s = Some f -> within (group i f) s.
Proof.
  intros H. apply exec_inv in H.
  destruct H as (p & q & st & -> & Hm & _ & _ & Hg & _).
  unfold group. rewrite Hg.
  destruct (lookup_cap i (caps st)) as [v |] eqn:Hv; [| apply within_nil].
  destruct (matches_caps _ _ _ Hm _ _ Hv) as [Hc | Hw]; [discriminate |].
  unfold whole in Hw. cbn [seen rest] in Hw. rewrite rev_involutive in Hw.
  exact Hw.
Qed.

(** *** The word [branch] *)

Lemma names_branch_within y s : within y s -> names_branch y -> names_branch s.
Proof. apply spelled_within. Qed.

Lemma branch_not_nil : ~ names_branch [].
Proof.
  intros (pre & x & post & E & Hx). symmetry in E.
  apply app_eq_nil in E. destruct E as [_ E].
  apply app_eq_nil in E. destruct E as [-> _]. inversion Hx.
Qed.

(** A part of a text that is one of the six words in lower case is a
    word that the text spells. *)
Lemma lowered_spelled x s :
  within x s -> In (toLowerCase x) ACTIONS -> spelled (toLowerCase x) s.
Proof.
  intros Hw Hin. apply (spelled_within _ x s Hw).
  exists [], x, []. rewrite app_nil_r. split; [reflexivity |].
  apply lower_spells; [apply actions_alpha, Hin | reflexivity].
Qed.

(** The action of a row is [edit] or a word of the row. *)
Lemma tryParseRow_source folder row it :
  tryParseRow folder row = Some it ->
  action it = T "edit" \/ spelled (action it) row.
Proof.
  unfold tryParseRow.
  destruct (or_else _ _) as [table |] eqn:Ht.
  - intros [= <-]. cbn [action].
    destruct (exec re_action_word _) as [m |] eqn:Hm; [| left; reflexivity].
    right. apply lowered_spelled; [| apply (action_word_group _ _ Hm)].
    apply (within_trans _ _ _ (exec_group_within _ _ _ 1 Hm)).
    apply (within_trans _ _ _ (trim_within _)).
    apply (within_trans _ (trim row)); [| apply trim_within].
    apply or_else_some in Ht.
    destruct Ht as [Ht | [_ Ht]]; apply (exec_group_within _ _ _ 2 Ht).
  - destruct (exec re_action_first _) as [m |] eqn:H1.
    { intros [= <-]. right. cbn [action].
      apply lowered_spelled; [| apply (action_first_group _ _ H1)].
      apply (within_trans _ (trim row)); [| apply trim_within].
      apply (exec_group_within _ _ _ 1 H1). }
    destruct (exec re_server_item _) as [m |] eqn:H2.
    { intros [= <-]. right. cbn [action].
      apply lowered_spelled; [| apply (server_item_group _ _ H2)].
      apply (within_trans _ (trim row)); [| apply trim_within].
      apply (exec_group_within _ _ _ 2 H2). }
    destruct (exec re_local_item _) as [m |] eqn:H3; [| discriminate].
    intros [= <-]. right. cbn [action].
    apply lowered_spelled; [| apply (local_item_group _ _ H3)].
    apply (within_trans _ (trim row)); [| apply trim_within].
    apply (exec_group_within _ _ _ 2 H3).
Qed.

Lemma tryParseRow_branch folder row it :
  tryParseRow folder row = Some it -> action it = T "branch" -> names_branch row.
Proof.
  intros H E. destruct (tryParseRow_source _ _ _ H) as [He | Hs].
  - rewrite E in He. discriminate.
  - rewrite E in Hs. exact Hs.
Qed.

Lemma pair_fragment_branch fragment line it :
  pair_fragment fragment line = Some it -> action it = T "branch" ->
  names_branch line.
Proof.
  unfold pair_fragment. destruct fragment as [f |]; [| discriminate].
  destruct (truthy f); [| discriminate].
  destruct (exec re_action_then_local line) as [m |] eqn:Hm; [| discriminate].
  intros [= <-] E. cbn [action] in E. unfold names_branch. rewrite <- E.
  apply lowered_spelled; [| apply (action_then_local_group _ _ Hm)].
  apply (exec_group_within _ _ _ 1 Hm).
Qed.

(** A text that holds none of the characters [c] lies on one side of
    a [c]. *)
Lemma within_sep x b c l :
  within x (b ++ c :: l) -> ~ In c x -> within x b \/ within x l.
Proof.
  intros (pre & post & E) Hc. symmetry in E. apply app_eq_app in E.
  destruct E as (l2 & [[-> E] | [-> E]]).
  - right. destruct l2 as [| d l2]; cbn [app] in E.
    + destruct x as [| a x]; [apply within_nil |].
      injection E as -> _. contradiction Hc. left. reflexivity.
    + injection E as _ ->. exists l2, post. reflexivity.
  - apply app_eq_app in E. destruct E as (l3 & [[-> E] | [-> E]]).
    + destruct l3 as [| d l3]; cbn [app] in E.
      * left. rewrite app_nil_r. exists pre, []. rewrite app_nil_r. reflexivity.
      * injection E as -> _. contradiction Hc. apply in_or_app. right. left. reflexivity.
    + left. exists pre, l3. reflexivity.
Qed.

Lemma joined_branch b l :
  names_branch (joined b l) -> names_branch b \/ names_branch l.
Proof.
  unfold joined. destruct (truthy b); [| auto].
  intros (pre & x & post & E & Hx).
  assert (Hsp : ~ In " "%char x).
  { intros Hin. pose proof (spells_alpha _ _ Hx eq_refl) as Ha.
    rewrite forallb_forall in Ha. specialize (Ha _ Hin). discriminate. }
  destruct (within_sep x b " "%char l) as [Hw | Hw]; [| exact Hsp | |].
  - exists pre, post. exact E.
  - left. apply (names_branch_within x b Hw).
    exists [], x, []. rewrite app_nil_r. auto.
  - right. apply (names_branch_within x l Hw).
    exists [], x, []. rewrite app_nil_r. auto.
Qed.

Lemma branchless_add st it (P : pstate) :
  branchless st -> action it <> T "branch" ->
  items P = items st ++ [it] -> ~ names_branch (buffer P) -> branchless P.
Proof.
  intros [Hi _] Ha E Hb. split; [| exact Hb].
  intros x Hx. rewrite E in Hx. apply in_app_or in Hx.
  destruct Hx as [Hx | [<- | []]]; auto.
Qed.

Lemma pending_step_branchless st raw :
  ~ names_branch raw -> branchless st -> branchless (pending_step st raw).
Proof.
  intros Hraw Hst.
  assert (Hline : ~ names_branch (trim raw)).
  { intros H. apply Hraw. apply (names_branch_within _ _ (trim_within raw) H). }
  pose proof Hst as [Hi Hb].
  unfold pending_step.
  destruct (is_header _); [exact Hst |].
  destruct (is_folder_header _); [split; [exact Hi | apply branch_not_nil] |].
  destruct (is_name_fragment _); [split; [exact Hi | exact Hb] |].
  destruct (pair_fragment _ _) as [it |] eqn:Hp.
  { apply (branchless_add st it); [exact Hst | | reflexivity | exact Hb].
    intros E. apply Hline. apply (pair_fragment_branch _ _ _ Hp E). }
  destruct (tryParseRow _ (trim raw)) as [it |] eqn:Hr.
  { apply (branchless_add st it); [exact Hst | | reflexivity | apply branch_not_nil].
    intros E. apply Hline. apply (tryParseRow_branch _ _ _ Hr E). }
  cbv zeta.
  assert (Hj : ~ names_branch (joined (buffer st) (trim raw))).
  { intros H. apply joined_branch in H. tauto. }
  destruct (tryParseRow _ (joined _ _)) as [it |] eqn:Hjr.
  { apply (branchless_add st it); [exact Hst | | reflexivity | apply branch_not_nil].
    intros E. apply Hj. apply (tryParseRow_branch _ _ _ Hjr E). }
  destruct (Nat.ltb _ _); (split; [exact Hi |]); [apply branch_not_nil | exact Hj].
Qed.

Lemma pending_run_branchless : forall ls st,
  Forall (fun l => ~ names_branch l) ls -> branchless st ->
  branchless (fold_left pending_step ls st).
Proof.
  induction ls as [| l ls IH]; intros st H Hst; [exact Hst |].
  inversion H as [| ? ? Hl Hls]; subst. cbn [fold_left].
  apply IH; [exact Hls |]. apply pending_step_branchless; assumption.
Qed.

(** *** The lines of a text are parts of it *)

Lemma split_scan_within r : forall rs skip piece sn,
  skip = 0 \/ piece = [] ->
  Forall (fun l => within l (rev piece ++ rs)) (split_scan r skip piece sn rs).
Proof.
  induction rs as [| a rs IH]; intros skip piece sn Hs; cbn [split_scan].
  - constructor; [| constructor]. rewrite app_nil_r. apply within_refl.
  - destruct skip as [| n].
    + destruct (match_here r sn (a :: rs)) as [st |].
      * destruct (length (seen st) - length sn) as [| k].
        -- destruct piece as [| b piece].
           ++ apply (IH 0 [a] (a :: sn)). left. reflexivity.
           ++ constructor; [apply within_app_l, within_refl |].
              eapply Forall_impl; [| apply (IH 0 [a] (a :: sn)); left; reflexivity].
              intros l Hl. apply within_app_r. exact Hl.
        -- constructor; [apply within_app_l, within_refl |].
           eapply Forall_impl; [| apply (IH k [] (a :: sn)); right; reflexivity].
           intros l Hl. apply within_app_r. apply (within_app_r l [a] rs). exact Hl.
      * specialize (IH 0 (a :: piece) (a :: sn) (or_introl eq_refl)).
        rewrite rev_cons_app in IH. exact IH.
    + destruct Hs as [Hs | ->]; [discriminate |].
      eapply Forall_impl; [| apply (IH n [] (a :: sn)); right; reflexivity].
      intros l Hl. apply (within_app_r l [a] rs). exact Hl.
Qed.

Lemma lines_of_within stdout : Forall (fun l => within l stdout) (lines_of stdout).
Proof.
  unfold lines_of, split. destruct stdout as [| a s].
  - destruct (match_here re_newline [] []); repeat constructor. apply within_refl.
  - apply (split_scan_within re_newline (a :: s) 0 [] []). left. reflexivity.
Qed.

Lemma without_NUL_app s t : without_NUL (s ++ t) = without_NUL s ++ without_NUL t.
Proof. apply filter_app. Qed.

Lemma without_NUL_within l s : within l s -> within (without_NUL l) (without_NUL s).
Proof.
  intros (p & q & ->). exists (without_NUL p), (without_NUL q).
  rewrite !without_NUL_app. reflexivity.
Qed.

Lemma clean_line_within l s : within l s -> within (clean_line l) (without_NUL s).
Proof.
  intros H. apply (within_trans _ (without_NUL l)); [| apply without_NUL_within, H].
  destruct (clean_line_shape l) as (w & Hw & _). rewrite Hw.
  apply within_app_l, within_refl.
Qed.

Lemma pending_lines_within stdout :
  Forall (fun l => within l (without_NUL stdout)) (pending_lines stdout).
Proof.
  unfold pending_lines. rewrite Forall_forall. intros l Hl.
  apply filter_In in Hl. destruct Hl as [Hl _].
  apply in_map_iff in Hl. destruct Hl as (l0 & <- & Hl0).
  apply clean_line_within.
  pose proof (lines_of_within stdout) as H. rewrite Forall_forall in H. auto.
Qed.

(** Without the word [branch] in the text, no record has the action
    [branch]. *)
Lemma parsePending_no_branch stdout it :
  ~ names_branch (without_NUL stdout) ->
  In it (parsePending stdout) -> In (action it) VOCABULARY.
Proof.
  intros Hnb Hin.
  assert (Hb : branchless (parsePending_run stdout [])).
  { apply pending_run_branchless.
    - eapply Forall_impl; [| apply pending_lines_within].
      intros l Hl H. apply Hnb. apply (names_branch_within _ _ Hl H).
    - split; [intros x [] | apply branch_not_nil]. }
  destruct Hb as [Hb _]. specialize (Hb it Hin).
  pose proof (parsePending_actions stdout it Hin) as Ha.
  unfold ACTIONS in Ha. unfold VOCABULARY.
  repeat (destruct Ha as [Ha | Ha];
          [first [contradiction Hb; symmetry; exact Ha
                 | rewrite <- Ha; simpl; auto 10] |]).
  destruct Ha.
Qed.

(** The word [branch] in a text, by looking for it. *)
Lemma names_branch_iff s :
  names_branch s <-> includes (toLowerCase s) (T "branch") = true.
Proof.
  rewrite includes_iff. split.
  - intros (pre & x & post & -> & Hx).
    exists (toLowerCase pre), (toLowerCase post).
    unfold toLowerCase. rewrite !map_app. fold (toLowerCase x).
    rewrite (spells_ci_lower _ _ Hx). reflexivity.
  - intros (pre & post & E). unfold toLowerCase in E.
    apply map_eq_app in E. destruct E as (p & r & -> & Hp & E).
    apply map_eq_app in E. destruct E as (x & q & -> & Hx & Hq).
    exists p, x, q. split; [reflexivity |].
    apply lower_spells; [reflexivity | exact Hx].
Qed.

(** *** The lines of a table, one at a time *)

Lemma padded_trim l body : padded l body -> trim l = body.
Proof.
  intros (w1 & w2 & -> & H1 & H2 & Ht & Hr).
  rewrite app_assoc, (trim_app_blank _ _ H2).
  rewrite (trim_same (w1 ++ body) body) by (apply drop_spaces_app_blank; exact H1).
  apply trim_fixed; assumption.
Qed.

Lemma blank_filtered l : forallb is_space l = true -> nonblank l = false.
Proof. intros H. unfold nonblank. rewrite (trim_blank _ H). reflexivity. Qed.

Lemma folder_heading_test body :
  folder_heading body -> is_folder_header body = true.
Proof.
  intros [Hroot Hgap]. unfold is_folder_header.
  apply server_root_iff in Hroot. rewrite Hroot, (gapless_no_gap _ Hgap).
  reflexivity.
Qed.

Lemma pending_step_skipped st l body :
  at_rest st -> padded l body ->
  heading body \/ folder_heading body \/ summary body ->
  items (pending_step st l) = items st /\ at_rest (pending_step st l).
Proof.
  intros [Hf Hq] Hp Hkind. pose proof (padded_trim _ _ Hp) as Ht.
  destruct (is_header body) eqn:Hh.
  { unfold pending_step. rewrite Ht, Hh. split; [reflexivity | split; assumption]. }
  destruct Hkind as [H | [H | H]].
  - apply is_header_iff in H. congruence.
  - unfold pending_step. rewrite Ht, Hh, (folder_heading_test _ H).
    split; [reflexivity | split; [reflexivity | apply quiet_nil]].
  - destruct (summary_quiet _ H) as [Hs Hne].
    pose proof (quiet_unrecognised st body Hf Hq Hs Hne) as Hun.
    rewrite <- Ht in Hun. rewrite (pending_step_unrecognised _ _ Hun), Ht.
    destruct (Nat.ltb 500 _).
    + split; [reflexivity | split; [reflexivity | apply quiet_nil]].
    + split; [reflexivity | split; [exact Hf |]]. cbn [buffer].
      apply joined_quiet; assumption.
Qed.

Lemma regular_row_tryParseRow folder line local act :
  regular_row line local act ->
  tryParseRow folder line = Some (PendingItem local act).
Proof.
  intros (name & gap1 & change & gap2 & -> & (Hn & Hnd & Hnc) & Hs1 &
          (Hne & Hcc & Hccol & Hnb & ->) & Hs2 & (Hdrive & Hdot & Hend) & Hshape).
  apply regular_row_parses; assumption.
Qed.

Lemma pending_step_row st l body :
  at_rest st -> padded l body -> data_row body -> ~ heading body ->
  exists it,
    pending_step st l = push it st /\
    (action it = T "edit" \/ spelled (action it) body) /\
    (forall local act, regular_row body local act -> it = PendingItem local act).
Proof.
  intros [Hf Hq] Hp Hrow Hnh. pose proof (padded_trim _ _ Hp) as Ht.
  assert (Htt : trim body = body) by (rewrite <- Ht; apply trim_idem).
  destruct (data_row_parses (currentServerFolder st) _ Hrow Htt) as [it Hit].
  exists it. split; [| split].
  - unfold pending_step. rewrite Ht, (is_header_false _ Hnh).
    unfold is_folder_header, is_name_fragment.
    rewrite (data_row_gap _ Hrow), andb_false_r. cbn [negb andb].
    rewrite Hf. cbn [pair_fragment]. rewrite Hit. reflexivity.
  - apply (tryParseRow_source _ _ _ Hit).
  - intros local act Hreg.
    rewrite (regular_row_tryParseRow (currentServerFolder st) _ _ _ Hreg) in Hit.
    injection Hit as <-. reflexivity.
Qed.

Lemma push_at_rest it st : at_rest (push it st).
Proof. split; [reflexivity | apply quiet_nil]. Qed.

(** The loop over the lines of a table. *)
Lemma pending_run_table : forall ls st,
  at_rest st -> Forall table_line ls ->
  exists its,
    items (fold_left pending_step (filter nonblank ls) st) = items st ++ its /\
    table_reading ls its.
Proof.
  induction ls as [| l ls IH]; intros st Hst H.
  - exists []. split; [simpl; rewrite app_nil_r; reflexivity | constructor].
  - inversion H as [| ? ? Hl Hls]; subst. cbn [filter].
    destruct Hl as [Hskip | (body & Hp & Hrow & Hnh)].
    + assert (Hstep : nonblank l = false \/
                      (items (pending_step st l) = items st /\
                       at_rest (pending_step st l))).
      { destruct Hskip as [Hb | (body & Hp & Hkind)].
        - left. apply blank_filtered, Hb.
        - right. apply (pending_step_skipped st l body); assumption. }
      destruct (nonblank l).
      * destruct Hstep as [Hstep | [Hi Hr]]; [discriminate |].
        destruct (IH _ Hr Hls) as (its & Hits & Hread).
        exists its. cbn [fold_left]. rewrite Hits, Hi.
        split; [reflexivity | apply reading_skip; assumption].
      * destruct (IH _ Hst Hls) as (its & Hits & Hread).
        exists its. split; [exact Hits | apply reading_skip; assumption].
    + destruct (pending_step_row st l body Hst Hp Hrow Hnh)
        as (it & Hstep & Hsrc & Hreg).
      assert (Hnb : nonblank l = true).
      { unfold nonblank. rewrite (padded_trim _ _ Hp).
        destruct Hrow as (name & g1 & c & g2 & lo & -> & [Hn _] & _).
        destruct name; [congruence | reflexivity]. }
      rewrite Hnb. cbn [fold_left]. rewrite Hstep.
      destruct (IH (push it st) (push_at_rest it st) Hls) as (its & Hits & Hread).
      exists (it :: its). rewrite Hits. cbn [push items].
      rewrite <- app_assoc. split; [reflexivity |].
      apply (reading_row l body); assumption.
Qed.

(** A well-formed table gives one record for each of its data rows. *)
Lemma parsePending_reading eol lines :
  line_end eol -> Forall unbroken lines ->
  Forall table_line (map without_NUL lines) ->
  table_reading (map without_NUL lines) (parsePending (join eol lines)).
Proof.
  intros He Hu Ht. unfold parsePending.
  rewrite (parsePending_join _ _ _ He Hu).
  destruct (pending_run_table _ (pending_init []) (conj eq_refl quiet_nil) Ht)
    as (its & Hits & Hread).
  rewrite Hits. exact Hread.
Qed.

(** *** The reading of a table *)

Lemma skipped_no_row l : skipped l -> ~ row_line l.
Proof.
  intros Hs (body & Hp & Hrow & Hnh). pose proof (padded_trim _ _ Hp) as Ht.
  destruct Hs as [Hb | (body' & Hp' & Hkind)].
  - rewrite (trim_blank _ Hb) in Ht. subst body.
    destruct Hrow as (name & g1 & c & g2 & lo & E & [Hn _] & _).
    destruct name; [congruence | discriminate].
  - rewrite (padded_trim _ _ Hp') in Ht. subst body'.
    pose proof (data_row_gap _ Hrow) as Hgap.
    destruct Hkind as [H | [[_ H] | H]].
    + contradiction.
    + rewrite (gapless_no_gap _ H) in Hgap. discriminate.
    + destruct (summary_quiet _ H) as [(_ & Hg & _) _].
      rewrite (gapless_no_gap _ Hg) in Hgap. discriminate.
Qed.

Lemma parsePending_not_unknown stdout it :
  In it (parsePending stdout) -> action it <> T "unknown".
Proof.
  intros Hin E. pose proof (parsePending_actions stdout it Hin) as Ha.
  rewrite E in Ha. unfold ACTIONS in Ha.
  repeat (destruct Ha as [Ha | Ha]; [discriminate |]). destruct Ha.
Qed.

(** C1, as amended.  A table is given by its lines, put together with
    LF or CR LF; NUL characters count for nothing.  Where every line is
    either passed over (a blank line, a heading, a folder header, the
    closing line [n change(s)]) or a data row that is no heading, with
    one or more white-space characters before the change and two or
    more before the local path, [parsePending] gives one record for
    each data row, in the order of the rows.  The action of such a
    record is [edit] or a word that its row spells, and for a row in
    the regular shape the record is the local path with the first word
    of the change column that is one of edit, add, delete, rename,
    merge, in lower case, or with [edit] where the column holds none of
    them.  No line is both passed over and a data row.  On every text
    in which the word [branch] does not occur, the action of every
    record is one of the five; and on no text is an action [unknown]. *)
Theorem parsePending_rows_and_actions :
  (forall eol lines,
     line_end eol -> Forall unbroken lines ->
     Forall table_line (map without_NUL lines) ->
     table_reading (map without_NUL lines) (parsePending (join eol lines))) /\
  (forall l, skipped l -> ~ row_line l) /\
  (forall stdout it,
     ~ names_branch (without_NUL stdout) ->
     In it (parsePending stdout) -> In (action it) VOCABULARY) /\
  (forall stdout it, In it (parsePending stdout) -> action it <> T "unknown").
Proof.
  split; [| split; [| split]].
  - apply parsePending_reading.
  - apply skipped_no_row.
  - apply parsePending_no_branch.
  - apply parsePending_not_unknown.
Qed.

(** C1 as stated fails.  A change column without a known word ([lock])
    gives [edit], not [unknown]; [branch] is an action the parser
    returns; in a table whose columns are set apart by a single blank,
    the row whose change fills its column is read as an [edit] of a
    server path and the row whose name fills its column too is lost;
    and a change after a single blank is read as [edit] where five
    blanks follow it. *)
Lemma parsePending_branch_and_default :
  parsePending (T "Foo.cs     lock     C:\ws\Foo.cs")
  = [PendingItem (T "C:\ws\Foo.cs") (T "edit")] /\
  parsePending (T "Foo.cs     branch     C:\ws\Foo.cs")
  = [PendingItem (T "C:\ws\Foo.cs") (T "branch")] /\
  parsePending (join [CR; LF] narrow_table)
  = [PendingItem (T "C:\ws\a.cs") (T "edit");
     PendingItem (T "$/Proj/b.cs") (T "edit")] /\
  parsePending (T "Foo.cs add     C:\ws\Foo.cs")
  = [PendingItem (T "C:\ws\Foo.cs") (T "edit")].
Proof. repeat split; vm_compute; reflexivity. Qed.

Lemma padded_self body : tight body -> tight (rev body) -> padded body body.
Proof.
  intros H1 H2. exists [], []. rewrite app_nil_r. repeat split; assumption.
Qed.

Lemma parsePending_rows_witness :
  table_reading (map without_NUL wide_table) (parsePending (join [CR; LF] wide_table)).
Proof.
  destruct parsePending_rows_and_actions as (Hread & _).
  apply (Hread [CR; LF] wide_table).
  - right. reflexivity.
  - repeat constructor.
  - repeat apply Forall_cons; try apply Forall_nil.
    + left. right. eexists. split; [apply padded_self; vm_compute; reflexivity |].
      left. apply is_header_iff. vm_compute. reflexivity.
    + left. right. eexists. split; [apply padded_self; vm_compute; reflexivity |].
      left. apply is_header_iff. vm_compute. reflexivity.
    + left. right. eexists. split; [apply padded_self; vm_compute; reflexivity |].
      right. left. split; [exists (T "Proj/Dir"); reflexivity | reflexivity].
    + right. eexists. split; [apply padded_self; vm_compute; reflexivity |]. split.
      * exists (T "Foo.cs"), (T "       "), (T "edit"), (T "      "), (T "C:\ws\Dir\Foo.cs").
        repeat split; try reflexivity; try discriminate; simpl; lia.
      * intros H. apply is_header_iff in H. vm_compute in H. discriminate.
    + right. eexists. split; [apply padded_self; vm_compute; reflexivity |]. split.
      * exists (T "Bar.cs"), (T " "), (T "add"), (T "   "), (T "C:\ws\Dir\Bar.cs").
        repeat split; try reflexivity; try discriminate; simpl; lia.
      * intros H. apply is_header_iff in H. vm_compute in H. discriminate.
    + left. left. reflexivity.
    + left. right. eexists. split; [apply padded_self; vm_compute; reflexivity |].
      right. right. exists (T "2"). repeat split; try reflexivity. discriminate.
Defined.

(** ** The history parser, continued *)

(** *** A text without a separator *)

Lemma split_scan_none r : forall rs piece sn,
  search r sn rs = None -> split_scan r 0 piece sn rs = [rev piece ++ rs].
Proof.
  induction rs as [| a rs IH]; intros piece sn H; simpl.
  - rewrite app_nil_r. reflexivity.
  - simpl in H. destruct (match_here r sn (a :: rs)); [discriminate |].
    rewrite (IH _ _ H). simpl. rewrite <- app_assoc. reflexivity.
Qed.

Lemma split_none r s : test r s = false -> split r s = [s].
Proof.
  intros H. apply test_false in H. unfold exec in H. unfold split.
  destruct s as [| a s].
  - simpl in H. destruct (match_here r [] []); [discriminate | reflexivity].
  - apply (split_scan_none r (a :: s) [] [] H).
Qed.

(** *** Groups that hold one line *)

(** Group [i] of a match of [pre (.+) post] or [pre (.* ) post], where
    [post] does not set the group again, stands on one line. *)
Lemma exec_dot_group r pre post i g lo s m :
  r = seq (pre ++ Grp i (Rep g lo is_dot) :: post) ->
  ~ In i (groups_of (seq post)) ->
  exec r s = Some m ->
  forallb is_dot (group i m) = true.
Proof.
  intros -> Hi H. apply exec_inv in H.
  destruct H as (p & q & st & _ & Hm & _ & _ & Hg & _).
  apply matches_seq_app in Hm. destruct Hm as (mid & _ & Hm).
  change (seq (Grp i (Rep g lo is_dot) :: post))
    with (Seq (Grp i (Rep g lo is_dot)) (seq post)) in Hm.
  cbn [matches] in Hm.
  destruct Hm as (st1 & (st2 & (x & rs & Hx & _ & _ & ->) & ->) & Hpost).
  unfold group. rewrite Hg, (matches_frame _ _ _ _ Hpost Hi).
  unfold set_cap. cbn [caps lookup_cap]. rewrite Nat.eqb_refl.
  rewrite (span_shape _ _ x); [exact Hx | reflexivity].
Qed.

Lemma user_group b m : exec re_user b = Some m -> forallb is_dot (group 1 m) = true.
Proof.
  apply (exec_dot_group re_user
           [Bol true; star is_space; lit_ci (T "User:"); star is_space]
           [Eol true] 1 true 1); [reflexivity |].
  no_later_group.
Qed.

Lemma date_group b m : exec re_date b = Some m -> forallb is_dot (group 1 m) = true.
Proof.
  apply (exec_dot_group re_date
           [Bol true; star is_space; lit_ci (T "Date:"); star is_space]
           [Eol true] 1 true 1); [reflexivity |].
  no_later_group.
Qed.

Lemma item_line_path line m :
  exec re_item_line line = Some m -> forallb is_dot (group 2 m) = true.
Proof.
  apply (exec_dot_group re_item_line
           [Bol false; star is_space;
            Grp 1 (words_ci [T "edit"; T "add"; T "delete"; T "rename"; T "merge"]);
            plus is_space]
           [Eol false] 2 true 0); [reflexivity |].
  no_later_group.
Qed.

Lemma item_line_change line m :
  exec re_item_line line = Some m ->
  exists w, In w HISTORY_CHANGES /\ spells_ci w (group 1 m).
Proof.
  intros H. apply exec_inv in H.
  destruct H as (p & q & st & _ & Hm & _ & _ & Hg & _).
  apply (matches_seq_app [Bol false; star is_space]) in Hm.
  destruct Hm as (mid & _ & Hm).
  match type of Hm with matches (seq (?g :: ?post)) _ _ =>
    change (matches (Seq g (seq post)) mid st) in Hm end.
  cbn [matches] in Hm. destruct Hm as (st1 & (st2 & Hw & ->) & Hpost).
  destruct (words_ci_matches _ _ _ Hw) as (w & x & Hin & (_ & Hs & _) & Hx).
  exists w. split; [exact Hin |].
  unfold group. rewrite Hg.
  rewrite (matches_frame _ _ _ 1 Hpost) by no_later_group.
  unfold set_cap. cbn [caps lookup_cap]. rewrite Nat.eqb_refl.
  rewrite (span_shape _ _ x Hs). exact Hx.
Qed.

(** *** The fields *)

Lemma item_of_line_record line f : item_of_line line = Some f -> file_record f.
Proof.
  unfold item_of_line. destruct (exec re_item_line line) as [m |] eqn:Hm;
    [| discriminate].
  intros [= <-]. unfold file_record. cbn [path change].
  split; [apply (item_line_change _ _ Hm) |].
  split; [apply trim_idem | apply trim_forallb, (item_line_path _ _ Hm)].
Qed.

Lemma collect_Forall {A B} (f : A -> option B) (P : B -> Prop) l :
  (forall x y, f x = Some y -> P y) -> Forall P (collect f l).
Proof.
  intros H. induction l as [| x l IH]; simpl; [constructor |].
  destruct (f x) as [y |] eqn:E; [constructor; eauto | exact IH].
Qed.

Lemma history_item_record b h : history_item b = Some h -> history_record h.
Proof.
  unfold history_item. destruct (exec re_changeset b) as [m |]; [| discriminate].
  intros [= <-]. unfold history_record. cbn [author date comment files].
  repeat split; try apply trim_idem.
  - apply trim_forallb. destruct (exec re_user b) as [u |] eqn:E; simpl;
      [apply (user_group _ _ E) | reflexivity].
  - apply trim_forallb. destruct (exec re_date b) as [u |] eqn:E; simpl;
      [apply (date_group _ _ E) | reflexivity].
  - unfold files_of_block. apply collect_Forall. apply item_of_line_record.
Qed.

(** X22.  In every entry of [parseHistory] the author and the date stand on
    one line, and author, date and comment have no white space around
    them.  Every file of an entry has a change out of edit, add,
    delete, rename, merge, in the letter case of the output, and a
    path on one line without white space around it. *)
Theorem parseHistory_fields stdout : Forall history_record (parseHistory stdout).
Proof.
  unfold parseHistory. apply collect_Forall. apply history_item_record.
Qed.

(** X23.  A block without an [Items:] line of its own has no files: the
    item lines of the entry are looked for after that line only. *)
Theorem files_after_items_line b :
  test re_items b = false -> files_of_block b = [].
Proof.
  intros H. unfold files_of_block. rewrite (split_none _ _ H). reflexivity.
Qed.

Lemma files_after_items_line_witness :
  files_of_block (unlines [T "Changeset: 7"; T "  edit $/Proj/A.cs"]) = [].
Proof.
  apply (files_after_items_line (unlines [T "Changeset: 7"; T "  edit $/Proj/A.cs"])).
  vm_compute. reflexivity.
Defined.

(** ** The pending-changes query, continued *)

Lemma first_nonempty_source vs : forall tr found tr',
  first_nonempty vs tr = (Ok found, tr') ->
  found = [] \/ exists v t, In v vs /\ v t = (Ok found, tr').
Proof.
  induction vs as [| v vs IH]; intros tr found tr' H; simpl in H.
  - injection H as <- _. auto.
  - unfold bind, try_catch in H.
    destruct (v tr) as [[l | e] t1] eqn:Hv.
    + destruct l as [| it l].
      * destruct (IH _ _ _ H) as [-> | (w & t & Hw & Ht)]; [auto |].
        right. exists w, t. split; [right; exact Hw | exact Ht].
      * unfold ret in H. injection H as <- <-. right. exists v, tr.
        split; [left; reflexivity | exact Hv].
    + unfold ret in H. destruct (IH _ _ _ H) as [-> | (w & t & Hw & Ht)]; [auto |].
      right. exists w, t. split; [right; exact Hw | exact Ht].
Qed.

Section PendingRecords.

Variable tf : list invocation -> invocation -> proc_result.
Variable path_join : text -> text -> text.
Variable new_URL : text -> option URL.
Variable cwd : text.
Variable config : option VstfsConfig.

Lemma variant_records query parse t found t' :
  (forall stdout it, In it (parse stdout) -> In (action it) ACTIONS) ->
  variant path_join cwd config query parse t = (Ok found, t') ->
  Forall (localized_record path_join cwd config) found.
Proof.
  intros Hparse. unfold variant, bind, ret.
  destruct (query t) as [[o | e] t1]; [| discriminate].
  intros [= <- _]. apply Forall_forall. intros it Hit.
  apply in_map_iff in Hit. destruct Hit as (raw & <- & Hraw).
  split; [apply (Hparse _ _ Hraw) | exists (file raw); reflexivity].
Qed.

Lemma parsePendingDetailed_actions stdout it :
  In it (parsePendingDetailed stdout) -> In (action it) ACTIONS.
Proof.
  intros H.
  destruct (detailed_run (lines_of stdout) (DState [] None) []) as [Hall _];
    [constructor | discriminate | constructor |].
  rewrite Forall_forall in Hall. apply (Hall it H).
Qed.

(** X24.  Whichever status query answers, every record that
    [pendingChanges] returns has an action out of add, edit, delete,
    rename, merge, branch and a file that [toLocalPath] has returned;
    so where [path.join] with the working directory gives drive-letter
    paths, every file begins with a drive letter. *)
Theorem pendingChanges_records tr found tr' :
  pendingChanges tf path_join new_URL cwd config tr = (Ok found, tr') ->
  Forall (localized_record path_join cwd config) found /\
  ((forall x, test re_drive (path_join cwd x) = true) ->
   Forall (fun it => test re_drive (file it) = true) found).
Proof.
  intros H.
  assert (Hrec : Forall (localized_record path_join cwd config) found).
  { rewrite pendingChanges_first_nonempty in H.
    apply first_nonempty_source in H.
    destruct H as [-> | (v & t & Hv & Ht)]; [constructor |].
    unfold status_variants in Hv.
    destruct Hv as [<- | [<- | [<- | [<- | []]]]];
      apply (variant_records _ _ _ _ _) in Ht; auto;
      first [apply parsePendingDetailed_actions | apply parsePending_actions]. }
  split; [exact Hrec |]. intros Hjoin.
  apply Forall_forall. intros it Hit. rewrite Forall_forall in Hrec.
  destruct (Hrec it Hit) as [_ (raw & ->)].
  apply toLocalPath_drive. exact Hjoin.
Qed.

End PendingRecords.

Lemma pendingChanges_records_witness :
  Forall (localized_record simple_join (T "C:\ws") None)
         [PendingItem (T "C:\ws\Foo.cs") (T "edit")].
Proof.
  apply (pendingChanges_records
           (fun tr i => Proc None (T "Foo.cs     edit     C:\ws\Foo.cs") [])
           simple_join no_URL (T "C:\ws") None []
           [PendingItem (T "C:\ws\Foo.cs") (T "edit")]
           [Invoke Hidden status_detailed; Invoke Hidden status_brief] eq_refl).
Defined.

(** ** Earlier changesets of a file *)

Lemma number_leb_le x y : number_leb x y = true <-> number_le x y.
Proof.
  destruct x, y; simpl; rewrite ?N.leb_le; intuition congruence.
Qed.

Lemma number_ltb_lt x y : number_ltb x y = true <-> number_lt x y.
Proof.
  destruct x, y; simpl; rewrite ?N.ltb_lt; intuition congruence.
Qed.

Lemma number_leb_gt x y : number_leb x y = false -> number_lt y x.
Proof.
  destruct x, y; simpl; rewrite ?N.leb_gt; auto; discriminate.
Qed.

Lemma number_ltb_ge x y : number_ltb x y = false -> number_le y x.
Proof.
  destruct x, y; simpl; rewrite ?N.ltb_ge; auto; discriminate.
Qed.

Lemma number_le_trans x y z : number_le x y -> number_le y z -> number_le x z.
Proof. destruct x, y, z; simpl; try tauto; lia. Qed.

Lemma number_lt_le x y : number_lt x y -> number_le x y.
Proof. destruct x, y; simpl; try tauto; lia. Qed.

Lemma number_le_refl x : number_le x x.
Proof. destruct x; simpl; [lia | exact I]. Qed.

Lemma number_lt_not_le x y : number_lt x y -> number_le y x -> False.
Proof. destruct x, y; simpl; try tauto; lia. Qed.

Lemma insert_desc_In h l x : In x (insert_desc h l) <-> x = h \/ In x l.
Proof.
  induction l as [| a l IH]; simpl.
  - intuition.
  - destruct (number_leb _ _); simpl; [intuition |]. rewrite IH. intuition.
Qed.

Lemma sort_desc_In l x : In x (sort_desc l) <-> In x l.
Proof.
  induction l as [| a l IH]; simpl; [reflexivity |].
  rewrite insert_desc_In, IH. intuition.
Qed.

Lemma insert_desc_length h l : length (insert_desc h l) = S (length l).
Proof.
  induction l as [| a l IH]; simpl; [reflexivity |].
  destruct (number_leb _ _); simpl; [reflexivity | rewrite IH; reflexivity].
Qed.

Lemma sort_desc_length l : length (sort_desc l) = length l.
Proof.
  induction l as [| a l IH]; simpl; [reflexivity |].
  rewrite insert_desc_length, IH. reflexivity.
Qed.

Lemma insert_desc_descending h l : descending l -> descending (insert_desc h l).
Proof.
  induction l as [| a l IH]; simpl.
  - intros _. split; [intros x [] | exact I].
  - intros [Ha Hl].
    destruct (number_leb (changesetId a) (changesetId h)) eqn:Hc.
    + apply number_leb_le in Hc. simpl. split; [| split; assumption].
      intros x [<- | Hx]; [exact Hc |].
      apply (number_le_trans _ (changesetId a)); auto.
    + apply number_leb_gt in Hc. simpl. split; [| apply IH, Hl].
      intros x Hx. apply insert_desc_In in Hx.
      destruct Hx as [-> | Hx]; [apply number_lt_le, Hc | auto].
Qed.

Lemma sort_desc_descending l : descending (sort_desc l).
Proof.
  induction l as [| a l IH]; simpl; [exact I |].
  apply insert_desc_descending, IH.
Qed.

(** In descending order the first entry below a bound is the greatest
    one below it. *)
Lemma find_below_greatest c : forall l h,
  descending l ->
  find (fun h => number_ltb (changesetId h) c) l = Some h ->
  In h l /\ number_lt (changesetId h) c /\
  forall x, In x l -> number_lt (changesetId x) c ->
            number_le (changesetId x) (changesetId h).
Proof.
  induction l as [| a l IH]; intros h Hd Hf; simpl in Hf; [discriminate |].
  destruct Hd as [Ha Hl].
  destruct (number_ltb (changesetId a) c) eqn:Hc.
  - apply number_ltb_lt in Hc. injection Hf as <-.
    split; [left; reflexivity |]. split; [exact Hc |].
    intros x [<- | Hx] _; [apply number_le_refl | auto].
  - apply number_ltb_ge in Hc. destruct (IH h Hl Hf) as (Hin & Hlt & Hmax).
    split; [right; exact Hin |]. split; [exact Hlt |].
    intros x [<- | Hx] Hxc; [| auto].
    destruct (number_lt_not_le _ _ Hxc Hc).
Qed.

Lemma find_below_none c l :
  find (fun h => number_ltb (changesetId h) c) l = None <->
  forall x, In x l -> number_le c (changesetId x).
Proof.
  induction l as [| a l IH]; simpl.
  - split; [intros _ x [] | reflexivity].
  - destruct (number_ltb (changesetId a) c) eqn:Hc.
    + apply number_ltb_lt in Hc. split; [discriminate |]. intros H.
      specialize (H a (or_introl eq_refl)). destruct (number_lt_not_le _ _ Hc H).
    + apply number_ltb_ge in Hc. rewrite IH. split.
      * intros H x [<- | Hx]; auto.
      * intros H x Hx. apply H. right. exact Hx.
Qed.

Section PreviousFacts.

Variable tf : list invocation -> invocation -> proc_result.
Variable new_URL : text -> option URL.
Variable cwd : text.
Variable config : option VstfsConfig.
Variable path_basename : text -> text.

(** X25.  [getPreviousChangesetIdForFile] never throws, and it answers
    [null] when its history query fails and when no entry of the
    history it gets names the file. *)
Theorem getPreviousChangesetIdForFile_null file currentId tr :
  (exists r tr',
     getPreviousChangesetIdForFile tf new_URL cwd config path_basename
       file currentId tr = (Ok r, tr')) /\
  (forall e tr',
     run tf new_URL cwd config (previous_query file currentId) tr = (Throw e, tr') ->
     getPreviousChangesetIdForFile tf new_URL cwd config path_basename
       file currentId tr = (Ok None, tr')) /\
  (forall o tr',
     run tf new_URL cwd config (previous_query file currentId) tr = (Ok o, tr') ->
     filter (touches path_basename file) (parseHistory (out_stdout o)) = [] ->
     getPreviousChangesetIdForFile tf new_URL cwd config path_basename
       file currentId tr = (Ok None, tr')).
Proof.
  unfold getPreviousChangesetIdForFile. fold (previous_query file currentId).
  unfold try_catch, bind.
  destruct (run tf new_URL cwd config (previous_query file currentId) tr)
    as [[o | e] tr1].
  - split; [| split].
    + destruct (Nat.eqb _ 0); [unfold ret; eauto |].
      destruct (find _ _); [unfold ret; eauto |].
      destruct (Nat.leb _ _); [| unfold ret; eauto].
      destruct (nth_error _ 1); unfold ret; eauto.
    + discriminate.
    + intros o' tr' [= <- <-] ->. reflexivity.
  - split; [| split].
    + unfold ret. eauto.
    + intros e' tr' [= <- <-]. reflexivity.
    + discriminate.
Qed.

(** X26.  Where the history that the query returns holds entries for the
    file with a number below the current one, the answer is the
    greatest of these numbers.  Where it holds two or more entries for
    the file and none below the current number, the answer is a number
    of one of them all the same, which is then not below the current
    one. *)
Theorem getPreviousChangesetIdForFile_choice file currentId tr o tr' :
  run tf new_URL cwd config (previous_query file currentId) tr = (Ok o, tr') ->
  let items := filter (touches path_basename file) (parseHistory (out_stdout o)) in
  exists r,
    getPreviousChangesetIdForFile tf new_URL cwd config path_basename
      file currentId tr = (Ok r, tr') /\
    (forall p, r = Some p -> exists h, In h items /\ changesetId h = p) /\
    ((exists h, In h items /\ number_lt (changesetId h) (Num currentId)) ->
     exists p, r = Some p /\ number_lt p (Num currentId) /\
               forall h, In h items -> number_lt (changesetId h) (Num currentId) ->
                         number_le (changesetId h) p) /\
    ((forall h, In h items -> number_le (Num currentId) (changesetId h)) ->
     (2 <= length items -> exists p, r = Some p /\ number_le (Num currentId) p) /\
     (length items < 2 -> r = None)).
Proof.
  intros Hrun items.
  unfold getPreviousChangesetIdForFile. fold (previous_query file currentId).
  unfold try_catch, bind. rewrite Hrun. fold items.
  destruct (Nat.eqb_spec (length items) 0) as [Hz | Hnz].
  { exists None. split; [reflexivity |]. split; [discriminate |].
    destruct items; [| discriminate]. split.
    - intros (h & [] & _).
    - intros _. split; [simpl; lia | reflexivity]. }
  pose proof (sort_desc_descending items) as Hd.
  destruct (find _ (sort_desc items)) as [h |] eqn:Hf.
  - destruct (find_below_greatest _ _ _ Hd Hf) as (Hin & Hlt & Hmax).
    apply (proj1 (sort_desc_In _ _)) in Hin.
    exists (Some (changesetId h)). split; [reflexivity |]. split; [| split].
    + intros p [= <-]. exists h. split; [exact Hin | reflexivity].
    + intros _. exists (changesetId h). split; [reflexivity |].
      split; [exact Hlt |]. intros x Hx. apply Hmax, (proj2 (sort_desc_In _ _)), Hx.
    + intros Hall. specialize (Hall h Hin). destruct (number_lt_not_le _ _ Hlt Hall).
  - pose proof (proj1 (find_below_none _ _) Hf) as Hnone.
    rewrite sort_desc_length.
    destruct (Nat.leb_spec 2 (length items)) as [H2 | H1].
    + destruct (nth_error (sort_desc items) 1) as [s |] eqn:Hn.
      * pose proof (nth_error_In _ _ Hn) as Hs.
        exists (Some (changesetId s)). split; [reflexivity |]. split; [| split].
        -- intros p [= <-]. exists s. split; [apply (proj1 (sort_desc_In _ _)), Hs | reflexivity].
        -- intros (h & Hh & Hlt). apply (proj2 (sort_desc_In _ _)) in Hh.
           specialize (Hnone h Hh). destruct (number_lt_not_le _ _ Hlt Hnone).
        -- intros _. split; [| lia]. intros _. exists (changesetId s).
           split; [reflexivity | apply Hnone, Hs].
      * apply nth_error_None in Hn. rewrite sort_desc_length in Hn. lia.
    + exists None. split; [reflexivity |]. split; [discriminate |]. split.
      * intros (h & Hh & Hlt). apply (proj2 (sort_desc_In _ _)) in Hh.
        specialize (Hnone h Hh). destruct (number_lt_not_le _ _ Hlt Hnone).
      * intros _. split; [lia | reflexivity].
Qed.

End PreviousFacts.

Lemma getPreviousChangesetIdForFile_choice_witness :
  exists r,
    getPreviousChangesetIdForFile tf_history_5_3 no_URL (T "C:\ws") None
      simple_basename (T "$/Proj/A.cs") 5 []
    = (Ok r, [Invoke Hidden (previous_query (T "$/Proj/A.cs") 5)]) /\
    exists p, r = Some p /\ number_lt p (Num 5).
Proof.
  destruct (getPreviousChangesetIdForFile_choice tf_history_5_3 no_URL (T "C:\ws")
              None simple_basename (T "$/Proj/A.cs") 5 [] _ _ eq_refl)
    as (r & Hr & _ & Hbelow & _).
  exists r. split; [exact Hr |].
  destruct Hbelow as (p & Hp & Hlt & _).
  - exists (HistoryItem (Num 3) [] [] [] [FileChange (T "$/Proj/A.cs") (T "add")]).
    split; [vm_compute; auto | reflexivity].
  - exists p. auto.
Defined.

(** ** Files at a changeset *)

(** *** Line ends *)

Lemma split_scan_nonempty r : forall rs skip piece sn,
  split_scan r skip piece sn rs <> [].
Proof.
  induction rs as [| a rs IH]; intros skip piece sn; simpl; [discriminate |].
  destruct skip; [| apply IH].
  destruct (match_here r sn (a :: rs)); [| apply IH].
  destruct (_ - _); [destruct piece |]; try discriminate. apply IH.
Qed.

Lemma join_cons sep l ls : ls <> [] -> join sep (l :: ls) = l ++ sep ++ join sep ls.
Proof. destruct ls; [congruence | reflexivity]. Qed.

(** Replacing every line end is splitting at the line ends and joining
    the lines again. *)
Lemma replace_scan_join eol : forall rs skip piece sn,
  join eol (split_scan re_newline skip piece sn rs)
  = rev piece ++ replace_scan re_newline eol skip sn rs.
Proof.
  induction rs as [| a rs IH]; intros skip piece sn; cbn [split_scan replace_scan].
  - rewrite newline_here. reflexivity.
  - destruct skip as [| n]; [| apply IH].
    rewrite newline_here.
    assert (Hnone : join eol (split_scan re_newline 0 (a :: piece) (a :: sn) rs)
                    = rev piece ++ a :: replace_scan re_newline eol 0 (a :: sn) rs).
    { rewrite IH. simpl. rewrite <- app_assoc. reflexivity. }
    assert (Hsome : forall n,
              join eol (rev piece :: split_scan re_newline n [] (a :: sn) rs)
              = rev piece ++ eol ++ replace_scan re_newline eol n (a :: sn) rs).
    { intros n. rewrite join_cons by apply split_scan_nonempty.
      rewrite IH. reflexivity. }
    destruct (is_char CR a).
    + destruct rs as [| b q]; [exact Hnone |].
      destruct (is_char LF b); [| exact Hnone].
      cbn [seen length]. rewrite Nat.sub_succ_l by lia.
      rewrite Nat.sub_succ_l, Nat.sub_diag by lia. apply Hsome.
    + destruct (is_char LF a); [| exact Hnone].
      cbn [seen length]. rewrite Nat.sub_succ_l, Nat.sub_diag by lia. apply Hsome.
Qed.

Lemma replace_newlines_join eol s :
  replace_all re_newline eol s = join eol (lines_of s).
Proof.
  unfold replace_all, lines_of, split. destruct s as [| a s].
  - reflexivity.
  - rewrite replace_scan_join. reflexivity.
Qed.

(** *** Names *)

Lemma replace_reserved s :
  replace_all re_reserved (T "_") s = map (fun a => if is_reserved a then "_" else a) s.
Proof.
  unfold replace_all, re_reserved. change (T "_") with ["_"]. apply replace_all_char.
Qed.

Lemma digit_unreserved a : is_digit a = true -> unreserved a = true.
Proof.
  assert (Hd : disjoint is_digit is_reserved = true) by (vm_compute; reflexivity).
  intros H. unfold unreserved. rewrite (disjoint_spec _ _ _ Hd H). reflexivity.
Qed.

Section FileFacts.

Variable tf : list invocation -> invocation -> proc_result.
Variable path_join : text -> text -> text.
Variable new_URL : text -> option URL.
Variable cwd : text.
Variable config : option VstfsConfig.
Variable path_basename : text -> text.
Variable os_tmpdir : text.
Variable os_EOL : text.

(** X27.  The file that [getFileAtChangeset] writes lies where [path.join]
    puts a name in the temporary directory: the name begins with
    [vstfs-C], the number of the changeset and a hyphen, and it holds
    no slash, backslash, colon or other character of the set that is
    cleaned away, whatever the path of the file is. *)
Theorem getFileAtChangeset_name file id tr name content tr' :
  getFileAtChangeset tf path_join new_URL cwd config path_basename os_tmpdir os_EOL
    file id tr = (Ok (name, content), tr') ->
  exists leaf,
    name = path_join os_tmpdir (T "vstfs-C" ++ decimal id ++ T "-" ++ leaf) /\
    length leaf
    = length (path_basename (toLocalPath path_join cwd config file)) /\
    forallb unreserved (T "vstfs-C" ++ decimal id ++ T "-" ++ leaf) = true.
Proof.
  unfold getFileAtChangeset, bind.
  destruct (run _ _ _ _ _ tr) as [[o | e] tr1]; [| discriminate].
  unfold ret. intros [= <- _ _].
  eexists. split; [reflexivity |]. rewrite replace_reserved. split.
  - apply length_map.
  - rewrite !forallb_app. repeat (apply andb_true_iff; split); try reflexivity.
    + rewrite forallb_forall. intros a Ha. apply digit_unreserved.
      destruct (decimal_digits id) as [_ Hd]. rewrite forallb_forall in Hd. auto.
    + rewrite forallb_forall. intros b Hb. apply in_map_iff in Hb.
      destruct Hb as (a & <- & _). unfold unreserved.
      destruct (is_reserved a) eqn:E; [reflexivity | rewrite E; reflexivity].
Qed.

(** X28.  What [getFileAtChangeset] writes is the output of the [view]
    command for the file at the changeset, line by line, with the line
    end of the platform (a line feed, or a carriage return and a line
    feed) between the lines. *)
Theorem getFileAtChangeset_content file id tr name content tr' :
  os_EOL = [LF] \/ os_EOL = [CR; LF] ->
  getFileAtChangeset tf path_join new_URL cwd config path_basename os_tmpdir os_EOL
    file id tr = (Ok (name, content), tr') ->
  exists o,
    run tf new_URL cwd config (view_query file id) tr = (Ok o, tr') /\
    content = join os_EOL (lines_of (out_stdout o)).
Proof.
  intros _. unfold getFileAtChangeset, bind. fold (view_query file id).
  destruct (run _ _ _ _ _ tr) as [[o | e] tr1]; [| discriminate].
  unfold ret. intros [= _ <- <-]. exists o. split; [reflexivity |].
  apply replace_newlines_join.
Qed.

End FileFacts.

Lemma getFileAtChangeset_name_witness :
  exists leaf,
    T "C:\tmp\vstfs-C7-A.cs"
    = simple_join (T "C:\tmp") (T "vstfs-C" ++ decimal 7 ++ T "-" ++ leaf) /\
    length leaf
    = length (simple_basename
                (toLocalPath simple_join (T "C:\ws") None (T "$/Proj/A.cs"))) /\
    forallb unreserved (T "vstfs-C" ++ decimal 7 ++ T "-" ++ leaf) = true.
Proof.
  exact (getFileAtChangeset_name tf_always_7 simple_join no_URL (T "C:\ws") None
           simple_basename (T "C:\tmp") [CR; LF] (T "$/Proj/A.cs") 7 []
           (T "C:\tmp\vstfs-C7-A.cs")
           (T "Changeset: 7" ++ [CR; LF] ++ T "User: bob")
           [Invoke Hidden (view_query (T "$/Proj/A.cs") 7)] eq_refl).
Defined.

Lemma getFileAtChangeset_content_witness :
  exists o,
    run tf_always_7 no_URL (T "C:\ws") None (view_query (T "$/Proj/A.cs") 7) []
    = (Ok o, [Invoke Hidden (view_query (T "$/Proj/A.cs") 7)]) /\
    T "Changeset: 7" ++ [CR; LF] ++ T "User: bob"
    = join [CR; LF] (lines_of (out_stdout o)).
Proof.
  exact (getFileAtChangeset_content tf_always_7 simple_join no_URL (T "C:\ws") None
           simple_basename (T "C:\tmp") [CR; LF] (T "$/Proj/A.cs") 7 []
           (T "C:\tmp\vstfs-C7-A.cs")
           (T "Changeset: 7" ++ [CR; LF] ++ T "User: bob")
           [Invoke Hidden (view_query (T "$/Proj/A.cs") 7)]
           (or_intror eq_refl) eq_refl).
Defined.

(** ** The changeset panel *)

(** *** [escapeHtml] character by character *)

Lemma replace_with_char c f : forall s sn,
  replace_scan_with (Chr c) f 0 sn s
  = flat_map (fun a => if c a then f [a] else [a]) s.
Proof.
  induction s as [| a s IH]; intros sn; simpl; [reflexivity |].
  unfold match_here. simpl matcher. destruct (c a); simpl seen; simpl length.
  - rewrite Nat.sub_succ_l, Nat.sub_diag by lia.
    unfold found_of, span. simpl seen. simpl length.
    rewrite Nat.sub_succ_l, Nat.sub_diag by lia. simpl.
    rewrite IH. reflexivity.
  - rewrite IH. reflexivity.
Qed.

Lemma escapeHtml_flat_map s : escapeHtml s = flat_map escape_char s.
Proof. unfold escapeHtml, replace_all_with. apply replace_with_char. Qed.

Lemma html_special_cases a :
  is_html_special a = true -> In a ["&"; "<"; ">"; DQUOTE; "'"].
Proof.
  unfold is_html_special. intros H. apply existsb_exists in H.
  destruct H as (c & Hc & H). apply is_char_eq in H. subst a. exact Hc.
Qed.

(** A character is written as itself or as one of the five entities,
    which begin with an ampersand and hold no other character of the
    set. *)
Lemma escape_char_cases a :
  (is_html_special a = false /\ escape_char a = [a]) \/
  (is_html_special a = true /\ In (escape_char a) entities /\
   exists e, escape_char a = "&" :: e /\
             forallb (fun b => negb (is_html_special b)) e = true).
Proof.
  destruct (is_html_special a) eqn:H.
  - right. split; [reflexivity |]. apply html_special_cases in H.
    destruct H as [<- | [<- | [<- | [<- | [<- | []]]]]];
      (split; [vm_compute; tauto | eexists; split; vm_compute; reflexivity]).
  - left. unfold escape_char. rewrite H. auto.
Qed.

(** The entity tells the character. *)
Lemma escape_char_inj a b x y :
  escape_char a ++ x = escape_char b ++ y -> a = b /\ x = y.
Proof.
  intros H.
  destruct (is_html_special a) eqn:Ha; destruct (is_html_special b) eqn:Hb.
  - apply html_special_cases in Ha, Hb.
    destruct Ha as [<- | [<- | [<- | [<- | [<- | []]]]]];
      destruct Hb as [<- | [<- | [<- | [<- | [<- | []]]]]];
      vm_compute in H; try discriminate; (split; [reflexivity | congruence]).
  - apply html_special_cases in Ha. unfold escape_char at 2 in H. rewrite Hb in H.
    destruct Ha as [<- | [<- | [<- | [<- | [<- | []]]]]];
      vm_compute in H; injection H as <- _; vm_compute in Hb; discriminate.
  - apply html_special_cases in Hb. unfold escape_char at 1 in H. rewrite Ha in H.
    destruct Hb as [<- | [<- | [<- | [<- | [<- | []]]]]];
      vm_compute in H; injection H as -> _; vm_compute in Ha; discriminate.
  - unfold escape_char in H. rewrite Ha, Hb in H. simpl in H.
    injection H as -> ->. auto.
Qed.

Lemma escapeHtml_app s t : escapeHtml (s ++ t) = escapeHtml s ++ escapeHtml t.
Proof. rewrite !escapeHtml_flat_map. apply flat_map_app. Qed.

Lemma escaped_ampersand : forall s pre post,
  flat_map escape_char s = pre ++ "&" :: post ->
  exists e rest, In e entities /\ "&" :: post = e ++ rest.
Proof.
  induction s as [| a s IH]; intros pre post H; simpl in H.
  - destruct pre; discriminate.
  - apply app_eq_app in H. destruct H as (l & [[Ha Hp] | [Ha Hp]]).
    + destruct l as [| c l].
      * simpl in Hp. apply (IH [] post). symmetry. exact Hp.
      * simpl in Hp. injection Hp as <- Hpost.
        destruct (escape_char_cases a) as [[Hs E] | (_ & Hin & e & E & He)].
        -- rewrite E in Ha. destruct pre as [| p pre].
           ++ injection Ha as -> _. vm_compute in Hs. discriminate.
           ++ destruct pre; discriminate.
        -- destruct pre as [| p pre].
           ++ exists (escape_char a), (flat_map escape_char s). split; [exact Hin |].
              rewrite Ha, Hpost. simpl. reflexivity.
           ++ rewrite E in Ha. simpl in Ha. injection Ha as _ Ha. subst e.
              rewrite forallb_app in He. apply andb_true_iff in He.
              destruct He as [_ He]. simpl in He. vm_compute in He. discriminate.
    + apply (IH l post). exact Hp.
Qed.

(** X29.  What [escapeHtml] returns holds no angle bracket, double quote or
    apostrophe, and every ampersand in it begins one of the five
    entities. *)
Theorem escapeHtml_markup_free s :
  Forall (fun a => is_html_special a = true -> a = "&") (escapeHtml s) /\
  (forall pre post,
     escapeHtml s = pre ++ "&" :: post ->
     exists e rest, In e entities /\ "&" :: post = e ++ rest).
Proof.
  rewrite escapeHtml_flat_map. split; [| apply escaped_ampersand].
  induction s as [| a s IH]; simpl; [constructor |].
  apply Forall_app. split; [| exact IH].
  destruct (escape_char_cases a) as [[Hs E] | (_ & _ & e & E & He)]; rewrite E.
  - constructor; [| constructor]. congruence.
  - constructor; [reflexivity |]. rewrite forallb_forall in He.
    apply Forall_forall. intros b Hb Hsp. specialize (He b Hb).
    rewrite Hsp in He. discriminate.
Qed.

(** X30.  [escapeHtml] loses nothing: texts with the same escape are the
    same. *)
Theorem escapeHtml_injective s t : escapeHtml s = escapeHtml t -> s = t.
Proof.
  rewrite !escapeHtml_flat_map. revert t.
  induction s as [| a s IH]; intros [| b t] H; simpl in H.
  - reflexivity.
  - destruct (escape_char_cases b) as [[_ E] | (_ & _ & e & E & _)];
      rewrite E in H; discriminate.
  - destruct (escape_char_cases a) as [[_ E] | (_ & _ & e & E & _)];
      rewrite E in H; discriminate.
  - apply escape_char_inj in H. destruct H as [-> H]. f_equal. apply IH, H.
Qed.

Lemma escapeHtml_injective_witness :
  escapeHtml (T "a<b") = escapeHtml (T "a<b") /\ T "a<b" = T "a<b".
Proof.
  split; [reflexivity |]. apply (escapeHtml_injective (T "a<b") (T "a<b")).
  reflexivity.
Defined.

(** The escape of a text put together from parts is put together from
    the escapes of the parts, and a text without a character of the
    set is its own escape. *)
Lemma escapeHtml_pieces s t :
  escapeHtml (s ++ t) = escapeHtml s ++ escapeHtml t /\
  (forallb (fun a => negb (is_html_special a)) s = true -> escapeHtml s = s).
Proof.
  split; [apply escapeHtml_app |]. rewrite escapeHtml_flat_map.
  induction s as [| a s IH]; cbn [flat_map forallb]; [reflexivity |].
  intros H. apply andb_true_iff in H. destruct H as [Ha Hs].
  rewrite IH by exact Hs. unfold escape_char.
  destruct (is_html_special a); [discriminate | reflexivity].
Qed.

(** ** The model on concrete inputs *)

(** The two parsing examples of the documentation. *)
Example pending_row_example :
  parsePending (T "Foo.cs     edit     C:\ws\Foo.cs")
  = [PendingItem (T "C:\ws\Foo.cs") (T "edit")].
Proof. vm_compute. reflexivity. Qed.

Example history_block_example :
  parseHistory
    (unlines [T "Changeset: 101"; T "User: alice"; T "Comment: fix bug";
              T "Items:"; T "  edit $/Proj/A.cs"])
  = [HistoryItem (Num 101) (T "alice") [] (T "fix bug")
       [FileChange (T "$/Proj/A.cs") (T "edit")]].
Proof. vm_compute. reflexivity. Qed.

(** A row without a local path is filed under the folder header
    before it; the closing count of TF.exe is no row. *)
Example pending_folder_example :
  parsePending
    (unlines [T "$/Proj/Dir"; T "Foo.cs   edit   relative\path"; T "3 change(s)"])
  = [PendingItem (T "$/Proj/Dir/Foo.cs") (T "edit")].
Proof. vm_compute. reflexivity. Qed.

(** A wrapped row: the name on one line, action and path on the next. *)
Example pending_fragment_example :
  parsePending (unlines [T "VeryLongName.cs"; T "  edit   C:\ws\x.cs"])
  = [PendingItem (T "C:\ws\x.cs") (T "edit")].
Proof. vm_compute. reflexivity. Qed.

Example pending_detailed_example :
  parsePendingDetailed
    (unlines [T "$/Proj/a.cs"; T "  User: x"; T "  Change: Edit"; T "";
              T "C:\ws\b.cs"; T "-----"; T " change: add"])
  = [PendingItem (T "$/Proj/a.cs") (T "edit")].
Proof. vm_compute. reflexivity. Qed.

(** Three blocks, the second without a Changeset line. *)
Example history_dropped_block_example :
  map changesetId
    (parseHistory
       (unlines [T "-------------------------------"; T "Changeset: 101";
                 T "User: alice"; T "-------------------------------";
                 T "User: nobody"; T "------"; T "changeset: 99"]))
  = [Num 101; Num 99].
Proof. vm_compute. reflexivity. Qed.

(** The separators of the matcher's callers on inputs whose results
    the language standard spells out. *)
Example split_examples :
  split re_newline (T "a" ++ [CR; LF] ++ T "b" ++ [LF]) = [T "a"; T "b"; []] /\
  split (star is_space) (T "a  b ") = [T "a"; T "b"; []] /\
  split Eps (T "ab") = [T "a"; T "b"] /\
  replace_all (star is_space) (T "-") (T "a b") = T "-a--b-" /\
  replace_all (star (is_char "a")) (T "-") (T "aaa") = T "--".
Proof. vm_compute. repeat split; reflexivity. Qed.

Example toLocalPath_examples :
  toLocalPath simple_join (T "C:\ws") config_with_server (T "$/Proj/Dir/A.cs;C12")
  = T "C:\ws\Dir\A.cs" /\
  toLocalPath simple_join (T "C:\ws") config_with_server (T "$/Other/A.cs;c12")
  = T "C:\ws\Other\A.cs" /\
  toLocalPath simple_join (T "C:\ws") config_with_server (T "rel/A.cs")
  = T "C:\ws\rel\A.cs" /\
  toLocalPath simple_join (T "C:\ws") config_with_server (T "D:\x\A.cs;C1")
  = T "D:\x\A.cs".
Proof. vm_compute. repeat split; reflexivity. Qed.

(** The detailed query fails, the brief one finds a row: two starts of
    TF.exe, and the row is the answer. *)
Example pendingChanges_example :
  pendingChanges
    (fun tr i =>
       match tr with
       | [] => Proc (Some (T "Error")) [] (T "TF10139: unknown format")
       | _ :: _ => Proc None (T "Foo.cs     edit     C:\ws\Foo.cs") []
       end)
    simple_join no_URL (T "C:\ws") None []
  = (Ok [PendingItem (T "C:\ws\Foo.cs") (T "edit")],
     [Invoke Hidden [T "status"; T "/recursive"; T "/format:detailed"];
      Invoke Hidden [T "status"; T "/recursive"; T "/format:brief"]]).
Proof. vm_compute. reflexivity. Qed.

(** The earlier changeset of a file: the greatest number below the
    current one; the second entry where none is below; nothing where
    no entry names the file. *)
Example getPreviousChangesetIdForFile_example :
  getPreviousChangesetIdForFile tf_history_5_3 no_URL (T "C:\ws") None
    simple_basename (T "$/Proj/A.cs") 5 []
  = (Ok (Some (Num 3)), [Invoke Hidden (previous_query (T "$/Proj/A.cs") 5)]) /\
  fst (getPreviousChangesetIdForFile tf_history_5_3 no_URL (T "C:\ws") None
         simple_basename (T "$/Proj/A.cs") 3 [])
  = Ok (Some (Num 3)) /\
  fst (getPreviousChangesetIdForFile tf_history_5_3 no_URL (T "C:\ws") None
         simple_basename (T "$/Proj/B.cs") 5 [])
  = Ok None.
Proof. vm_compute. repeat split; reflexivity. Qed.

(** The check-in goes on after a failed [add]. *)
Example checkIn_example :
  checkIn tf_no_add no_URL (T "C:\ws") None (T "fix") (Some [T "a.cs"]) []
  = (Ok tt,
     [Invoke Hidden [T "add"; T "."; T "/recursive"; T "/noprompt"];
      Invoke Hidden [T "checkin"; T "a.cs"; T "/comment:fix"; T "/noprompt"]]).
Proof. vm_compute. reflexivity. Qed.

(** A wrapped row of the table: the name on one line, the change and
    the local path on the next one. *)
Example pending_wrapped_row_example :
  parsePending (unlines [T "File name    Change    Local path";
                         T "PigButcherBossContro...";
                         T "             edit      C:\ws\Assets\PigButcherBossController.cs"])
  = [PendingItem (T "C:\ws\Assets\PigButcherBossController.cs") (T "edit")].
Proof. vm_compute. reflexivity. Qed.

(** The operations that only run a command, on a server that answers
    every query with the history of changeset 7. *)
Example operations_example :
  getLatest tf_always_7 no_URL (T "C:\ws") None (T ".") []
  = (Ok tt, [Invoke Hidden [T "get"; T "."; T "/recursive"]]) /\
  createBranch tf_always_7 no_URL (T "C:\ws") None (T "$/a") (T "$/b") []
  = (Ok tt, [Invoke Hidden [T "branch"; T "$/a"; T "$/b"; T "/recursive"]]) /\
  rollbackToChangeset tf_always_7 no_URL (T "C:\ws") None 12 []
  = (Ok tt, [Invoke Hidden [T "rollback"; T "/changeset:C12"]]) /\
  listBranches tf_always_7 no_URL (T "C:\ws") None []
  = (Ok [T "Changeset: 7"; T "User: bob"],
     [Invoke Hidden [T "branches"; T "C:\ws"]]) /\
  history tf_always_7 no_URL (T "C:\ws") None (T ".") 50 []
  = (Ok [HistoryItem (Num 7) (T "bob") [] [] []],
     [Invoke Hidden [T "history"; T "C:\ws"; T "/recursive"; T "/format:detailed";
                     T "/stopafter:50"; T "/noprompt"]]) /\
  snd (history tf_always_7 no_URL (T "C:\ws") None (T "$/Proj/A.cs") 100 [])
  = [Invoke Hidden [T "history"; T "$/Proj/A.cs"; T "/recursive"; T "/format:detailed";
                    T "/stopafter:100"; T "/noprompt"]].
Proof. vm_compute. repeat split; reflexivity. Qed.

Ltac by_looking :=
  let H := fresh in
  intros H; apply names_branch_iff in H; vm_compute in H; discriminate.

(** Rows in the regular shape: one with a blank in its name and two
    words in its change column, and one with a single blank before its
    change and four before its path. *)
Example regular_row_example :
  regular_row (T "My File.cs   merge, edit   C:\ws\My File.cs")
              (T "C:\ws\My File.cs") (T "merge") /\
  parsePending (T "My File.cs   merge, edit   C:\ws\My File.cs")
  = [PendingItem (T "C:\ws\My File.cs") (T "merge")] /\
  regular_row (T "Foo.cs add    C:\ws\Foo.cs") (T "C:\ws\Foo.cs") (T "add") /\
  parsePending (T "Foo.cs add    C:\ws\Foo.cs")
  = [PendingItem (T "C:\ws\Foo.cs") (T "add")].
Proof.
  split; [| split; [vm_compute; reflexivity | split; [| vm_compute; reflexivity]]].
  - exists (T "My File.cs"), (T "   "), (T "merge, edit"), (T "   ").
    split; [reflexivity |].
    split; [repeat split; discriminate |].
    split; [reflexivity |].
    split; [repeat split; try discriminate; by_looking |].
    split; [reflexivity |].
    split; [split; [exists "C"%char, (T "ws\My File.cs"); split; reflexivity
                   | split; reflexivity] |].
    left. simpl. lia.
  - exists (T "Foo.cs"), (T " "), (T "add"), (T "    ").
    split; [reflexivity |].
    split; [repeat split; discriminate |].
    split; [reflexivity |].
    split; [repeat split; try discriminate; by_looking |].
    split; [reflexivity |].
    split; [split; [exists "C"%char, (T "ws\Foo.cs"); split; reflexivity
                   | split; reflexivity] |].
    right. repeat split; simpl; lia.
Qed.

(** The table with wide gaps, read. *)
Example wide_table_example :
  parsePending (join [CR; LF] wide_table)
  = [PendingItem (T "C:\ws\Dir\Foo.cs") (T "edit");
     PendingItem (T "C:\ws\Dir\Bar.cs") (T "add")].
Proof. vm_compute. reflexivity. Qed.
